(** * alphaTab: the alphaTex importer

    A shallow embedding of [src/importer/AlphaTexImporter.ts]: the lexer
    ([nextChar], [newSy], [readName], [readNumber]), the recursive-descent
    parser ([metaData], [bars], [bar], [beat], [note], the effect tables,
    [barMeta]) and the document builder ([newTrack], [newBar],
    [consolidate]), written as an error/state monad over the importer's
    private fields.  The entity classes of the document model ([Score],
    [Track], [Staff], [Bar], [Voice], [Beat], [Note], [Chord], ...) are not
    part of the importer; they are given here as records together with the
    few container methods the importer calls on them. *)

From Stdlib Require Import ZArith Lia Ascii String DecimalString.
From Stdlib Require Import Sorting.Sorted Sorting.Permutation.
From stdpp Require Import base option list gmap strings.

Open Scope Z_scope.

(** ** Values of the host language *)

Module Js.

(** A [number].  The importer only ever produces integers (by [parseInt]),
    decimal fractions (by [parseFloat], tempo values) and [NaN] (a lone
    sign in negative-number mode).  [JFin m e] stands for [m * 10^-e]; it is
    kept exact, rounding to a binary double is not represented. *)
Inductive JsNum : Type :=
  | JNaN
  | JFin (m : Z) (e : nat).

Definition JInt (z : Z) : JsNum := JFin z 0.

#[global] Instance JsNum_eq_dec : EqDecision JsNum.
Proof. solve_decision. Defined.

(** Both operands brought to the same decimal scale. *)
Definition align (m1 : Z) (e1 : nat) (m2 : Z) (e2 : nat) : Z * Z * nat :=
  (m1 * 10 ^ Z.of_nat (e2 - e1), m2 * 10 ^ Z.of_nat (e1 - e2), Nat.max e1 e2).

Definition num_cmp (a b : JsNum) : option comparison :=
  match a, b with
  | JFin m1 e1, JFin m2 e2 =>
      let '(x, y, _) := align m1 e1 m2 e2 in Some (x ?= y)
  | _, _ => None
  end.

(** [a === b], [a < b], [a <= b], [a > b], [a >= b]: all false on [NaN]. *)
Definition num_eqb (a b : JsNum) : bool :=
  match num_cmp a b with Some Eq => true | _ => false end.
Definition num_ltb (a b : JsNum) : bool :=
  match num_cmp a b with Some Lt => true | _ => false end.
Definition num_leb (a b : JsNum) : bool :=
  match num_cmp a b with Some Lt | Some Eq => true | _ => false end.
Definition num_gtb (a b : JsNum) : bool := num_ltb b a.
Definition num_geb (a b : JsNum) : bool := num_leb b a.

Definition num_add (a b : JsNum) : JsNum :=
  match a, b with
  | JFin m1 e1, JFin m2 e2 =>
      let '(x, y, e) := align m1 e1 m2 e2 in JFin (x + y) e
  | _, _ => JNaN
  end.

Definition num_sub (a b : JsNum) : JsNum :=
  match a, b with
  | JFin m1 e1, JFin m2 e2 =>
      let '(x, y, e) := align m1 e1 m2 e2 in JFin (x - y) e
  | _, _ => JNaN
  end.

(** [ToInt32]: truncate towards zero, wrap modulo 2^32 into the signed
    range; [NaN] becomes 0. *)
Definition wrap32 (z : Z) : Z := (z + 2 ^ 31) mod 2 ^ 32 - 2 ^ 31.

Definition ToInt32 (a : JsNum) : Z :=
  match a with
  | JNaN => 0
  | JFin m e => wrap32 (Z.quot m (10 ^ Z.of_nat e))
  end.

(** [a << b] on numbers: the left operand as a 32-bit integer, the shift
    count taken modulo 32, the result again a signed 32-bit integer. *)
Definition shl32 (a b : JsNum) : Z :=
  wrap32 (Z.shiftl (ToInt32 a) (ToInt32 b mod 32)).

(** [a | b] on numbers. *)
Definition or32 (a b : Z) : Z := wrap32 (Z.lor (wrap32 a) (wrap32 b)).

(** [(a / b) | 0] for integers [a], [b]: the quotient truncated towards
    zero; a division by zero gives an infinity or [NaN], which [| 0] turns
    into 0. *)
Definition idiv0 (a b : Z) : Z :=
  if b =? 0 then 0 else wrap32 (Z.quot a b).

(** *** Strings *)

Definition charCode (c : ascii) : Z := Z.of_nat (nat_of_ascii c).
Definition fromCharCode (z : Z) : ascii := ascii_of_nat (Z.to_nat z).

Definition lowerChar (c : ascii) : ascii :=
  let n := charCode c in
  if (65 <=? n) && (n <=? 90) then fromCharCode (n + 32) else c.

(** [str.toLowerCase()].  Code units are bytes here; the keyword tables of
    the importer are ASCII, and only the letters A-Z are mapped. *)
Fixpoint toLowerCase (s : string) : string :=
  match s with
  | EmptyString => EmptyString
  | String c r => String (lowerChar c) (toLowerCase r)
  end.

Definition isDecDigit (c : ascii) : bool :=
  let n := charCode c in (48 <=? n) && (n <=? 57).

(** The longest prefix of decimal digits, as digit values, and the rest. *)
Fixpoint digitsPrefix (s : string) : list Z * string :=
  match s with
  | String c r =>
      if isDecDigit c then
        let '(ds, rest) := digitsPrefix r in (charCode c - 48 :: ds, rest)
      else ([], s)
  | EmptyString => ([], s)
  end.

Definition digitsValue (ds : list Z) : Z :=
  fold_left (fun acc d => 10 * acc + d) ds 0.

Definition splitSign (s : string) : bool * string :=
  match s with
  | String "-" r => (true, r)
  | String "+" r => (false, r)
  | _ => (false, s)
  end.

Definition signed (neg : bool) (z : Z) : Z := if neg then - z else z.

(** [parseInt(str)] in radix 10, for the strings the lexer hands over
    (signs, digits and dots; no leading blanks, no radix prefix). *)
Definition parseInt (s : string) : JsNum :=
  let '(neg, s1) := splitSign s in
  let '(ds, _) := digitsPrefix s1 in
  match ds with
  | [] => JNaN
  | _ => JInt (signed neg (digitsValue ds))
  end.

(** [parseFloat(str)] for the same strings: sign, digits, and an optional
    dot followed by digits. *)
Definition parseFloat (s : string) : JsNum :=
  let '(neg, s1) := splitSign s in
  let '(ip, rest) := digitsPrefix s1 in
  match rest with
  | String "." r =>
      let '(fp, _) := digitsPrefix r in
      match ip, fp with
      | [], [] => JNaN
      | _, _ => JFin (signed neg (digitsValue (ip ++ fp))) (length fp)
      end
  | _ =>
      match ip with
      | [] => JNaN
      | _ => JInt (signed neg (digitsValue ip))
      end
  end.

(** A number rendered in a string concatenation (indices only). *)
Definition natToString (n : nat) : string :=
  NilEmpty.string_of_uint (Nat.to_uint n).

(** [Array.prototype.sort(cmp)]: the language's sort is stable; for a
    comparator that is a total preorder every stable sort returns the same
    array, which is computed here by stable insertion.  [le a b] stands for
    [cmp(a, b) <= 0]. *)
Section Sort.
Context {A : Type} (le : A -> A -> bool).

Fixpoint insertSorted (x : A) (l : list A) : list A :=
  match l with
  | [] => [x]
  | y :: r => if le x y then x :: l else y :: insertSorted x r
  end.

Definition sort (l : list A) : list A :=
  fold_right insertSorted [] l.
End Sort.

End Js.

Export Js.

(** ** The document model

    The enumerations and entity classes the importer imports from
    [@src/model].  Each class is a module holding a record [t], the state
    of a freshly constructed object [new], and one setter per field. *)

(** A list of terminals recognized by the alphaTex-parser. *)
Inductive AlphaTexSymbols : Type :=
  | SyNo | SyEof | SyNumber | SyDoubleDot | SyDot | SyString | SyTuning
  | SyLParensis | SyRParensis | SyLBrace | SyRBrace | SyPipe
  | SyMetaCommand | SyMultiply | SyLowerThan.

#[global] Instance AlphaTexSymbols_eq_dec : EqDecision AlphaTexSymbols.
Proof. solve_decision. Defined.

Module Clef.
Inductive t : Type := Neutral | C3 | C4 | F4 | G2.
End Clef.

Module TripletFeel.
Inductive t : Type :=
  | NoTripletFeel | Triplet16th | Triplet8th | Dotted16th | Dotted8th
  | Scottish16th | Scottish8th.
End TripletFeel.

Module KeySignature.
Inductive t : Type :=
  | Cb | Gb | Db | Ab | Eb | Bb | F | C | G | D | A | E | B
  | FSharp | CSharp.
End KeySignature.

Module KeySignatureType.
Inductive t : Type := Major | Minor.
End KeySignatureType.

Module Duration.
Inductive t : Type :=
  | QuadrupleWhole | DoubleWhole | Whole | Half | Quarter | Eighth
  | Sixteenth | ThirtySecond | SixtyFourth | OneHundredTwentyEighth
  | TwoHundredFiftySixth.
End Duration.

Module DynamicValue.
Inductive t : Type := PPP | PP | P | MP | MF | F | FF | FFF.
End DynamicValue.

Module VibratoType.
Inductive t : Type := None | Slight | Wide.
End VibratoType.

Module PickStroke.
Inductive t : Type := None | Up | Down.
End PickStroke.

Module BrushType.
Inductive t : Type :=
  | None | BrushUp | BrushDown | ArpeggioUp | ArpeggioDown.
End BrushType.

Module GraceType.
Inductive t : Type := None | OnBeat | BeforeBeat | BendGrace.
End GraceType.

Module CrescendoType.
Inductive t : Type := None | Crescendo | Decrescendo.
End CrescendoType.

Module HarmonicType.
Inductive t : Type :=
  | None | Natural | Artificial | Pinch | Tap | Semi | Feedback.
End HarmonicType.

Module SlideInType.
Inductive t : Type := None | IntoFromBelow | IntoFromAbove.
End SlideInType.

Module SlideOutType.
Inductive t : Type :=
  | None | Shift | Legato | OutUp | OutDown | PickSlideDown | PickSlideUp.
End SlideOutType.

Module AccentuationType.
Inductive t : Type := None | Normal | Heavy.
End AccentuationType.

Module Fingers.
Inductive t : Type :=
  | Unknown | NoOrDead | Thumb | IndexFinger | MiddleFinger
  | AnnularFinger | LittleFinger.
End Fingers.

Module AutomationType.
Inductive t : Type := Tempo | Volume | Instrument | Balance.
End AutomationType.

(** References into the object store: beats and notes are objects that the
    parser keeps pointers to ([beat], [note], [note.beat]) and that
    [BeatCloner] copies, so they live in a store and are named by their
    position in it.  Tracks, staves, bars and voices are never shared; they
    are named by their index in the owning container. *)
Abbreviation BeatRef := nat (only parsing).
Abbreviation NoteRef := nat (only parsing).

Record BarRef : Type := mkBarRef {
  br_track : nat; br_staff : nat; br_bar : nat }.

Record VoiceRef : Type := mkVoiceRef {
  vr_bar : BarRef; vr_voice : nat }.

Record StaffRef : Type := mkStaffRef {
  sr_track : nat; sr_staff : nat }.

#[global] Instance StaffRef_eq_dec : EqDecision StaffRef.
Proof. solve_decision. Defined.

(** The result of [ModelUtils.parseTuning]. *)
Record TuningParseResult : Type := mkTuningParseResult {
  octave : Z; noteValue : Z; realValue : Z }.

(** The payload of a terminal ([_syData]). *)
Inductive SyData : Type :=
  | DStr (s : string)
  | DNum (n : JsNum)
  | DTuning (t : TuningParseResult).

(** A point of a bend or whammy-bar curve: [new BendPoint(offset, value)]. *)
Module BendPoint.
Record t : Type := mk {
  offset : JsNum;
  value : JsNum
}.

Definition set_offset (v : JsNum) (r : t) : t := mk v (value r).
Definition set_value (v : JsNum) (r : t) : t := mk (offset r) v.
End BendPoint.

(** An automation event (only tempo automations are created here). *)
Module Automation.
Record t : Type := mk {
  isLinear : bool;
  type : AutomationType.t;
  value : JsNum
}.

Definition new : t :=
  {| isLinear := false; type := AutomationType.Tempo; value := JInt 0 |}.

Definition set_isLinear (v : bool) (r : t) : t := mk v (type r) (value r).
Definition set_type (v : AutomationType.t) (r : t) : t := mk (isLinear r) v
  (value r).
Definition set_value (v : JsNum) (r : t) : t := mk (isLinear r) (type r) v.
End Automation.

(** A section marker of a master bar. *)
Module Section.
Record t : Type := mk {
  marker : string;
  text : string
}.

Definition new : t :=
  {| marker := ""; text := "" |}.

Definition set_marker (v : string) (r : t) : t := mk v (text r).
Definition set_text (v : string) (r : t) : t := mk (marker r) v.
End Section.

(** A chord shape bound to a staff. *)
Module Chord.
Record t : Type := mk {
  name : string;
  firstFret : JsNum;
  strings : list JsNum;
  barreFrets : list JsNum;
  showDiagram : bool;
  showFingering : bool;
  showName : bool
}.

Definition new : t :=
  {| name := ""; firstFret := JInt 1; strings := []; barreFrets := [];
    showDiagram := true; showFingering := true; showName := true |}.

Definition set_name (v : string) (r : t) : t := mk v (firstFret r) (strings
  r) (barreFrets r) (showDiagram r) (showFingering r) (showName r).
Definition set_firstFret (v : JsNum) (r : t) : t := mk (name r) v (strings
  r) (barreFrets r) (showDiagram r) (showFingering r) (showName r).
Definition set_strings (v : list JsNum) (r : t) : t := mk (name r)
  (firstFret r) v (barreFrets r) (showDiagram r) (showFingering r) (showName
  r).
Definition set_barreFrets (v : list JsNum) (r : t) : t := mk (name r)
  (firstFret r) (strings r) v (showDiagram r) (showFingering r) (showName
  r).
Definition set_showDiagram (v : bool) (r : t) : t := mk (name r) (firstFret
  r) (strings r) (barreFrets r) v (showFingering r) (showName r).
Definition set_showFingering (v : bool) (r : t) : t := mk (name r)
  (firstFret r) (strings r) (barreFrets r) (showDiagram r) v (showName r).
Definition set_showName (v : bool) (r : t) : t := mk (name r) (firstFret r)
  (strings r) (barreFrets r) (showDiagram r) (showFingering r) v.
End Chord.

(** A lyrics line of a track. *)
Module Lyrics.
Record t : Type := mk {
  startBar : JsNum;
  text : string
}.

Definition new : t :=
  {| startBar := JInt 0; text := "" |}.

Definition set_startBar (v : JsNum) (r : t) : t := mk v (text r).
Definition set_text (v : string) (r : t) : t := mk (startBar r) v.
End Lyrics.

(** The brush duration of a beat: either the ticks written in the input, or
    the share [playbackDuration / 4 / notes.length] (brush) or
    [playbackDuration / notes.length] (arpeggio) that the importer computes;
    the tick arithmetic of [updateDurations] is left symbolic. *)
Inductive BrushDuration : Type :=
  | BrushTicks (n : JsNum)
  | BrushShare (quarter : bool) (notes : nat).

(** A note; [beat] is the owning beat, set by [Beat.addNote]. *)
Module Note.
Record t : Type := mk {
  beat : option BeatRef;
  string : JsNum;
  fret : JsNum;
  isDead : bool;
  isTieDestination : bool;
  percussionArticulation : JsNum;
  octave : Z;
  tone : Z;
  bendPoints : option (list BendPoint.t);
  harmonicType : HarmonicType.t;
  trillValue : JsNum;
  trillSpeed : Duration.t;
  vibrato : VibratoType.t;
  slideInType : SlideInType.t;
  slideOutType : SlideOutType.t;
  isHammerPullOrigin : bool;
  isLeftHandTapped : bool;
  isGhost : bool;
  accentuated : AccentuationType.t;
  isPalmMute : bool;
  isStaccato : bool;
  isLetRing : bool;
  leftHandFinger : Fingers.t;
  rightHandFinger : Fingers.t
}.

Definition new : t :=
  {| beat := None; string := JInt (-1); fret := JInt (-1); isDead := false;
    isTieDestination := false; percussionArticulation := JInt (-1); octave
    := -1; tone := -1; bendPoints := None; harmonicType :=
    HarmonicType.None; trillValue := JInt (-1); trillSpeed :=
    Duration.ThirtySecond; vibrato := VibratoType.None; slideInType :=
    SlideInType.None; slideOutType := SlideOutType.None; isHammerPullOrigin
    := false; isLeftHandTapped := false; isGhost := false; accentuated :=
    AccentuationType.None; isPalmMute := false; isStaccato := false;
    isLetRing := false; leftHandFinger := Fingers.Unknown; rightHandFinger
    := Fingers.Unknown |}.

Definition set_beat (v : option BeatRef) (r : t) : t := mk v (string r)
  (fret r) (isDead r) (isTieDestination r) (percussionArticulation r)
  (octave r) (tone r) (bendPoints r) (harmonicType r) (trillValue r)
  (trillSpeed r) (vibrato r) (slideInType r) (slideOutType r)
  (isHammerPullOrigin r) (isLeftHandTapped r) (isGhost r) (accentuated r)
  (isPalmMute r) (isStaccato r) (isLetRing r) (leftHandFinger r)
  (rightHandFinger r).
Definition set_string (v : JsNum) (r : t) : t := mk (beat r) v (fret r)
  (isDead r) (isTieDestination r) (percussionArticulation r) (octave r)
  (tone r) (bendPoints r) (harmonicType r) (trillValue r) (trillSpeed r)
  (vibrato r) (slideInType r) (slideOutType r) (isHammerPullOrigin r)
  (isLeftHandTapped r) (isGhost r) (accentuated r) (isPalmMute r)
  (isStaccato r) (isLetRing r) (leftHandFinger r) (rightHandFinger r).
Definition set_fret (v : JsNum) (r : t) : t := mk (beat r) (string r) v
  (isDead r) (isTieDestination r) (percussionArticulation r) (octave r)
  (tone r) (bendPoints r) (harmonicType r) (trillValue r) (trillSpeed r)
  (vibrato r) (slideInType r) (slideOutType r) (isHammerPullOrigin r)
  (isLeftHandTapped r) (isGhost r) (accentuated r) (isPalmMute r)
  (isStaccato r) (isLetRing r) (leftHandFinger r) (rightHandFinger r).
Definition set_isDead (v : bool) (r : t) : t := mk (beat r) (string r) (fret
  r) v (isTieDestination r) (percussionArticulation r) (octave r) (tone r)
  (bendPoints r) (harmonicType r) (trillValue r) (trillSpeed r) (vibrato r)
  (slideInType r) (slideOutType r) (isHammerPullOrigin r) (isLeftHandTapped
  r) (isGhost r) (accentuated r) (isPalmMute r) (isStaccato r) (isLetRing r)
  (leftHandFinger r) (rightHandFinger r).
Definition set_isTieDestination (v : bool) (r : t) : t := mk (beat r)
  (string r) (fret r) (isDead r) v (percussionArticulation r) (octave r)
  (tone r) (bendPoints r) (harmonicType r) (trillValue r) (trillSpeed r)
  (vibrato r) (slideInType r) (slideOutType r) (isHammerPullOrigin r)
  (isLeftHandTapped r) (isGhost r) (accentuated r) (isPalmMute r)
  (isStaccato r) (isLetRing r) (leftHandFinger r) (rightHandFinger r).
Definition set_percussionArticulation (v : JsNum) (r : t) : t := mk (beat r)
  (string r) (fret r) (isDead r) (isTieDestination r) v (octave r) (tone r)
  (bendPoints r) (harmonicType r) (trillValue r) (trillSpeed r) (vibrato r)
  (slideInType r) (slideOutType r) (isHammerPullOrigin r) (isLeftHandTapped
  r) (isGhost r) (accentuated r) (isPalmMute r) (isStaccato r) (isLetRing r)
  (leftHandFinger r) (rightHandFinger r).
Definition set_octave (v : Z) (r : t) : t := mk (beat r) (string r) (fret r)
  (isDead r) (isTieDestination r) (percussionArticulation r) v (tone r)
  (bendPoints r) (harmonicType r) (trillValue r) (trillSpeed r) (vibrato r)
  (slideInType r) (slideOutType r) (isHammerPullOrigin r) (isLeftHandTapped
  r) (isGhost r) (accentuated r) (isPalmMute r) (isStaccato r) (isLetRing r)
  (leftHandFinger r) (rightHandFinger r).
Definition set_tone (v : Z) (r : t) : t := mk (beat r) (string r) (fret r)
  (isDead r) (isTieDestination r) (percussionArticulation r) (octave r) v
  (bendPoints r) (harmonicType r) (trillValue r) (trillSpeed r) (vibrato r)
  (slideInType r) (slideOutType r) (isHammerPullOrigin r) (isLeftHandTapped
  r) (isGhost r) (accentuated r) (isPalmMute r) (isStaccato r) (isLetRing r)
  (leftHandFinger r) (rightHandFinger r).
Definition set_bendPoints (v : option (list BendPoint.t)) (r : t) : t := mk
  (beat r) (string r) (fret r) (isDead r) (isTieDestination r)
  (percussionArticulation r) (octave r) (tone r) v (harmonicType r)
  (trillValue r) (trillSpeed r) (vibrato r) (slideInType r) (slideOutType r)
  (isHammerPullOrigin r) (isLeftHandTapped r) (isGhost r) (accentuated r)
  (isPalmMute r) (isStaccato r) (isLetRing r) (leftHandFinger r)
  (rightHandFinger r).
Definition set_harmonicType (v : HarmonicType.t) (r : t) : t := mk (beat r)
  (string r) (fret r) (isDead r) (isTieDestination r)
  (percussionArticulation r) (octave r) (tone r) (bendPoints r) v
  (trillValue r) (trillSpeed r) (vibrato r) (slideInType r) (slideOutType r)
  (isHammerPullOrigin r) (isLeftHandTapped r) (isGhost r) (accentuated r)
  (isPalmMute r) (isStaccato r) (isLetRing r) (leftHandFinger r)
  (rightHandFinger r).
Definition set_trillValue (v : JsNum) (r : t) : t := mk (beat r) (string r)
  (fret r) (isDead r) (isTieDestination r) (percussionArticulation r)
  (octave r) (tone r) (bendPoints r) (harmonicType r) v (trillSpeed r)
  (vibrato r) (slideInType r) (slideOutType r) (isHammerPullOrigin r)
  (isLeftHandTapped r) (isGhost r) (accentuated r) (isPalmMute r)
  (isStaccato r) (isLetRing r) (leftHandFinger r) (rightHandFinger r).
Definition set_trillSpeed (v : Duration.t) (r : t) : t := mk (beat r)
  (string r) (fret r) (isDead r) (isTieDestination r)
  (percussionArticulation r) (octave r) (tone r) (bendPoints r)
  (harmonicType r) (trillValue r) v (vibrato r) (slideInType r)
  (slideOutType r) (isHammerPullOrigin r) (isLeftHandTapped r) (isGhost r)
  (accentuated r) (isPalmMute r) (isStaccato r) (isLetRing r)
  (leftHandFinger r) (rightHandFinger r).
Definition set_vibrato (v : VibratoType.t) (r : t) : t := mk (beat r)
  (string r) (fret r) (isDead r) (isTieDestination r)
  (percussionArticulation r) (octave r) (tone r) (bendPoints r)
  (harmonicType r) (trillValue r) (trillSpeed r) v (slideInType r)
  (slideOutType r) (isHammerPullOrigin r) (isLeftHandTapped r) (isGhost r)
  (accentuated r) (isPalmMute r) (isStaccato r) (isLetRing r)
  (leftHandFinger r) (rightHandFinger r).
Definition set_slideInType (v : SlideInType.t) (r : t) : t := mk (beat r)
  (string r) (fret r) (isDead r) (isTieDestination r)
  (percussionArticulation r) (octave r) (tone r) (bendPoints r)
  (harmonicType r) (trillValue r) (trillSpeed r) (vibrato r) v (slideOutType
  r) (isHammerPullOrigin r) (isLeftHandTapped r) (isGhost r) (accentuated r)
  (isPalmMute r) (isStaccato r) (isLetRing r) (leftHandFinger r)
  (rightHandFinger r).
Definition set_slideOutType (v : SlideOutType.t) (r : t) : t := mk (beat r)
  (string r) (fret r) (isDead r) (isTieDestination r)
  (percussionArticulation r) (octave r) (tone r) (bendPoints r)
  (harmonicType r) (trillValue r) (trillSpeed r) (vibrato r) (slideInType r)
  v (isHammerPullOrigin r) (isLeftHandTapped r) (isGhost r) (accentuated r)
  (isPalmMute r) (isStaccato r) (isLetRing r) (leftHandFinger r)
  (rightHandFinger r).
Definition set_isHammerPullOrigin (v : bool) (r : t) : t := mk (beat r)
  (string r) (fret r) (isDead r) (isTieDestination r)
  (percussionArticulation r) (octave r) (tone r) (bendPoints r)
  (harmonicType r) (trillValue r) (trillSpeed r) (vibrato r) (slideInType r)
  (slideOutType r) v (isLeftHandTapped r) (isGhost r) (accentuated r)
  (isPalmMute r) (isStaccato r) (isLetRing r) (leftHandFinger r)
  (rightHandFinger r).
Definition set_isLeftHandTapped (v : bool) (r : t) : t := mk (beat r)
  (string r) (fret r) (isDead r) (isTieDestination r)
  (percussionArticulation r) (octave r) (tone r) (bendPoints r)
  (harmonicType r) (trillValue r) (trillSpeed r) (vibrato r) (slideInType r)
  (slideOutType r) (isHammerPullOrigin r) v (isGhost r) (accentuated r)
  (isPalmMute r) (isStaccato r) (isLetRing r) (leftHandFinger r)
  (rightHandFinger r).
Definition set_isGhost (v : bool) (r : t) : t := mk (beat r) (string r)
  (fret r) (isDead r) (isTieDestination r) (percussionArticulation r)
  (octave r) (tone r) (bendPoints r) (harmonicType r) (trillValue r)
  (trillSpeed r) (vibrato r) (slideInType r) (slideOutType r)
  (isHammerPullOrigin r) (isLeftHandTapped r) v (accentuated r) (isPalmMute
  r) (isStaccato r) (isLetRing r) (leftHandFinger r) (rightHandFinger r).
Definition set_accentuated (v : AccentuationType.t) (r : t) : t := mk (beat
  r) (string r) (fret r) (isDead r) (isTieDestination r)
  (percussionArticulation r) (octave r) (tone r) (bendPoints r)
  (harmonicType r) (trillValue r) (trillSpeed r) (vibrato r) (slideInType r)
  (slideOutType r) (isHammerPullOrigin r) (isLeftHandTapped r) (isGhost r) v
  (isPalmMute r) (isStaccato r) (isLetRing r) (leftHandFinger r)
  (rightHandFinger r).
Definition set_isPalmMute (v : bool) (r : t) : t := mk (beat r) (string r)
  (fret r) (isDead r) (isTieDestination r) (percussionArticulation r)
  (octave r) (tone r) (bendPoints r) (harmonicType r) (trillValue r)
  (trillSpeed r) (vibrato r) (slideInType r) (slideOutType r)
  (isHammerPullOrigin r) (isLeftHandTapped r) (isGhost r) (accentuated r) v
  (isStaccato r) (isLetRing r) (leftHandFinger r) (rightHandFinger r).
Definition set_isStaccato (v : bool) (r : t) : t := mk (beat r) (string r)
  (fret r) (isDead r) (isTieDestination r) (percussionArticulation r)
  (octave r) (tone r) (bendPoints r) (harmonicType r) (trillValue r)
  (trillSpeed r) (vibrato r) (slideInType r) (slideOutType r)
  (isHammerPullOrigin r) (isLeftHandTapped r) (isGhost r) (accentuated r)
  (isPalmMute r) v (isLetRing r) (leftHandFinger r) (rightHandFinger r).
Definition set_isLetRing (v : bool) (r : t) : t := mk (beat r) (string r)
  (fret r) (isDead r) (isTieDestination r) (percussionArticulation r)
  (octave r) (tone r) (bendPoints r) (harmonicType r) (trillValue r)
  (trillSpeed r) (vibrato r) (slideInType r) (slideOutType r)
  (isHammerPullOrigin r) (isLeftHandTapped r) (isGhost r) (accentuated r)
  (isPalmMute r) (isStaccato r) v (leftHandFinger r) (rightHandFinger r).
Definition set_leftHandFinger (v : Fingers.t) (r : t) : t := mk (beat r)
  (string r) (fret r) (isDead r) (isTieDestination r)
  (percussionArticulation r) (octave r) (tone r) (bendPoints r)
  (harmonicType r) (trillValue r) (trillSpeed r) (vibrato r) (slideInType r)
  (slideOutType r) (isHammerPullOrigin r) (isLeftHandTapped r) (isGhost r)
  (accentuated r) (isPalmMute r) (isStaccato r) (isLetRing r) v
  (rightHandFinger r).
Definition set_rightHandFinger (v : Fingers.t) (r : t) : t := mk (beat r)
  (string r) (fret r) (isDead r) (isTieDestination r)
  (percussionArticulation r) (octave r) (tone r) (bendPoints r)
  (harmonicType r) (trillValue r) (trillSpeed r) (vibrato r) (slideInType r)
  (slideOutType r) (isHammerPullOrigin r) (isLeftHandTapped r) (isGhost r)
  (accentuated r) (isPalmMute r) (isStaccato r) (isLetRing r)
  (leftHandFinger r) v.
End Note.

(** A beat; [voice] is the owning voice, set by [Voice.addBeat]. *)
Module Beat.
Record t : Type := mk {
  voice : option VoiceRef;
  notes : list NoteRef;
  isEmpty : bool;
  duration : Duration.t;
  dynamics : DynamicValue.t;
  tupletNumerator : Z;
  tupletDenominator : Z;
  fadeIn : bool;
  vibrato : VibratoType.t;
  slap : bool;
  pop : bool;
  tap : bool;
  dots : Z;
  pickStroke : PickStroke.t;
  whammyBarPoints : option (list BendPoint.t);
  brushType : BrushType.t;
  brushDuration : BrushDuration;
  chordId : option string;
  graceType : GraceType.t;
  crescendo : CrescendoType.t;
  automations : list Automation.t;
  tremoloSpeed : option Duration.t
}.

(** Modelled from the spec: the class [Beat] is not among the sources.  A
    fresh beat owns no notes and carries no effect; its empty flag is unset
    (the importer sets it itself on the beats it synthesises). *)
Definition new : t :=
  {| voice := None; notes := []; isEmpty := false; duration :=
    Duration.Quarter; dynamics := DynamicValue.F; tupletNumerator := -1;
    tupletDenominator := -1; fadeIn := false; vibrato := VibratoType.None;
    slap := false; pop := false; tap := false; dots := 0; pickStroke :=
    PickStroke.None; whammyBarPoints := None; brushType := BrushType.None;
    brushDuration := BrushTicks (JInt 0); chordId := None; graceType :=
    GraceType.None; crescendo := CrescendoType.None; automations := [];
    tremoloSpeed := None |}.

Definition set_voice (v : option VoiceRef) (r : t) : t := mk v (notes r)
  (isEmpty r) (duration r) (dynamics r) (tupletNumerator r)
  (tupletDenominator r) (fadeIn r) (vibrato r) (slap r) (pop r) (tap r)
  (dots r) (pickStroke r) (whammyBarPoints r) (brushType r) (brushDuration
  r) (chordId r) (graceType r) (crescendo r) (automations r) (tremoloSpeed
  r).
Definition set_notes (v : list NoteRef) (r : t) : t := mk (voice r) v
  (isEmpty r) (duration r) (dynamics r) (tupletNumerator r)
  (tupletDenominator r) (fadeIn r) (vibrato r) (slap r) (pop r) (tap r)
  (dots r) (pickStroke r) (whammyBarPoints r) (brushType r) (brushDuration
  r) (chordId r) (graceType r) (crescendo r) (automations r) (tremoloSpeed
  r).
Definition set_isEmpty (v : bool) (r : t) : t := mk (voice r) (notes r) v
  (duration r) (dynamics r) (tupletNumerator r) (tupletDenominator r)
  (fadeIn r) (vibrato r) (slap r) (pop r) (tap r) (dots r) (pickStroke r)
  (whammyBarPoints r) (brushType r) (brushDuration r) (chordId r) (graceType
  r) (crescendo r) (automations r) (tremoloSpeed r).
Definition set_duration (v : Duration.t) (r : t) : t := mk (voice r) (notes
  r) (isEmpty r) v (dynamics r) (tupletNumerator r) (tupletDenominator r)
  (fadeIn r) (vibrato r) (slap r) (pop r) (tap r) (dots r) (pickStroke r)
  (whammyBarPoints r) (brushType r) (brushDuration r) (chordId r) (graceType
  r) (crescendo r) (automations r) (tremoloSpeed r).
Definition set_dynamics (v : DynamicValue.t) (r : t) : t := mk (voice r)
  (notes r) (isEmpty r) (duration r) v (tupletNumerator r)
  (tupletDenominator r) (fadeIn r) (vibrato r) (slap r) (pop r) (tap r)
  (dots r) (pickStroke r) (whammyBarPoints r) (brushType r) (brushDuration
  r) (chordId r) (graceType r) (crescendo r) (automations r) (tremoloSpeed
  r).
Definition set_tupletNumerator (v : Z) (r : t) : t := mk (voice r) (notes r)
  (isEmpty r) (duration r) (dynamics r) v (tupletDenominator r) (fadeIn r)
  (vibrato r) (slap r) (pop r) (tap r) (dots r) (pickStroke r)
  (whammyBarPoints r) (brushType r) (brushDuration r) (chordId r) (graceType
  r) (crescendo r) (automations r) (tremoloSpeed r).
Definition set_tupletDenominator (v : Z) (r : t) : t := mk (voice r) (notes
  r) (isEmpty r) (duration r) (dynamics r) (tupletNumerator r) v (fadeIn r)
  (vibrato r) (slap r) (pop r) (tap r) (dots r) (pickStroke r)
  (whammyBarPoints r) (brushType r) (brushDuration r) (chordId r) (graceType
  r) (crescendo r) (automations r) (tremoloSpeed r).
Definition set_fadeIn (v : bool) (r : t) : t := mk (voice r) (notes r)
  (isEmpty r) (duration r) (dynamics r) (tupletNumerator r)
  (tupletDenominator r) v (vibrato r) (slap r) (pop r) (tap r) (dots r)
  (pickStroke r) (whammyBarPoints r) (brushType r) (brushDuration r)
  (chordId r) (graceType r) (crescendo r) (automations r) (tremoloSpeed r).
Definition set_vibrato (v : VibratoType.t) (r : t) : t := mk (voice r)
  (notes r) (isEmpty r) (duration r) (dynamics r) (tupletNumerator r)
  (tupletDenominator r) (fadeIn r) v (slap r) (pop r) (tap r) (dots r)
  (pickStroke r) (whammyBarPoints r) (brushType r) (brushDuration r)
  (chordId r) (graceType r) (crescendo r) (automations r) (tremoloSpeed r).
Definition set_slap (v : bool) (r : t) : t := mk (voice r) (notes r)
  (isEmpty r) (duration r) (dynamics r) (tupletNumerator r)
  (tupletDenominator r) (fadeIn r) (vibrato r) v (pop r) (tap r) (dots r)
  (pickStroke r) (whammyBarPoints r) (brushType r) (brushDuration r)
  (chordId r) (graceType r) (crescendo r) (automations r) (tremoloSpeed r).
Definition set_pop (v : bool) (r : t) : t := mk (voice r) (notes r) (isEmpty
  r) (duration r) (dynamics r) (tupletNumerator r) (tupletDenominator r)
  (fadeIn r) (vibrato r) (slap r) v (tap r) (dots r) (pickStroke r)
  (whammyBarPoints r) (brushType r) (brushDuration r) (chordId r) (graceType
  r) (crescendo r) (automations r) (tremoloSpeed r).
Definition set_tap (v : bool) (r : t) : t := mk (voice r) (notes r) (isEmpty
  r) (duration r) (dynamics r) (tupletNumerator r) (tupletDenominator r)
  (fadeIn r) (vibrato r) (slap r) (pop r) v (dots r) (pickStroke r)
  (whammyBarPoints r) (brushType r) (brushDuration r) (chordId r) (graceType
  r) (crescendo r) (automations r) (tremoloSpeed r).
Definition set_dots (v : Z) (r : t) : t := mk (voice r) (notes r) (isEmpty
  r) (duration r) (dynamics r) (tupletNumerator r) (tupletDenominator r)
  (fadeIn r) (vibrato r) (slap r) (pop r) (tap r) v (pickStroke r)
  (whammyBarPoints r) (brushType r) (brushDuration r) (chordId r) (graceType
  r) (crescendo r) (automations r) (tremoloSpeed r).
Definition set_pickStroke (v : PickStroke.t) (r : t) : t := mk (voice r)
  (notes r) (isEmpty r) (duration r) (dynamics r) (tupletNumerator r)
  (tupletDenominator r) (fadeIn r) (vibrato r) (slap r) (pop r) (tap r)
  (dots r) v (whammyBarPoints r) (brushType r) (brushDuration r) (chordId r)
  (graceType r) (crescendo r) (automations r) (tremoloSpeed r).
Definition set_whammyBarPoints (v : option (list BendPoint.t)) (r : t) : t
  := mk (voice r) (notes r) (isEmpty r) (duration r) (dynamics r)
  (tupletNumerator r) (tupletDenominator r) (fadeIn r) (vibrato r) (slap r)
  (pop r) (tap r) (dots r) (pickStroke r) v (brushType r) (brushDuration r)
  (chordId r) (graceType r) (crescendo r) (automations r) (tremoloSpeed r).
Definition set_brushType (v : BrushType.t) (r : t) : t := mk (voice r)
  (notes r) (isEmpty r) (duration r) (dynamics r) (tupletNumerator r)
  (tupletDenominator r) (fadeIn r) (vibrato r) (slap r) (pop r) (tap r)
  (dots r) (pickStroke r) (whammyBarPoints r) v (brushDuration r) (chordId
  r) (graceType r) (crescendo r) (automations r) (tremoloSpeed r).
Definition set_brushDuration (v : BrushDuration) (r : t) : t := mk (voice r)
  (notes r) (isEmpty r) (duration r) (dynamics r) (tupletNumerator r)
  (tupletDenominator r) (fadeIn r) (vibrato r) (slap r) (pop r) (tap r)
  (dots r) (pickStroke r) (whammyBarPoints r) (brushType r) v (chordId r)
  (graceType r) (crescendo r) (automations r) (tremoloSpeed r).
Definition set_chordId (v : option string) (r : t) : t := mk (voice r)
  (notes r) (isEmpty r) (duration r) (dynamics r) (tupletNumerator r)
  (tupletDenominator r) (fadeIn r) (vibrato r) (slap r) (pop r) (tap r)
  (dots r) (pickStroke r) (whammyBarPoints r) (brushType r) (brushDuration
  r) v (graceType r) (crescendo r) (automations r) (tremoloSpeed r).
Definition set_graceType (v : GraceType.t) (r : t) : t := mk (voice r)
  (notes r) (isEmpty r) (duration r) (dynamics r) (tupletNumerator r)
  (tupletDenominator r) (fadeIn r) (vibrato r) (slap r) (pop r) (tap r)
  (dots r) (pickStroke r) (whammyBarPoints r) (brushType r) (brushDuration
  r) (chordId r) v (crescendo r) (automations r) (tremoloSpeed r).
Definition set_crescendo (v : CrescendoType.t) (r : t) : t := mk (voice r)
  (notes r) (isEmpty r) (duration r) (dynamics r) (tupletNumerator r)
  (tupletDenominator r) (fadeIn r) (vibrato r) (slap r) (pop r) (tap r)
  (dots r) (pickStroke r) (whammyBarPoints r) (brushType r) (brushDuration
  r) (chordId r) (graceType r) v (automations r) (tremoloSpeed r).
Definition set_automations (v : list Automation.t) (r : t) : t := mk (voice
  r) (notes r) (isEmpty r) (duration r) (dynamics r) (tupletNumerator r)
  (tupletDenominator r) (fadeIn r) (vibrato r) (slap r) (pop r) (tap r)
  (dots r) (pickStroke r) (whammyBarPoints r) (brushType r) (brushDuration
  r) (chordId r) (graceType r) (crescendo r) v (tremoloSpeed r).
Definition set_tremoloSpeed (v : option Duration.t) (r : t) : t := mk (voice
  r) (notes r) (isEmpty r) (duration r) (dynamics r) (tupletNumerator r)
  (tupletDenominator r) (fadeIn r) (vibrato r) (slap r) (pop r) (tap r)
  (dots r) (pickStroke r) (whammyBarPoints r) (brushType r) (brushDuration
  r) (chordId r) (graceType r) (crescendo r) (automations r) v.
End Beat.

(** A voice of a bar. *)
Module Voice.
Record t : Type := mk {
  beats : list BeatRef
}.

Definition new : t :=
  {| beats := [] |}.

Definition set_beats (v : list BeatRef) (r : t) : t := mk v.
End Voice.

(** A bar of a staff. *)
Module Bar.
Record t : Type := mk {
  clef : Clef.t;
  voices : list Voice.t
}.

Definition new : t :=
  {| clef := Clef.G2; voices := [] |}.

Definition set_clef (v : Clef.t) (r : t) : t := mk v (voices r).
Definition set_voices (v : list Voice.t) (r : t) : t := mk (clef r) v.
End Bar.

(** A staff of a track; [tunings] is [stringTuning.tunings], which the getter
    [tuning] returns; an absent chord map and an empty one are the same to
    the importer. *)
Module Staff.
Record t : Type := mk {
  bars : list Bar.t;
  tunings : list Z;
  displayTranspositionPitch : Z;
  capo : JsNum;
  chords : gmap string Chord.t;
  isPercussion : bool;
  showTablature : bool;
  showStandardNotation : bool;
  showSlash : bool
}.

Definition new : t :=
  {| bars := []; tunings := []; displayTranspositionPitch := 0; capo := JInt
    0; chords := ∅; isPercussion := false; showTablature := true;
    showStandardNotation := true; showSlash := false |}.

Definition set_bars (v : list Bar.t) (r : t) : t := mk v (tunings r)
  (displayTranspositionPitch r) (capo r) (chords r) (isPercussion r)
  (showTablature r) (showStandardNotation r) (showSlash r).
Definition set_tunings (v : list Z) (r : t) : t := mk (bars r) v
  (displayTranspositionPitch r) (capo r) (chords r) (isPercussion r)
  (showTablature r) (showStandardNotation r) (showSlash r).
Definition set_displayTranspositionPitch (v : Z) (r : t) : t := mk (bars r)
  (tunings r) v (capo r) (chords r) (isPercussion r) (showTablature r)
  (showStandardNotation r) (showSlash r).
Definition set_capo (v : JsNum) (r : t) : t := mk (bars r) (tunings r)
  (displayTranspositionPitch r) v (chords r) (isPercussion r) (showTablature
  r) (showStandardNotation r) (showSlash r).
Definition set_chords (v : gmap string Chord.t) (r : t) : t := mk (bars r)
  (tunings r) (displayTranspositionPitch r) (capo r) v (isPercussion r)
  (showTablature r) (showStandardNotation r) (showSlash r).
Definition set_isPercussion (v : bool) (r : t) : t := mk (bars r) (tunings
  r) (displayTranspositionPitch r) (capo r) (chords r) v (showTablature r)
  (showStandardNotation r) (showSlash r).
Definition set_showTablature (v : bool) (r : t) : t := mk (bars r) (tunings
  r) (displayTranspositionPitch r) (capo r) (chords r) (isPercussion r) v
  (showStandardNotation r) (showSlash r).
Definition set_showStandardNotation (v : bool) (r : t) : t := mk (bars r)
  (tunings r) (displayTranspositionPitch r) (capo r) (chords r)
  (isPercussion r) (showTablature r) v (showSlash r).
Definition set_showSlash (v : bool) (r : t) : t := mk (bars r) (tunings r)
  (displayTranspositionPitch r) (capo r) (chords r) (isPercussion r)
  (showTablature r) (showStandardNotation r) v.
End Staff.

(** The playback settings of a track. *)
Module PlaybackInformation.
Record t : Type := mk {
  program : JsNum;
  primaryChannel : Z;
  secondaryChannel : Z
}.

Definition new : t :=
  {| program := JInt 0; primaryChannel := 0; secondaryChannel := 1 |}.

Definition set_program (v : JsNum) (r : t) : t := mk v (primaryChannel r)
  (secondaryChannel r).
Definition set_primaryChannel (v : Z) (r : t) : t := mk (program r) v
  (secondaryChannel r).
Definition set_secondaryChannel (v : Z) (r : t) : t := mk (program r)
  (primaryChannel r) v.
End PlaybackInformation.

(** A track of the score. *)
Module Track.
Record t : Type := mk {
  name : string;
  shortName : string;
  staves : list Staff.t;
  playbackInfo : PlaybackInformation.t
}.

Definition new : t :=
  {| name := ""; shortName := ""; staves := []; playbackInfo :=
    PlaybackInformation.new |}.

Definition set_name (v : string) (r : t) : t := mk v (shortName r) (staves
  r) (playbackInfo r).
Definition set_shortName (v : string) (r : t) : t := mk (name r) v (staves
  r) (playbackInfo r).
Definition set_staves (v : list Staff.t) (r : t) : t := mk (name r)
  (shortName r) v (playbackInfo r).
Definition set_playbackInfo (v : PlaybackInformation.t) (r : t) : t := mk
  (name r) (shortName r) (staves r) v.
End Track.

(** The bar-level data shared by all tracks at one bar index. *)
Module MasterBar.
Record t : Type := mk {
  keySignature : KeySignature.t;
  keySignatureType : KeySignatureType.t;
  timeSignatureNumerator : JsNum;
  timeSignatureDenominator : JsNum;
  tripletFeel : TripletFeel.t;
  isRepeatStart : bool;
  repeatCount : JsNum;
  alternateEndings : Z;
  tempoAutomations : list Automation.t;
  section : option Section.t;
  isAnacrusis : bool
}.

Definition new : t :=
  {| keySignature := KeySignature.C; keySignatureType :=
    KeySignatureType.Major; timeSignatureNumerator := JInt 4;
    timeSignatureDenominator := JInt 4; tripletFeel :=
    TripletFeel.NoTripletFeel; isRepeatStart := false; repeatCount := JInt
    0; alternateEndings := 0; tempoAutomations := []; section := None;
    isAnacrusis := false |}.

Definition set_keySignature (v : KeySignature.t) (r : t) : t := mk v
  (keySignatureType r) (timeSignatureNumerator r) (timeSignatureDenominator
  r) (tripletFeel r) (isRepeatStart r) (repeatCount r) (alternateEndings r)
  (tempoAutomations r) (section r) (isAnacrusis r).
Definition set_keySignatureType (v : KeySignatureType.t) (r : t) : t := mk
  (keySignature r) v (timeSignatureNumerator r) (timeSignatureDenominator r)
  (tripletFeel r) (isRepeatStart r) (repeatCount r) (alternateEndings r)
  (tempoAutomations r) (section r) (isAnacrusis r).
Definition set_timeSignatureNumerator (v : JsNum) (r : t) : t := mk
  (keySignature r) (keySignatureType r) v (timeSignatureDenominator r)
  (tripletFeel r) (isRepeatStart r) (repeatCount r) (alternateEndings r)
  (tempoAutomations r) (section r) (isAnacrusis r).
Definition set_timeSignatureDenominator (v : JsNum) (r : t) : t := mk
  (keySignature r) (keySignatureType r) (timeSignatureNumerator r) v
  (tripletFeel r) (isRepeatStart r) (repeatCount r) (alternateEndings r)
  (tempoAutomations r) (section r) (isAnacrusis r).
Definition set_tripletFeel (v : TripletFeel.t) (r : t) : t := mk
  (keySignature r) (keySignatureType r) (timeSignatureNumerator r)
  (timeSignatureDenominator r) v (isRepeatStart r) (repeatCount r)
  (alternateEndings r) (tempoAutomations r) (section r) (isAnacrusis r).
Definition set_isRepeatStart (v : bool) (r : t) : t := mk (keySignature r)
  (keySignatureType r) (timeSignatureNumerator r) (timeSignatureDenominator
  r) (tripletFeel r) v (repeatCount r) (alternateEndings r)
  (tempoAutomations r) (section r) (isAnacrusis r).
Definition set_repeatCount (v : JsNum) (r : t) : t := mk (keySignature r)
  (keySignatureType r) (timeSignatureNumerator r) (timeSignatureDenominator
  r) (tripletFeel r) (isRepeatStart r) v (alternateEndings r)
  (tempoAutomations r) (section r) (isAnacrusis r).
Definition set_alternateEndings (v : Z) (r : t) : t := mk (keySignature r)
  (keySignatureType r) (timeSignatureNumerator r) (timeSignatureDenominator
  r) (tripletFeel r) (isRepeatStart r) (repeatCount r) v (tempoAutomations
  r) (section r) (isAnacrusis r).
Definition set_tempoAutomations (v : list Automation.t) (r : t) : t := mk
  (keySignature r) (keySignatureType r) (timeSignatureNumerator r)
  (timeSignatureDenominator r) (tripletFeel r) (isRepeatStart r)
  (repeatCount r) (alternateEndings r) v (section r) (isAnacrusis r).
Definition set_section (v : option Section.t) (r : t) : t := mk
  (keySignature r) (keySignatureType r) (timeSignatureNumerator r)
  (timeSignatureDenominator r) (tripletFeel r) (isRepeatStart r)
  (repeatCount r) (alternateEndings r) (tempoAutomations r) v (isAnacrusis
  r).
Definition set_isAnacrusis (v : bool) (r : t) : t := mk (keySignature r)
  (keySignatureType r) (timeSignatureNumerator r) (timeSignatureDenominator
  r) (tripletFeel r) (isRepeatStart r) (repeatCount r) (alternateEndings r)
  (tempoAutomations r) (section r) v.
End MasterBar.

(** The score: global metadata, tracks and master bars. *)
Module Score.
Record t : Type := mk {
  title : string;
  subTitle : string;
  artist : string;
  album : string;
  words : string;
  music : string;
  copyright : string;
  tempo : JsNum;
  tempoLabel : string;
  tracks : list Track.t;
  masterBars : list MasterBar.t
}.

Definition new : t :=
  {| title := ""; subTitle := ""; artist := ""; album := ""; words := "";
    music := ""; copyright := ""; tempo := JInt 120; tempoLabel := "";
    tracks := []; masterBars := [] |}.

Definition set_title (v : string) (r : t) : t := mk v (subTitle r) (artist
  r) (album r) (words r) (music r) (copyright r) (tempo r) (tempoLabel r)
  (tracks r) (masterBars r).
Definition set_subTitle (v : string) (r : t) : t := mk (title r) v (artist
  r) (album r) (words r) (music r) (copyright r) (tempo r) (tempoLabel r)
  (tracks r) (masterBars r).
Definition set_artist (v : string) (r : t) : t := mk (title r) (subTitle r)
  v (album r) (words r) (music r) (copyright r) (tempo r) (tempoLabel r)
  (tracks r) (masterBars r).
Definition set_album (v : string) (r : t) : t := mk (title r) (subTitle r)
  (artist r) v (words r) (music r) (copyright r) (tempo r) (tempoLabel r)
  (tracks r) (masterBars r).
Definition set_words (v : string) (r : t) : t := mk (title r) (subTitle r)
  (artist r) (album r) v (music r) (copyright r) (tempo r) (tempoLabel r)
  (tracks r) (masterBars r).
Definition set_music (v : string) (r : t) : t := mk (title r) (subTitle r)
  (artist r) (album r) (words r) v (copyright r) (tempo r) (tempoLabel r)
  (tracks r) (masterBars r).
Definition set_copyright (v : string) (r : t) : t := mk (title r) (subTitle
  r) (artist r) (album r) (words r) (music r) v (tempo r) (tempoLabel r)
  (tracks r) (masterBars r).
Definition set_tempo (v : JsNum) (r : t) : t := mk (title r) (subTitle r)
  (artist r) (album r) (words r) (music r) (copyright r) v (tempoLabel r)
  (tracks r) (masterBars r).
Definition set_tempoLabel (v : string) (r : t) : t := mk (title r) (subTitle
  r) (artist r) (album r) (words r) (music r) (copyright r) (tempo r) v
  (tracks r) (masterBars r).
Definition set_tracks (v : list Track.t) (r : t) : t := mk (title r)
  (subTitle r) (artist r) (album r) (words r) (music r) (copyright r) (tempo
  r) (tempoLabel r) v (masterBars r).
Definition set_masterBars (v : list MasterBar.t) (r : t) : t := mk (title r)
  (subTitle r) (artist r) (album r) (words r) (music r) (copyright r) (tempo
  r) (tempoLabel r) (tracks r) v.
End Score.

(** ** The importer

    The private fields of [AlphaTexImporter], together with the object
    store ([beatStore], [noteStore]) that holds the beats and notes created
    so far.  [_currentTrack] and [_currentStaff] are references into
    [_score]. *)
Record Importer : Type := mkImporter {
  _trackChannel : Z;
  _score : Score.t;
  beatStore : list Beat.t;
  noteStore : list Note.t;
  _currentTrack : nat;
  _currentStaff : StaffRef;
  _input : string;
  _ch : Z;
  _curChPos : nat;
  _line : nat;
  _col : nat;
  _lastValidSpot : nat * nat * nat;
  _sy : AlphaTexSymbols;
  _syData : SyData;
  _allowNegatives : bool;
  _allowFloat : bool;
  _allowTuning : bool;
  _currentDuration : Duration.t;
  _currentDynamics : DynamicValue.t;
  _currentTuplet : JsNum;
  _lyrics : gmap nat (list Lyrics.t);
  _staffHasExplicitTuning : bool;
  _staffTuningApplied : bool;
  _percussionArticulationNames : gmap string JsNum
}.

Definition set__trackChannel (v : Z) (r : Importer) : Importer := mkImporter v
  (_score r) (beatStore r) (noteStore r) (_currentTrack r) (_currentStaff r)
  (_input r) (_ch r) (_curChPos r) (_line r) (_col r) (_lastValidSpot r) (_sy
  r) (_syData r) (_allowNegatives r) (_allowFloat r) (_allowTuning r)
  (_currentDuration r) (_currentDynamics r) (_currentTuplet r) (_lyrics r)
  (_staffHasExplicitTuning r) (_staffTuningApplied r)
  (_percussionArticulationNames r).
Definition set__score (v : Score.t) (r : Importer) : Importer := mkImporter
  (_trackChannel r) v (beatStore r) (noteStore r) (_currentTrack r)
  (_currentStaff r) (_input r) (_ch r) (_curChPos r) (_line r) (_col r)
  (_lastValidSpot r) (_sy r) (_syData r) (_allowNegatives r) (_allowFloat r)
  (_allowTuning r) (_currentDuration r) (_currentDynamics r) (_currentTuplet
  r) (_lyrics r) (_staffHasExplicitTuning r) (_staffTuningApplied r)
  (_percussionArticulationNames r).
Definition set_beatStore (v : list Beat.t) (r : Importer) : Importer :=
  mkImporter (_trackChannel r) (_score r) v (noteStore r) (_currentTrack r)
  (_currentStaff r) (_input r) (_ch r) (_curChPos r) (_line r) (_col r)
  (_lastValidSpot r) (_sy r) (_syData r) (_allowNegatives r) (_allowFloat r)
  (_allowTuning r) (_currentDuration r) (_currentDynamics r) (_currentTuplet
  r) (_lyrics r) (_staffHasExplicitTuning r) (_staffTuningApplied r)
  (_percussionArticulationNames r).
Definition set_noteStore (v : list Note.t) (r : Importer) : Importer :=
  mkImporter (_trackChannel r) (_score r) (beatStore r) v (_currentTrack r)
  (_currentStaff r) (_input r) (_ch r) (_curChPos r) (_line r) (_col r)
  (_lastValidSpot r) (_sy r) (_syData r) (_allowNegatives r) (_allowFloat r)
  (_allowTuning r) (_currentDuration r) (_currentDynamics r) (_currentTuplet
  r) (_lyrics r) (_staffHasExplicitTuning r) (_staffTuningApplied r)
  (_percussionArticulationNames r).
Definition set__currentTrack (v : nat) (r : Importer) : Importer := mkImporter
  (_trackChannel r) (_score r) (beatStore r) (noteStore r) v (_currentStaff r)
  (_input r) (_ch r) (_curChPos r) (_line r) (_col r) (_lastValidSpot r) (_sy
  r) (_syData r) (_allowNegatives r) (_allowFloat r) (_allowTuning r)
  (_currentDuration r) (_currentDynamics r) (_currentTuplet r) (_lyrics r)
  (_staffHasExplicitTuning r) (_staffTuningApplied r)
  (_percussionArticulationNames r).
Definition set__currentStaff (v : StaffRef) (r : Importer) : Importer :=
  mkImporter (_trackChannel r) (_score r) (beatStore r) (noteStore r)
  (_currentTrack r) v (_input r) (_ch r) (_curChPos r) (_line r) (_col r)
  (_lastValidSpot r) (_sy r) (_syData r) (_allowNegatives r) (_allowFloat r)
  (_allowTuning r) (_currentDuration r) (_currentDynamics r) (_currentTuplet
  r) (_lyrics r) (_staffHasExplicitTuning r) (_staffTuningApplied r)
  (_percussionArticulationNames r).
Definition set__input (v : string) (r : Importer) : Importer := mkImporter
  (_trackChannel r) (_score r) (beatStore r) (noteStore r) (_currentTrack r)
  (_currentStaff r) v (_ch r) (_curChPos r) (_line r) (_col r) (_lastValidSpot
  r) (_sy r) (_syData r) (_allowNegatives r) (_allowFloat r) (_allowTuning r)
  (_currentDuration r) (_currentDynamics r) (_currentTuplet r) (_lyrics r)
  (_staffHasExplicitTuning r) (_staffTuningApplied r)
  (_percussionArticulationNames r).
Definition set__ch (v : Z) (r : Importer) : Importer := mkImporter
  (_trackChannel r) (_score r) (beatStore r) (noteStore r) (_currentTrack r)
  (_currentStaff r) (_input r) v (_curChPos r) (_line r) (_col r)
  (_lastValidSpot r) (_sy r) (_syData r) (_allowNegatives r) (_allowFloat r)
  (_allowTuning r) (_currentDuration r) (_currentDynamics r) (_currentTuplet
  r) (_lyrics r) (_staffHasExplicitTuning r) (_staffTuningApplied r)
  (_percussionArticulationNames r).
Definition set__curChPos (v : nat) (r : Importer) : Importer := mkImporter
  (_trackChannel r) (_score r) (beatStore r) (noteStore r) (_currentTrack r)
  (_currentStaff r) (_input r) (_ch r) v (_line r) (_col r) (_lastValidSpot r)
  (_sy r) (_syData r) (_allowNegatives r) (_allowFloat r) (_allowTuning r)
  (_currentDuration r) (_currentDynamics r) (_currentTuplet r) (_lyrics r)
  (_staffHasExplicitTuning r) (_staffTuningApplied r)
  (_percussionArticulationNames r).
Definition set__line (v : nat) (r : Importer) : Importer := mkImporter
  (_trackChannel r) (_score r) (beatStore r) (noteStore r) (_currentTrack r)
  (_currentStaff r) (_input r) (_ch r) (_curChPos r) v (_col r)
  (_lastValidSpot r) (_sy r) (_syData r) (_allowNegatives r) (_allowFloat r)
  (_allowTuning r) (_currentDuration r) (_currentDynamics r) (_currentTuplet
  r) (_lyrics r) (_staffHasExplicitTuning r) (_staffTuningApplied r)
  (_percussionArticulationNames r).
Definition set__col (v : nat) (r : Importer) : Importer := mkImporter
  (_trackChannel r) (_score r) (beatStore r) (noteStore r) (_currentTrack r)
  (_currentStaff r) (_input r) (_ch r) (_curChPos r) (_line r) v
  (_lastValidSpot r) (_sy r) (_syData r) (_allowNegatives r) (_allowFloat r)
  (_allowTuning r) (_currentDuration r) (_currentDynamics r) (_currentTuplet
  r) (_lyrics r) (_staffHasExplicitTuning r) (_staffTuningApplied r)
  (_percussionArticulationNames r).
Definition set__lastValidSpot (v : nat * nat * nat) (r : Importer) : Importer
  := mkImporter (_trackChannel r) (_score r) (beatStore r) (noteStore r)
  (_currentTrack r) (_currentStaff r) (_input r) (_ch r) (_curChPos r) (_line
  r) (_col r) v (_sy r) (_syData r) (_allowNegatives r) (_allowFloat r)
  (_allowTuning r) (_currentDuration r) (_currentDynamics r) (_currentTuplet
  r) (_lyrics r) (_staffHasExplicitTuning r) (_staffTuningApplied r)
  (_percussionArticulationNames r).
Definition set__sy (v : AlphaTexSymbols) (r : Importer) : Importer :=
  mkImporter (_trackChannel r) (_score r) (beatStore r) (noteStore r)
  (_currentTrack r) (_currentStaff r) (_input r) (_ch r) (_curChPos r) (_line
  r) (_col r) (_lastValidSpot r) v (_syData r) (_allowNegatives r)
  (_allowFloat r) (_allowTuning r) (_currentDuration r) (_currentDynamics r)
  (_currentTuplet r) (_lyrics r) (_staffHasExplicitTuning r)
  (_staffTuningApplied r) (_percussionArticulationNames r).
Definition set__syData (v : SyData) (r : Importer) : Importer := mkImporter
  (_trackChannel r) (_score r) (beatStore r) (noteStore r) (_currentTrack r)
  (_currentStaff r) (_input r) (_ch r) (_curChPos r) (_line r) (_col r)
  (_lastValidSpot r) (_sy r) v (_allowNegatives r) (_allowFloat r)
  (_allowTuning r) (_currentDuration r) (_currentDynamics r) (_currentTuplet
  r) (_lyrics r) (_staffHasExplicitTuning r) (_staffTuningApplied r)
  (_percussionArticulationNames r).
Definition set__allowNegatives (v : bool) (r : Importer) : Importer :=
  mkImporter (_trackChannel r) (_score r) (beatStore r) (noteStore r)
  (_currentTrack r) (_currentStaff r) (_input r) (_ch r) (_curChPos r) (_line
  r) (_col r) (_lastValidSpot r) (_sy r) (_syData r) v (_allowFloat r)
  (_allowTuning r) (_currentDuration r) (_currentDynamics r) (_currentTuplet
  r) (_lyrics r) (_staffHasExplicitTuning r) (_staffTuningApplied r)
  (_percussionArticulationNames r).
Definition set__allowFloat (v : bool) (r : Importer) : Importer := mkImporter
  (_trackChannel r) (_score r) (beatStore r) (noteStore r) (_currentTrack r)
  (_currentStaff r) (_input r) (_ch r) (_curChPos r) (_line r) (_col r)
  (_lastValidSpot r) (_sy r) (_syData r) (_allowNegatives r) v (_allowTuning
  r) (_currentDuration r) (_currentDynamics r) (_currentTuplet r) (_lyrics r)
  (_staffHasExplicitTuning r) (_staffTuningApplied r)
  (_percussionArticulationNames r).
Definition set__allowTuning (v : bool) (r : Importer) : Importer := mkImporter
  (_trackChannel r) (_score r) (beatStore r) (noteStore r) (_currentTrack r)
  (_currentStaff r) (_input r) (_ch r) (_curChPos r) (_line r) (_col r)
  (_lastValidSpot r) (_sy r) (_syData r) (_allowNegatives r) (_allowFloat r) v
  (_currentDuration r) (_currentDynamics r) (_currentTuplet r) (_lyrics r)
  (_staffHasExplicitTuning r) (_staffTuningApplied r)
  (_percussionArticulationNames r).
Definition set__currentDuration (v : Duration.t) (r : Importer) : Importer :=
  mkImporter (_trackChannel r) (_score r) (beatStore r) (noteStore r)
  (_currentTrack r) (_currentStaff r) (_input r) (_ch r) (_curChPos r) (_line
  r) (_col r) (_lastValidSpot r) (_sy r) (_syData r) (_allowNegatives r)
  (_allowFloat r) (_allowTuning r) v (_currentDynamics r) (_currentTuplet r)
  (_lyrics r) (_staffHasExplicitTuning r) (_staffTuningApplied r)
  (_percussionArticulationNames r).
Definition set__currentDynamics (v : DynamicValue.t) (r : Importer) : Importer
  := mkImporter (_trackChannel r) (_score r) (beatStore r) (noteStore r)
  (_currentTrack r) (_currentStaff r) (_input r) (_ch r) (_curChPos r) (_line
  r) (_col r) (_lastValidSpot r) (_sy r) (_syData r) (_allowNegatives r)
  (_allowFloat r) (_allowTuning r) (_currentDuration r) v (_currentTuplet r)
  (_lyrics r) (_staffHasExplicitTuning r) (_staffTuningApplied r)
  (_percussionArticulationNames r).
Definition set__currentTuplet (v : JsNum) (r : Importer) : Importer :=
  mkImporter (_trackChannel r) (_score r) (beatStore r) (noteStore r)
  (_currentTrack r) (_currentStaff r) (_input r) (_ch r) (_curChPos r) (_line
  r) (_col r) (_lastValidSpot r) (_sy r) (_syData r) (_allowNegatives r)
  (_allowFloat r) (_allowTuning r) (_currentDuration r) (_currentDynamics r) v
  (_lyrics r) (_staffHasExplicitTuning r) (_staffTuningApplied r)
  (_percussionArticulationNames r).
Definition set__lyrics (v : gmap nat (list Lyrics.t)) (r : Importer) :
  Importer := mkImporter (_trackChannel r) (_score r) (beatStore r) (noteStore
  r) (_currentTrack r) (_currentStaff r) (_input r) (_ch r) (_curChPos r)
  (_line r) (_col r) (_lastValidSpot r) (_sy r) (_syData r) (_allowNegatives
  r) (_allowFloat r) (_allowTuning r) (_currentDuration r) (_currentDynamics
  r) (_currentTuplet r) v (_staffHasExplicitTuning r) (_staffTuningApplied r)
  (_percussionArticulationNames r).
Definition set__staffHasExplicitTuning (v : bool) (r : Importer) : Importer :=
  mkImporter (_trackChannel r) (_score r) (beatStore r) (noteStore r)
  (_currentTrack r) (_currentStaff r) (_input r) (_ch r) (_curChPos r) (_line
  r) (_col r) (_lastValidSpot r) (_sy r) (_syData r) (_allowNegatives r)
  (_allowFloat r) (_allowTuning r) (_currentDuration r) (_currentDynamics r)
  (_currentTuplet r) (_lyrics r) v (_staffTuningApplied r)
  (_percussionArticulationNames r).
Definition set__staffTuningApplied (v : bool) (r : Importer) : Importer :=
  mkImporter (_trackChannel r) (_score r) (beatStore r) (noteStore r)
  (_currentTrack r) (_currentStaff r) (_input r) (_ch r) (_curChPos r) (_line
  r) (_col r) (_lastValidSpot r) (_sy r) (_syData r) (_allowNegatives r)
  (_allowFloat r) (_allowTuning r) (_currentDuration r) (_currentDynamics r)
  (_currentTuplet r) (_lyrics r) (_staffHasExplicitTuning r) v
  (_percussionArticulationNames r).
Definition set__percussionArticulationNames (v : gmap string JsNum) (r :
  Importer) : Importer := mkImporter (_trackChannel r) (_score r) (beatStore
  r) (noteStore r) (_currentTrack r) (_currentStaff r) (_input r) (_ch r)
  (_curChPos r) (_line r) (_col r) (_lastValidSpot r) (_sy r) (_syData r)
  (_allowNegatives r) (_allowFloat r) (_allowTuning r) (_currentDuration r)
  (_currentDynamics r) (_currentTuplet r) (_lyrics r) (_staffHasExplicitTuning
  r) (_staffTuningApplied r) v.

(** *** Errors

    [AlphaTexError] carries the last valid spot, the grammar production,
    the expected and the received terminal and, for terminals that have
    one, the payload.  The rendered message text is determined by these
    fields and is not kept, except for the free-form messages of
    [errorMessage]. *)
Inductive Message : Type :=
  | MsgText (text : string)
  | MsgUnknownArticulation (number : JsNum)
  | MsgUnknownPercussionArticulation (data : SyData).

Inductive AlphaTexError : Type :=
  | SymbolError (position line col : nat) (nonTerm : string)
      (expected symbol : AlphaTexSymbols) (symbolData : option SyData)
  | MessageError (message : Message) (position line col : nat).

(** What [readScore] can throw: an [AlphaTexError] (inside the parser), the
    [UnsupportedFormatError] it is converted to at the boundary, or the
    host's [TypeError] when a method is called on a value of the wrong
    kind or on a missing object. *)
Inductive Exn : Type :=
  | ExAlphaTex (e : AlphaTexError)
  | ExUnsupportedFormat (message : string)
  | ExUnsupportedFormatOf (inner : AlphaTexError)
  | ExTypeError.

(** The outcome of running a piece of the importer: a value and the new
    state, an exception, or an exhausted iteration bound (see [fuelOf]). *)
Inductive Res (A : Type) : Type :=
  | Ok (a : A) (s : Importer)
  | Throw (e : Exn)
  | OutOfFuel.
Arguments Ok {A} a s.
Arguments Throw {A} e.
Arguments OutOfFuel {A}.

Definition M (A : Type) : Type := Importer -> Res A.

Definition ret {A} (a : A) : M A := fun s => Ok a s.

Definition bind {A B} (m : M A) (k : A -> M B) : M B :=
  fun s =>
    match m s with
    | Ok a s' => k a s'
    | Throw e => Throw e
    | OutOfFuel => OutOfFuel
    end.

Declare Scope imp_scope.
Delimit Scope imp_scope with imp.
Notation "x <- m ;; k" := (bind m (fun x => k))
  (at level 100, m at next level, right associativity) : imp_scope.
Notation "m ;; k" := (bind m (fun _ => k))
  (at level 100, right associativity) : imp_scope.
Open Scope imp_scope.

Definition gets {A} (f : Importer -> A) : M A := fun s => Ok (f s) s.
Definition modify (f : Importer -> Importer) : M unit := fun s => Ok tt (f s).
Definition throw {A} (e : Exn) : M A := fun _ => Throw e.

(** Dereferencing: a missing object is the host's [TypeError]. *)
Definition deref {A} (o : option A) : M A :=
  match o with
  | Some a => ret a
  | None => throw ExTypeError
  end.

Definition when (b : bool) (m : M unit) : M unit :=
  if b then m else ret tt.

(** Loops.  [loopM fuel step a] runs [step] from the loop variables [a]
    until it answers [false]; at most [fuel] iterations. *)
Fixpoint loopM {A} (fuel : nat) (step : A -> M (bool * A)) (a : A) : M A :=
  match fuel with
  | O => fun _ => OutOfFuel
  | S fuel' =>
      r <- step a ;;
      if r.1 then loopM fuel' step r.2 else ret r.2
  end.

(** Every iteration of a loop of the lexer or of the parser either reads
    at least one character of the input or is the last one, so the number
    of characters left bounds the number of iterations: the character in
    [_ch], the characters that are not read yet, one iteration that meets
    the end of the input, and the last test of the condition. *)
Definition fuelOf (s : Importer) : nat :=
  S (S (S (String.length (_input s) - _curChPos s))).

(** [while (cond) { body }] *)
Definition while (cond : Importer -> bool) (body : M unit) : M unit :=
  fun s =>
    loopM (fuelOf s)
      (fun _ => c <- gets cond ;; if c then body ;; ret (true, tt) else ret (false, tt))
      tt s.

(** [while (cond) { if (!body()) break; }] *)
Definition whileBreak (cond : Importer -> bool) (body : M bool) : M unit :=
  fun s =>
    loopM (fuelOf s)
      (fun _ => c <- gets cond ;;
                if c then b <- body ;; ret (b, tt) else ret (false, tt))
      tt s.

(** [do { a = body(a) } while (cond)] with loop variables [a]. *)
Definition doWhile {A} (body : A -> M A) (cond : Importer -> bool) (a : A) : M A :=
  fun s =>
    loopM (fuelOf s)
      (fun a => a' <- body a ;; c <- gets cond ;; ret (c, a'))
      a s.

(** [while (cond) { a = body(a) }] with loop variables [a]. *)
Definition whileAcc {A} (cond : Importer -> bool) (body : A -> M A) (a : A) : M A :=
  fun s =>
    loopM (fuelOf s)
      (fun a => c <- gets cond ;;
                if c then a' <- body a ;; ret (true, a') else ret (false, a))
      a s.

(** [for (i = 0; i < n; i++) body] *)
Fixpoint repeatM (n : nat) (body : M unit) : M unit :=
  match n with
  | O => ret tt
  | S n' => body ;; repeatM n' body
  end.

Fixpoint forEachM {A} (l : list A) (body : A -> M unit) : M unit :=
  match l with
  | [] => ret tt
  | x :: r => body x ;; forEachM r body
  end.

(** *** Object access *)

Definition getTrack (i : nat) : M Track.t :=
  sc <- gets _score ;; deref (Score.tracks sc !! i).

Definition modTrack (i : nat) (f : Track.t -> Track.t) : M unit :=
  getTrack i ;;
  modify (fun s =>
    set__score (Score.set_tracks (alter f i (Score.tracks (_score s))) (_score s)) s).

Definition getStaff (r : StaffRef) : M Staff.t :=
  t <- getTrack (sr_track r) ;; deref (Track.staves t !! sr_staff r).

Definition modStaff (r : StaffRef) (f : Staff.t -> Staff.t) : M unit :=
  getStaff r ;;
  modTrack (sr_track r)
    (fun t => Track.set_staves (alter f (sr_staff r) (Track.staves t)) t).

Definition staffOf (r : BarRef) : StaffRef :=
  mkStaffRef (br_track r) (br_staff r).

Definition getBar (r : BarRef) : M Bar.t :=
  st <- getStaff (staffOf r) ;; deref (Staff.bars st !! br_bar r).

Definition modBar (r : BarRef) (f : Bar.t -> Bar.t) : M unit :=
  getBar r ;;
  modStaff (staffOf r)
    (fun st => Staff.set_bars (alter f (br_bar r) (Staff.bars st)) st).

Definition getVoice (r : VoiceRef) : M Voice.t :=
  b <- getBar (vr_bar r) ;; deref (Bar.voices b !! vr_voice r).

Definition modVoice (r : VoiceRef) (f : Voice.t -> Voice.t) : M unit :=
  getVoice r ;;
  modBar (vr_bar r)
    (fun b => Bar.set_voices (alter f (vr_voice r) (Bar.voices b)) b).

Definition getMasterBar (i : nat) : M MasterBar.t :=
  sc <- gets _score ;; deref (Score.masterBars sc !! i).

Definition modMasterBar (i : nat) (f : MasterBar.t -> MasterBar.t) : M unit :=
  getMasterBar i ;;
  modify (fun s =>
    set__score
      (Score.set_masterBars (alter f i (Score.masterBars (_score s))) (_score s)) s).

Definition modScore (f : Score.t -> Score.t) : M unit :=
  modify (fun s => set__score (f (_score s)) s).

Definition getBeat (r : BeatRef) : M Beat.t :=
  h <- gets beatStore ;; deref (h !! r).

Definition modBeat (r : BeatRef) (f : Beat.t -> Beat.t) : M unit :=
  getBeat r ;; modify (fun s => set_beatStore (alter f r (beatStore s)) s).

Definition getNote (r : NoteRef) : M Note.t :=
  h <- gets noteStore ;; deref (h !! r).

Definition modNote (r : NoteRef) (f : Note.t -> Note.t) : M unit :=
  getNote r ;; modify (fun s => set_noteStore (alter f r (noteStore s)) s).

(** [new Beat()] and [new Note()]: a fresh object in the store. *)
Definition newBeat : M BeatRef :=
  h <- gets beatStore ;;
  modify (set_beatStore (h ++ [Beat.new])) ;;
  ret (length h).

Definition newNote : M NoteRef :=
  h <- gets noteStore ;;
  modify (set_noteStore (h ++ [Note.new])) ;;
  ret (length h).

(** *** Methods of the model classes

    Modelled from the spec: the entity classes are not among the sources.
    The containers are ordered sequences; adding an element appends it,
    gives it the next index and makes the container its owner. *)

(** Modelled from the spec: [Score.addTrack]; answers the track's index. *)
Definition Score_addTrack (t : Track.t) : M nat :=
  sc <- gets _score ;;
  modScore (Score.set_tracks (Score.tracks sc ++ [t])) ;;
  ret (length (Score.tracks sc)).

(** Modelled from the spec: [Score.addMasterBar]; answers the bar's index. *)
Definition Score_addMasterBar (m : MasterBar.t) : M nat :=
  sc <- gets _score ;;
  modScore (Score.set_masterBars (Score.masterBars sc ++ [m])) ;;
  ret (length (Score.masterBars sc)).

(** Modelled from the spec: [Track.ensureStaveCount]: new staves are added
    until the track has [n] of them. *)
Definition Track_ensureStaveCount (n : nat) (t : Track.t) : Track.t :=
  Track.set_staves
    (Track.staves t ++ replicate (n - length (Track.staves t)) Staff.new) t.

(** Modelled from the spec: [Staff.addBar]; answers the reference of the
    bar, whose index is the number of bars the staff had. *)
Definition Staff_addBar (r : StaffRef) (b : Bar.t) : M BarRef :=
  st <- getStaff r ;;
  modStaff r (Staff.set_bars (Staff.bars st ++ [b])) ;;
  ret (mkBarRef (sr_track r) (sr_staff r) (length (Staff.bars st))).

(** Modelled from the spec: [Bar.addVoice]. *)
Definition Bar_addVoice (r : BarRef) (v : Voice.t) : M VoiceRef :=
  b <- getBar r ;;
  modBar r (Bar.set_voices (Bar.voices b ++ [v])) ;;
  ret (mkVoiceRef r (length (Bar.voices b))).

(** Modelled from the spec: [Voice.addBeat]: the voice becomes the beat's
    owner and the beat its last beat. *)
Definition Voice_addBeat (v : VoiceRef) (b : BeatRef) : M unit :=
  modBeat b (Beat.set_voice (Some v)) ;;
  modVoice v (fun vo => Voice.set_beats (Voice.beats vo ++ [b]) vo).

(** Modelled from the spec: [Beat.addNote]. *)
Definition Beat_addNote (b : BeatRef) (n : NoteRef) : M unit :=
  modNote n (Note.set_beat (Some b)) ;;
  modBeat b (fun be => Beat.set_notes (Beat.notes be ++ [n]) be).

(** Modelled from the spec: [Staff.addChord] and [Staff.hasChord] on the
    chord dictionary keyed by the derived id. *)
Definition Staff_addChord (id : string) (c : Chord.t) (st : Staff.t) : Staff.t :=
  Staff.set_chords (<[id := c]> (Staff.chords st)) st.

Definition Staff_hasChord (id : string) (st : Staff.t) : bool :=
  bool_decide (is_Some (Staff.chords st !! id)).

(** Modelled from the spec: [Note.addBendPoint], [Beat.addWhammyBarPoint]:
    the point list is created on the first point. *)
Definition addPoint (p : BendPoint.t) (o : option (list BendPoint.t)) :
    option (list BendPoint.t) :=
  Some (default [] o ++ [p]).

(** Modelled from the spec: [Beat.removeWhammyBarPoint(index)]; an index
    out of range removes nothing. *)
Definition removeAt {A} (i : nat) (l : list A) : list A :=
  take i l ++ drop (S i) l.

(** Modelled from the spec: [Beat.hasTuplet]: numerator and denominator are
    neither both unset (-1) nor both 1. *)
Definition Beat_hasTuplet (b : Beat.t) : bool :=
  negb ((Beat.tupletDenominator b =? -1) && (Beat.tupletNumerator b =? -1))
  && negb ((Beat.tupletDenominator b =? 1) && (Beat.tupletNumerator b =? 1)).

(** Modelled from the spec: [Tuning.getDefaultTuningFor(6)], the standard
    guitar tuning E4 B3 G3 D3 A2 E2. *)
Definition defaultTuning6 : list Z := [64; 59; 55; 50; 45; 40].

(** Modelled from the spec: what the importer consults in modules that are
    not among the sources: the tuning-name grammar
    ([ModelUtils.parseTuning]), the General MIDI program names
    ([GeneralMidi.getValue]) and the percussion articulation ids and
    default names ([PercussionMapper]).  They are read-only tables; the
    importer is parametric in them. *)
Record Externals : Type := mkExternals {
  parseTuning : string -> option TuningParseResult;
  GeneralMidi_getValue : string -> JsNum;
  instrumentArticulations_has : JsNum -> bool;
  instrumentArticulationNames : list (string * JsNum)
}.

Definition strEq (a b : string) : bool := String.eqb a b.

(** [switch (s) { case l1: case l2: ... }]: is [s] one of the labels? *)
Definition oneOf (s : string) (labels : list string) : bool :=
  existsb (strEq s) labels.

Definition syIs (a b : AlphaTexSymbols) : bool := bool_decide (a = b).

Definition Eof : Z := 0.

Section AlphaTexImporter.

Context (ext : Externals).

Definition error {A} (nonterm : string) (expected : AlphaTexSymbols)
    (wrongSymbol : bool) : M A :=
  fun s =>
    let receivedSymbol := if wrongSymbol then _sy s else expected in
    let showSyData :=
      wrongSymbol &&
      (syIs receivedSymbol SyString || syIs receivedSymbol SyNumber
       || syIs receivedSymbol SyMetaCommand) in
    let '(p, l, c) := _lastValidSpot s in
    Throw (ExAlphaTex
      (SymbolError p l c nonterm expected receivedSymbol
         (if showSyData then Some (_syData s) else None))).

Definition errorMessage {A} (message : Message) : M A :=
  fun s =>
    let '(p, l, c) := _lastValidSpot s in
    Throw (ExAlphaTex (MessageError message p l c)).

(** Reads, saves, and returns the next character of the source stream. *)
Definition nextChar : M Z :=
  fun s =>
    match String.get (_curChPos s) (_input s) with
    | Some c =>
        let ch := charCode c in
        let s1 := set__curChPos (S (_curChPos s)) (set__ch ch s) in
        let s2 :=
          if ch =? 0x0a then set__col 0%nat (set__line (S (_line s1)) s1)
          else set__col (S (_col s1)) s1 in
        Ok ch s2
    | None => Ok Eof (set__ch Eof s)
    end.

(** Saves the current position, line, and column. *)
Definition saveValidSpot : M unit :=
  modify (fun s => set__lastValidSpot (_curChPos s, _line s, _col s) s).

Definition isTerminal (ch : Z) : bool :=
  (ch =? 0x2e) || (ch =? 0x7b) || (ch =? 0x7d) || (ch =? 0x5b)
  || (ch =? 0x5d) || (ch =? 0x28) || (ch =? 0x29) || (ch =? 0x7c)
  || (ch =? 0x27) || (ch =? 0x22) || (ch =? 0x5c).

(** Checks if the given character is a valid letter for a name. *)
Definition isNameLetter (ch : Z) : bool :=
  negb (isTerminal ch)
  && (((0x21 <=? ch) && (ch <=? 0x2f)) || ((0x3a <=? ch) && (ch <=? 0x7e))
      || (0x80 <=? ch)).

Definition isWhiteSpace (ch : Z) : bool :=
  (ch =? 0x09) || (ch =? 0x0a) || (ch =? 0x0b) || (ch =? 0x0d)
  || (ch =? 0x20).

Definition isDigit (s : Importer) (ch : Z) : bool :=
  ((ch >=? 0x30) && (ch <=? 0x39))
  || (_allowNegatives s && (ch =? 0x2d))
  || (_allowFloat s && (ch =? 0x2e)).

Definition appendChar (str : string) (ch : Z) : string :=
  String.append str (String (fromCharCode ch) EmptyString).

(** Reads a string from the stream. *)
Definition readName : M string :=
  doWhile
    (fun str => ch <- gets _ch ;; nextChar ;; ret (appendChar str ch))
    (fun s => isNameLetter (_ch s) || isDigit s (_ch s))
    EmptyString.

(** Reads a number from the stream. *)
Definition readNumber : M JsNum :=
  str <- doWhile
    (fun str => ch <- gets _ch ;; nextChar ;; ret (appendChar str ch))
    (fun s => isDigit s (_ch s))
    EmptyString ;;
  allowFloat <- gets _allowFloat ;;
  ret (if allowFloat then parseFloat str else parseInt str).

Definition setSy (sy : AlphaTexSymbols) : M unit := modify (set__sy sy).
Definition setSyData (d : SyData) : M unit := modify (set__syData d).

(** The body of the [// ...] branch of [newSy]. *)
Definition lineComment : M unit :=
  while
    (fun s => negb (_ch s =? 0x0d) && negb (_ch s =? 0x0a)
              && negb (_ch s =? Eof))
    (nextChar ;; ret tt).

(** The body of the [/* ... */] branch of [newSy]. *)
Definition blockComment : M unit :=
  whileBreak (fun s => negb (_ch s =? Eof))
    (ch <- gets _ch ;;
     if ch =? 0x2a then
       ch <- nextChar ;;
       if ch =? 0x2f then nextChar ;; ret false else ret true
     else nextChar ;; ret true).

(** The quoted-string branch of [newSy]. *)
Definition quoted (startChar : Z) : M unit :=
  nextChar ;;
  setSy SyString ;;
  str <- whileAcc
    (fun s => negb (_ch s =? startChar) && negb (_ch s =? Eof))
    (fun str => ch <- gets _ch ;; nextChar ;; ret (appendChar str ch))
    EmptyString ;;
  ch <- gets _ch ;;
  (if ch =? Eof
   then errorMessage (MsgText "String opened but never closed")
   else ret tt) ;;
  setSyData (DStr str) ;;
  nextChar ;; ret tt.

Definition single (sy : AlphaTexSymbols) : M unit :=
  setSy sy ;; nextChar ;; ret tt.

(** One round of the [while (this._sy === AlphaTexSymbols.No)] loop. *)
Definition newSyStep : M unit :=
  ch <- gets _ch ;;
  if ch =? Eof then setSy SyEof
  else if isWhiteSpace ch then nextChar ;; saveValidSpot
  else if ch =? 0x2f then
    ch <- nextChar ;;
    (if ch =? 0x2f then lineComment
     else if ch =? 0x2a then blockComment
     else error "comment" SyString false) ;;
    saveValidSpot
  else if (ch =? 0x22) || (ch =? 0x27) then quoted ch
  else if ch =? 0x2d then
    allowNegatives <- gets _allowNegatives ;;
    if allowNegatives
    then setSy SyNumber ;; n <- readNumber ;; setSyData (DNum n)
    else setSy SyString ;; str <- readName ;; setSyData (DStr str)
  else if ch =? 0x2e then single SyDot
  else if ch =? 0x3a then single SyDoubleDot
  else if ch =? 0x28 then single SyLParensis
  else if ch =? 0x5c then
    nextChar ;; setSy SyMetaCommand ;;
    str <- readName ;; setSyData (DStr str)
  else if ch =? 0x29 then single SyRParensis
  else if ch =? 0x7b then single SyLBrace
  else if ch =? 0x7d then single SyRBrace
  else if ch =? 0x7c then single SyPipe
  else if ch =? 0x2a then single SyMultiply
  else if ch =? 0x3c then single SyLowerThan
  else
    digit <- gets (fun s => isDigit s ch) ;;
    if digit then setSy SyNumber ;; n <- readNumber ;; setSyData (DNum n)
    else if isNameLetter ch then
      name <- readName ;;
      allowTuning <- gets _allowTuning ;;
      match (if allowTuning then parseTuning ext name else None) with
      | Some tuning => setSy SyTuning ;; setSyData (DTuning tuning)
      | None => setSy SyString ;; setSyData (DStr name)
      end
    else error "symbol" SyString false.

(** Reads, saves, and returns the next terminal symbol. *)
Definition newSy : M AlphaTexSymbols :=
  saveValidSpot ;;
  setSy SyNo ;;
  while (fun s => syIs (_sy s) SyNo) newSyStep ;;
  gets _sy.


(** *** Value tables of the parser *)

(** Converts a clef string into the clef value. *)
Definition parseClefFromString (str : string) : Clef.t :=
  let s := toLowerCase str in
  if oneOf s ["g2"; "treble"] then Clef.G2
  else if oneOf s ["f4"; "bass"] then Clef.F4
  else if oneOf s ["c3"; "tenor"] then Clef.C3
  else if oneOf s ["c4"; "alto"] then Clef.C4
  else if oneOf s ["n"; "neutral"] then Clef.Neutral
  else Clef.G2.

(** Converts a clef tuning into the clef value. *)
Definition parseClefFromInt (i : JsNum) : Clef.t :=
  if num_eqb i (JInt 43) then Clef.G2
  else if num_eqb i (JInt 65) then Clef.F4
  else if num_eqb i (JInt 48) then Clef.C3
  else if num_eqb i (JInt 60) then Clef.C4
  else Clef.G2.

Definition parseTripletFeelFromString (str : string) : TripletFeel.t :=
  let s := toLowerCase str in
  if oneOf s ["no"; "none"] then TripletFeel.NoTripletFeel
  else if oneOf s ["t16"; "triplet-16th"] then TripletFeel.Triplet16th
  else if oneOf s ["t8"; "triplet-8th"] then TripletFeel.Triplet8th
  else if oneOf s ["d16"; "dotted-16th"] then TripletFeel.Dotted16th
  else if oneOf s ["d8"; "dotted-8th"] then TripletFeel.Dotted8th
  else if oneOf s ["s16"; "scottish-16th"] then TripletFeel.Scottish16th
  else if oneOf s ["s8"; "scottish-8th"] then TripletFeel.Scottish8th
  else TripletFeel.NoTripletFeel.

Definition parseTripletFeelFromInt (i : JsNum) : TripletFeel.t :=
  if num_eqb i (JInt 0) then TripletFeel.NoTripletFeel
  else if num_eqb i (JInt 1) then TripletFeel.Triplet16th
  else if num_eqb i (JInt 2) then TripletFeel.Triplet8th
  else if num_eqb i (JInt 3) then TripletFeel.Dotted16th
  else if num_eqb i (JInt 4) then TripletFeel.Dotted8th
  else if num_eqb i (JInt 5) then TripletFeel.Scottish16th
  else if num_eqb i (JInt 6) then TripletFeel.Scottish8th
  else TripletFeel.NoTripletFeel.

(** Converts a keysignature string into the assocciated value. *)
Definition parseKeySignature (str : string) : KeySignature.t :=
  let s := toLowerCase str in
  if oneOf s ["cb"; "cbmajor"] then KeySignature.Cb
  else if oneOf s ["gb"; "gbmajor"; "d#minor"] then KeySignature.Gb
  else if oneOf s ["db"; "dbmajor"; "bbminor"] then KeySignature.Db
  else if oneOf s ["ab"; "abmajor"; "fminor"] then KeySignature.Ab
  else if oneOf s ["eb"; "ebmajor"; "cminor"] then KeySignature.Eb
  else if oneOf s ["bb"; "bbmajor"; "gminor"] then KeySignature.Bb
  else if oneOf s ["f"; "fmajor"; "dminor"] then KeySignature.F
  else if oneOf s ["c"; "cmajor"; "aminor"] then KeySignature.C
  else if oneOf s ["g"; "gmajor"; "eminor"] then KeySignature.G
  else if oneOf s ["d"; "dmajor"; "bminor"] then KeySignature.D
  else if oneOf s ["a"; "amajor"; "f#minor"] then KeySignature.A
  else if oneOf s ["e"; "emajor"; "c#minor"] then KeySignature.E
  else if oneOf s ["b"; "bmajor"; "g#minor"] then KeySignature.B
  else if oneOf s ["f#"; "f#major"; "ebminor"] then KeySignature.FSharp
  else if oneOf s ["c#"; "c#major"] then KeySignature.CSharp
  else KeySignature.C.

Definition isAlphaNum (c : ascii) : bool :=
  let n := charCode c in
  ((0x61 <=? n) && (n <=? 0x7a)) || ((0x41 <=? n) && (n <=? 0x5a))
  || ((0x30 <=? n) && (n <=? 0x39)).

Fixpoint keepAlphaNum (s : string) : string :=
  match s with
  | EmptyString => EmptyString
  | String c r =>
      if isAlphaNum c then String c (keepAlphaNum r) else keepAlphaNum r
  end.

(** Encodes a given string to a shorthand text form without spaces or
    special characters. *)
Definition toArticulationId (plain : string) : string :=
  toLowerCase (keepAlphaNum plain).

Definition setTuplet (n d : Z) (b : Beat.t) : Beat.t :=
  Beat.set_tupletDenominator d (Beat.set_tupletNumerator n b).

Definition applyTuplet (tuplet : JsNum) (b : Beat.t) : Beat.t :=
  if num_eqb tuplet (JInt 3) then setTuplet 3 2 b
  else if num_eqb tuplet (JInt 5) then setTuplet 5 4 b
  else if num_eqb tuplet (JInt 6) then setTuplet 6 4 b
  else if num_eqb tuplet (JInt 7) then setTuplet 7 4 b
  else if num_eqb tuplet (JInt 9) then setTuplet 9 8 b
  else if num_eqb tuplet (JInt 10) then setTuplet 10 8 b
  else if num_eqb tuplet (JInt 11) then setTuplet 11 8 b
  else if num_eqb tuplet (JInt 12) then setTuplet 12 8 b
  else setTuplet 1 1 b.

Definition isNoteText (txt : string) : bool :=
  strEq txt "x" || strEq txt "-" || strEq txt "r".

Definition toFinger (num : JsNum) : Fingers.t :=
  if num_eqb num (JInt 1) then Fingers.Thumb
  else if num_eqb num (JInt 2) then Fingers.IndexFinger
  else if num_eqb num (JInt 3) then Fingers.MiddleFinger
  else if num_eqb num (JInt 4) then Fingers.AnnularFinger
  else if num_eqb num (JInt 5) then Fingers.LittleFinger
  else Fingers.Thumb.

Definition parseDuration (duration : JsNum) : Duration.t :=
  if num_eqb duration (JInt (-4)) then Duration.QuadrupleWhole
  else if num_eqb duration (JInt (-2)) then Duration.DoubleWhole
  else if num_eqb duration (JInt 1) then Duration.Whole
  else if num_eqb duration (JInt 2) then Duration.Half
  else if num_eqb duration (JInt 4) then Duration.Quarter
  else if num_eqb duration (JInt 8) then Duration.Eighth
  else if num_eqb duration (JInt 16) then Duration.Sixteenth
  else if num_eqb duration (JInt 32) then Duration.ThirtySecond
  else if num_eqb duration (JInt 64) then Duration.SixtyFourth
  else if num_eqb duration (JInt 128) then Duration.OneHundredTwentyEighth
  else if num_eqb duration (JInt 256) then Duration.TwoHundredFiftySixth
  else Duration.Quarter.

(** [chordName.toLowerCase() + currentStaff.index + currentStaff.track.index] *)
Definition getChordId (currentStaff : StaffRef) (chordName : string) : string :=
  String.append (toLowerCase chordName)
    (String.append (natToString (sr_staff currentStaff))
       (natToString (sr_track currentStaff))).

  (** *** The parser *)

  (** [this._syData as string], [as number], [as TuningParseResult].  Where
      the importer has checked [_sy] before, the payload is of that kind;
      where it has not ([ch], [gr], [dy]) and calls a string method on
      another kind of payload, the host throws. *)
Definition syString : M string :=
  d <- gets _syData ;;
  match d with DStr str => ret str | _ => throw ExTypeError end.

Definition syNumber : M JsNum :=
  d <- gets _syData ;;
  match d with DNum n => ret n | _ => throw ExTypeError end.

Definition syTuning : M TuningParseResult :=
  d <- gets _syData ;;
  match d with DTuning t => ret t | _ => throw ExTypeError end.

Definition newTrack : M unit :=
  channel <- gets _trackChannel ;;
  let staff :=
    Staff.set_tunings defaultTuning6
      (Staff.set_displayTranspositionPitch (-12) Staff.new) in
  let track :=
    Track.set_playbackInfo
      (PlaybackInformation.mk (JInt 25) channel (channel + 1))
      (Track.set_staves
         (alter (fun _ => staff) 0%nat
            (Track.staves (Track_ensureStaveCount 1 Track.new)))
         Track.new) in
  modify (set__trackChannel (channel + 2)) ;;
  index <- Score_addTrack track ;;
  modify (set__currentTrack index) ;;
  modify (set__currentStaff (mkStaffRef index 0)) ;;
  modify (fun s => set__lyrics (<[index := []]> (_lyrics s)) s) ;;
  modify (set__currentDynamics DynamicValue.F).

(** Initializes the song with some required default values. *)
Definition createDefaultScore : M unit :=
  modify (set__score
            (Score.set_tempoLabel "" (Score.set_tempo (JInt 120) Score.new))) ;;
  newTrack.

Definition readTempoAutomation : M Automation.t :=
  modify (set__allowFloat true) ;;
  sy <- newSy ;;
  modify (set__allowFloat false) ;;
  when (negb (syIs sy SyNumber)) (error "tempo" SyNumber true) ;;
  value <- syNumber ;;
  newSy ;;
  ret (Automation.set_value value
         (Automation.set_type AutomationType.Tempo
            (Automation.set_isLinear false Automation.new))).

Definition applyAlternateEnding (master : nat) : M unit :=
  num <- syNumber ;;
  when (num_ltb num (JInt 1)) (error "alternateending" SyNumber true) ;;
  modMasterBar master
    (fun m =>
       MasterBar.set_alternateEndings
         (or32 (MasterBar.alternateEndings m)
            (shl32 (JInt 1) (num_sub num (JInt 1)))) m) ;;
  newSy ;; ret tt.

(** A flag of a chord given as a string ([!== 'false']) or as a number
    ([!== 0]). *)
Definition flagOfString (v : string) : bool :=
  negb (strEq (toLowerCase v) "false").
Definition flagOfNumber (n : JsNum) : bool := negb (num_eqb n (JInt 0)).

(** One round of the loop of [chordProperties]: the property named by the
    current string terminal. *)
Definition chordProperty (chord : Chord.t) : M Chord.t :=
  name <- syString ;;
  let key := toLowerCase name in
  if strEq key "firstfret" then
    sy <- newSy ;;
    chord' <- match sy with
              | SyNumber =>
                  n <- syNumber ;; ret (Chord.set_firstFret n chord)
              | _ => error "chord-firstfret" SyNumber true
              end ;;
    newSy ;; ret chord'
  else if strEq key "showdiagram" then
    sy <- newSy ;;
    chord' <- match sy with
              | SyString =>
                  v <- syString ;;
                  ret (Chord.set_showDiagram (flagOfString v) chord)
              | SyNumber =>
                  n <- syNumber ;;
                  ret (Chord.set_showDiagram (flagOfNumber n) chord)
              | _ => error "chord-showdiagram" SyString true
              end ;;
    newSy ;; ret chord'
  else if strEq key "showfingering" then
    sy <- newSy ;;
    chord' <- match sy with
              | SyString =>
                  v <- syString ;;
                  ret (Chord.set_showDiagram (flagOfString v) chord)
              | SyNumber =>
                  n <- syNumber ;;
                  ret (Chord.set_showFingering (flagOfNumber n) chord)
              | _ => error "chord-showfingering" SyString true
              end ;;
    newSy ;; ret chord'
  else if strEq key "showname" then
    sy <- newSy ;;
    chord' <- match sy with
              | SyString =>
                  v <- syString ;;
                  ret (Chord.set_showName (flagOfString v) chord)
              | SyNumber =>
                  n <- syNumber ;;
                  ret (Chord.set_showName (flagOfNumber n) chord)
              | _ => error "chord-showname" SyString true
              end ;;
    newSy ;; ret chord'
  else if strEq key "barre" then
    newSy ;;
    whileAcc (fun s => syIs (_sy s) SyNumber)
      (fun c =>
         n <- syNumber ;;
         newSy ;;
         ret (Chord.set_barreFrets (Chord.barreFrets c ++ [n]) c))
      chord
  else error "chord-properties" SyString false.

Definition chordProperties (chord : Chord.t) : M Chord.t :=
  sy <- gets _sy ;;
  if negb (syIs sy SyLBrace) then ret chord
  else
    newSy ;;
    chord' <- whileAcc (fun s => syIs (_sy s) SyString) chordProperty chord ;;
    sy <- gets _sy ;;
    when (negb (syIs sy SyRBrace)) (error "chord-properties" SyRBrace true) ;;
    newSy ;; ret chord'.

Fixpoint repeatAcc {A} (n : nat) (body : A -> M A) (a : A) : M A :=
  match n with
  | O => ret a
  | S n' => a' <- body a ;; repeatAcc n' body a'
  end.

Definition applyPercussionStaff (staff : Staff.t) : Staff.t :=
  Staff.set_showTablature false (Staff.set_isPercussion true staff).

Definition setProgram (program : JsNum) (t : Track.t) : Track.t :=
  Track.set_playbackInfo
    (PlaybackInformation.set_program program (Track.playbackInfo t)) t.

(** The [switch (this._sy)] of the [tuning] case of [handleStaffMeta]:
    reads the new tuning and stores it in the current staff. *)
Definition readStaffTuning (sy : AlphaTexSymbols) : M unit :=
  cur <- gets _currentStaff ;;
  match sy with
  | SyString =>
      str <- syString ;;
      let text := toLowerCase str in
      (if strEq text "piano" || strEq text "none" || strEq text "voice"
       then modStaff cur
              (fun st => Staff.set_displayTranspositionPitch 0
                           (Staff.set_tunings [] st))
       else error "tuning" SyTuning true) ;;
      newSy ;; ret tt
  | SyTuning =>
      tuning <- doWhile
        (fun tuning => t <- syTuning ;; newSy ;; ret (tuning ++ [realValue t]))
        (fun s => syIs (_sy s) SyTuning) [] ;;
      modStaff cur (Staff.set_tunings tuning)
  | _ => error "tuning" SyTuning true
  end.

Definition setArticulationName (name : string) (value : JsNum) : M unit :=
  modify (fun s =>
    set__percussionArticulationNames
      (<[name := value]> (_percussionArticulationNames s)) s).

Definition handleStaffMeta : M bool :=
  tag <- syString ;;
  let tag := toLowerCase tag in
  cur <- gets _currentStaff ;;
  track <- gets _currentTrack ;;
  if strEq tag "capo" then
    sy <- newSy ;;
    (if syIs sy SyNumber
     then n <- syNumber ;; modStaff cur (Staff.set_capo n)
     else error "capo" SyNumber true) ;;
    newSy ;; ret true
  else if strEq tag "tuning" then
    sy <- newSy ;;
    st <- getStaff cur ;;
    let strings := length (Staff.tunings st) in
    modify (set__staffHasExplicitTuning true) ;;
    modify (set__staffTuningApplied false) ;;
    readStaffTuning sy ;;
    st' <- getStaff cur ;;
    when (negb (Nat.eqb strings (length (Staff.tunings st')))
          && Nat.ltb 0 (size (Staff.chords st')))
      (errorMessage (MsgText "Tuning must be defined before any chord")) ;;
    ret true
  else if strEq tag "instrument" then
    sy <- newSy ;;
    modify (set__staffTuningApplied false) ;;
    match sy with
    | SyNumber =>
        instrument <- syNumber ;;
        if num_geb instrument (JInt 0) && num_leb instrument (JInt 127)
        then modTrack track (setProgram instrument)
        else error "instrument" SyNumber false
    | SyString =>
        str <- syString ;;
        let instrumentName := toLowerCase str in
        if strEq instrumentName "percussion" then
          modTrack track
            (fun t => Track.set_staves (applyPercussionStaff <$> Track.staves t) t) ;;
          modTrack track
            (fun t => Track.set_playbackInfo
               (PlaybackInformation.set_secondaryChannel 9
                  (PlaybackInformation.set_primaryChannel 9
                     (Track.playbackInfo t))) t)
        else modTrack track (setProgram (GeneralMidi_getValue ext instrumentName))
    | _ => error "instrument" SyNumber true
    end ;;
    newSy ;; ret true
  else if strEq tag "lyrics" then
    sy <- newSy ;;
    let lyrics := Lyrics.set_text "" (Lyrics.set_startBar (JInt 0) Lyrics.new) in
    lyrics <- (if syIs sy SyNumber
               then n <- syNumber ;; newSy ;; ret (Lyrics.set_startBar n lyrics)
               else ret lyrics) ;;
    sy <- gets _sy ;;
    lyrics <- (if syIs sy SyString
               then str <- syString ;; newSy ;; ret (Lyrics.set_text str lyrics)
               else error "lyrics" SyString true) ;;
    all <- gets _lyrics ;;
    list <- deref (all !! track) ;;
    modify (set__lyrics (<[track := list ++ [lyrics]]> all)) ;;
    ret true
  else if strEq tag "chord" then
    newSy ;;
    chord <- chordProperties Chord.new ;;
    sy <- gets _sy ;;
    chord <- (if syIs sy SyString
              then str <- syString ;; newSy ;; ret (Chord.set_name str chord)
              else error "chord-name" SyString true) ;;
    st <- getStaff cur ;;
    chord <- repeatAcc (length (Staff.tunings st))
      (fun chord =>
         sy <- gets _sy ;;
         d <- gets _syData ;;
         let chord' :=
           match sy, d with
           | SyNumber, DNum n =>
               Chord.set_strings (Chord.strings chord ++ [n]) chord
           | SyString, DStr str =>
               if strEq (toLowerCase str) "x"
               then Chord.set_strings (Chord.strings chord ++ [JInt (-1)]) chord
               else chord
           | _, _ => chord
           end in
         newSy ;; ret chord')
      chord ;;
    modStaff cur (Staff_addChord (getChordId cur (Chord.name chord)) chord) ;;
    ret true
  else if strEq tag "articulation" then
    sy <- newSy ;;
    name <- (if syIs sy SyString
             then str <- syString ;; newSy ;; ret str
             else error "articulation-name" SyString true) ;;
    if strEq name "defaults" then
      forEachM (instrumentArticulationNames ext)
        (fun '(defaultName, defaultValue) =>
           setArticulationName (toLowerCase defaultName) defaultValue ;;
           setArticulationName (toArticulationId defaultName) defaultValue) ;;
      ret true
    else
      sy <- gets _sy ;;
      number <- (if syIs sy SyNumber
                 then n <- syNumber ;; newSy ;; ret n
                 else error "articulation-number" SyNumber true) ;;
      when (negb (instrumentArticulations_has ext number))
        (errorMessage (MsgUnknownArticulation number)) ;;
      setArticulationName (toLowerCase name) number ;;
      ret true
  else ret false.

(** The inner [switch (metadataTag)] of [metaData]. *)
Definition setScoreInfo (metadataTag metadataValue : string) (sc : Score.t) : Score.t :=
  if strEq metadataTag "title" then Score.set_title metadataValue sc
  else if strEq metadataTag "subtitle" then Score.set_subTitle metadataValue sc
  else if strEq metadataTag "artist" then Score.set_artist metadataValue sc
  else if strEq metadataTag "album" then Score.set_album metadataValue sc
  else if strEq metadataTag "words" then Score.set_words metadataValue sc
  else if strEq metadataTag "music" then Score.set_music metadataValue sc
  else if strEq metadataTag "copyright" then Score.set_copyright metadataValue sc
  else sc.

(** One round of the loop of [metaData]; the loop variable is [anyMeta],
    the answer says whether the loop goes on. *)
Definition metaDataStep (anyMeta : bool) : M (bool * bool) :=
  sy <- gets _sy ;;
  if negb (syIs sy SyMetaCommand) then ret (false, anyMeta)
  else
    tag <- syString ;;
    let metadataTag := toLowerCase tag in
    if oneOf metadataTag
         ["title"; "subtitle"; "artist"; "album"; "words"; "music"; "copyright"]
    then
      sy <- newSy ;;
      when (negb (syIs sy SyString)) (error metadataTag SyString true) ;;
      metadataValue <- syString ;;
      modScore (setScoreInfo metadataTag metadataValue) ;;
      newSy ;;
      ret (true, true)
    else if strEq metadataTag "tempo" then
      modify (set__allowFloat true) ;;
      sy <- newSy ;;
      modify (set__allowFloat false) ;;
      (if syIs sy SyNumber
       then n <- syNumber ;; modScore (Score.set_tempo n)
       else error "tempo" SyNumber true) ;;
      newSy ;;
      ret (true, true)
    else
      handled <- handleStaffMeta ;;
      if handled then ret (true, true)
      else if anyMeta then error "metaDataTags" SyString false
      else ret (false, anyMeta).

Definition metaData : M bool :=
  fuel <- gets fuelOf ;;
  anyMeta <- loopM fuel metaDataStep false ;;
  sy <- gets _sy ;;
  (if anyMeta then
     when (negb (syIs sy SyDot)) (error "song" SyDot true) ;;
     newSy ;; ret tt
   else if syIs sy SyDot then newSy ;; ret tt
   else ret tt) ;;
  ret anyMeta.

Definition staffProperties : M unit :=
  sy <- gets _sy ;;
  if negb (syIs sy SyLBrace) then ret tt
  else
    newSy ;;
    shown <-
      whileAcc (fun s => syIs (_sy s) SyString)
        (fun '(score, tabs, slash) =>
           str <- syString ;;
           let key := toLowerCase str in
           if strEq key "score" then newSy ;; ret (true, tabs, slash)
           else if strEq key "tabs" then newSy ;; ret (score, true, slash)
           else if strEq key "slash" then newSy ;; ret (score, tabs, true)
           else error "staff-properties" SyString false)
        (false, false, false) ;;
    let '(showStandardNotation, showTabs, showSlash) := shown in
    cur <- gets _currentStaff ;;
    when (showStandardNotation || showTabs || showSlash)
      (modStaff cur
         (fun st =>
            Staff.set_showSlash showSlash
              (Staff.set_showTablature showTabs
                 (Staff.set_showStandardNotation showStandardNotation st)))) ;;
    sy <- gets _sy ;;
    when (negb (syIs sy SyRBrace)) (error "staff-properties" SyRBrace true) ;;
    newSy ;; ret tt.

(** The [\track] part of [trackStaffMeta]. *)
Definition trackMeta : M unit :=
  modify (set__staffHasExplicitTuning false) ;;
  modify (set__staffTuningApplied false) ;;
  newSy ;;
  sc <- gets _score ;;
  when (Nat.ltb 0 (length (Score.masterBars sc))) newTrack ;;
  sy <- gets _sy ;;
  (if syIs sy SyString then
     str <- syString ;;
     track <- gets _currentTrack ;;
     modTrack track (Track.set_name str) ;;
     newSy ;; ret tt
   else ret tt) ;;
  sy <- gets _sy ;;
  (if syIs sy SyString then
     str <- syString ;;
     track <- gets _currentTrack ;;
     modTrack track (Track.set_shortName str) ;;
     newSy ;; ret tt
   else ret tt).

(** The [\staff] part of [trackStaffMeta]. *)
Definition staffMeta : M unit :=
  modify (set__staffHasExplicitTuning false) ;;
  modify (set__staffTuningApplied false) ;;
  newSy ;;
  track <- gets _currentTrack ;;
  t <- getTrack track ;;
  first <- deref (Track.staves t !! 0%nat) ;;
  when (Nat.ltb 0 (length (Staff.bars first)))
    (modTrack track (Track_ensureStaveCount (length (Track.staves t) + 1)) ;;
     cur <- gets _currentStaff ;;
     st <- getStaff cur ;;
     let isPercussion := Staff.isPercussion st in
     t' <- getTrack track ;;
     let last := mkStaffRef track (length (Track.staves t') - 1) in
     modify (set__currentStaff last) ;;
     when isPercussion (modStaff last applyPercussionStaff) ;;
     modify (set__currentDynamics DynamicValue.F)) ;;
  staffProperties.

Definition isMeta (name : string) (s : Importer) : bool :=
  syIs (_sy s) SyMetaCommand
  && match _syData s with
     | DStr str => strEq (toLowerCase str) name
     | _ => false
     end.

Definition trackStaffMeta : M bool :=
  sy <- gets _sy ;;
  if negb (syIs sy SyMetaCommand) then ret false
  else
    tag <- syString ;;
    when (strEq (toLowerCase tag) "track") trackMeta ;;
    staff <- gets (isMeta "staff") ;;
    when staff staffMeta ;;
    ret true.

Definition newBar (staff : StaffRef) : M BarRef :=
  bar <- Staff_addBar staff Bar.new ;;
  when (Nat.ltb 0 (br_bar bar))
    (previousBar <- getBar (mkBarRef (br_track bar) (br_staff bar) (br_bar bar - 1)) ;;
     modBar bar (Bar.set_clef (Bar.clef previousBar))) ;;
  voice <- Bar_addVoice bar Voice.new ;;
  ret bar.

(** *** Bend and whammy-bar points *)

(** [while (points.length > 60) points.splice(points.length - 1, 1)], and
    the same loop over [removeWhammyBarPoint]. *)
Fixpoint trimLoop (fuel : nat) (points : list BendPoint.t) : list BendPoint.t :=
  match fuel with
  | O => points
  | S fuel' =>
      if Nat.ltb 60 (length points)
      then trimLoop fuel' (removeAt (length points - 1) points)
      else points
  end.

Definition trimPoints (points : list BendPoint.t) : list BendPoint.t :=
  trimLoop (length points) points.

(** [while (i < count) { points[i].offset = Math.min(60, i * step); i++ }],
    with [n] rounds left. *)
Fixpoint spreadLoop (n i : nat) (step : Z) (points : list BendPoint.t) :
    list BendPoint.t :=
  match n with
  | O => points
  | S n' =>
      spreadLoop n' (S i) step
        (alter (BendPoint.set_offset (JInt (Z.min 60 (Z.of_nat i * step)))) i
           points)
  end.

Definition spreadPoints (step : Z) (points : list BendPoint.t) : list BendPoint.t :=
  spreadLoop (length points) 0 step points.

(** [(a, b) => a.offset - b.offset] answers a number that is [<= 0]. *)
Definition offsetLe (a b : BendPoint.t) : bool :=
  num_leb (num_sub (BendPoint.offset a) (BendPoint.offset b)) (JInt 0).

(** What [noteEffects] does to the bend points it has read. *)
Definition placeBendPoints (exact : bool) (points : list BendPoint.t) :
    list BendPoint.t :=
  let points := trimPoints points in
  if exact then sort offsetLe points
  else
    let count := Z.of_nat (length points) in
    spreadPoints (idiv0 60 (count - 1)) points.

(** What [applyBeatEffect] does to the whammy-bar points it has read. *)
Definition placeWhammyPoints (exact : bool) (points : list BendPoint.t) :
    list BendPoint.t :=
  let points := trimPoints points in
  if negb exact then
    let count := Z.of_nat (length points) in
    spreadPoints (idiv0 60 count) points
  else sort offsetLe points.

(** The loop that reads the points of [b], [be], [tb] and [tbe] up to
    the closing parenthesis; [add] is [note.addBendPoint] or
    [beat.addWhammyBarPoint]. *)
Definition readPoints (exact : bool) (nonterm : string)
    (add : BendPoint.t -> M unit) : M unit :=
  while
    (fun s => negb (syIs (_sy s) SyRParensis) && negb (syIs (_sy s) SyEof))
    (sy <- gets _sy ;;
     when (negb (syIs sy SyNumber)) (error nonterm SyNumber true) ;;
     point <-
       (if exact then
          offset <- syNumber ;;
          sy <- newSy ;;
          when (negb (syIs sy SyNumber)) (error nonterm SyNumber true) ;;
          value <- syNumber ;;
          ret (BendPoint.mk offset value)
        else
          value <- syNumber ;;
          ret (BendPoint.mk (JInt 0) value)) ;;
     add point ;;
     newSy ;; ret tt).

(** The [tb] and [tbe] case of [applyBeatEffect]. *)
Definition whammyEffect (exact : bool) (beat : BeatRef) : M unit :=
  sy <- newSy ;;
  when (negb (syIs sy SyLParensis))
    (error "tremolobar-effect" SyLParensis true) ;;
  modify (set__allowNegatives true) ;;
  newSy ;;
  readPoints exact "tremolobar-effect"
    (fun p => modBeat beat
       (fun b => Beat.set_whammyBarPoints (addPoint p (Beat.whammyBarPoints b)) b)) ;;
  modBeat beat
    (fun b => Beat.set_whammyBarPoints
                (placeWhammyPoints exact <$> Beat.whammyBarPoints b) b) ;;
  modify (set__allowNegatives false) ;;
  sy <- gets _sy ;;
  when (negb (syIs sy SyRParensis))
    (error "tremolobar-effect" SyRParensis true).

(** The number of rounds of [for (i = 0; i < n; i++)]. *)
Definition roundsBelow (n : JsNum) : nat :=
  match n with
  | JNaN => 0%nat
  | JFin m e => Z.to_nat (- ((- m) / 10 ^ Z.of_nat e))
  end.

Definition dynamicsOf (name : string) (current : DynamicValue.t) : DynamicValue.t :=
  if strEq name "ppp" then DynamicValue.PPP
  else if strEq name "pp" then DynamicValue.PP
  else if strEq name "p" then DynamicValue.P
  else if strEq name "mp" then DynamicValue.MP
  else if strEq name "mf" then DynamicValue.MF
  else if strEq name "f" then DynamicValue.F
  else if strEq name "ff" then DynamicValue.FF
  else if strEq name "fff" then DynamicValue.FFF
  else current.

Definition brushTypeOf (name : string) : BrushType.t :=
  if strEq name "bu" then BrushType.BrushUp
  else if strEq name "bd" then BrushType.BrushDown
  else if strEq name "au" then BrushType.ArpeggioUp
  else BrushType.ArpeggioDown.

Definition tremoloSpeedOf (n : JsNum) : Duration.t :=
  if num_eqb n (JInt 8) then Duration.Eighth
  else if num_eqb n (JInt 16) then Duration.Sixteenth
  else if num_eqb n (JInt 32) then Duration.ThirtySecond
  else Duration.Eighth.

(** The master bar of the bar that owns the beat:
    [beat.voice.bar.masterBar]. *)
Definition masterBarOf (beat : BeatRef) : M nat :=
  b <- getBeat beat ;;
  voice <- deref (Beat.voice b) ;;
  ret (br_bar (vr_bar voice)).

(** Tries to apply a beat effect to the given beat; answers true if an
    effect could be applied, otherwise false. *)
Definition applyBeatEffect (beat : BeatRef) : M bool :=
  str <- syString ;;
  let syData := toLowerCase str in
  let simple (f : Beat.t -> Beat.t) : M bool :=
    modBeat beat f ;; newSy ;; ret true in
  if strEq syData "f" then simple (Beat.set_fadeIn true)
  else if strEq syData "v" then simple (Beat.set_vibrato VibratoType.Slight)
  else if strEq syData "s" then simple (Beat.set_slap true)
  else if strEq syData "p" then simple (Beat.set_pop true)
  else if strEq syData "tt" then simple (Beat.set_tap true)
  else if strEq syData "dd" then simple (Beat.set_dots 2)
  else if strEq syData "d" then simple (Beat.set_dots 1)
  else if strEq syData "su" then simple (Beat.set_pickStroke PickStroke.Up)
  else if strEq syData "sd" then simple (Beat.set_pickStroke PickStroke.Down)
  else if strEq syData "tu" then
    sy <- newSy ;;
    when (negb (syIs sy SyNumber)) (error "tuplet" SyNumber true) ;;
    n <- syNumber ;;
    simple (applyTuplet n)
  else if strEq syData "tb" || strEq syData "tbe" then
    whammyEffect (strEq syData "tbe") beat ;;
    newSy ;; ret true
  else if oneOf syData ["bu"; "bd"; "au"; "ad"] then
    modBeat beat (Beat.set_brushType (brushTypeOf syData)) ;;
    sy <- newSy ;;
    if syIs sy SyNumber then
      n <- syNumber ;;
      modBeat beat (Beat.set_brushDuration (BrushTicks n)) ;;
      newSy ;; ret true
    else
      modBeat beat
        (fun b => Beat.set_brushDuration
           (BrushShare (strEq syData "bu" || strEq syData "bd")
              (length (Beat.notes b))) b) ;;
      ret true
  else if strEq syData "ch" then
    newSy ;;
    chordName <- syString ;;
    cur <- gets _currentStaff ;;
    let chordId := getChordId cur chordName in
    st <- getStaff cur ;;
    when (negb (Staff_hasChord chordId st))
      (modStaff cur
         (Staff_addChord chordId
            (Chord.set_name chordName (Chord.set_showDiagram false Chord.new)))) ;;
    simple (Beat.set_chordId (Some chordId))
  else if strEq syData "gr" then
    newSy ;;
    kind <- syString ;;
    if strEq (toLowerCase kind) "ob" then
      modBeat beat (Beat.set_graceType GraceType.OnBeat) ;; newSy ;; ret true
    else if strEq (toLowerCase kind) "b" then
      modBeat beat (Beat.set_graceType GraceType.BendGrace) ;; newSy ;; ret true
    else
      modBeat beat (Beat.set_graceType GraceType.BeforeBeat) ;; ret true
  else if strEq syData "dy" then
    newSy ;;
    level <- syString ;;
    modBeat beat
      (fun b => Beat.set_dynamics (dynamicsOf (toLowerCase level) (Beat.dynamics b)) b) ;;
    b <- getBeat beat ;;
    modify (set__currentDynamics (Beat.dynamics b)) ;;
    newSy ;; ret true
  else if strEq syData "cre" then
    simple (Beat.set_crescendo CrescendoType.Crescendo)
  else if strEq syData "dec" then
    simple (Beat.set_crescendo CrescendoType.Decrescendo)
  else if strEq syData "tempo" then
    tempoAutomation <- readTempoAutomation ;;
    modBeat beat
      (fun b => Beat.set_automations (Beat.automations b ++ [tempoAutomation]) b) ;;
    master <- masterBarOf beat ;;
    modMasterBar master
      (fun m => MasterBar.set_tempoAutomations
                  (MasterBar.tempoAutomations m ++ [tempoAutomation]) m) ;;
    ret true
  else if strEq syData "tp" then
    sy <- newSy ;;
    modBeat beat (Beat.set_tremoloSpeed (Some Duration.Eighth)) ;;
    (if syIs sy SyNumber then
       n <- syNumber ;;
       modBeat beat (Beat.set_tremoloSpeed (Some (tremoloSpeedOf n))) ;;
       newSy ;; ret tt
     else ret tt) ;;
    ret true
  else ret false.

Definition beatEffects (beat : BeatRef) : M unit :=
  sy <- gets _sy ;;
  if negb (syIs sy SyLBrace) then ret tt
  else
    newSy ;;
    while (fun s => syIs (_sy s) SyString)
      (applied <- applyBeatEffect beat ;;
       when (negb applied) (error "beat-effects" SyString false)) ;;
    sy <- gets _sy ;;
    when (negb (syIs sy SyRBrace)) (error "beat-effects" SyRBrace true) ;;
    newSy ;; ret tt.

Definition beatDuration : M unit :=
  sy <- gets _sy ;;
  if negb (syIs sy SyDoubleDot) then ret tt
  else
    modify (set__allowNegatives true) ;;
    sy <- newSy ;;
    modify (set__allowNegatives false) ;;
    when (negb (syIs sy SyNumber)) (error "duration" SyNumber true) ;;
    n <- syNumber ;;
    modify (set__currentDuration (parseDuration n)) ;;
    modify (set__currentTuplet (JInt 1)) ;;
    sy <- newSy ;;
    if negb (syIs sy SyLBrace) then ret tt
    else
      newSy ;;
      while (fun s => syIs (_sy s) SyString)
        (str <- syString ;;
         let effect := toLowerCase str in
         if strEq effect "tu" then
           sy <- newSy ;;
           when (negb (syIs sy SyNumber))
             (error "duration-tuplet" SyNumber true) ;;
           n <- syNumber ;;
           modify (set__currentTuplet n) ;;
           newSy ;; ret tt
         else error "beat-duration" SyString false) ;;
      sy <- gets _sy ;;
      when (negb (syIs sy SyRBrace)) (error "beat-duration" SyRBrace true) ;;
      newSy ;; ret tt.

(** Modelled from the spec: [Note.stringTuning], the capo of the staff
    plus the pitch of the string the note is on (0 without a tuning, not
    a number for a string outside the tuning). *)
Definition Note_stringTuning (note : NoteRef) : M JsNum :=
  n <- getNote note ;;
  beat <- deref (Note.beat n) ;;
  b <- getBeat beat ;;
  voice <- deref (Beat.voice b) ;;
  st <- getStaff (staffOf (vr_bar voice)) ;;
  let tuning := Staff.tunings st in
  let pitch :=
    if Nat.ltb 0 (length tuning) then
      match num_sub (JInt (Z.of_nat (length tuning))) (Note.string n) with
      | JFin i 0 =>
          if 0 <=? i
          then from_option JInt JNaN (tuning !! Z.to_nat i)
          else JNaN
      | _ => JNaN
      end
    else JInt 0 in
  ret (num_add (Staff.capo st) pitch).

Definition trillSpeedOf (n : JsNum) : Duration.t :=
  if num_eqb n (JInt 16) then Duration.Sixteenth
  else if num_eqb n (JInt 32) then Duration.ThirtySecond
  else if num_eqb n (JInt 64) then Duration.SixtyFourth
  else Duration.Sixteenth.

(** The [b] and [be] case of [noteEffects]. *)
Definition bendEffect (exact : bool) (note : NoteRef) : M unit :=
  sy <- newSy ;;
  when (negb (syIs sy SyLParensis)) (error "bend-effect" SyLParensis true) ;;
  newSy ;;
  readPoints exact "bend-effect-value"
    (fun p => modNote note
       (fun n => Note.set_bendPoints (addPoint p (Note.bendPoints n)) n)) ;;
  modNote note
    (fun n => Note.set_bendPoints (placeBendPoints exact <$> Note.bendPoints n) n) ;;
  sy <- gets _sy ;;
  when (negb (syIs sy SyRParensis)) (error "bend-effect" SyRParensis true) ;;
  newSy ;; ret tt.

(** The [lf] and [rf] cases of [noteEffects]. *)
Definition fingerEffect (set : Fingers.t -> Note.t -> Note.t) (note : NoteRef) : M unit :=
  sy <- newSy ;;
  finger <- (if syIs sy SyNumber
             then n <- syNumber ;; newSy ;; ret (toFinger n)
             else ret Fingers.Thumb) ;;
  modNote note (set finger).

(** One round of the loop of [noteEffects]. *)
Definition noteEffect (note : NoteRef) : M unit :=
  str <- syString ;;
  let syData := toLowerCase str in
  let simple (f : Note.t -> Note.t) : M unit :=
    modNote note f ;; newSy ;; ret tt in
  if strEq syData "b" || strEq syData "be" then
    bendEffect (strEq syData "be") note
  else if strEq syData "nh" then simple (Note.set_harmonicType HarmonicType.Natural)
  else if strEq syData "ah" then simple (Note.set_harmonicType HarmonicType.Artificial)
  else if strEq syData "th" then simple (Note.set_harmonicType HarmonicType.Tap)
  else if strEq syData "ph" then simple (Note.set_harmonicType HarmonicType.Pinch)
  else if strEq syData "sh" then simple (Note.set_harmonicType HarmonicType.Semi)
  else if strEq syData "tr" then
    sy <- newSy ;;
    when (negb (syIs sy SyNumber)) (error "trill-effect" SyNumber true) ;;
    fret <- syNumber ;;
    sy <- newSy ;;
    duration <- (if syIs sy SyNumber
                 then n <- syNumber ;; newSy ;; ret (trillSpeedOf n)
                 else ret Duration.Sixteenth) ;;
    stringTuning <- Note_stringTuning note ;;
    modNote note
      (fun n => Note.set_trillSpeed duration
                  (Note.set_trillValue (num_add fret stringTuning) n))
  else if strEq syData "v" then simple (Note.set_vibrato VibratoType.Slight)
  else if strEq syData "sl" then simple (Note.set_slideOutType SlideOutType.Legato)
  else if strEq syData "ss" then simple (Note.set_slideOutType SlideOutType.Shift)
  else if strEq syData "sib" then simple (Note.set_slideInType SlideInType.IntoFromBelow)
  else if strEq syData "sia" then simple (Note.set_slideInType SlideInType.IntoFromAbove)
  else if strEq syData "sou" then simple (Note.set_slideOutType SlideOutType.OutUp)
  else if strEq syData "sod" then simple (Note.set_slideOutType SlideOutType.OutDown)
  else if strEq syData "psd" then simple (Note.set_slideOutType SlideOutType.PickSlideDown)
  else if strEq syData "psu" then simple (Note.set_slideOutType SlideOutType.PickSlideUp)
  else if strEq syData "h" then simple (Note.set_isHammerPullOrigin true)
  else if strEq syData "lht" then simple (Note.set_isLeftHandTapped true)
  else if strEq syData "g" then simple (Note.set_isGhost true)
  else if strEq syData "ac" then simple (Note.set_accentuated AccentuationType.Normal)
  else if strEq syData "hac" then simple (Note.set_accentuated AccentuationType.Heavy)
  else if strEq syData "pm" then simple (Note.set_isPalmMute true)
  else if strEq syData "st" then simple (Note.set_isStaccato true)
  else if strEq syData "lr" then simple (Note.set_isLetRing true)
  else if strEq syData "x" then
    simple (fun n => Note.set_isDead true (Note.set_fret (JInt 0) n))
  else if strEq syData "-" || strEq syData "t" then
    simple (Note.set_isTieDestination true)
  else if strEq syData "lf" then fingerEffect Note.set_leftHandFinger note
  else if strEq syData "rf" then fingerEffect Note.set_rightHandFinger note
  else
    n <- getNote note ;;
    beat <- deref (Note.beat n) ;;
    applied <- applyBeatEffect beat ;;
    if applied then ret tt else error syData SyString false.

Definition noteEffects (note : NoteRef) : M unit :=
  sy <- gets _sy ;;
  if negb (syIs sy SyLBrace) then ret tt
  else
    newSy ;;
    while (fun s => syIs (_sy s) SyString) (noteEffect note) ;;
    sy <- gets _sy ;;
    when (negb (syIs sy SyRBrace)) (error "note-effect" SyRBrace false) ;;
    newSy ;; ret tt.

(** What the first terminal of a note stands for: the fret (or the
    articulation), a dead note, a tie, or octave and tone. *)
Record NoteHead : Type := mkNoteHead {
  nh_isDead : bool; nh_isTie : bool; nh_fret : JsNum;
  nh_octave : Z; nh_tone : Z }.

(** The [switch (this._sy)] at the start of [note]; [None] is its
    [default: return false]. *)
Definition noteHead (st : Staff.t) : M (option NoteHead) :=
  sy <- gets _sy ;;
  match sy with
  | SyNumber =>
      fret <- syNumber ;;
      when (Staff.isPercussion st && negb (instrumentArticulations_has ext fret))
        (errorMessage (MsgUnknownPercussionArticulation (DNum fret))) ;;
      ret (Some (mkNoteHead false false fret (-1) (-1)))
  | SyString =>
      str <- syString ;;
      if Staff.isPercussion st then
        names <- gets _percussionArticulationNames ;;
        match names !! toLowerCase str with
        | Some fret => ret (Some (mkNoteHead false false fret (-1) (-1)))
        | None => errorMessage (MsgUnknownPercussionArticulation (DStr str))
        end
      else
        let isDead := strEq str "x" in
        let isTie := strEq str "-" in
        if isTie || isDead
        then ret (Some (mkNoteHead isDead isTie (JInt 0) (-1) (-1)))
        else error "note-fret" SyNumber true
  | SyTuning =>
      tuning <- syTuning ;;
      ret (Some (mkNoteHead false false (JInt (-1)) (octave tuning) (noteValue tuning)))
  | _ => ret None
  end.

Definition note (beat : BeatRef) : M bool :=
  cur <- gets _currentStaff ;;
  st <- getStaff cur ;;
  head <- noteHead st ;;
  match head with
  | None => ret false
  | Some h =>
      newSy ;;
      let strings := length (Staff.tunings st) in
      let isFretted :=
        (nh_octave h =? -1) && Nat.ltb 0 strings && negb (Staff.isPercussion st) in
      noteString <-
        (if isFretted then
           sy <- gets _sy ;;
           when (negb (syIs sy SyDot)) (error "note" SyDot true) ;;
           sy <- newSy ;;
           when (negb (syIs sy SyNumber)) (error "note-string" SyNumber true) ;;
           noteString <- syNumber ;;
           when (num_ltb noteString (JInt 1)
                 || num_gtb noteString (JInt (Z.of_nat strings)))
             (error "note-string" SyNumber false) ;;
           newSy ;;
           ret noteString
         else ret (JInt (-1))) ;;
      n <- newNote ;;
      modNote n
        (fun n =>
           if isFretted then
             let n := Note.set_isTieDestination (nh_isTie h)
                        (Note.set_isDead (nh_isDead h)
                           (Note.set_string
                              (num_sub (JInt (Z.of_nat strings))
                                 (num_sub noteString (JInt 1))) n)) in
             if nh_isTie h then n else Note.set_fret (nh_fret h) n
           else if Staff.isPercussion st then
             Note.set_percussionArticulation (nh_fret h) n
           else
             Note.set_isTieDestination (nh_isTie h)
               (Note.set_tone (nh_tone h) (Note.set_octave (nh_octave h) n))) ;;
      Beat_addNote beat n ;;
      noteEffects n ;;
      ret true
  end.

Definition setAllowTuning : M unit :=
  cur <- gets _currentStaff ;;
  st <- getStaff cur ;;
  modify (set__allowTuning (negb (Staff.isPercussion st))).

(** [voice.beats.splice(voice.beats.length - 1, 1)] *)
Definition dropLastBeat (voice : VoiceRef) : M unit :=
  modVoice voice
    (fun v => Voice.set_beats
                (removeAt (length (Voice.beats v) - 1) (Voice.beats v)) v).

(** The notes of a beat: a parenthesised list, the rest [r], or one
    note.  Answers false when no note could be read and the beat has
    been taken out of the voice again. *)
Definition beatNotes (voice : VoiceRef) (beat : BeatRef) : M bool :=
  sy <- gets _sy ;;
  rest <- gets (fun s =>
    match _syData s with
    | DStr str => syIs (_sy s) SyString && strEq (toLowerCase str) "r"
    | _ => false
    end) ;;
  if syIs sy SyLParensis then
    newSy ;;
    note beat ;;
    whileBreak
      (fun s => negb (syIs (_sy s) SyRParensis) && negb (syIs (_sy s) SyEof))
      (setAllowTuning ;; note beat) ;;
    sy <- gets _sy ;;
    when (negb (syIs sy SyRParensis)) (error "note-list" SyRParensis true) ;;
    newSy ;; ret true
  else if rest then newSy ;; ret true
  else
    read <- note beat ;;
    if read then ret true else dropLastBeat voice ;; ret false.

(** Modelled from the spec: [BeatCloner.clone], a full deep copy: a new
    beat with the fields of the original beat and, for each of its notes,
    a new note with the fields of that note.  The copy belongs to no
    voice until it is added to one. *)
Definition cloneNote (clone : BeatRef) (original : NoteRef) : M unit :=
  n <- getNote original ;;
  notes <- gets noteStore ;;
  modify (set_noteStore (notes ++ [n])) ;;
  Beat_addNote clone (length notes).

Definition BeatCloner_clone (original : BeatRef) : M BeatRef :=
  b <- getBeat original ;;
  store <- gets beatStore ;;
  let clone := length store in
  modify (set_beatStore (store ++ [Beat.set_voice None (Beat.set_notes [] b)])) ;;
  forEachM (Beat.notes b) (cloneNote clone) ;;
  ret clone.

(** The [*N] part of [beat]: the beat multiplier, 1 if there is none. *)
Definition beatMultiplier : M JsNum :=
  sy <- gets _sy ;;
  if syIs sy SyMultiply then
    sy <- newSy ;;
    when (negb (syIs sy SyNumber)) (error "multiplier" SyNumber true) ;;
    n <- syNumber ;;
    newSy ;;
    ret n
  else ret (JInt 1).

(** The loop at the end of [beat]:
    [for (i = 0; i < beatRepeat - 1; i++) voice.addBeat(BeatCloner.clone(beat))]. *)
Definition repeatBeat (voice : VoiceRef) (beat : BeatRef) (beatRepeat : JsNum) : M unit :=
  repeatM (roundsBelow (num_sub beatRepeat (JInt 1)))
    (clone <- BeatCloner_clone beat ;; Voice_addBeat voice clone).

(** The rest of [beat] once its notes are read: duration, dynamics,
    tuplet, multiplier, effects, and the repetitions. *)
Definition beatFinish (voice : VoiceRef) (beat : BeatRef) : M unit :=
  sy <- gets _sy ;;
  (if syIs sy SyDot then
     modify (set__allowNegatives true) ;;
     sy <- newSy ;;
     modify (set__allowNegatives false) ;;
     when (negb (syIs sy SyNumber)) (error "duration" SyNumber true) ;;
     n <- syNumber ;;
     modify (set__currentDuration (parseDuration n)) ;;
     newSy ;; ret tt
   else ret tt) ;;
  duration <- gets _currentDuration ;;
  dynamics <- gets _currentDynamics ;;
  tuplet <- gets _currentTuplet ;;
  modBeat beat (fun b => Beat.set_dynamics dynamics (Beat.set_duration duration b)) ;;
  modBeat beat
    (fun b => if negb (num_eqb tuplet (JInt 1)) && negb (Beat_hasTuplet b)
              then applyTuplet tuplet b else b) ;;
  beatRepeat <- beatMultiplier ;;
  beatEffects beat ;;
  repeatBeat voice beat beatRepeat.

Definition beat (voice : VoiceRef) : M bool :=
  beatDuration ;;
  beat <- newBeat ;;
  Voice_addBeat voice beat ;;
  setAllowTuning ;;
  read <- beatNotes voice beat ;;
  if read then beatFinish voice beat ;; ret true else ret false.

Definition tempoAutomationOf (value : JsNum) : Automation.t :=
  Automation.set_value value
    (Automation.set_type AutomationType.Tempo
       (Automation.set_isLinear false Automation.new)).

(** The [ae] case of [barMeta]. *)
Definition alternateEndings (master : nat) : M unit :=
  sy <- newSy ;;
  if syIs sy SyLParensis then
    sy <- newSy ;;
    when (negb (syIs sy SyNumber)) (error "alternateending" SyNumber true) ;;
    applyAlternateEnding master ;;
    while (fun s => syIs (_sy s) SyNumber) (applyAlternateEnding master) ;;
    sy <- gets _sy ;;
    when (negb (syIs sy SyRParensis))
      (error "alternateending-list" SyRParensis true) ;;
    newSy ;; ret tt
  else
    when (negb (syIs sy SyNumber)) (error "alternateending" SyNumber true) ;;
    applyAlternateEnding master.

(** One round of the loop of [barMeta]: the meta command named by the
    current terminal. *)
Definition barMetaStep (bar : BarRef) : M unit :=
  let master := br_bar bar in
  str <- syString ;;
  let syData := toLowerCase str in
  if strEq syData "ts" then
    sy <- newSy ;;
    when (negb (syIs sy SyNumber)) (error "timesignature-numerator" SyNumber true) ;;
    n <- syNumber ;;
    modMasterBar master (MasterBar.set_timeSignatureNumerator n) ;;
    sy <- newSy ;;
    when (negb (syIs sy SyNumber)) (error "timesignature-denominator" SyNumber true) ;;
    n <- syNumber ;;
    modMasterBar master (MasterBar.set_timeSignatureDenominator n) ;;
    newSy ;; ret tt
  else if strEq syData "ro" then
    modMasterBar master (MasterBar.set_isRepeatStart true) ;;
    newSy ;; ret tt
  else if strEq syData "rc" then
    sy <- newSy ;;
    when (negb (syIs sy SyNumber)) (error "repeatclose" SyNumber true) ;;
    n <- syNumber ;;
    when (num_gtb n (JInt 2048)) (error "repeatclose" SyNumber false) ;;
    modMasterBar master (MasterBar.set_repeatCount n) ;;
    newSy ;; ret tt
  else if strEq syData "ae" then alternateEndings master
  else if strEq syData "ks" then
    sy <- newSy ;;
    when (negb (syIs sy SyString)) (error "keysignature" SyString true) ;;
    str <- syString ;;
    modMasterBar master (MasterBar.set_keySignature (parseKeySignature str)) ;;
    newSy ;; ret tt
  else if strEq syData "clef" then
    sy <- newSy ;;
    match sy with
    | SyString =>
        str <- syString ;; modBar bar (Bar.set_clef (parseClefFromString str))
    | SyNumber =>
        n <- syNumber ;; modBar bar (Bar.set_clef (parseClefFromInt n))
    | SyTuning =>
        parseResult <- syTuning ;;
        modBar bar (Bar.set_clef (parseClefFromInt (JInt (realValue parseResult))))
    | _ => error "clef" SyString true
    end ;;
    newSy ;; ret tt
  else if strEq syData "tempo" then
    tempoAutomation <- readTempoAutomation ;;
    modMasterBar master
      (fun m => MasterBar.set_tempoAutomations
                  (MasterBar.tempoAutomations m ++ [tempoAutomation]) m)
  else if strEq syData "section" then
    sy <- newSy ;;
    when (negb (syIs sy SyString)) (error "section" SyString true) ;;
    text <- syString ;;
    sy <- newSy ;;
    d <- gets _syData ;;
    section <-
      match sy, d with
      | SyString, DStr str =>
          if negb (isNoteText (toLowerCase str))
          then newSy ;; ret (Section.mk text str)
          else ret (Section.mk "" text)
      | _, _ => ret (Section.mk "" text)
      end ;;
    modMasterBar master (MasterBar.set_section (Some section))
  else if strEq syData "tf" then
    modify (set__allowTuning false) ;;
    sy <- newSy ;;
    modify (set__allowTuning true) ;;
    match sy with
    | SyString =>
        str <- syString ;;
        modMasterBar master (MasterBar.set_tripletFeel (parseTripletFeelFromString str))
    | SyNumber =>
        n <- syNumber ;;
        modMasterBar master (MasterBar.set_tripletFeel (parseTripletFeelFromInt n))
    | _ => error "triplet-feel" SyString true
    end ;;
    newSy ;; ret tt
  else if strEq syData "ac" then
    modMasterBar master (MasterBar.set_isAnacrusis true) ;;
    newSy ;; ret tt
  else if Nat.eqb (br_bar bar) 0 then
    handled <- handleStaffMeta ;;
    when (negb handled) (error "measure-effects" SyString false)
  else error "measure-effects" SyString false.

(** The loop of [barMeta] over the meta commands of the bar. *)
Definition barMetaLoop (bar : BarRef) : M bool :=
  whileAcc (fun s => syIs (_sy s) SyMetaCommand)
    (fun _ => barMetaStep bar ;; ret true) false.

Definition barMeta (bar : BarRef) : M bool :=
  let master := br_bar bar in
  anyMeta <- barMetaLoop bar ;;
  m <- getMasterBar master ;;
  sc <- gets _score ;;
  when (Nat.eqb master 0 && Nat.eqb (length (MasterBar.tempoAutomations m)) 0)
    (modMasterBar master
       (fun m => MasterBar.set_tempoAutomations
                   (MasterBar.tempoAutomations m ++ [tempoAutomationOf (Score.tempo sc)])
                   m)) ;;
  ret anyMeta.

(** The instrument-to-tuning table of [bar]: display transposition and
    string tuning for a program number. *)
Definition tuningOfProgram (program : JsNum) : Z * list Z :=
  let eq n := num_eqb program (JInt n) in
  let within a b := num_geb program (JInt a) && num_leb program (JInt b) in
  if eq 15 || within 24 31 then (-12, defaultTuning6)
  else if within 32 39 then (-12, [43; 38; 33; 28])
  else if eq 40 || eq 44 || eq 45 || eq 48 || eq 49 || eq 50 || eq 51
  then (0, [52; 57; 50; 43])
  else if eq 41 then (0, [57; 50; 43; 36])
  else if eq 42 then (0, [45; 38; 31; 24])
  else if eq 43 then (-12, [43; 38; 33; 28])
  else if eq 105 then (0, [50; 47; 43; 38; 55])
  else if eq 106 then (0, [57; 52; 45])
  else if eq 107 then (0, [52; 45; 38; 31])
  else if eq 110 then (0, [64; 57; 50; 43])
  else (0, []).

(** The "detect tuning for staff" block of [bar]. *)
Definition detectTuning : M unit :=
  applied <- gets _staffTuningApplied ;;
  explicit <- gets _staffHasExplicitTuning ;;
  when (negb applied && negb explicit)
    (track <- gets _currentTrack ;;
     cur <- gets _currentStaff ;;
     t <- getTrack track ;;
     let program := PlaybackInformation.program (Track.playbackInfo t) in
     let '(pitch, tuning) := tuningOfProgram program in
     modStaff cur
       (fun st => Staff.set_tunings tuning
                    (Staff.set_displayTranspositionPitch pitch st)) ;;
     modify (set__staffTuningApplied true)).

(** [new Beat()] with [isEmpty = true], added to the first voice of the
    bar. *)
Definition addEmptyBeat (voice : VoiceRef) : M unit :=
  emptyBeat <- newBeat ;;
  modBeat emptyBeat (Beat.set_isEmpty true) ;;
  Voice_addBeat voice emptyBeat.

Definition inheritMasterBar (previous m : MasterBar.t) : MasterBar.t :=
  MasterBar.set_tripletFeel (MasterBar.tripletFeel previous)
    (MasterBar.set_timeSignatureNumerator (MasterBar.timeSignatureNumerator previous)
       (MasterBar.set_timeSignatureDenominator (MasterBar.timeSignatureDenominator previous)
          (MasterBar.set_keySignatureType (MasterBar.keySignatureType previous)
             (MasterBar.set_keySignature (MasterBar.keySignature previous) m)))).

Definition bar : M bool :=
  anyStaffMeta <- trackStaffMeta ;;
  cur <- gets _currentStaff ;;
  bar <- newBar cur ;;
  st <- getStaff cur ;;
  sc <- gets _score ;;
  when (Nat.ltb (length (Score.masterBars sc)) (length (Staff.bars st)))
    (index <- Score_addMasterBar MasterBar.new ;;
     when (Nat.ltb 0 index)
       (previous <- getMasterBar (index - 1) ;;
        modMasterBar index (inheritMasterBar previous))) ;;
  anyBarMeta <- barMeta bar ;;
  detectTuning ;;
  let voice := mkVoiceRef bar 0 in
  getVoice voice ;;
  fuel <- gets fuelOf ;;
  anyBeatData <-
    loopM fuel
      (fun anyBeatData =>
         more <- gets (fun s => negb (syIs (_sy s) SyPipe)
                                && negb (syIs (_sy s) SyEof)) ;;
         if more then
           read <- beat voice ;;
           if read then ret (true, true) else ret (false, anyBeatData)
         else ret (false, anyBeatData))
      false ;;
  v <- getVoice voice ;;
  when (Nat.eqb (length (Voice.beats v)) 0) (addEmptyBeat voice) ;;
  ret (anyStaffMeta || anyBarMeta || anyBeatData).

Definition bars : M bool :=
  anyData <- bar ;;
  whileBreak (fun s => negb (syIs (_sy s) SyEof))
    (sy <- gets _sy ;;
     if syIs sy SyPipe then newSy ;; bar ;; ret true
     else if syIs sy SyMetaCommand then bar ;; ret true
     else ret false) ;;
  ret anyData.

(** The [while] loop of [consolidate] for one staff. *)
Definition padStaff (staff : StaffRef) : M unit :=
  sc <- gets _score ;;
  loopM (S (length (Score.masterBars sc)))
    (fun _ =>
       st <- getStaff staff ;;
       sc <- gets _score ;;
       if Nat.ltb (length (Staff.bars st)) (length (Score.masterBars sc)) then
         bar <- newBar staff ;;
         addEmptyBeat (mkVoiceRef bar 0) ;;
         ret (true, tt)
       else ret (false, tt))
    tt.

(** Ensures all staffs of all tracks have the correct number of bars. *)
Definition consolidate : M unit :=
  sc <- gets _score ;;
  forEachM (seq 0 (length (Score.tracks sc)))
    (fun track =>
       t <- getTrack track ;;
       forEachM (seq 0 (length (Track.staves t)))
         (fun staff => padStaff (mkStaffRef track staff))).

(** [try { ... } catch (e) { if (e instanceof AlphaTexError) throw new
    UnsupportedFormatError(e.message, e); else throw e; }] *)
Definition asUnsupportedFormat {A} (m : M A) : M A :=
  fun s =>
    match m s with
    | Throw (ExAlphaTex e) => Throw (ExUnsupportedFormatOf e)
    | r => r
    end.

(** [readScore], up to and including [consolidate].  What follows in the
    source ([Score.finish], [rebuildRepeatGroups], [applyLyrics]) belongs
    to the model classes; the document is left in the importer state
    ([_score] and the object store), the pending lyrics in [_lyrics]. *)
Definition readScore : M unit :=
  asUnsupportedFormat
    (modify (set__allowTuning true) ;;
     modify (set__lyrics ∅) ;;
     createDefaultScore ;;
     modify (set__curChPos 0%nat) ;;
     modify (set__line 1%nat) ;;
     modify (set__col 0%nat) ;;
     saveValidSpot ;;
     modify (set__currentDuration Duration.Quarter) ;;
     modify (set__currentDynamics DynamicValue.F) ;;
     modify (set__currentTuplet (JInt 1)) ;;
     nextChar ;;
     sy <- newSy ;;
     (if syIs sy SyLowerThan
      then throw (ExUnsupportedFormat "Unknown start sign '<' (meant to import as XML?)")
      else if syIs sy SyEof
      then throw (ExUnsupportedFormat "Unexpected end of file")
      else ret tt) ;;
     anyMetaRead <- metaData ;;
     anyBarsRead <- bars ;;
     when (negb anyMetaRead && negb anyBarsRead)
       (throw (ExUnsupportedFormat "No alphaTex data found")) ;;
     consolidate).

End AlphaTexImporter.

(** The importer after [new AlphaTexImporter()] and [initFromString(tex)]:
    the field initialisers of the class. *)
Definition initFromString (tex : string) : Importer :=
  {| _trackChannel := 0; _score := Score.new; beatStore := []; noteStore := [];
     _currentTrack := 0; _currentStaff := mkStaffRef 0 0;
     _input := tex; _ch := Eof; _curChPos := 0; _line := 1; _col := 0;
     _lastValidSpot := (0, 1, 0)%nat; _sy := SyNo; _syData := DStr "";
     _allowNegatives := false; _allowFloat := false; _allowTuning := false;
     _currentDuration := Duration.QuadrupleWhole;
     _currentDynamics := DynamicValue.PPP; _currentTuplet := JInt 0;
     _lyrics := ∅; _staffHasExplicitTuning := false;
     _staffTuningApplied := false; _percussionArticulationNames := ∅ |}.

(** Parsing a text: [initFromString] followed by [readScore]. *)
Definition importTex (ext : Externals) (tex : string) : Res unit :=
  readScore ext (initFromString tex).

(** ** Sample tables

    Modelled from the spec: an instance of [Externals] for concrete runs.
    A tuning name is a pitch letter, an optional accidental and an octave
    digit ([e4], [c#3], [bb2]); the token carries the octave, the chromatic
    tone and the real value.  The program and articulation tables are left
    empty. *)
Definition toneOfLetter (c : ascii) : option Z :=
  let n := charCode (lowerChar c) in
  if n =? 0x63 then Some 0
  else if n =? 0x64 then Some 2
  else if n =? 0x65 then Some 4
  else if n =? 0x66 then Some 5
  else if n =? 0x67 then Some 7
  else if n =? 0x61 then Some 9
  else if n =? 0x62 then Some 11
  else None.

Definition tuningOf (tone : Z) (digit : ascii) : option TuningParseResult :=
  if isDecDigit digit then
    let octave := charCode digit - 48 + 1 in
    Some (mkTuningParseResult octave tone (octave * 12 + tone))
  else None.

Definition sampleParseTuning (name : string) : option TuningParseResult :=
  match name with
  | String l (String d EmptyString) =>
      tone ← toneOfLetter l; tuningOf tone d
  | String l (String a (String d EmptyString)) =>
      tone ← toneOfLetter l;
      if charCode a =? 0x23 then tuningOf (tone + 1) d
      else if charCode a =? 0x62 then tuningOf (tone - 1) d
      else None
  | _ => None
  end.

Definition sampleExternals : Externals :=
  {| parseTuning := sampleParseTuning;
     GeneralMidi_getValue := fun _ => JInt 0;
     instrumentArticulations_has := fun _ => false;
     instrumentArticulationNames := [] |}.

(** The state a computation ends in, for concrete runs. *)
Definition stateAfter {A} (m : M A) (s : Importer) : Importer :=
  match m s with
  | Ok _ s' => s'
  | _ => s
  end.

(** The importer on the first terminal of a text, with the sample
    tables. *)
Definition atFirstSymbol (tex : string) : Importer :=
  stateAfter (nextChar ;; newSy sampleExternals) (initFromString tex).

(** The importer after the parse of a text, with the sample tables. *)
Definition parsed (tex : string) : Importer :=
  stateAfter (readScore sampleExternals) (initFromString tex).

(** The importer of an earlier run, put on the first terminal of another
    text. *)
Definition resume (tex : string) (s : Importer) : Importer :=
  stateAfter (nextChar ;; newSy sampleExternals)
    (set__input tex (set__ch Eof (set__curChPos 0 (set__line 1 (set__col 0 s))))).

(** The importer in the first bar of the text [r], where [bar] has made
    the bar and the master bar and is about to read the meta commands. *)
Definition inFirstBar : Importer :=
  stateAfter (newBar (mkStaffRef 0 0) ;; Score_addMasterBar MasterBar.new)
    (resume "r" (stateAfter createDefaultScore (initFromString EmptyString))).

(** ** Specifications *)

(** The spellings of the clef, triplet-feel and key-signature values, as
    documented for the notation. *)
Definition clefTable : list (string * Clef.t) :=
  [("g2", Clef.G2); ("treble", Clef.G2); ("f4", Clef.F4); ("bass", Clef.F4);
   ("c3", Clef.C3); ("tenor", Clef.C3); ("c4", Clef.C4); ("alto", Clef.C4);
   ("n", Clef.Neutral); ("neutral", Clef.Neutral)].

Definition tripletFeelTable : list (string * TripletFeel.t) :=
  [("no", TripletFeel.NoTripletFeel); ("none", TripletFeel.NoTripletFeel);
   ("t16", TripletFeel.Triplet16th); ("triplet-16th", TripletFeel.Triplet16th);
   ("t8", TripletFeel.Triplet8th); ("triplet-8th", TripletFeel.Triplet8th);
   ("d16", TripletFeel.Dotted16th); ("dotted-16th", TripletFeel.Dotted16th);
   ("d8", TripletFeel.Dotted8th); ("dotted-8th", TripletFeel.Dotted8th);
   ("s16", TripletFeel.Scottish16th); ("scottish-16th", TripletFeel.Scottish16th);
   ("s8", TripletFeel.Scottish8th); ("scottish-8th", TripletFeel.Scottish8th)].

Definition keySignatureTable : list (string * KeySignature.t) :=
  [("cb", KeySignature.Cb); ("cbmajor", KeySignature.Cb);
   ("gb", KeySignature.Gb); ("gbmajor", KeySignature.Gb); ("d#minor", KeySignature.Gb);
   ("db", KeySignature.Db); ("dbmajor", KeySignature.Db); ("bbminor", KeySignature.Db);
   ("ab", KeySignature.Ab); ("abmajor", KeySignature.Ab); ("fminor", KeySignature.Ab);
   ("eb", KeySignature.Eb); ("ebmajor", KeySignature.Eb); ("cminor", KeySignature.Eb);
   ("bb", KeySignature.Bb); ("bbmajor", KeySignature.Bb); ("gminor", KeySignature.Bb);
   ("f", KeySignature.F); ("fmajor", KeySignature.F); ("dminor", KeySignature.F);
   ("c", KeySignature.C); ("cmajor", KeySignature.C); ("aminor", KeySignature.C);
   ("g", KeySignature.G); ("gmajor", KeySignature.G); ("eminor", KeySignature.G);
   ("d", KeySignature.D); ("dmajor", KeySignature.D); ("bminor", KeySignature.D);
   ("a", KeySignature.A); ("amajor", KeySignature.A); ("f#minor", KeySignature.A);
   ("e", KeySignature.E); ("emajor", KeySignature.E); ("c#minor", KeySignature.E);
   ("b", KeySignature.B); ("bmajor", KeySignature.B); ("g#minor", KeySignature.B);
   ("f#", KeySignature.FSharp); ("f#major", KeySignature.FSharp);
   ("ebminor", KeySignature.FSharp);
   ("c#", KeySignature.CSharp); ("c#major", KeySignature.CSharp)].

(** The value a table gives to a spelling, if it lists it. *)
Definition lookupName {A} (table : list (string * A)) (name : string) : option A :=
  snd <$> List.find (fun e => strEq name (fst e)) table.

(** Bend and whammy points: an integer offset, offsets in ascending and in
    strictly ascending order, and offsets spaced by a fixed step from 0
    inside the range 0..60. *)
Definition hasIntOffset (p : BendPoint.t) : Prop :=
  exists x, BendPoint.offset p = JInt x.

Definition offsetLeZ (a b : BendPoint.t) : Prop :=
  exists x y, BendPoint.offset a = JInt x /\ BendPoint.offset b = JInt y /\ x <= y.

Definition offsetLtZ (a b : BendPoint.t) : Prop :=
  exists x y, BendPoint.offset a = JInt x /\ BendPoint.offset b = JInt y /\ x < y.

Definition evenlySpaced (step : Z) (points : list BendPoint.t) : Prop :=
  forall (i : nat) p, points !! i = Some p ->
    BendPoint.offset p = JInt (Z.of_nat i * step) /\ 0 <= Z.of_nat i * step <= 60.

(** The values of the points, in order. *)
Definition valuesOf (points : list BendPoint.t) : list JsNum :=
  BendPoint.value <$> points.

(** *** Frame conditions

    [pres R m]: whenever [m] returns, the states before and after are
    related by [R]. *)
Definition pres {A} (R : relation Importer) (m : M A) : Prop :=
  forall s a s', m s = Ok a s' -> R s s'.

(** A computation that only reads the state. *)
Definition readOnly {A} (m : M A) : Prop :=
  forall s a s', m s = Ok a s' -> s' = s.

(** The fields that the lexer leaves alone: everything but the current
    character, the position and the current terminal. *)
Definition beyondLexer (s : Importer) :=
  (_trackChannel s, _score s, beatStore s, noteStore s, _currentTrack s,
   _currentStaff s, _input s, _allowNegatives s, _allowFloat s, _allowTuning s,
   _currentDuration s, _currentDynamics s, _currentTuplet s, _lyrics s,
   _staffHasExplicitTuning s, _staffTuningApplied s,
   _percussionArticulationNames s).

Definition lexOnly (s s' : Importer) : Prop := beyondLexer s' = beyondLexer s.

(** The document and the references into it. *)
Definition document (s : Importer) :=
  (_score s, beatStore s, noteStore s, _currentTrack s, _currentStaff s).

Definition sameDocument (s s' : Importer) : Prop := document s' = document s.

(** The number of bars of every staff of every track, and the number of
    master bars. *)
Definition barCounts (sc : Score.t) : list (list nat) :=
  (fun t => (fun st => length (Staff.bars st)) <$> Track.staves t) <$> Score.tracks sc.

Definition shape (s : Importer) : list (list nat) * nat :=
  (barCounts (_score s), length (Score.masterBars (_score s))).

(** The first master bar carries a tempo automation. *)
Definition hasTempo (s : Importer) : Prop :=
  exists m, Score.masterBars (_score s) !! 0%nat = Some m
            /\ MasterBar.tempoAutomations m <> [].

(** What every production keeps that does not add tracks, staves, bars or
    master bars. *)
Definition quiet (s s' : Importer) : Prop :=
  shape s' = shape s
  /\ (hasTempo s -> hasTempo s')
  /\ _currentTrack s' = _currentTrack s
  /\ _currentStaff s' = _currentStaff s.

(** The bars of every staff (with their voices and the references of
    their beats). *)
Definition allBars (s : Importer) : list (list (list Bar.t)) :=
  (fun t => Staff.bars <$> Track.staves t) <$> Score.tracks (_score s).

Definition sameBars (s s' : Importer) : Prop := allBars s' = allBars s.

(** Every beat of the store is still there, with the same notes and the
    same empty flag, and the notes are untouched. *)
Definition sameBeats (s s' : Importer) : Prop :=
  (forall r b, beatStore s !! r = Some b ->
     exists b', beatStore s' !! r = Some b'
                /\ Beat.isEmpty b' = Beat.isEmpty b
                /\ Beat.notes b' = Beat.notes b)
  /\ noteStore s' = noteStore s.

(** The frame of the note-level productions and of the beat-level ones. *)
Definition noteFrame (s s' : Importer) : Prop := quiet s s' /\ sameBars s s'.
Definition beatFrame (s s' : Importer) : Prop :=
  quiet s s' /\ sameBars s s' /\ sameBeats s s'.

(** *** Bars and master bars *)

Definition masterBarCount (s : Importer) : nat :=
  length (Score.masterBars (_score s)).

(** No staff has more bars than there are master bars; every staff has
    exactly as many. *)
Definition barsLe (s : Importer) : Prop :=
  Forall (Forall (fun n => (n <= masterBarCount s)%nat)) (barCounts (_score s)).

Definition barsFull (s : Importer) : Prop :=
  Forall (Forall (fun n => n = masterBarCount s)) (barCounts (_score s)).

(** The number of bars of a staff. *)
Definition countAt (r : StaffRef) (s : Importer) : option nat :=
  barCounts (_score s) !! sr_track r ≫= (fun l => l !! sr_staff r).

(** The number of staves of every track. *)
Definition staffCounts (s : Importer) : list nat :=
  length <$> barCounts (_score s).

(** The invariant of the bar sequence, and how the structural productions
    move towards it: bars never outnumber master bars, and the first
    master bar, once there, keeps its tempo automation. *)
Definition barsInv (s : Importer) : Prop := barsLe s /\ hasTempo s.

Definition keepsInv (s s' : Importer) : Prop :=
  (barsLe s -> barsLe s')
  /\ (hasTempo s -> hasTempo s')
  /\ masterBarCount s' = masterBarCount s.

(** A step that keeps the invariant of the bar sequence. *)
Definition invStep (s s' : Importer) : Prop := barsInv s -> barsInv s'.

(** What padding does: the master bars, the tracks and their staves stay;
    a staff that is full stays full. *)
Definition pads (s s' : Importer) : Prop :=
  masterBarCount s' = masterBarCount s
  /\ staffCounts s' = staffCounts s
  /\ (barsLe s -> barsLe s')
  /\ (hasTempo s -> hasTempo s')
  /\ (forall r, countAt r s = Some (masterBarCount s) ->
                 countAt r s' = Some (masterBarCount s')).

(** The tracks of the score and the current track stay. *)
Definition trackCount (s : Importer) : nat := length (Score.tracks (_score s)).

Definition sameTracks (s s' : Importer) : Prop :=
  trackCount s' = trackCount s
  /\ _currentTrack s' = _currentTrack s
  /\ masterBarCount s' = masterBarCount s.

(** *** Repeated beats *)

(** The staff, bar and voice a reference names in a score. *)
Definition staffIn (sc : Score.t) (r : StaffRef) : option Staff.t :=
  t ← Score.tracks sc !! sr_track r; Track.staves t !! sr_staff r.

Definition barIn (sc : Score.t) (r : BarRef) : option Bar.t :=
  st ← staffIn sc (staffOf r); Staff.bars st !! br_bar r.

Definition voiceIn (sc : Score.t) (r : VoiceRef) : option Voice.t :=
  b ← barIn sc (vr_bar r); Bar.voices b !! vr_voice r.

(** The beats of a voice, in order. *)
Definition beatsOf (s : Importer) (v : VoiceRef) : option (list BeatRef) :=
  Voice.beats <$> voiceIn (_score s) v.

(** The notes of a beat. *)
Definition notesOf (s : Importer) (b : Beat.t) : option (list Note.t) :=
  mapM (fun n => noteStore s !! n) (Beat.notes b).

(** What a beat holds, whichever objects hold it: its own fields and the
    fields of its notes, in order, without the references to the owners
    and to the note objects. *)
Definition beatContent (s : Importer) (r : BeatRef) : option (Beat.t * list Note.t) :=
  b ← beatStore s !! r;
  ns ← notesOf s b;
  Some (Beat.set_voice None (Beat.set_notes [] b),
        (Note.set_beat None <$> ns : list Note.t)).

(** The score after a change of one voice. *)
Definition updVoice (f : Voice.t -> Voice.t) (v : VoiceRef) (sc : Score.t) : Score.t :=
  Score.set_tracks
    (alter (fun t => Track.set_staves
       (alter (fun st => Staff.set_bars
          (alter (fun b => Bar.set_voices (alter f (vr_voice v) (Bar.voices b)) b)
             (br_bar (vr_bar v)) (Staff.bars st)) st)
          (br_staff (vr_bar v)) (Track.staves t)) t)
       (br_track (vr_bar v)) (Score.tracks sc)) sc.

(** A state with other object stores. *)
Definition withStores (B : list Beat.t) (N : list Note.t) (s : Importer) : Importer :=
  set_noteStore N (set_beatStore B s).

(** The beats and notes that [k] repetitions of a beat [b] with the notes
    [ns] add to the stores, whose sizes were [nb] and [nn]. *)
Fixpoint cloneBeats (voice : VoiceRef) (b : Beat.t) (m nn k : nat) : list Beat.t :=
  match k with
  | O => []
  | S k' => Beat.set_voice (Some voice) (Beat.set_notes (seq nn m) b)
            :: cloneBeats voice b m (nn + m) k'
  end.

Fixpoint cloneNotes (ns : list Note.t) (nb k : nat) : list Note.t :=
  match k with
  | O => []
  | S k' => (Note.set_beat (Some nb) <$> ns) ++ cloneNotes ns (S nb) k'
  end.

(** *** Rests and empty beats *)

(** The current terminal is the rest [r]. *)
Definition restAt (s : Importer) : Prop :=
  _sy s = SyString /\ exists str, _syData s = DStr str /\ toLowerCase str = "r".

(** The current terminal is kept. *)
Definition sameToken (s s' : Importer) : Prop :=
  _sy s' = _sy s /\ _syData s' = _syData s.

(** Every beat of the store is still there, with the same notes and the
    same empty flag. *)
Definition keepsBeats (s s' : Importer) : Prop :=
  forall r b, beatStore s !! r = Some b ->
    exists b', beatStore s' !! r = Some b'
               /\ Beat.isEmpty b' = Beat.isEmpty b
               /\ Beat.notes b' = Beat.notes b.

(** The beats other than [c] are untouched. *)
Definition keepsOthers (c : BeatRef) (s s' : Importer) : Prop :=
  forall r, r <> c -> beatStore s' !! r = beatStore s !! r.

(** *** Chords and tunings *)

(** The chords declared on a staff. *)
Definition chordsOf (s : Importer) (r : StaffRef) : option (gmap string Chord.t) :=
  Staff.chords <$> staffIn (_score s) r.

(** The chords of every staff and the current staff are kept. *)
Definition sameChords (s s' : Importer) : Prop :=
  _currentStaff s' = _currentStaff s /\ forall r, chordsOf s' r = chordsOf s r.

(** *** Track names *)

Definition trackNames (s : Importer) : list string :=
  Track.name <$> Score.tracks (_score s).

(** The names of the tracks and the current track are kept. *)
Definition sameNames (s s' : Importer) : Prop :=
  trackNames s' = trackNames s /\ _currentTrack s' = _currentTrack s.

(** *** Padding bars *)

(** A bar with one voice that holds one beat, which is marked empty and
    has no notes. *)
Definition emptyBarIn (s : Importer) (b : Bar.t) : Prop :=
  exists v r be,
    Bar.voices b = [v] /\ Voice.beats v = [r]
    /\ beatStore s !! r = Some be
    /\ Beat.isEmpty be = true /\ Beat.notes be = [].

(** What [consolidate] does: the master bars stay, the beats that were
    there stay, no staff comes or goes, and every staff keeps its bars,
    followed by bars that are empty. *)
Definition padded (s s' : Importer) : Prop :=
  Score.masterBars (_score s') = Score.masterBars (_score s)
  /\ (exists B, beatStore s' = beatStore s ++ B)
  /\ (forall r st, staffIn (_score s) r = Some st ->
        exists st' pad,
          staffIn (_score s') r = Some st'
          /\ Staff.bars st' = Staff.bars st ++ pad
          /\ Forall (emptyBarIn s') pad)
  /\ (forall r, staffIn (_score s) r = None -> staffIn (_score s') r = None).

(** *** Identifiers *)

(** A lower-case letter or a digit. *)
Definition isLowerAlphaNum (c : ascii) : bool :=
  let n := charCode c in
  ((0x61 <=? n) && (n <=? 0x7a)) || ((0x30 <=? n) && (n <=? 0x39)).

(** The characters of a string. *)
Definition charsOf (s : string) : list ascii := list_ascii_of_string s.

(** *** Termination *)

(** A computation that returns or raises, whatever the state it starts
    in: none of its loops uses up its iteration bound. *)
Definition returns {A} (m : M A) : Prop := forall s, m s <> OutOfFuel.

(** The part of the input that is not read yet, and the characters that
    are left for the lexer: the unread ones and the one in [_ch], unless
    that is the end mark. *)
Definition unread (s : Importer) : nat :=
  (String.length (_input s) - _curChPos s)%nat.

Definition charsLeft (s : Importer) : nat :=
  (unread s + (if Z.eqb (_ch s) Eof then 0 else 1))%nat.

(** The lexer reads forwards: the input stays, the position does not
    decrease and does not pass the end of the input, and no character
    comes back. *)
Definition fewer (s s' : Importer) : Prop :=
  _input s' = _input s
  /\ (_curChPos s <= _curChPos s')%nat
  /\ ((_curChPos s <= String.length (_input s))%nat ->
      (_curChPos s' <= String.length (_input s))%nat)
  /\ (charsLeft s' <= charsLeft s)%nat.

(** The lexer is where it was: the input, the position and the character
    in [_ch]; and the current terminal as well. *)
Definition still (s s' : Importer) : Prop :=
  _input s' = _input s /\ _curChPos s' = _curChPos s /\ _ch s' = _ch s.

Definition sameLexer (s s' : Importer) : Prop :=
  still s s' /\ _sy s' = _sy s.

(** A piece of the lexer that takes the character in [_ch], if there is
    one. *)
Definition eats {A} (m : M A) : Prop :=
  forall s a s', m s = Ok a s' -> _ch s <> Eof -> (charsLeft s' < charsLeft s)%nat.

(** What is left for the parser: the characters, counted twice, and the
    current terminal unless it is the end of the file. *)
Definition workLeft (s : Importer) : nat :=
  (2 * charsLeft s + (if syIs (_sy s) SyEof then 0 else 1))%nat.

(** The terminals left to read, for the bound of a loop. *)
Definition tokensLeft (s : Importer) : nat :=
  (charsLeft s + (if syIs (_sy s) SyEof then 0 else 1))%nat.

(** A production either reads on or leaves the current terminal where it
    is. *)
Definition move (s s' : Importer) : Prop :=
  (workLeft s' < workLeft s)%nat
  \/ (workLeft s' = workLeft s /\ _sy s' = _sy s).

(** A production that reads on whenever the current terminal is one of
    [P]. *)
Definition stepsIf (P : AlphaTexSymbols -> Prop) (s s' : Importer) : Prop :=
  move s s' /\ (P (_sy s) -> (workLeft s' < workLeft s)%nat).

Definition steps : relation Importer := stepsIf (fun sy => sy <> SyEof).

(** [R] relates the states around the runs of [m] whose answer passes
    [ok]. *)
Definition presWhen {A} (ok : A -> bool) (R : relation Importer) (m : M A) : Prop :=
  forall s a s', m s = Ok a s' -> ok a = true -> R s s'.

(** *** Blank texts *)

(** A text of blanks only, and a lexer that has only blanks ahead: the
    character in [_ch], if there is one, and the unread part of the
    input. *)
Definition blank (tex : string) : Prop :=
  Forall (fun c => isWhiteSpace (charCode c) = true) (charsOf tex).

Definition blankAhead (s : Importer) : Prop :=
  (_ch s = Eof \/ isWhiteSpace (_ch s) = true)
  /\ forall n c, (_curChPos s <= n)%nat ->
       String.get n (_input s) = Some c -> isWhiteSpace (charCode c) = true.

(** *** Alternate endings *)

(** The endings that are set in the mask of a master bar stay set. *)
Definition keepsEndings (master : nat) (s s' : Importer) : Prop :=
  forall m, Score.masterBars (_score s) !! master = Some m ->
    exists m', Score.masterBars (_score s') !! master = Some m'
      /\ forall k, 0 <= k < 32 ->
           Z.testbit (MasterBar.alternateEndings m) k = true ->
           Z.testbit (MasterBar.alternateEndings m') k = true.

(** *** Bars, voices and beats *)

(** The voices of the bars of a staff. *)
Definition voicesOf (s : Importer) (r : StaffRef) : option (list (list Voice.t)) :=
  (fun st => Bar.voices <$> Staff.bars st) <$> staffIn (_score s) r.

(** The voices of a bar that has exactly one voice, with at least one
    beat. *)
Definition oneVoice (vs : list Voice.t) : Prop :=
  exists v, vs = [v] /\ Voice.beats v <> [].

(** Every bar of every staff has one voice with at least one beat. *)
Definition complete (s : Importer) : Prop :=
  forall r vs, voicesOf s r = Some vs -> Forall oneVoice vs.

(** The bars of every staff keep their voices. *)
Definition keepsVoices (s s' : Importer) : Prop :=
  forall r, voicesOf s' r = voicesOf s r.

(** The staves keep their bars and voices; the staves that are new have
    no bars. *)
Definition addsStaves (s s' : Importer) : Prop :=
  (forall r vs, voicesOf s r = Some vs -> voicesOf s' r = Some vs)
  /\ (forall r vs, voicesOf s' r = Some vs -> voicesOf s r = Some vs \/ vs = []).

(** Only the voices of one bar change, and their number stays. *)
Definition inBar (bar : BarRef) (s s' : Importer) : Prop :=
  (forall r, r <> staffOf bar -> voicesOf s' r = voicesOf s r)
  /\ exists g : list Voice.t -> list Voice.t,
       (forall vs, length (g vs) = length vs)
       /\ voicesOf s' (staffOf bar) = alter g (br_bar bar) <$> voicesOf s (staffOf bar).

(** A step of the parse between bars: complete documents stay complete,
    and no staff goes. *)
Definition completes (s s' : Importer) : Prop :=
  (complete s -> complete s')
  /\ (forall r, is_Some (voicesOf s r) -> is_Some (voicesOf s' r)).

(** *** The duration and the dynamics of a beat *)

(** The beat [c] has the duration and the dynamics that are current. *)
Definition carriesCurrent (c : BeatRef) (s : Importer) : Prop :=
  exists b, beatStore s !! c = Some b
    /\ Beat.duration b = _currentDuration s
    /\ Beat.dynamics b = _currentDynamics s.

Definition keepsCurrent (c : BeatRef) (s s' : Importer) : Prop :=
  carriesCurrent c s -> carriesCurrent c s'.

(** *** The payload of a terminal *)

Fixpoint digitsOnly (s : string) : bool :=
  match s with
  | EmptyString => true
  | String c r => isDecDigit c && digitsOnly r
  end.

(** A number without sign and without fraction. *)
Definition isNatural (n : JsNum) : Prop := exists z, n = JInt z /\ 0 <= z.

(** Neither signs nor fractions are read as parts of a number. *)
Definition plainNumbers (s : Importer) : Prop :=
  _allowNegatives s = false /\ _allowFloat s = false.

(** The payload in [_syData] is of the kind that the terminal in [_sy]
    stands for; a terminal without payload keeps the payload of [s0]. *)
Definition payloadFits (s0 s : Importer) : Prop :=
  match _sy s with
  | SyNumber =>
      exists n, _syData s = DNum n /\ (plainNumbers s0 -> isNatural n)
  | SyString | SyMetaCommand => exists str, _syData s = DStr str
  | SyTuning => exists t, _syData s = DTuning t
  | _ => _syData s = _syData s0
  end.

(** *** The string of a note *)

(** The note [n] keeps its string. *)
Definition keepsString (n : NoteRef) (s s' : Importer) : Prop :=
  forall x, noteStore s !! n = Some x ->
    exists x', noteStore s' !! n = Some x' /\ Note.string x' = Note.string x.

(** The importer in the first bar, with a new beat in the store and on the
    first terminal of [tex]; and the staff it is working on. *)
Definition beforeNote (tex : string) : Importer :=
  resume tex (stateAfter newBeat inFirstBar).

Definition currentStaffOf (s : Importer) : Staff.t :=
  default Staff.new (staffIn (_score s) (_currentStaff s)).

(** *** The signature of a master bar *)

(** What a new master bar takes over from the one before it. *)
Definition signatureOf (m : MasterBar.t) :=
  (MasterBar.keySignature m, MasterBar.keySignatureType m,
   MasterBar.timeSignatureNumerator m, MasterBar.timeSignatureDenominator m,
   MasterBar.tripletFeel m).

Definition signatures (s : Importer) :=
  signatureOf <$> Score.masterBars (_score s).

Definition keepsSignatures (s s' : Importer) : Prop :=
  signatures s' = signatures s.


(** * Properties *)

(** ** Running a computation *)

Lemma bind_Ok {A B} (m : M A) (k : A -> M B) s b s' :
  bind m k s = Ok b s' <-> exists a s1, m s = Ok a s1 /\ k a s1 = Ok b s'.
Proof.
  unfold bind. split.
  - destruct (m s) as [a s1| |]; try discriminate. eauto.
  - intros (a & s1 & -> & H). exact H.
Qed.

Lemma bind_run {A B} (m : M A) (k : A -> M B) s a s1 :
  m s = Ok a s1 -> bind m k s = k a s1.
Proof. unfold bind. intros ->. reflexivity. Qed.

Lemma bind_assoc {A B C} (m : M A) (k : A -> M B) (k' : B -> M C) s :
  bind (bind m k) k' s = bind m (fun a => bind (k a) k') s.
Proof. unfold bind. destruct (m s); reflexivity. Qed.

Lemma bind_ret_run {A B} (a : A) (k : A -> M B) s : bind (ret a) k s = k a s.
Proof. reflexivity. Qed.

Lemma bind_gets_run {A B} (f : Importer -> A) (k : A -> M B) s :
  bind (gets f) k s = k (f s) s.
Proof. reflexivity. Qed.

Lemma bind_modify_run {B} (f : Importer -> Importer) (k : unit -> M B) s :
  bind (modify f) k s = k tt (f s).
Proof. reflexivity. Qed.

Lemma importTex_run ext tex : importTex ext tex = readScore ext (initFromString tex).
Proof. unfold importTex. reflexivity. Qed.

Lemma syString_run s str : _syData s = DStr str -> syString s = Ok str s.
Proof. unfold syString, bind, gets. intros ->. reflexivity. Qed.

Lemma syNumber_run s n : _syData s = DNum n -> syNumber s = Ok n s.
Proof. unfold syNumber, bind, gets. intros ->. reflexivity. Qed.

(** Symbolic execution of a computation whose intermediate results are
    among the hypotheses. *)
Ltac mrun :=
  repeat first
    [ rewrite bind_assoc
    | rewrite bind_ret_run
    | rewrite bind_gets_run
    | rewrite bind_modify_run
    | match goal with
      | H : ?m ?s = Ok _ _ |- context [bind ?m _ ?s] =>
          rewrite (bind_run m _ s _ _ H)
      | H : _syData ?s = DStr _ |- context [bind syString _ ?s] =>
          rewrite (bind_run _ _ _ _ _ (syString_run _ _ H))
      | H : _syData ?s = DNum _ |- context [bind syNumber _ ?s] =>
          rewrite (bind_run _ _ _ _ _ (syNumber_run _ _ H))
      | |- context [syIs ?a ?b] =>
          is_constructor a; is_constructor b;
          let v := eval vm_compute in (syIs a b) in
          change (syIs a b) with v
      end
    | progress cbn [when negb andb orb strEq String.eqb Ascii.eqb Bool.eqb] ].

(** ** Unknown spellings of enumerated values *)

Lemma parseClefFromString_table str :
  parseClefFromString str = default Clef.G2 (lookupName clefTable (toLowerCase str)).
Proof.
  unfold parseClefFromString, lookupName, clefTable, oneOf.
  generalize (toLowerCase str); intros s.
  cbn [existsb List.find fst snd].
  repeat (destruct (strEq s _); cbn; try reflexivity).
Qed.

Lemma parseTripletFeelFromString_table str :
  parseTripletFeelFromString str =
  default TripletFeel.NoTripletFeel (lookupName tripletFeelTable (toLowerCase str)).
Proof.
  unfold parseTripletFeelFromString, lookupName, tripletFeelTable, oneOf.
  generalize (toLowerCase str); intros s.
  cbn [existsb List.find fst snd].
  repeat (destruct (strEq s _); cbn; try reflexivity).
Qed.

Lemma parseKeySignature_table str :
  parseKeySignature str =
  default KeySignature.C (lookupName keySignatureTable (toLowerCase str)).
Proof.
  unfold parseKeySignature, lookupName, keySignatureTable, oneOf.
  generalize (toLowerCase str); intros s.
  cbn [existsb List.find fst snd].
  repeat (destruct (strEq s _); cbn; try reflexivity).
Qed.

Section BarMetaValues.
Context (ext : Externals) (bar : BarRef).

Lemma barMetaStep_clef s tag s1 str :
  _syData s = DStr tag -> toLowerCase tag = "clef" ->
  newSy ext s = Ok SyString s1 -> _syData s1 = DStr str ->
  barMetaStep ext bar s =
  (modBar bar (Bar.set_clef (parseClefFromString str)) ;; newSy ext ;; ret tt) s1.
Proof.
  intros Hd Ht Hn Hd1. unfold barMetaStep.
  mrun. rewrite Ht. mrun. reflexivity.
Qed.

Lemma barMetaStep_ks s tag s1 str :
  _syData s = DStr tag -> toLowerCase tag = "ks" ->
  newSy ext s = Ok SyString s1 -> _syData s1 = DStr str ->
  barMetaStep ext bar s =
  (modMasterBar (br_bar bar) (MasterBar.set_keySignature (parseKeySignature str)) ;;
   newSy ext ;; ret tt) s1.
Proof.
  intros Hd Ht Hn Hd1. unfold barMetaStep.
  mrun. rewrite Ht. mrun. reflexivity.
Qed.

Lemma barMetaStep_tf s tag s1 str :
  _syData s = DStr tag -> toLowerCase tag = "tf" ->
  newSy ext (set__allowTuning false s) = Ok SyString s1 -> _syData s1 = DStr str ->
  barMetaStep ext bar s =
  (modMasterBar (br_bar bar)
     (MasterBar.set_tripletFeel (parseTripletFeelFromString str)) ;;
   newSy ext ;; ret tt) (set__allowTuning true s1).
Proof.
  intros Hd Ht Hn Hd1. unfold barMetaStep.
  assert (Hd2 : _syData (set__allowTuning true s1) = DStr str) by exact Hd1.
  mrun. rewrite Ht. mrun. reflexivity.
Qed.
End BarMetaValues.

(** C8: a string given to the clef, triplet-feel or key-signature bar meta
    is looked up in the table of spellings (ignoring case); a string that is
    not a recognized spelling yields the default value (clef G2, no triplet
    feel, key signature C) and never an error: the bar meta stores the value
    and goes on with the next terminal. *)
Theorem C8_unknown_spellings_fall_back (ext : Externals) (bar : BarRef) (str : string) :
  parseClefFromString str = default Clef.G2 (lookupName clefTable (toLowerCase str))
  /\ parseTripletFeelFromString str =
     default TripletFeel.NoTripletFeel (lookupName tripletFeelTable (toLowerCase str))
  /\ parseKeySignature str =
     default KeySignature.C (lookupName keySignatureTable (toLowerCase str))
  /\ (forall s tag s1,
        _syData s = DStr tag -> toLowerCase tag = "clef" ->
        newSy ext s = Ok SyString s1 -> _syData s1 = DStr str ->
        barMetaStep ext bar s =
        (modBar bar (Bar.set_clef (parseClefFromString str)) ;; newSy ext ;; ret tt) s1)
  /\ (forall s tag s1,
        _syData s = DStr tag -> toLowerCase tag = "tf" ->
        newSy ext (set__allowTuning false s) = Ok SyString s1 -> _syData s1 = DStr str ->
        barMetaStep ext bar s =
        (modMasterBar (br_bar bar)
           (MasterBar.set_tripletFeel (parseTripletFeelFromString str)) ;;
         newSy ext ;; ret tt) (set__allowTuning true s1))
  /\ (forall s tag s1,
        _syData s = DStr tag -> toLowerCase tag = "ks" ->
        newSy ext s = Ok SyString s1 -> _syData s1 = DStr str ->
        barMetaStep ext bar s =
        (modMasterBar (br_bar bar)
           (MasterBar.set_keySignature (parseKeySignature str)) ;;
         newSy ext ;; ret tt) s1).
Proof.
  split; [apply parseClefFromString_table|].
  split; [apply parseTripletFeelFromString_table|].
  split; [apply parseKeySignature_table|].
  split; [intros; eapply barMetaStep_clef; eassumption|].
  split; [intros; eapply barMetaStep_tf; eassumption|].
  intros; eapply barMetaStep_ks; eassumption.
Qed.

(** The unknown spelling [foo] after [\clef], [\tf] and [\ks]. *)
Lemma C8_unknown_spellings_witness :
  parseClefFromString "foo" = Clef.G2
  /\ parseTripletFeelFromString "foo" = TripletFeel.NoTripletFeel
  /\ parseKeySignature "foo" = KeySignature.C
  /\ barMetaStep sampleExternals (mkBarRef 0 0 0) (atFirstSymbol "\clef foo") =
     (modBar (mkBarRef 0 0 0) (Bar.set_clef (parseClefFromString "foo")) ;;
      newSy sampleExternals ;; ret tt)
       (stateAfter (newSy sampleExternals) (atFirstSymbol "\clef foo"))
  /\ barMetaStep sampleExternals (mkBarRef 0 0 0) (atFirstSymbol "\tf foo") =
     (modMasterBar 0 (MasterBar.set_tripletFeel (parseTripletFeelFromString "foo")) ;;
      newSy sampleExternals ;; ret tt)
       (set__allowTuning true
          (stateAfter (newSy sampleExternals)
             (set__allowTuning false (atFirstSymbol "\tf foo"))))
  /\ barMetaStep sampleExternals (mkBarRef 0 0 0) (atFirstSymbol "\ks foo") =
     (modMasterBar 0 (MasterBar.set_keySignature (parseKeySignature "foo")) ;;
      newSy sampleExternals ;; ret tt)
       (stateAfter (newSy sampleExternals) (atFirstSymbol "\ks foo")).
Proof.
  destruct (C8_unknown_spellings_fall_back sampleExternals (mkBarRef 0 0 0) "foo")
    as (Hc & Ht & Hk & Hclef & Htf & Hks).
  split; [vm_compute; reflexivity|].
  split; [vm_compute; reflexivity|].
  split; [vm_compute; reflexivity|].
  split; [apply (Hclef _ "clef" _); vm_compute; reflexivity|].
  split; [apply (Htf _ "tf" _); vm_compute; reflexivity|].
  apply (Hks _ "ks" _); vm_compute; reflexivity.
Defined.


(** ** Bend and whammy points *)

Lemma removeAt_last {A} (l : list A) :
  removeAt (length l - 1) l = take (length l - 1) l.
Proof.
  unfold removeAt. rewrite drop_ge, app_nil_r by lia. reflexivity.
Qed.

Lemma trimLoop_take fuel (l : list BendPoint.t) :
  (length l <= 60 + fuel)%nat -> trimLoop fuel l = take 60 l.
Proof.
  revert l. induction fuel as [|fuel IH]; intros l Hl; cbn [trimLoop].
  - rewrite take_ge by lia. reflexivity.
  - destruct (Nat.ltb 60 (length l)) eqn:E.
    + apply Nat.ltb_lt in E. rewrite removeAt_last, IH.
      * rewrite take_take. f_equal. lia.
      * rewrite length_take. lia.
    + apply Nat.ltb_ge in E. rewrite take_ge by lia. reflexivity.
Qed.

Lemma trimPoints_take l : trimPoints l = take 60 l.
Proof. apply trimLoop_take. lia. Qed.

Lemma spreadLoop_length n i step l : length (spreadLoop n i step l) = length l.
Proof.
  revert i l. induction n as [|n IH]; intros i l; cbn [spreadLoop]; [reflexivity|].
  rewrite IH, length_alter. reflexivity.
Qed.

Lemma spreadLoop_lookup n i step l (j : nat) :
  spreadLoop n i step l !! j =
  if decide (i <= j < i + n)%nat
  then BendPoint.set_offset (JInt (Z.min 60 (Z.of_nat j * step))) <$> l !! j
  else l !! j.
Proof.
  revert i l. induction n as [|n IH]; intros i l; cbn [spreadLoop].
  - destruct (decide _); [lia|reflexivity].
  - rewrite IH, list_lookup_alter.
    destruct (decide (i = j)) as [->|Hne].
    + destruct (decide (S j <= j < S j + n)%nat); [lia|].
      destruct (decide (j <= j < j + S n)%nat); [reflexivity|lia].
    + destruct (decide (S i <= j < S i + n)%nat), (decide (i <= j < i + S n)%nat);
        try lia; reflexivity.
Qed.

Lemma spreadPoints_lookup step l (j : nat) :
  spreadPoints step l !! j =
  BendPoint.set_offset (JInt (Z.min 60 (Z.of_nat j * step))) <$> l !! j.
Proof.
  unfold spreadPoints. rewrite spreadLoop_lookup.
  destruct (decide _) as [|Hn]; [reflexivity|].
  rewrite (lookup_ge_None_2 l j) by lia. reflexivity.
Qed.

Lemma spreadPoints_values step l : valuesOf (spreadPoints step l) = valuesOf l.
Proof.
  apply list_eq. intros j. unfold valuesOf.
  rewrite !list_lookup_fmap, spreadPoints_lookup.
  destruct (l !! j) as [[o v]|]; reflexivity.
Qed.

(** The step is at least 1 when the points fit, so the offsets never reach
    the cap of 60 and grow strictly. *)
Lemma idiv0_bounds d : 1 <= d <= 60 -> 1 <= idiv0 60 d /\ d * idiv0 60 d <= 60.
Proof.
  intros Hd. unfold idiv0. destruct (d =? 0) eqn:E; [lia|].
  assert (Hq : Z.quot 60 d = 60 / d) by (apply Z.quot_div_nonneg; lia).
  rewrite Hq.
  assert (1 <= 60 / d <= 60).
  { split; [apply Z.div_le_lower_bound; lia|apply Z.div_le_upper_bound; lia]. }
  assert (d * (60 / d) <= 60) by (apply Z.mul_div_le; lia).
  unfold wrap32. rewrite Z.mod_small by lia. lia.
Qed.

Lemma spaced_sorted step (k : Z) (l : list BendPoint.t) :
  1 <= step ->
  (forall (i : nat) p, l !! i = Some p ->
     BendPoint.offset p = JInt ((k + Z.of_nat i) * step)) ->
  Sorted offsetLtZ l.
Proof.
  intros Hstep. revert k. induction l as [|a l IH]; intros k H; constructor.
  - apply (IH (k + 1)). intros i p Hi.
    rewrite (H (S i) p Hi). f_equal. lia.
  - destruct l as [|b l]; constructor.
    exists ((k + Z.of_nat 0) * step), ((k + Z.of_nat 1) * step).
    split; [apply (H 0%nat); reflexivity|].
    split; [apply (H 1%nat); reflexivity|]. nia.
Qed.

Lemma evenlySpaced_sorted step l :
  evenlySpaced step l -> 1 <= step \/ (length l <= 1)%nat -> Sorted offsetLtZ l.
Proof.
  intros H [Hs|Hl].
  - apply (spaced_sorted step 0); [exact Hs|].
    intros i p Hi. apply H in Hi as [-> _]. reflexivity.
  - destruct l as [|a [|b l]]; [constructor | repeat constructor | cbn in Hl; lia].
Qed.

Lemma spreadPoints_spaced step l :
  0 <= step -> (Z.of_nat (length l) - 1) * step <= 60 ->
  evenlySpaced step (spreadPoints step l).
Proof.
  intros Hs Hl i p Hi. rewrite spreadPoints_lookup in Hi.
  destruct (l !! i) as [q|] eqn:E; [|discriminate].
  apply lookup_lt_Some in E. injection Hi as <-.
  assert (0 <= Z.of_nat i * step <= 60) by nia.
  split; [|assumption]. cbn. rewrite Z.min_r by lia. reflexivity.
Qed.

(** *** Sorting by offset *)

Lemma insertSorted_perm {A} (le : A -> A -> bool) x l :
  insertSorted le x l ≡ₚ x :: l.
Proof.
  induction l as [|y l IH]; cbn; [reflexivity|].
  destruct (le x y); [reflexivity|].
  rewrite IH. apply perm_swap.
Qed.

Lemma sort_perm {A} (le : A -> A -> bool) l : sort le l ≡ₚ l.
Proof.
  induction l as [|x l IH]; [reflexivity|].
  change (sort le (x :: l)) with (insertSorted le x (sort le l)).
  rewrite insertSorted_perm, IH. reflexivity.
Qed.

Lemma offsetLe_int a b x y :
  BendPoint.offset a = JInt x -> BendPoint.offset b = JInt y ->
  offsetLe a b = (x <=? y).
Proof.
  intros Ha Hb. unfold offsetLe, num_leb, num_cmp, num_sub, align, JInt.
  rewrite Ha, Hb. unfold JInt. cbn.
  change (10 ^ Z.of_nat 0) with 1.
  destruct (Z.compare_spec ((x * 1 - y * 1) * 1) (0 * 1)), (Z.leb_spec x y);
    try reflexivity; lia.
Qed.

Lemma insertSorted_sorted x l :
  hasIntOffset x -> Forall hasIntOffset l ->
  Sorted offsetLeZ l -> Sorted offsetLeZ (insertSorted offsetLe x l).
Proof.
  intros [ox Hx] Hl Hs. induction l as [|y l IH]; cbn.
  - repeat constructor.
  - apply Forall_cons in Hl as [[oy Hy] Hl].
    rewrite (offsetLe_int _ _ _ _ Hx Hy).
    destruct (Z.leb_spec ox oy) as [Hle|Hlt].
    + constructor; [exact Hs|]. constructor. exists ox, oy. auto.
    + apply Sorted_inv in Hs as [Hs Hhd].
      constructor; [apply IH; assumption|].
      destruct l as [|z l]; cbn.
      * constructor. exists oy, ox. repeat split; try assumption. lia.
      * apply Forall_cons in Hl as [[oz Hz] Hl].
        rewrite (offsetLe_int _ _ _ _ Hx Hz).
        destruct (Z.leb_spec ox oz).
        -- constructor. exists oy, ox. repeat split; try assumption. lia.
        -- constructor. apply HdRel_inv in Hhd. exact Hhd.
Qed.

Lemma sort_sorted l :
  Forall hasIntOffset l -> Sorted offsetLeZ (sort offsetLe l).
Proof.
  induction l as [|x l IH]; intros H; [constructor|].
  change (sort offsetLe (x :: l)) with (insertSorted offsetLe x (sort offsetLe l)).
  apply Forall_cons in H as [Hx Hl].
  apply insertSorted_sorted; [exact Hx| |apply IH; exact Hl].
  rewrite sort_perm. exact Hl.
Qed.

Section PlacePoints.
Context (points : list BendPoint.t).
Let n := Nat.min 60 (length points).

Lemma trimPoints_length : length (trimPoints points) = n.
Proof. rewrite trimPoints_take, length_take. subst n. lia. Qed.

Lemma placeBendPoints_length exact : length (placeBendPoints exact points) = n.
Proof.
  unfold placeBendPoints. destruct exact.
  - rewrite (Permutation_length (sort_perm _ _)). apply trimPoints_length.
  - unfold spreadPoints. rewrite spreadLoop_length. apply trimPoints_length.
Qed.

Lemma placeWhammyPoints_length exact : length (placeWhammyPoints exact points) = n.
Proof.
  unfold placeWhammyPoints. destruct exact; cbn [negb].
  - rewrite (Permutation_length (sort_perm _ _)). apply trimPoints_length.
  - unfold spreadPoints. rewrite spreadLoop_length. apply trimPoints_length.
Qed.

Lemma placeBendPoints_spaced :
  evenlySpaced (idiv0 60 (Z.of_nat n - 1)) (placeBendPoints false points)
  /\ Sorted offsetLtZ (placeBendPoints false points).
Proof.
  unfold placeBendPoints. rewrite trimPoints_length.
  assert (Hlen : length (trimPoints points) = n) by apply trimPoints_length.
  assert (Hn : (n <= 60)%nat) by (subst n; lia).
  clearbody n. revert Hlen. generalize (trimPoints points) as l. intros l Hlen.
  assert (Hs : evenlySpaced (idiv0 60 (Z.of_nat n - 1))
                 (spreadPoints (idiv0 60 (Z.of_nat n - 1)) l)).
  { destruct n as [|[|k]].
    - destruct l; [|discriminate]. intros i p Hi. discriminate.
    - apply spreadPoints_spaced; rewrite ?Hlen; vm_compute; discriminate.
    - destruct (idiv0_bounds (Z.of_nat (S (S k)) - 1)) as [Hb1 Hb2]; [lia|].
      apply spreadPoints_spaced; rewrite ?Hlen; lia. }
  split; [exact Hs|]. apply (evenlySpaced_sorted _ _ Hs).
  unfold spreadPoints. rewrite spreadLoop_length, Hlen.
  destruct (decide (n <= 1)%nat); [right; assumption|left].
  apply (idiv0_bounds (Z.of_nat n - 1)). lia.
Qed.

Lemma placeWhammyPoints_spaced :
  evenlySpaced (idiv0 60 (Z.of_nat n)) (placeWhammyPoints false points)
  /\ Sorted offsetLtZ (placeWhammyPoints false points).
Proof.
  unfold placeWhammyPoints. cbn [negb]. rewrite trimPoints_length.
  assert (Hlen : length (trimPoints points) = n) by apply trimPoints_length.
  assert (Hn : (n <= 60)%nat) by (subst n; lia).
  clearbody n. revert Hlen. generalize (trimPoints points) as l. intros l Hlen.
  destruct n as [|k].
  - destruct l; [|discriminate]. split; [intros i p Hi; discriminate|constructor].
  - destruct (idiv0_bounds (Z.of_nat (S k))) as [Hb1 Hb2]; [lia|].
    assert (Hs : evenlySpaced (idiv0 60 (Z.of_nat (S k)))
                   (spreadPoints (idiv0 60 (Z.of_nat (S k))) l)).
    { apply spreadPoints_spaced; rewrite ?Hlen; nia. }
    split; [exact Hs|]. apply (evenlySpaced_sorted _ _ Hs). left. exact Hb1.
Qed.

Lemma placePoints_exact :
  placeBendPoints true points ≡ₚ take 60 points
  /\ placeWhammyPoints true points ≡ₚ take 60 points
  /\ (Forall hasIntOffset points ->
      Sorted offsetLeZ (placeBendPoints true points)
      /\ Sorted offsetLeZ (placeWhammyPoints true points)).
Proof.
  unfold placeBendPoints, placeWhammyPoints. cbn [negb].
  rewrite trimPoints_take.
  split; [apply sort_perm|]. split; [apply sort_perm|].
  intros H. assert (Forall hasIntOffset (take 60 points)) by (apply Forall_take; exact H).
  split; apply sort_sorted; assumption.
Qed.

Lemma placePoints_values :
  valuesOf (placeBendPoints false points) = valuesOf (take 60 points)
  /\ valuesOf (placeWhammyPoints false points) = valuesOf (take 60 points).
Proof.
  unfold placeBendPoints, placeWhammyPoints. cbn [negb].
  rewrite !spreadPoints_values, trimPoints_take. split; reflexivity.
Qed.
End PlacePoints.


(** ** Frame conditions *)

#[global] Instance lexOnly_preorder : PreOrder lexOnly.
Proof.
  split; [intros s; reflexivity|].
  intros s1 s2 s3 H1 H2. unfold lexOnly in *. congruence.
Qed.

#[global] Instance sameDocument_preorder : PreOrder sameDocument.
Proof.
  split; [intros s; reflexivity|].
  intros s1 s2 s3 H1 H2. unfold sameDocument in *. congruence.
Qed.

#[global] Instance quiet_preorder : PreOrder quiet.
Proof.
  split; [intros s; repeat split; auto|].
  intros s1 s2 s3 (A1 & B1 & C1 & D1) (A2 & B2 & C2 & D2).
  repeat split; try congruence. auto.
Qed.

#[global] Instance sameBars_preorder : PreOrder sameBars.
Proof.
  split; [intros s; reflexivity|].
  intros s1 s2 s3 H1 H2. unfold sameBars in *. congruence.
Qed.

#[global] Instance sameBeats_preorder : PreOrder sameBeats.
Proof.
  split.
  - intros s. split; [|reflexivity]. intros r b H. exists b. auto.
  - intros s1 s2 s3 [H1 N1] [H2 N2]. split; [|congruence].
    intros r b Hb. destruct (H1 r b Hb) as (b' & Hb' & E1 & E2).
    destruct (H2 r b' Hb') as (b'' & Hb'' & E3 & E4).
    exists b''. repeat split; congruence.
Qed.

#[global] Instance noteFrame_preorder : PreOrder noteFrame.
Proof.
  split; [intros s; split; reflexivity|].
  intros s1 s2 s3 [A1 B1] [A2 B2]. split; etransitivity; eassumption.
Qed.

#[global] Instance beatFrame_preorder : PreOrder beatFrame.
Proof.
  split; [intros s; split; [|split]; reflexivity|].
  intros s1 s2 s3 (A1 & B1 & C1) (A2 & B2 & C2).
  split; [|split]; etransitivity; eassumption.
Qed.

Lemma lexOnly_sameDocument s s' : lexOnly s s' -> sameDocument s s'.
Proof. unfold lexOnly, sameDocument, beyondLexer, document. congruence. Qed.

Lemma sameDocument_beatFrame s s' : sameDocument s s' -> beatFrame s s'.
Proof.
  unfold sameDocument, document. intros H.
  assert (Hs : _score s' = _score s) by congruence.
  assert (Hb : beatStore s' = beatStore s) by congruence.
  assert (Hn : noteStore s' = noteStore s) by congruence.
  split; [|split].
  - unfold quiet, shape, hasTempo. rewrite Hs. repeat split; auto; congruence.
  - unfold sameBars, allBars. rewrite Hs. reflexivity.
  - split; [|exact Hn]. rewrite Hb. intros r b Hr. exists b. auto.
Qed.

Lemma beatFrame_noteFrame s s' : beatFrame s s' -> noteFrame s s'.
Proof. intros (A & B & C). split; assumption. Qed.

Lemma noteFrame_quiet s s' : noteFrame s s' -> quiet s s'.
Proof. intros [A B]. exact A. Qed.

Lemma pres_weaken {A} (R R' : relation Importer) (m : M A) :
  (forall s s', R s s' -> R' s s') -> pres R m -> pres R' m.
Proof. intros HR H s a s' Hm. apply HR. eapply H. exact Hm. Qed.

Lemma pres_lex_doc {A} (m : M A) : pres lexOnly m -> pres sameDocument m.
Proof. apply pres_weaken, lexOnly_sameDocument. Qed.

Lemma pres_doc_beat {A} (m : M A) : pres sameDocument m -> pres beatFrame m.
Proof. apply pres_weaken, sameDocument_beatFrame. Qed.

Lemma pres_beat_note {A} (m : M A) : pres beatFrame m -> pres noteFrame m.
Proof. apply pres_weaken, beatFrame_noteFrame. Qed.

Lemma pres_note_quiet {A} (m : M A) : pres noteFrame m -> pres quiet m.
Proof. apply pres_weaken, noteFrame_quiet. Qed.

Section Combinators.
Context (R : relation Importer) `{!PreOrder R}.

Lemma pres_ret {A} (a : A) : pres R (ret a).
Proof. intros s a' s' H. injection H as _ <-. reflexivity. Qed.

Lemma pres_gets {A} (f : Importer -> A) : pres R (gets f).
Proof. intros s a' s' H. injection H as _ <-. reflexivity. Qed.

Lemma pres_throw {A} e : pres R (@throw A e).
Proof. intros s a s' H. discriminate. Qed.

Lemma pres_deref {A} (o : option A) : pres R (deref o).
Proof. destruct o; [apply pres_ret|apply pres_throw]. Qed.

Lemma pres_error {A} nonterm expected wrong : pres R (@error A nonterm expected wrong).
Proof. intros s a s' H. unfold error in H. destruct (_lastValidSpot s) as [[? ?] ?]. discriminate. Qed.

Lemma pres_errorMessage {A} msg : pres R (@errorMessage A msg).
Proof. intros s a s' H. unfold errorMessage in H. destruct (_lastValidSpot s) as [[? ?] ?]. discriminate. Qed.

Lemma pres_bind {A B} (m : M A) (k : A -> M B) :
  pres R m -> (forall a, pres R (k a)) -> pres R (bind m k).
Proof.
  intros Hm Hk s b s' H. apply bind_Ok in H as (a & s1 & H1 & H2).
  etransitivity; [eapply Hm|eapply Hk]; eassumption.
Qed.

Lemma pres_when b (m : M unit) : pres R m -> pres R (when b m).
Proof. destruct b; [auto|intros; apply pres_ret]. Qed.

Lemma pres_modify f : (forall s, R s (f s)) -> pres R (modify f).
Proof. intros Hf s a s' H. injection H as _ <-. apply Hf. Qed.

Lemma pres_loopM {A} fuel (step : A -> M (bool * A)) a :
  (forall a, pres R (step a)) -> pres R (loopM fuel step a).
Proof.
  intros Hs. revert a. induction fuel as [|fuel IH]; intros a; cbn [loopM].
  - intros s x s' H. discriminate.
  - apply pres_bind; [apply Hs|]. intros [[] a']; cbn; [apply IH|apply pres_ret].
Qed.

Lemma pres_fuel {A} (k : nat -> M A) (f : Importer -> nat) :
  (forall n, pres R (k n)) -> pres R (fun s => k (f s) s).
Proof. intros H s a s' Hm. eapply H. exact Hm. Qed.

Lemma pres_while cond (body : M unit) : pres R body -> pres R (while cond body).
Proof.
  intros Hb. unfold while. apply (pres_fuel (fun n => loopM n _ tt)). intros n.
  apply pres_loopM. intros _. apply pres_bind; [apply pres_gets|].
  intros []; [|apply pres_ret]. apply pres_bind; [exact Hb|intros; apply pres_ret].
Qed.

Lemma pres_whileBreak cond (body : M bool) : pres R body -> pres R (whileBreak cond body).
Proof.
  intros Hb. unfold whileBreak. apply (pres_fuel (fun n => loopM n _ tt)). intros n.
  apply pres_loopM. intros _. apply pres_bind; [apply pres_gets|].
  intros []; [|apply pres_ret]. apply pres_bind; [exact Hb|intros; apply pres_ret].
Qed.

Lemma pres_doWhile {A} (body : A -> M A) cond a :
  (forall a, pres R (body a)) -> pres R (doWhile body cond a).
Proof.
  intros Hb. unfold doWhile. apply (pres_fuel (fun n => loopM n _ a)). intros n.
  apply pres_loopM. intros a0. apply pres_bind; [apply Hb|]. intros a1.
  apply pres_bind; [apply pres_gets|intros; apply pres_ret].
Qed.

Lemma pres_whileAcc {A} cond (body : A -> M A) a :
  (forall a, pres R (body a)) -> pres R (whileAcc cond body a).
Proof.
  intros Hb. unfold whileAcc. apply (pres_fuel (fun n => loopM n _ a)). intros n.
  apply pres_loopM. intros a0. apply pres_bind; [apply pres_gets|].
  intros []; [|apply pres_ret]. apply pres_bind; [apply Hb|intros; apply pres_ret].
Qed.

Lemma pres_repeatM n (body : M unit) : pres R body -> pres R (repeatM n body).
Proof.
  intros Hb. induction n as [|n IH]; cbn [repeatM]; [apply pres_ret|].
  apply pres_bind; [exact Hb|intros; exact IH].
Qed.

Lemma pres_repeatAcc {A} n (body : A -> M A) a :
  (forall a, pres R (body a)) -> pres R (repeatAcc n body a).
Proof.
  intros Hb. revert a. induction n as [|n IH]; intros a; cbn [repeatAcc];
    [apply pres_ret|].
  apply pres_bind; [apply Hb|intros; apply IH].
Qed.

Lemma pres_forEachM {A} (l : list A) (body : A -> M unit) :
  (forall a, pres R (body a)) -> pres R (forEachM l body).
Proof.
  intros Hb. induction l as [|x l IH]; cbn [forEachM]; [apply pres_ret|].
  apply pres_bind; [apply Hb|intros; exact IH].
Qed.
End Combinators.


(** *** Decomposing a production *)

Create HintDb pres discriminated.

#[global] Hint Resolve pres_lex_doc pres_doc_beat pres_beat_note pres_note_quiet : pres.

#[global] Hint Extern 1 (pres lexOnly (modify _)) =>
  apply pres_modify; intro; reflexivity : pres.
#[global] Hint Extern 1 (pres sameDocument (modify _)) =>
  apply pres_modify; intro; reflexivity : pres.

Ltac pres_leaf := solve [eauto 8 with pres].

Ltac tc := try (solve [typeclasses eauto]).

Ltac pres_step :=
  lazymatch goal with
  | |- pres _ (bind _ _) => apply pres_bind; tc; [|intros]
  | |- pres _ (ret _) => apply pres_ret; tc
  | |- pres _ (gets _) => apply pres_gets; tc
  | |- pres _ (throw _) => apply pres_throw
  | |- pres _ (deref _) => apply pres_deref; tc
  | |- pres _ (error _ _ _) => apply pres_error
  | |- pres _ (errorMessage _) => apply pres_errorMessage
  | |- pres _ (when _ _) => apply pres_when; tc
  | |- pres _ (while _ _) => apply pres_while; tc
  | |- pres _ (whileBreak _ _) => apply pres_whileBreak; tc
  | |- pres _ (whileAcc _ _ _) => apply pres_whileAcc; tc; intros
  | |- pres _ (doWhile _ _ _) => apply pres_doWhile; tc; intros
  | |- pres _ (loopM _ _ _) => apply pres_loopM; tc; intros
  | |- pres _ (repeatM _ _) => apply pres_repeatM; tc
  | |- pres _ (repeatAcc _ _ _) => apply pres_repeatAcc; tc; intros
  | |- pres _ (forEachM _ _) => apply pres_forEachM; tc; intros
  | |- pres _ (if ?b then _ else _) => destruct b
  | |- pres _ (match ?x with _ => _ end) => destruct x
  | |- pres _ _ => pres_leaf
  end.

Ltac pres_auto := repeat pres_step.

(** *** The lexer *)

Section LexerFrames.
Context (ext : Externals).

Lemma nextChar_lexOnly : pres lexOnly nextChar.
Proof.
  intros s a s' H. unfold nextChar in H.
  destruct (String.get (_curChPos s) (_input s)).
  - injection H as _ <-. destruct (_ =? _); reflexivity.
  - injection H as _ <-. reflexivity.
Qed.
Hint Resolve nextChar_lexOnly : pres.

Lemma saveValidSpot_lexOnly : pres lexOnly saveValidSpot.
Proof. unfold saveValidSpot. pres_auto. Qed.
Hint Resolve saveValidSpot_lexOnly : pres.

Lemma setSy_lexOnly sy : pres lexOnly (setSy sy).
Proof. unfold setSy. pres_auto. Qed.

Lemma setSyData_lexOnly d : pres lexOnly (setSyData d).
Proof. unfold setSyData. pres_auto. Qed.
Hint Resolve setSy_lexOnly setSyData_lexOnly : pres.

Lemma readName_lexOnly : pres lexOnly readName.
Proof. unfold readName. pres_auto. Qed.

Lemma readNumber_lexOnly : pres lexOnly readNumber.
Proof. unfold readNumber. pres_auto. Qed.
Hint Resolve readName_lexOnly readNumber_lexOnly : pres.

Lemma lineComment_lexOnly : pres lexOnly lineComment.
Proof. unfold lineComment. pres_auto. Qed.

Lemma blockComment_lexOnly : pres lexOnly blockComment.
Proof. unfold blockComment. pres_auto. Qed.

Lemma quoted_lexOnly c : pres lexOnly (quoted c).
Proof. unfold quoted. pres_auto. Qed.

Lemma single_lexOnly sy : pres lexOnly (single sy).
Proof. unfold single. pres_auto. Qed.
Hint Resolve lineComment_lexOnly blockComment_lexOnly quoted_lexOnly
  single_lexOnly : pres.

Lemma newSyStep_lexOnly : pres lexOnly (newSyStep ext).
Proof. unfold newSyStep. pres_auto. Qed.
Hint Resolve newSyStep_lexOnly : pres.

Lemma newSy_lexOnly : pres lexOnly (newSy ext).
Proof. unfold newSy. pres_auto. Qed.

Lemma syString_lexOnly : pres lexOnly syString.
Proof. unfold syString. pres_auto. Qed.

Lemma syNumber_lexOnly : pres lexOnly syNumber.
Proof. unfold syNumber. pres_auto. Qed.

Lemma syTuning_lexOnly : pres lexOnly syTuning.
Proof. unfold syTuning. pres_auto. Qed.
End LexerFrames.

#[global] Hint Resolve nextChar_lexOnly saveValidSpot_lexOnly setSy_lexOnly
  setSyData_lexOnly readName_lexOnly readNumber_lexOnly newSy_lexOnly
  syString_lexOnly syNumber_lexOnly syTuning_lexOnly : pres.


(** *** Object access *)

Lemma fmap_alter_same {A B} (g : A -> B) (f : A -> A) (i : nat) (l : list A) :
  (forall x, l !! i = Some x -> g (f x) = g x) -> g <$> alter f i l = g <$> l.
Proof.
  revert i. induction l as [|x l IH]; intros i H; [reflexivity|].
  destruct i as [|i]; cbn.
  - rewrite (H x); reflexivity.
  - rewrite IH; [reflexivity|]. intros y Hy. apply (H y). exact Hy.
Qed.

Section Getters.
Context (R : relation Importer) `{!PreOrder R}.

Lemma getTrack_pres i : pres R (getTrack i).
Proof. unfold getTrack. pres_auto. Qed.

Lemma getStaff_pres r : pres R (getStaff r).
Proof. unfold getStaff. pres_auto. apply getTrack_pres. Qed.

Lemma getBar_pres r : pres R (getBar r).
Proof. unfold getBar. pres_auto. apply getStaff_pres. Qed.

Lemma getVoice_pres r : pres R (getVoice r).
Proof. unfold getVoice. pres_auto. apply getBar_pres. Qed.

Lemma getMasterBar_pres i : pres R (getMasterBar i).
Proof. unfold getMasterBar. pres_auto. Qed.

Lemma getBeat_pres r : pres R (getBeat r).
Proof. unfold getBeat. pres_auto. Qed.

Lemma getNote_pres r : pres R (getNote r).
Proof. unfold getNote. pres_auto. Qed.

Lemma masterBarOf_pres r : pres R (masterBarOf r).
Proof. unfold masterBarOf. pres_auto. apply getBeat_pres. Qed.
End Getters.

#[global] Hint Extern 1 (pres _ (getTrack _)) => apply getTrack_pres; tc : pres.
#[global] Hint Extern 1 (pres _ (getStaff _)) => apply getStaff_pres; tc : pres.
#[global] Hint Extern 1 (pres _ (getBar _)) => apply getBar_pres; tc : pres.
#[global] Hint Extern 1 (pres _ (getVoice _)) => apply getVoice_pres; tc : pres.
#[global] Hint Extern 1 (pres _ (getMasterBar _)) => apply getMasterBar_pres; tc : pres.
#[global] Hint Extern 1 (pres _ (getBeat _)) => apply getBeat_pres; tc : pres.
#[global] Hint Extern 1 (pres _ (getNote _)) => apply getNote_pres; tc : pres.
#[global] Hint Extern 1 (pres _ (masterBarOf _)) => apply masterBarOf_pres; tc : pres.

(** A change of the tracks that keeps the bars of every staff. *)
Lemma setTracks_beatFrame s tracks' :
  (fun t => Staff.bars <$> Track.staves t) <$> tracks'
  = (fun t => Staff.bars <$> Track.staves t) <$> Score.tracks (_score s) ->
  beatFrame s (set__score (Score.set_tracks tracks' (_score s)) s).
Proof.
  intros H. split; [|split].
  - unfold quiet, shape, hasTempo, barCounts. cbn. repeat split; auto.
    f_equal.
    apply (f_equal (fmap (fmap (length (A:=Bar.t))))) in H.
    rewrite <- !list_fmap_compose in H.
    erewrite list_fmap_ext; [erewrite (list_fmap_ext _ _ (Score.tracks (_score s)))|].
    + exact H.
    + intros i t _. cbn. rewrite <- list_fmap_compose. reflexivity.
    + intros i t _. cbn. rewrite <- list_fmap_compose. reflexivity.
  - unfold sameBars, allBars. cbn. exact H.
  - split; [|reflexivity]. intros r b Hb. exists b. auto.
Qed.

Lemma modTrack_beatFrame i f :
  (forall t, Staff.bars <$> Track.staves (f t) = Staff.bars <$> Track.staves t) ->
  pres beatFrame (modTrack i f).
Proof.
  intros Hf. unfold modTrack. pres_auto.
  apply pres_modify. intros s. apply setTracks_beatFrame.
  apply fmap_alter_same. intros t _. apply Hf.
Qed.

Lemma modStaff_beatFrame r f :
  (forall st, Staff.bars (f st) = Staff.bars st) -> pres beatFrame (modStaff r f).
Proof.
  intros Hf. unfold modStaff. pres_auto. apply modTrack_beatFrame.
  intros t. cbn. apply fmap_alter_same. intros st _. apply Hf.
Qed.

Lemma modScore_beatFrame f :
  (forall sc, Score.tracks (f sc) = Score.tracks sc
              /\ Score.masterBars (f sc) = Score.masterBars sc) ->
  pres beatFrame (modScore f).
Proof.
  intros Hf. unfold modScore. apply pres_modify. intros s.
  destruct (Hf (_score s)) as [Ht Hm]. split; [|split].
  - unfold quiet, shape, hasTempo, barCounts. cbn. rewrite Ht, Hm. repeat split; auto.
  - unfold sameBars, allBars. cbn. rewrite Ht. reflexivity.
  - split; [|reflexivity]. intros r b Hb. exists b. auto.
Qed.

Lemma modMasterBar_beatFrame i f :
  (forall m, MasterBar.tempoAutomations m <> [] ->
             MasterBar.tempoAutomations (f m) <> []) ->
  pres beatFrame (modMasterBar i f).
Proof.
  intros Hf. unfold modMasterBar. pres_auto.
  apply pres_modify. intros s. split; [|split].
  - unfold quiet, shape, hasTempo, barCounts. cbn. rewrite length_alter.
    repeat split; auto.
    intros (m & Hm & Ht). rewrite list_lookup_alter.
    case_decide; subst; [|eauto].
    rewrite Hm. cbn. eauto.
  - reflexivity.
  - split; [|reflexivity]. intros r b Hb. exists b. auto.
Qed.

Lemma modBeat_beatFrame r f :
  (forall b, Beat.isEmpty (f b) = Beat.isEmpty b /\ Beat.notes (f b) = Beat.notes b) ->
  pres beatFrame (modBeat r f).
Proof.
  intros Hf. unfold modBeat. pres_auto.
  apply pres_modify. intros s. split; [|split].
  - repeat split; auto.
  - reflexivity.
  - split; [|reflexivity]. intros r' b Hb. cbn. rewrite list_lookup_alter.
    case_decide; subst; [|eauto].
    rewrite Hb. cbn. exists (f b). destruct (Hf b). auto.
Qed.

Lemma modBeat_noteFrame r f : pres noteFrame (modBeat r f).
Proof.
  unfold modBeat. pres_auto. apply pres_modify. intros s. split.
  - repeat split; auto.
  - reflexivity.
Qed.

Lemma modNote_noteFrame r f : pres noteFrame (modNote r f).
Proof.
  unfold modNote. pres_auto. apply pres_modify. intros s. split.
  - repeat split; auto.
  - reflexivity.
Qed.

Lemma newBeat_run s :
  newBeat s = Ok (length (beatStore s)) (set_beatStore (beatStore s ++ [Beat.new]) s).
Proof. reflexivity. Qed.

Lemma newNote_run s :
  newNote s = Ok (length (noteStore s)) (set_noteStore (noteStore s ++ [Note.new]) s).
Proof. reflexivity. Qed.

Lemma newBeat_beatFrame : pres beatFrame newBeat.
Proof.
  intros s a s' H. rewrite newBeat_run in H. injection H as _ <-. split; [|split].
  - repeat split; auto.
  - reflexivity.
  - split; [|reflexivity]. intros r b Hb. exists b. cbn.
    rewrite lookup_app_l by (eapply lookup_lt_Some; eassumption). auto.
Qed.

Lemma newNote_noteFrame : pres noteFrame newNote.
Proof.
  intros s a s' H. rewrite newNote_run in H. injection H as _ <-. split.
  - repeat split; auto.
  - reflexivity.
Qed.

Lemma Beat_addNote_noteFrame b n : pres noteFrame (Beat_addNote b n).
Proof.
  unfold Beat_addNote. pres_auto; [apply modNote_noteFrame|apply modBeat_noteFrame].
Qed.

#[global] Hint Resolve modBeat_noteFrame modNote_noteFrame newBeat_beatFrame
  newNote_noteFrame Beat_addNote_noteFrame : pres.


(** *** The productions that keep the structure of the document *)

Ltac beat_side :=
  let b := fresh "b" in
  intros b; unfold applyTuplet, setTuplet, dynamicsOf; repeat case_match;
  split; reflexivity.

Ltac master_side :=
  let m := fresh "m" in let H := fresh "H" in
  intros m H;
  first [ exact H
        | let E := fresh "E" in
          cbn; intros E; apply app_eq_nil in E; destruct E; discriminate ].

#[global] Hint Extern 2 (pres beatFrame (modBeat _ _)) =>
  apply modBeat_beatFrame; beat_side : pres.
#[global] Hint Extern 2 (pres beatFrame (modStaff _ _)) =>
  apply modStaff_beatFrame; intro; reflexivity : pres.
#[global] Hint Extern 2 (pres beatFrame (modTrack _ _)) =>
  apply modTrack_beatFrame; intro; reflexivity : pres.
#[global] Hint Extern 2 (pres beatFrame (modMasterBar _ _)) =>
  apply modMasterBar_beatFrame; master_side : pres.
#[global] Hint Extern 2 (pres noteFrame (modify (set_beatStore _))) =>
  apply pres_modify; intro; split; [repeat split; auto|reflexivity] : pres.
#[global] Hint Extern 2 (pres noteFrame (modify (set_noteStore _))) =>
  apply pres_modify; intro; split; [repeat split; auto|reflexivity] : pres.

Ltac pres_unfold f := unfold f; cbv zeta; pres_auto.

Section BeatFrames.
Context (ext : Externals).

Lemma readTempoAutomation_doc : pres sameDocument (readTempoAutomation ext).
Proof. pres_unfold readTempoAutomation. Qed.
Hint Resolve readTempoAutomation_doc : pres.

Lemma readPoints_beatFrame exact nonterm add :
  (forall p, pres beatFrame (add p)) ->
  pres beatFrame (readPoints ext exact nonterm add).
Proof. intros Hadd. pres_unfold readPoints. Qed.

Lemma readPoints_noteFrame exact nonterm add :
  (forall p, pres noteFrame (add p)) ->
  pres noteFrame (readPoints ext exact nonterm add).
Proof. intros Hadd. pres_unfold readPoints. Qed.

Lemma whammyEffect_beatFrame exact beat : pres beatFrame (whammyEffect ext exact beat).
Proof.
  pres_unfold whammyEffect.
  apply readPoints_beatFrame. intros p. pres_leaf.
Qed.
Hint Resolve whammyEffect_beatFrame : pres.

Lemma applyBeatEffect_beatFrame beat : pres beatFrame (applyBeatEffect ext beat).
Proof. pres_unfold applyBeatEffect. Qed.
Hint Resolve applyBeatEffect_beatFrame : pres.

Lemma beatEffects_beatFrame beat : pres beatFrame (beatEffects ext beat).
Proof. pres_unfold beatEffects. Qed.

Lemma beatDuration_doc : pres sameDocument (beatDuration ext).
Proof. pres_unfold beatDuration. Qed.
End BeatFrames.

#[global] Hint Resolve readTempoAutomation_doc whammyEffect_beatFrame
  applyBeatEffect_beatFrame beatEffects_beatFrame beatDuration_doc : pres.

Lemma modBar_quiet r f : pres quiet (modBar r f).
Proof.
  unfold modBar. pres_auto. unfold modStaff. pres_auto. unfold modTrack. pres_auto.
  apply pres_modify. intros s.
  unfold quiet, shape, hasTempo, barCounts. cbn. repeat split; auto.
  f_equal. apply fmap_alter_same. intros t _. cbn.
  apply fmap_alter_same. intros st _. cbn. apply length_alter.
Qed.

Lemma modVoice_quiet r f : pres quiet (modVoice r f).
Proof. unfold modVoice. pres_auto. apply modBar_quiet. Qed.

#[global] Hint Resolve modBar_quiet modVoice_quiet : pres.

Section NoteFrames.
Context (ext : Externals).

Lemma Note_stringTuning_pres (R : relation Importer) `{!PreOrder R} note :
  pres R (Note_stringTuning note).
Proof. pres_unfold Note_stringTuning. Qed.

Lemma bendEffect_noteFrame exact note : pres noteFrame (bendEffect ext exact note).
Proof.
  pres_unfold bendEffect. apply readPoints_noteFrame. intros p. pres_leaf.
Qed.

Lemma fingerEffect_noteFrame set note : pres noteFrame (fingerEffect ext set note).
Proof. pres_unfold fingerEffect. Qed.
Hint Resolve bendEffect_noteFrame fingerEffect_noteFrame : pres.

Lemma noteEffect_noteFrame note : pres noteFrame (noteEffect ext note).
Proof.
  pres_unfold noteEffect. apply Note_stringTuning_pres. typeclasses eauto.
Qed.
Hint Resolve noteEffect_noteFrame : pres.

Lemma noteEffects_noteFrame note : pres noteFrame (noteEffects ext note).
Proof. pres_unfold noteEffects. Qed.
Hint Resolve noteEffects_noteFrame : pres.

Lemma noteHead_doc st : pres sameDocument (noteHead ext st).
Proof. pres_unfold noteHead. Qed.
Hint Resolve noteHead_doc : pres.

Lemma note_noteFrame beat : pres noteFrame (note ext beat).
Proof. pres_unfold note. Qed.

Lemma setAllowTuning_doc : pres sameDocument setAllowTuning.
Proof. pres_unfold setAllowTuning. Qed.

Lemma cloneNote_noteFrame clone original : pres noteFrame (cloneNote clone original).
Proof. pres_unfold cloneNote. Qed.
Hint Resolve cloneNote_noteFrame : pres.

Lemma BeatCloner_clone_noteFrame original : pres noteFrame (BeatCloner_clone original).
Proof. pres_unfold BeatCloner_clone. Qed.
End NoteFrames.

#[global] Hint Resolve bendEffect_noteFrame fingerEffect_noteFrame
  noteEffect_noteFrame noteEffects_noteFrame noteHead_doc note_noteFrame
  setAllowTuning_doc BeatCloner_clone_noteFrame : pres.

Section QuietFrames.
Context (ext : Externals).

Lemma Voice_addBeat_quiet v b : pres quiet (Voice_addBeat v b).
Proof. pres_unfold Voice_addBeat. Qed.

Lemma dropLastBeat_quiet v : pres quiet (dropLastBeat v).
Proof. pres_unfold dropLastBeat. Qed.
Hint Resolve Voice_addBeat_quiet dropLastBeat_quiet : pres.

Lemma beatNotes_quiet v b : pres quiet (beatNotes ext v b).
Proof. pres_unfold beatNotes. Qed.

Lemma beatMultiplier_lexOnly : pres lexOnly (beatMultiplier ext).
Proof. pres_unfold beatMultiplier. Qed.

Lemma repeatBeat_quiet v b n : pres quiet (repeatBeat v b n).
Proof. pres_unfold repeatBeat. Qed.
Hint Resolve beatMultiplier_lexOnly repeatBeat_quiet : pres.

Lemma beatFinish_quiet v b : pres quiet (beatFinish ext v b).
Proof. pres_unfold beatFinish. Qed.
Hint Resolve beatNotes_quiet beatFinish_quiet : pres.

Lemma beat_quiet v : pres quiet (beat ext v).
Proof. pres_unfold beat. Qed.

Lemma addEmptyBeat_quiet v : pres quiet (addEmptyBeat v).
Proof. pres_unfold addEmptyBeat. Qed.

Lemma applyAlternateEnding_beatFrame master :
  pres beatFrame (applyAlternateEnding ext master).
Proof. pres_unfold applyAlternateEnding. Qed.
Hint Resolve applyAlternateEnding_beatFrame : pres.

Lemma alternateEndings_beatFrame master : pres beatFrame (alternateEndings ext master).
Proof. pres_unfold alternateEndings. Qed.

Lemma chordProperty_doc chord : pres sameDocument (chordProperty ext chord).
Proof. pres_unfold chordProperty. Qed.
Hint Resolve chordProperty_doc : pres.

Lemma chordProperties_doc chord : pres sameDocument (chordProperties ext chord).
Proof. pres_unfold chordProperties. Qed.

Lemma readStaffTuning_beatFrame sy : pres beatFrame (readStaffTuning ext sy).
Proof. pres_unfold readStaffTuning. Qed.

Lemma setArticulationName_doc name value : pres sameDocument (setArticulationName name value).
Proof. pres_unfold setArticulationName. Qed.
Hint Resolve alternateEndings_beatFrame chordProperties_doc
  readStaffTuning_beatFrame setArticulationName_doc : pres.

Lemma handleStaffMeta_beatFrame : pres beatFrame (handleStaffMeta ext).
Proof.
  pres_unfold handleStaffMeta.
  apply modTrack_beatFrame. intros t. cbn.
  rewrite <- list_fmap_compose. reflexivity.
Qed.
Hint Resolve handleStaffMeta_beatFrame : pres.

Lemma metaDataStep_beatFrame anyMeta : pres beatFrame (metaDataStep ext anyMeta).
Proof.
  pres_unfold metaDataStep.
  apply modScore_beatFrame. intros sc. unfold setScoreInfo.
  repeat case_match; split; reflexivity.
  apply modScore_beatFrame. intros sc. split; reflexivity.
Qed.
Hint Resolve metaDataStep_beatFrame : pres.

Lemma metaData_beatFrame : pres beatFrame (metaData ext).
Proof. pres_unfold metaData. Qed.

Lemma staffProperties_beatFrame : pres beatFrame (staffProperties ext).
Proof. pres_unfold staffProperties. Qed.

Lemma barMetaStep_quiet bar : pres quiet (barMetaStep ext bar).
Proof. pres_unfold barMetaStep. Qed.
Hint Resolve barMetaStep_quiet : pres.

Lemma barMetaLoop_quiet bar : pres quiet (barMetaLoop ext bar).
Proof. pres_unfold barMetaLoop. Qed.
Hint Resolve barMetaLoop_quiet : pres.

Lemma barMeta_quiet bar : pres quiet (barMeta ext bar).
Proof. pres_unfold barMeta. Qed.

Lemma detectTuning_beatFrame : pres beatFrame detectTuning.
Proof. pres_unfold detectTuning. Qed.
End QuietFrames.

#[global] Hint Resolve beatMultiplier_lexOnly repeatBeat_quiet : pres.
#[global] Hint Resolve Voice_addBeat_quiet dropLastBeat_quiet beatNotes_quiet
  beatFinish_quiet beat_quiet addEmptyBeat_quiet applyAlternateEnding_beatFrame
  alternateEndings_beatFrame chordProperty_doc chordProperties_doc
  readStaffTuning_beatFrame setArticulationName_doc handleStaffMeta_beatFrame
  metaData_beatFrame staffProperties_beatFrame barMetaStep_quiet
  barMetaLoop_quiet barMeta_quiet
  detectTuning_beatFrame : pres.


(** ** The structure of the document *)

#[global] Instance keepsInv_preorder : PreOrder keepsInv.
Proof.
  split; [intros s; repeat split; auto|].
  intros s1 s2 s3 (A1 & B1 & C1) (A2 & B2 & C2). repeat split; auto. congruence.
Qed.

Lemma shape_barsLe s s' : shape s' = shape s -> barsLe s -> barsLe s'.
Proof.
  unfold shape, barsLe, masterBarCount. intros H. injection H as -> ->. auto.
Qed.

Lemma quiet_keepsInv s s' : quiet s s' -> keepsInv s s'.
Proof.
  intros (Hs & Ht & _). split; [apply shape_barsLe; exact Hs|]. split; [exact Ht|].
  unfold masterBarCount. unfold shape in Hs. injection Hs as _ ->. reflexivity.
Qed.

Lemma pres_quiet_keepsInv {A} (m : M A) : pres quiet m -> pres keepsInv m.
Proof. apply pres_weaken, quiet_keepsInv. Qed.

#[global] Hint Resolve pres_quiet_keepsInv : pres.

(** *** Reading the state *)

Lemma getTrack_Ok i s t s' :
  getTrack i s = Ok t s' -> s' = s /\ Score.tracks (_score s) !! i = Some t.
Proof.
  unfold getTrack, bind, gets, deref. destruct (_ !! i); [|discriminate].
  intros H. injection H as <- <-. auto.
Qed.

Lemma getStaff_Ok r s st s' :
  getStaff r s = Ok st s' ->
  s' = s /\ exists t, Score.tracks (_score s) !! sr_track r = Some t
                      /\ Track.staves t !! sr_staff r = Some st.
Proof.
  unfold getStaff. intros H. apply bind_Ok in H as (t & s1 & H1 & H2).
  apply getTrack_Ok in H1 as [-> Ht]. unfold deref in H2.
  destruct (_ !! sr_staff r) eqn:E; [|discriminate]. injection H2 as <- <-. eauto.
Qed.

Lemma countAt_Some r s n :
  countAt r s = Some n <->
  exists t st, Score.tracks (_score s) !! sr_track r = Some t
               /\ Track.staves t !! sr_staff r = Some st
               /\ n = length (Staff.bars st).
Proof.
  unfold countAt, barCounts. rewrite list_lookup_fmap. split.
  - destruct (_ !! sr_track r) as [t|]; [|discriminate]. cbn.
    rewrite list_lookup_fmap. destruct (_ !! sr_staff r) as [st|] eqn:E; [|discriminate].
    cbn. intros H. injection H as <-. eauto.
  - intros (t & st & -> & Hst & ->). cbn. rewrite list_lookup_fmap, Hst. reflexivity.
Qed.

Lemma getStaff_countAt r s st s' :
  getStaff r s = Ok st s' -> countAt r s = Some (length (Staff.bars st)).
Proof.
  intros H. apply getStaff_Ok in H as (_ & t & Ht & Hst).
  apply countAt_Some. eauto.
Qed.

Lemma getMasterBar_Ok i s m s' :
  getMasterBar i s = Ok m s' ->
  s' = s /\ Score.masterBars (_score s) !! i = Some m.
Proof.
  unfold getMasterBar, bind, gets, deref. destruct (_ !! i); [|discriminate].
  intros H. injection H as <- <-. auto.
Qed.

Lemma modTrack_Ok i f s u s' :
  modTrack i f s = Ok u s' ->
  s' = set__score (Score.set_tracks (alter f i (Score.tracks (_score s))) (_score s)) s.
Proof.
  unfold modTrack. intros H. apply bind_Ok in H as (t & s1 & H1 & H2).
  apply getTrack_Ok in H1 as [-> _]. injection H2 as _ <-. reflexivity.
Qed.

Lemma modStaff_Ok r f s u s' :
  modStaff r f s = Ok u s' ->
  s' = set__score
         (Score.set_tracks
            (alter (fun t => Track.set_staves (alter f (sr_staff r) (Track.staves t)) t)
               (sr_track r) (Score.tracks (_score s))) (_score s)) s.
Proof.
  unfold modStaff. intros H. apply bind_Ok in H as (t & s1 & H1 & H2).
  apply getStaff_Ok in H1 as [-> _]. apply modTrack_Ok in H2. exact H2.
Qed.

(** The bar counts after a change of one staff. *)
Lemma barCounts_modStaff r f (g : nat -> nat) sc :
  (forall st, length (Staff.bars (f st)) = g (length (Staff.bars st))) ->
  barCounts
    (Score.set_tracks
       (alter (fun t => Track.set_staves (alter f (sr_staff r) (Track.staves t)) t)
          (sr_track r) (Score.tracks sc)) sc)
  = alter (alter g (sr_staff r)) (sr_track r) (barCounts sc).
Proof.
  intros Hf. unfold barCounts. cbn.
  apply list_fmap_alter. apply Forall_forall. intros t _. cbn.
  apply list_fmap_alter. apply Forall_forall. intros st _. apply Hf.
Qed.

Lemma Forall2_alter_le (k k' : nat) cs ti si n :
  Forall (Forall (fun c => (c <= k)%nat)) cs ->
  cs !! ti ≫= (fun l => l !! si) = Some n ->
  (S n <= k')%nat -> (k <= k')%nat ->
  Forall (Forall (fun c => (c <= k')%nat)) (alter (alter S si) ti cs).
Proof.
  intros H Hn Hk Hkk.
  apply Forall_alter.
  - eapply Forall_impl; [exact H|]. intros l Hl. eapply Forall_impl; [exact Hl|].
    cbn. intros; lia.
  - intros l Hl _. rewrite Hl in Hn. cbn in Hn.
    rewrite Forall_lookup in H. specialize (H _ _ Hl).
    apply Forall_alter.
    + eapply Forall_impl; [exact H|]. cbn. intros; lia.
    + intros c Hc _. rewrite Hc in Hn. injection Hn as ->. exact Hk.
Qed.

(** *** Tracks and staves *)

Lemma hasTempo_masterBars s s' :
  Score.masterBars (_score s') = Score.masterBars (_score s) ->
  hasTempo s -> hasTempo s'.
Proof. unfold hasTempo. intros ->. auto. Qed.

Lemma newTrack_Ok s u s' :
  newTrack s = Ok u s' ->
  barCounts (_score s') = barCounts (_score s) ++ [[0%nat]]
  /\ Score.masterBars (_score s') = Score.masterBars (_score s)
  /\ _currentTrack s' = length (Score.tracks (_score s))
  /\ _currentStaff s' = mkStaffRef (length (Score.tracks (_score s))) 0.
Proof.
  intros H. injection H as _ <-. cbn. unfold barCounts. cbn.
  rewrite fmap_app. auto.
Qed.

Lemma newTrack_keepsInv : pres keepsInv newTrack.
Proof.
  intros s u s' H. apply newTrack_Ok in H as (Hc & Hm & _).
  unfold keepsInv, barsLe, masterBarCount. rewrite Hc, Hm. repeat split; auto.
  - intros Hb. apply Forall_app. split; [exact Hb|]. repeat constructor. lia.
  - apply hasTempo_masterBars. exact Hm.
Qed.

Lemma ensureStaveCount_keepsInv i n : pres keepsInv (modTrack i (Track_ensureStaveCount n)).
Proof.
  intros s u s' H. apply modTrack_Ok in H. subst s'.
  assert (Hc : barCounts (_score (set__score
            (Score.set_tracks (alter (Track_ensureStaveCount n) i (Score.tracks (_score s)))
               (_score s)) s))
          = alter (fun l => l ++ replicate (n - length l) 0%nat) i (barCounts (_score s))).
  { unfold barCounts. cbn. apply list_fmap_alter. apply Forall_forall. intros t _.
    cbn. rewrite fmap_app, fmap_replicate, length_fmap. reflexivity. }
  unfold keepsInv, barsLe, masterBarCount. rewrite Hc. cbn. repeat split; auto.
  intros Hb. apply Forall_alter; [exact Hb|]. intros l _ Hl.
  apply Forall_app. split; [exact Hl|]. apply Forall_replicate. lia.
Qed.

#[global] Hint Resolve newTrack_keepsInv ensureStaveCount_keepsInv : pres.

#[global] Hint Extern 3 (pres keepsInv (modify _)) =>
  apply pres_modify; intro; split; [auto|split; [auto|reflexivity]] : pres.

Section TrackStaff.
Context (ext : Externals).

Lemma trackMeta_keepsInv : pres keepsInv (trackMeta ext).
Proof. pres_unfold trackMeta. Qed.

Lemma staffMeta_keepsInv : pres keepsInv (staffMeta ext).
Proof. pres_unfold staffMeta. Qed.
Hint Resolve trackMeta_keepsInv staffMeta_keepsInv : pres.

Lemma trackStaffMeta_keepsInv : pres keepsInv (trackStaffMeta ext).
Proof. pres_unfold trackStaffMeta. Qed.
End TrackStaff.

#[global] Hint Resolve trackMeta_keepsInv staffMeta_keepsInv trackStaffMeta_keepsInv : pres.

(** *** Bars *)

Lemma quiet_shape s s' : quiet s s' -> shape s' = shape s.
Proof. intros (H & _). exact H. Qed.

Lemma shape_parts s s' :
  shape s' = shape s ->
  barCounts (_score s') = barCounts (_score s) /\ masterBarCount s' = masterBarCount s.
Proof. unfold shape, masterBarCount. intros H. injection H as -> ->. auto. Qed.

Lemma Staff_addBar_Ok r b s bar s' :
  Staff_addBar r b s = Ok bar s' ->
  exists n, countAt r s = Some n
    /\ bar = mkBarRef (sr_track r) (sr_staff r) n
    /\ barCounts (_score s') = alter (alter S (sr_staff r)) (sr_track r) (barCounts (_score s))
    /\ Score.masterBars (_score s') = Score.masterBars (_score s)
    /\ _currentTrack s' = _currentTrack s /\ _currentStaff s' = _currentStaff s.
Proof.
  unfold Staff_addBar. intros H. apply bind_Ok in H as (st & s1 & H1 & H2).
  pose proof (getStaff_countAt _ _ _ _ H1) as Hc.
  apply getStaff_Ok in H1 as [-> _].
  apply bind_Ok in H2 as (u & s2 & H2 & H3). injection H3 as <- <-.
  apply modStaff_Ok in H2. subst s2.
  exists (length (Staff.bars st)). split; [exact Hc|]. split; [reflexivity|].
  split; [|auto]. cbn [_score set__score].
  apply countAt_Some in Hc as (t & st0 & Ht & Hst & Hn).
  rewrite (barCounts_modStaff r _ (fun _ => S (length (Staff.bars st)))).
  - apply list_alter_ext; [|reflexivity]. intros l Hl.
    apply list_alter_ext; [|reflexivity]. intros c Hc.
    unfold barCounts in Hl. rewrite list_lookup_fmap, Ht in Hl. injection Hl as <-.
    rewrite list_lookup_fmap, Hst in Hc. injection Hc as <-. congruence.
  - intros st1. cbn. rewrite length_app. cbn. lia.
Qed.

Lemma newBar_Ok r s bar s' :
  newBar r s = Ok bar s' ->
  exists n, countAt r s = Some n
    /\ bar = mkBarRef (sr_track r) (sr_staff r) n
    /\ barCounts (_score s') = alter (alter S (sr_staff r)) (sr_track r) (barCounts (_score s))
    /\ masterBarCount s' = masterBarCount s
    /\ (hasTempo s -> hasTempo s')
    /\ _currentTrack s' = _currentTrack s /\ _currentStaff s' = _currentStaff s.
Proof.
  unfold newBar. intros H. apply bind_Ok in H as (b & s1 & H1 & H2).
  apply Staff_addBar_Ok in H1 as (n & Hn & -> & Hc & Hm & Ht & Hs).
  assert (Hq : pres quiet
    (when (Nat.ltb 0 (br_bar (mkBarRef (sr_track r) (sr_staff r) n)))
       (previousBar <- getBar (mkBarRef (br_track (mkBarRef (sr_track r) (sr_staff r) n))
                        (br_staff (mkBarRef (sr_track r) (sr_staff r) n))
                        (br_bar (mkBarRef (sr_track r) (sr_staff r) n) - 1)) ;;
        modBar (mkBarRef (sr_track r) (sr_staff r) n) (Bar.set_clef (Bar.clef previousBar))) ;;
     voice <- Bar_addVoice (mkBarRef (sr_track r) (sr_staff r) n) Voice.new ;;
     ret (mkBarRef (sr_track r) (sr_staff r) n))).
  { unfold Bar_addVoice. pres_auto. }
  pose proof (Hq _ _ _ H2) as (Hsh & Htm & Hct & Hcs).
  assert (Hb : bar = mkBarRef (sr_track r) (sr_staff r) n).
  { apply bind_Ok in H2 as (u & s2 & _ & H2). apply bind_Ok in H2 as (v & s3 & _ & H2).
    injection H2 as <- _. reflexivity. }
  apply shape_parts in Hsh as [Hbc Hmc].
  exists n. split; [exact Hn|]. split; [exact Hb|].
  split; [congruence|]. split; [unfold masterBarCount in *; congruence|].
  split; [|split; congruence].
  intros Hh. apply Htm. eapply hasTempo_masterBars; eassumption.
Qed.

Lemma Score_addMasterBar_Ok m s i s' :
  Score_addMasterBar m s = Ok i s' ->
  i = masterBarCount s
  /\ s' = set__score (Score.set_masterBars (Score.masterBars (_score s) ++ [m]) (_score s)) s.
Proof. intros H. injection H as <- <-. auto. Qed.

(** A frame condition read off a run that is among the hypotheses. *)
Ltac pres_in H R :=
  match type of H with
  | ?m ?s = Ok _ _ =>
      let Hp := fresh "Hp" in
      assert (Hp : pres R m) by (cbv zeta; pres_auto);
      apply Hp in H; clear Hp
  end.

Lemma hasTempo_append s m :
  hasTempo s ->
  hasTempo (set__score (Score.set_masterBars (Score.masterBars (_score s) ++ [m]) (_score s)) s).
Proof.
  intros (m0 & Hm & Ht). exists m0. split; [|exact Ht]. cbn.
  rewrite lookup_app_l; [exact Hm|]. eapply lookup_lt_Some. exact Hm.
Qed.

Lemma barsLe_countAt s r n :
  barsLe s -> countAt r s = Some n -> (n <= masterBarCount s)%nat.
Proof.
  unfold barsLe, countAt. intros Hle Hn.
  destruct (barCounts (_score s) !! sr_track r) as [l|] eqn:El; [|discriminate].
  cbn in Hn.
  pose proof (proj1 (Forall_lookup _ _) Hle _ _ El) as Hl.
  exact (proj1 (Forall_lookup _ _) Hl _ _ Hn).
Qed.

Section Bar.
Context (ext : Externals).

Lemma barMeta_hasTempo bar s a s' :
  barMeta ext bar s = Ok a s' -> br_bar bar = 0%nat -> hasTempo s'.
Proof.
  unfold barMeta. intros H Hb. rewrite Hb in H.
  apply bind_Ok in H as (any & s1 & _ & H).
  apply bind_Ok in H as (m & s2 & Hm & H). apply getMasterBar_Ok in Hm as [-> Hm].
  apply bind_Ok in H as (sc & s2 & Hsc & H). injection Hsc as <- <-.
  apply bind_Ok in H as (u & s3 & H & Hr). injection Hr as _ <-.
  cbn [Nat.eqb andb] in H.
  destruct (MasterBar.tempoAutomations m) as [|x l] eqn:E; cbn in H.
  - apply bind_Ok in H as (m' & s4 & Hm' & H). apply getMasterBar_Ok in Hm' as [-> Hm'].
    injection H as _ <-. unfold hasTempo. cbn [_score set__score].
    change (Score.masterBars (Score.set_masterBars ?l _)) with l.
    rewrite list_lookup_alter. cbn.
    rewrite Hm. cbn. eexists. split; [reflexivity|]. cbn. rewrite E. discriminate.
  - injection H as _ <-. exists m. split; [exact Hm|]. rewrite E. discriminate.
Qed.

Lemma bar_inv s a s' :
  bar ext s = Ok a s' -> barsLe s -> (masterBarCount s = 0%nat \/ hasTempo s) ->
  barsInv s' /\ (masterBarCount s <= masterBarCount s')%nat.
Proof.
  unfold bar. intros H Hle Hpre.
  apply bind_Ok in H as (a1 & s1 & H1 & H).
  apply trackStaffMeta_keepsInv in H1 as (Hle1 & Ht1 & Hm1).
  specialize (Hle1 Hle).
  apply bind_Ok in H as (cur & s1' & Hc & H). injection Hc as <- <-.
  apply bind_Ok in H as (b & s2 & H2 & H).
  apply newBar_Ok in H2 as (n & Hn & Hb & Hbc & Hm2 & Ht2 & _).
  apply bind_Ok in H as (st & s2' & H3 & H).
  pose proof (getStaff_countAt _ _ _ _ H3) as Hc3. apply getStaff_Ok in H3 as [-> _].
  apply bind_Ok in H as (sc & s2' & Hsc & H). injection Hsc as <- <-.
  apply bind_Ok in H as (u & s3 & H4 & H).
  assert (Hn1 : (n <= masterBarCount s1)%nat)
    by (eapply barsLe_countAt; eassumption).
  assert (Hlen : length (Staff.bars st) = S n).
  { unfold countAt in Hc3, Hn. rewrite Hbc, list_lookup_alter in Hc3.
    case_decide; [|congruence].
    destruct (barCounts (_score s1) !! sr_track (_currentStaff s1)) as [l|]; [|discriminate].
    cbn in Hc3, Hn. rewrite list_lookup_alter in Hc3. case_decide; [|congruence].
    rewrite Hn in Hc3. cbn in Hc3. congruence. }
  assert (H3' : barsLe s3 /\ (hasTempo s2 -> hasTempo s3)
                /\ (masterBarCount s2 <= masterBarCount s3)%nat
                /\ (S n <= masterBarCount s3)%nat).
  { rewrite Hlen in H4. fold (masterBarCount s2) in H4.
    destruct (Nat.ltb (masterBarCount s2) (S n)) eqn:E; cbn [when] in H4.
    - apply Nat.ltb_lt in E.
      apply bind_Ok in H4 as (i & s2a & Ha & H4).
      apply Score_addMasterBar_Ok in Ha as [-> ->].
      pres_in H4 quiet.
      destruct H4 as (Hsh & Htm & _). apply shape_parts in Hsh as [Hbc3 Hm3].
      assert (Hm3' : masterBarCount s3 = S (masterBarCount s2)).
      { rewrite Hm3. unfold masterBarCount. cbn. rewrite length_app. cbn. lia. }
      split; [|split; [|split]]; try lia.
      + unfold barsLe. rewrite Hbc3. cbn [_score set__score]. 
        change (barCounts (Score.set_masterBars _ (_score s2))) with (barCounts (_score s2)).
        rewrite Hbc. eapply Forall2_alter_le; [exact Hle1|exact Hn| |]; lia.
      + intros Hh. apply Htm. apply hasTempo_append. exact Hh.
    - apply Nat.ltb_ge in E. injection H4 as _ <-.
      split; [|split; [|split]]; auto.
      unfold barsLe. rewrite Hbc. eapply Forall2_alter_le; [exact Hle1|exact Hn| |]; lia. }
  destruct H3' as (Hle3 & Ht3 & Hm3 & Hn3).
  apply bind_Ok in H as (anyBarMeta & s4 & H5 & H).
  pose proof (barMeta_quiet ext _ _ _ _ H5) as Hq5.
  pres_in H quiet.
  assert (Hq : quiet s3 s') by (etransitivity; eassumption).
  destruct Hq as (Hsh & Htm & _).
  pose proof (shape_parts _ _ Hsh) as [_ Hmc].
  split; [split|lia].
  - eapply shape_barsLe; eassumption.
  - destruct H as (_ & Htm4 & _). apply Htm4.
    destruct Hpre as [Hz|Hh].
    + eapply barMeta_hasTempo; [exact H5|]. subst b. cbn. lia.
    + destruct Hq5 as (_ & Htm5 & _). auto.
Qed.
End Bar.


(** *** The bar sequence *)

#[global] Instance invStep_preorder : PreOrder invStep.
Proof. split; [intros s H; exact H|]. intros s1 s2 s3 H1 H2 H. auto. Qed.

Lemma keepsInv_invStep s s' : keepsInv s s' -> invStep s s'.
Proof. intros (A & B & _) [Hl Ht]. split; auto. Qed.

Lemma pres_keepsInv_invStep {A} (m : M A) : pres keepsInv m -> pres invStep m.
Proof. apply pres_weaken, keepsInv_invStep. Qed.

#[global] Hint Resolve pres_keepsInv_invStep : pres.

Section Bars.
Context (ext : Externals).

Lemma bar_invStep : pres invStep (bar ext).
Proof.
  intros s a s' H [Hl Ht]. eapply bar_inv; [exact H|exact Hl|right; exact Ht].
Qed.
Hint Resolve bar_invStep : pres.

Lemma bars_inv s a s' :
  bars ext s = Ok a s' -> barsLe s -> (masterBarCount s = 0%nat \/ hasTempo s) ->
  barsInv s'.
Proof.
  unfold bars. intros H Hl Hp.
  apply bind_Ok in H as (anyData & s1 & H1 & H).
  apply bar_inv in H1 as [Hi _]; [|assumption..].
  pres_in H invStep. auto.
Qed.
End Bars.

(** *** Padding *)

#[global] Instance pads_preorder : PreOrder pads.
Proof.
  split; [intros s; repeat split; auto|].
  intros s1 s2 s3 (A1 & B1 & C1 & D1 & E1) (A2 & B2 & C2 & D2 & E2).
  repeat split; try congruence; auto.
Qed.

Lemma quiet_pads s s' : quiet s s' -> pads s s'.
Proof.
  intros (Hs & Ht & _). pose proof (shape_parts _ _ Hs) as [Hb Hm].
  unfold pads, staffCounts, countAt. rewrite Hb, Hm. repeat split; auto.
  apply shape_barsLe. exact Hs.
Qed.

Lemma pres_quiet_pads {A} (m : M A) : pres quiet m -> pres pads m.
Proof. apply pres_weaken, quiet_pads. Qed.

#[global] Hint Resolve pres_quiet_pads : pres.

Lemma loopM_last {A} fuel (step : A -> M (bool * A)) a s a' s' :
  loopM fuel step a s = Ok a' s' -> exists a1 s1, step a1 s1 = Ok (false, a') s'.
Proof.
  revert a s. induction fuel as [|fuel IH]; intros a s H; [discriminate|].
  cbn [loopM] in H. apply bind_Ok in H as ([[] a2] & s2 & H1 & H2); cbn in H2.
  - eapply IH. exact H2.
  - injection H2 as <- <-. eauto.
Qed.

Lemma staffCounts_alter (si ti : nat) (cs : list (list nat)) :
  length <$> alter (alter S si) ti cs = length <$> cs.
Proof.
  apply fmap_alter_same. intros l _. apply length_alter.
Qed.

Lemma countAt_alter (r r' : StaffRef) (cs : list (list nat)) (n : nat) :
  cs !! sr_track r ≫= (fun l => l !! sr_staff r) = Some n ->
  alter (alter S (sr_staff r)) (sr_track r) cs !! sr_track r'
    ≫= (fun l => l !! sr_staff r')
  = if decide (r' = r) then Some (S n)
    else cs !! sr_track r' ≫= (fun l => l !! sr_staff r').
Proof.
  intros Hn. rewrite list_lookup_alter.
  destruct r as [ti si], r' as [ti' si']. cbn in *.
  destruct (decide (ti = ti')) as [->|Hne].
  - destruct (cs !! ti') as [l|]; [|discriminate]. cbn in *.
    rewrite list_lookup_alter. destruct (decide (si = si')) as [->|Hne'].
    + rewrite Hn. cbn. rewrite decide_True by reflexivity. reflexivity.
    + rewrite decide_False by congruence. reflexivity.
  - rewrite decide_False by congruence. reflexivity.
Qed.

(** One round of the loop of [padStaff]: the staff is short of a bar and
    gets one. *)
Lemma padRound_pads r s bar s' :
  newBar r s = Ok bar s' ->
  (forall n, countAt r s = Some n -> (n < masterBarCount s)%nat) ->
  pads s s'.
Proof.
  intros H Hlt. apply newBar_Ok in H as (n & Hn & _ & Hbc & Hm & Ht & _).
  specialize (Hlt _ Hn).
  unfold pads, staffCounts, barsLe, countAt. rewrite Hbc, Hm.
  split; [reflexivity|]. split; [apply staffCounts_alter|].
  split; [|split; [exact Ht|]].
  - intros Hle. eapply Forall2_alter_le; [exact Hle|exact Hn|lia|lia].
  - intros r' Hr'. rewrite (countAt_alter r r' _ n Hn).
    destruct (decide (r' = r)) as [->|]; [|exact Hr'].
    unfold countAt in Hn. rewrite Hn in Hr'. injection Hr' as ->. lia.
Qed.

Lemma padStaff_pads r : pres pads (padStaff r).
Proof.
  unfold padStaff. apply pres_bind; [typeclasses eauto|pres_auto|]. intros sc0.
  apply pres_loopM; [typeclasses eauto|]. intros [].
  intros s a s' H.
  apply bind_Ok in H as (st & s1 & H1 & H).
  pose proof (getStaff_countAt _ _ _ _ H1) as Hc. apply getStaff_Ok in H1 as [-> _].
  apply bind_Ok in H as (sc & s1 & Hsc & H). injection Hsc as <- <-.
  fold (masterBarCount s) in H.
  destruct (Nat.ltb (length (Staff.bars st)) (masterBarCount s)) eqn:E.
  - apply Nat.ltb_lt in E.
    apply bind_Ok in H as (bar & s2 & H2 & H).
    etransitivity.
    + eapply padRound_pads; [exact H2|]. intros n Hn. rewrite Hc in Hn. injection Hn as <-. exact E.
    + pres_in H pads. exact H.
  - injection H as _ <-. reflexivity.
Qed.

Lemma padStaff_full r s u s' :
  padStaff r s = Ok u s' -> barsLe s -> countAt r s' = Some (masterBarCount s').
Proof.
  intros H Hle. pose proof (padStaff_pads r _ _ _ H) as (_ & _ & Hle' & _).
  specialize (Hle' Hle).
  unfold padStaff in H. apply bind_Ok in H as (sc0 & s0 & H0 & H). injection H0 as _ <-.
  apply loopM_last in H as ([] & s1 & H).
  apply bind_Ok in H as (st & s2 & H1 & H).
  pose proof (getStaff_countAt _ _ _ _ H1) as Hc. apply getStaff_Ok in H1 as [-> _].
  apply bind_Ok in H as (sc & s2 & Hsc & H). injection Hsc as <- <-.
  fold (masterBarCount s1) in H.
  destruct (Nat.ltb (length (Staff.bars st)) (masterBarCount s1)) eqn:E.
  - apply bind_Ok in H as (bar & s3 & _ & H). apply bind_Ok in H as (v & s4 & _ & H).
    discriminate.
  - injection H as H. subst s'. apply Nat.ltb_ge in E.
    pose proof (barsLe_countAt _ _ _ Hle' Hc). rewrite Hc. f_equal. lia.
Qed.

Lemma padStaves_full ti l s u s' :
  forEachM l (fun staff => padStaff (mkStaffRef ti staff)) s = Ok u s' ->
  barsLe s ->
  pads s s' /\ forall si, si ∈ l -> countAt (mkStaffRef ti si) s' = Some (masterBarCount s').
Proof.
  revert s. induction l as [|x l IH]; intros s H Hle; cbn [forEachM] in H.
  - injection H as _ <-. split; [reflexivity|]. intros si Hsi. inversion Hsi.
  - apply bind_Ok in H as (v & s1 & H1 & H).
    pose proof (padStaff_pads _ _ _ _ H1) as Hp1.
    pose proof (padStaff_full _ _ _ _ H1 Hle) as Hf1.
    assert (Hle1 : barsLe s1) by (destruct Hp1 as (_ & _ & Hl & _); auto).
    destruct (IH _ H Hle1) as [Hp Hall].
    split; [etransitivity; eassumption|].
    intros si Hsi. apply elem_of_cons in Hsi as [->|Hsi]; [|auto].
    destruct Hp as (_ & _ & _ & _ & Hkeep). auto.
Qed.

Lemma staffCounts_lookup s ti t :
  Score.tracks (_score s) !! ti = Some t ->
  staffCounts s !! ti = Some (length (Track.staves t)).
Proof.
  intros Ht. unfold staffCounts, barCounts.
  rewrite !list_lookup_fmap, Ht. cbn. rewrite length_fmap. reflexivity.
Qed.

Lemma padTracks_full lt s u s' :
  forEachM lt
    (fun track =>
       t <- getTrack track ;;
       forEachM (seq 0 (length (Track.staves t)))
         (fun staff => padStaff (mkStaffRef track staff))) s = Ok u s' ->
  barsLe s ->
  pads s s'
  /\ forall ti k si, ti ∈ lt -> staffCounts s !! ti = Some k -> (si < k)%nat ->
       countAt (mkStaffRef ti si) s' = Some (masterBarCount s').
Proof.
  revert s. induction lt as [|x lt IH]; intros s H Hle; cbn [forEachM] in H.
  - injection H as _ <-. split; [reflexivity|]. intros ti k si Hti. inversion Hti.
  - apply bind_Ok in H as (v & s1 & H1 & H).
    apply bind_Ok in H1 as (t & s0 & Ht & H1). apply getTrack_Ok in Ht as [-> Ht].
    destruct (padStaves_full _ _ _ _ _ H1 Hle) as [Hp1 Hall1].
    assert (Hle1 : barsLe s1) by (destruct Hp1 as (_ & _ & Hl & _); auto).
    destruct (IH _ H Hle1) as [Hp Hall].
    split; [etransitivity; eassumption|].
    intros ti k si Hti Hk Hsi. apply elem_of_cons in Hti as [->|Hti].
    + destruct Hp as (_ & _ & _ & _ & Hkeep). apply Hkeep. apply Hall1.
      rewrite (staffCounts_lookup _ _ _ Ht) in Hk. injection Hk as <-.
      apply elem_of_seq. lia.
    + eapply Hall; [exact Hti| |exact Hsi].
      destruct Hp1 as (_ & Hsc & _). rewrite Hsc. exact Hk.
Qed.

Lemma consolidate_full s u s' :
  consolidate s = Ok u s' -> barsLe s -> barsFull s' /\ pads s s'.
Proof.
  unfold consolidate. intros H Hle.
  apply bind_Ok in H as (sc & s0 & Hsc & H). injection Hsc as <- <-.
  destruct (padTracks_full _ _ _ _ H Hle) as [Hp Hall].
  split; [|exact Hp].
  destruct Hp as (_ & Hsc & _).
  unfold barsFull. apply Forall_lookup. intros ti l Hl.
  apply Forall_lookup. intros si n Hn.
  assert (Hk : staffCounts s !! ti = Some (length l)).
  { rewrite <- Hsc. unfold staffCounts. rewrite list_lookup_fmap, Hl. reflexivity. }
  assert (Hti : ti ∈ seq 0 (length (Score.tracks (_score s)))).
  { apply elem_of_seq. apply lookup_lt_Some in Hk.
    unfold staffCounts, barCounts in Hk. rewrite !length_fmap in Hk. lia. }
  specialize (Hall ti (length l) si Hti Hk (lookup_lt_Some _ _ _ Hn)).
  unfold countAt in Hall. cbn in Hall. rewrite Hl in Hall. cbn in Hall. congruence.
Qed.


(** *** The whole parse *)

Lemma asUnsupportedFormat_Ok {A} (m : M A) s a s' :
  asUnsupportedFormat m s = Ok a s' -> m s = Ok a s'.
Proof.
  unfold asUnsupportedFormat. destruct (m s) as [| [] |]; congruence.
Qed.

Lemma createDefaultScore_Ok s u s' :
  createDefaultScore s = Ok u s' ->
  barCounts (_score s') = [[0%nat]] /\ Score.masterBars (_score s') = []
  /\ length (Score.tracks (_score s')) = 1%nat.
Proof.
  unfold createDefaultScore. intros H.
  apply bind_Ok in H as (a & s1 & H0 & H). unfold modify in H0. injection H0 as _ <-.
  pose proof (newTrack_Ok _ _ _ H) as (Hc & Hm & _).
  split; [exact Hc|]. split; [exact Hm|].
  assert (Hl : length (barCounts (_score s')) = 1%nat) by (rewrite Hc; reflexivity).
  unfold barCounts in Hl. rewrite length_fmap in Hl. exact Hl.
Qed.

Ltac quiet_step H Hq :=
  let a := fresh "a" in let s := fresh "s" in let Hs := fresh "Hs" in
  apply bind_Ok in H as (a & s & Hs & H);
  pres_in Hs quiet;
  try (let Hq' := fresh "Hq" in
       assert (Hq' := transitivity Hq Hs); clear Hq Hs; rename Hq' into Hq).

Section ReadScore.
Context (ext : Externals).

Lemma readScore_inv s0 u s' :
  readScore ext s0 = Ok u s' -> barsFull s' /\ hasTempo s'.
Proof.
  unfold readScore. intros H. apply asUnsupportedFormat_Ok in H.
  apply bind_Ok in H as (a1 & sa & _ & H).
  apply bind_Ok in H as (a2 & sb & _ & H).
  apply bind_Ok in H as (a3 & sc & H3 & H).
  apply createDefaultScore_Ok in H3 as (Hbc & Hmb & _).
  assert (Hq : quiet sc sc) by reflexivity.
  do 11 quiet_step H Hq.
  lazymatch type of Hq with quiet _ ?sx => rename sx into sm end.
  apply bind_Ok in H as (anyBars & sd & H4 & H).
  destruct Hq as (Hsh & _). apply shape_parts in Hsh as [Hbc' Hm'].
  assert (Hle : barsLe sm).
  { unfold barsLe. rewrite Hbc', Hbc. repeat constructor. lia. }
  assert (Hz : masterBarCount sm = 0%nat).
  { rewrite Hm'. unfold masterBarCount. rewrite Hmb. reflexivity. }
  apply bars_inv in H4 as [Hle4 Ht4]; [|exact Hle|left; exact Hz].
  apply bind_Ok in H as (aw & se & H5 & H).
  pres_in H5 quiet.
  assert (Hle5 : barsLe se) by (eapply shape_barsLe; [apply quiet_shape|]; eassumption).
  destruct (consolidate_full _ _ _ H Hle5) as [Hfull Hp].
  split; [exact Hfull|].
  destruct Hp as (_ & _ & _ & Ht & _). apply Ht. destruct H5 as (_ & Ht5 & _). auto.
Qed.
End ReadScore.

Lemma barsFull_lookup s ti t si st :
  barsFull s ->
  Score.tracks (_score s) !! ti = Some t -> Track.staves t !! si = Some st ->
  length (Staff.bars st) = length (Score.masterBars (_score s)).
Proof.
  unfold barsFull, barCounts. intros H Ht Hst.
  assert (H1 : ((fun t => (fun st => length (Staff.bars st)) <$> Track.staves t)
                <$> Score.tracks (_score s)) !! ti
               = Some ((fun st => length (Staff.bars st)) <$> Track.staves t)).
  { rewrite list_lookup_fmap, Ht. reflexivity. }
  pose proof (proj1 (Forall_lookup _ _) H _ _ H1) as H2.
  assert (H3 : ((fun st => length (Staff.bars st)) <$> Track.staves t) !! si
               = Some (length (Staff.bars st))).
  { rewrite list_lookup_fmap, Hst. reflexivity. }
  exact (proj1 (Forall_lookup _ _) H2 _ _ H3).
Qed.


(** ** The [\track] meta command *)

#[global] Instance sameTracks_preorder : PreOrder sameTracks.
Proof.
  split; [intros s; repeat split; auto|].
  intros s1 s2 s3 (A1 & B1 & C1) (A2 & B2 & C2). repeat split; congruence.
Qed.

Lemma quiet_sameTracks s s' : quiet s s' -> sameTracks s s'.
Proof.
  intros (Hs & _ & Hc & _). apply shape_parts in Hs as [Hb Hm].
  split; [|auto]. unfold trackCount.
  apply (f_equal length) in Hb. unfold barCounts in Hb.
  rewrite !length_fmap in Hb. exact Hb.
Qed.

Lemma pres_quiet_sameTracks {A} (m : M A) : pres quiet m -> pres sameTracks m.
Proof. apply pres_weaken, quiet_sameTracks. Qed.

Lemma modTrack_sameTracks i f : pres sameTracks (modTrack i f).
Proof.
  intros s u s' H. apply modTrack_Ok in H. subst s'.
  unfold sameTracks, trackCount, masterBarCount. cbn [_score set__score].
  change (Score.tracks (Score.set_tracks ?l _)) with l.
  rewrite length_alter. auto.
Qed.

#[global] Hint Resolve pres_quiet_sameTracks modTrack_sameTracks : pres.
#[global] Hint Extern 3 (pres sameTracks (modify _)) =>
  apply pres_modify; intro; split; [reflexivity|split; reflexivity] : pres.

Section TrackMeta.
Context (ext : Externals).

Lemma staffMeta_sameTracks : pres sameTracks (staffMeta ext).
Proof. pres_unfold staffMeta. Qed.
Hint Resolve staffMeta_sameTracks : pres.

Lemma newTrack_tracks s u s' :
  newTrack s = Ok u s' ->
  trackCount s' = S (trackCount s) /\ _currentTrack s' = trackCount s
  /\ masterBarCount s' = masterBarCount s.
Proof.
  intros H. apply newTrack_Ok in H as (Hc & Hm & Ht & _).
  split; [|split; [exact Ht|unfold masterBarCount; congruence]].
  apply (f_equal length) in Hc. unfold barCounts in Hc.
  rewrite length_app, !length_fmap in Hc. cbn in Hc. unfold trackCount. lia.
Qed.

Lemma trackMeta_tracks s u s' :
  trackMeta ext s = Ok u s' ->
  (masterBarCount s = 0%nat ->
     trackCount s' = trackCount s /\ _currentTrack s' = _currentTrack s)
  /\ (masterBarCount s <> 0%nat ->
     trackCount s' = S (trackCount s) /\ _currentTrack s' = trackCount s).
Proof.
  unfold trackMeta. intros H.
  apply bind_Ok in H as (a1 & s1 & H1 & H). pres_in H1 sameTracks.
  apply bind_Ok in H as (a2 & s2 & H2 & H). pres_in H2 sameTracks.
  apply bind_Ok in H as (a3 & s3 & H3 & H). pres_in H3 sameTracks.
  assert (H13 : sameTracks s s3) by (etransitivity; [|eassumption]; etransitivity; eassumption).
  clear H1 H2 H3. destruct H13 as (Hc & Ht & Hm).
  apply bind_Ok in H as (sc & s3' & Hsc & H). injection Hsc as <- <-.
  apply bind_Ok in H as (a4 & s4 & H4 & H).
  pres_in H sameTracks. destruct H as (Hc' & Ht' & Hm').
  fold (masterBarCount s3) in H4. rewrite Hm in H4.
  destruct (masterBarCount s) as [|k] eqn:E; cbn [Nat.ltb Nat.leb when] in H4.
  - injection H4 as _ <-. split; [|congruence]. intros _. split; congruence.
  - apply newTrack_tracks in H4 as (Hc4 & Ht4 & _).
    split; [congruence|]. intros _. split; congruence.
Qed.

Lemma trackStaffMeta_tracks s a s' :
  trackStaffMeta ext s = Ok a s' -> isMeta "track" s = true ->
  (masterBarCount s = 0%nat ->
     trackCount s' = trackCount s /\ _currentTrack s' = _currentTrack s)
  /\ (masterBarCount s <> 0%nat ->
     trackCount s' = S (trackCount s) /\ _currentTrack s' = trackCount s).
Proof.
  unfold trackStaffMeta, isMeta. intros H Hm.
  apply andb_true_iff in Hm as [Hsy Htag].
  apply bind_Ok in H as (sy & s0 & Hs & H). injection Hs as <- <-.
  rewrite Hsy in H. cbn [negb] in H.
  destruct (_syData s) as [str| |] eqn:Ed; try discriminate.
  rewrite (bind_run _ _ _ _ _ (syString_run _ _ Ed)) in H. rewrite Htag in H.
  cbn [when] in H.
  apply bind_Ok in H as (u & s1 & H1 & H).
  apply trackMeta_tracks in H1 as [Hz Hnz].
  assert (Hq : sameTracks s1 s').
  { pres_in H sameTracks. exact H. }
  destruct Hq as (Hc & Ht & _).
  split; intros Hmb; [destruct (Hz Hmb)|destruct (Hnz Hmb)]; split; congruence.
Qed.
End TrackMeta.


(** *** The name of the track *)

#[global] Instance sameNames_preorder : PreOrder sameNames.
Proof.
  split; [intros s; split; reflexivity|].
  intros s1 s2 s3 [A1 B1] [A2 B2]. split; congruence.
Qed.

Lemma sameDocument_sameNames s s' : sameDocument s s' -> sameNames s s'.
Proof.
  unfold sameDocument, document. intros H. injection H as Hs _ _ Ht _.
  split; [|exact Ht]. unfold trackNames. rewrite Hs. reflexivity.
Qed.

Lemma pres_doc_sameNames {A} (m : M A) : pres sameDocument m -> pres sameNames m.
Proof. apply pres_weaken, sameDocument_sameNames. Qed.

Lemma modTrack_sameNames i f :
  (forall t, Track.name (f t) = Track.name t) -> pres sameNames (modTrack i f).
Proof.
  intros Hf s u s' H. apply modTrack_Ok in H. subst s'. split; [|reflexivity].
  unfold trackNames. cbn [_score set__score].
  change (Score.tracks (Score.set_tracks ?l _)) with l.
  apply fmap_alter_same. intros t _. apply Hf.
Qed.

Lemma modStaff_sameNames r f : pres sameNames (modStaff r f).
Proof.
  unfold modStaff. apply pres_bind; tc; [apply getStaff_pres; tc|].
  intros _. apply modTrack_sameNames. intros t. reflexivity.
Qed.

#[global] Hint Resolve pres_doc_sameNames modStaff_sameNames : pres.
#[global] Hint Extern 2 (pres sameNames (modTrack _ _)) =>
  apply modTrack_sameNames; intro; reflexivity : pres.
#[global] Hint Extern 3 (pres sameNames (modify _)) =>
  apply pres_modify; intro; split; reflexivity : pres.

Lemma newTrack_names s u s' :
  newTrack s = Ok u s' ->
  trackNames s' = trackNames s ++ [Track.name Track.new]
  /\ _currentTrack s' = trackCount s
  /\ sameToken s s'.
Proof.
  unfold newTrack, Score_addTrack, modScore, bind, gets, modify, ret.
  intros H. injection H as H. subst s'. unfold trackNames, trackCount, sameToken.
  cbn [_score _currentTrack _sy _syData set__trackChannel set__score set__currentTrack
       set__currentStaff set__lyrics set__currentDynamics].
  change (Score.tracks (Score.set_tracks ?l _)) with l.
  rewrite fmap_app. auto.
Qed.

Section TrackNames.
Context (ext : Externals).

Lemma staffProperties_sameNames : pres sameNames (staffProperties ext).
Proof. pres_unfold staffProperties. Qed.
Hint Resolve staffProperties_sameNames : pres.

Lemma staffMeta_sameNames : pres sameNames (staffMeta ext).
Proof. pres_unfold staffMeta. Qed.
Hint Resolve staffMeta_sameNames : pres.

(** The name given after [\track] becomes the name of the current track:
    the current track as it was when no bar exists yet, the new track
    otherwise. *)
Lemma trackMeta_names s u s' sy s1 str :
  trackMeta ext s = Ok u s' ->
  newSy ext (set__staffTuningApplied false (set__staffHasExplicitTuning false s))
  = Ok sy s1 ->
  _sy s1 = SyString -> _syData s1 = DStr str ->
  (masterBarCount s = 0%nat ->
     trackNames s' = alter (fun _ => str) (_currentTrack s) (trackNames s))
  /\ (masterBarCount s <> 0%nat -> trackNames s' = trackNames s ++ [str]).
Proof.
  intros H Hn Hsy Hd. unfold trackMeta in H.
  rewrite !bind_modify_run, (bind_run _ _ _ _ _ Hn), bind_gets_run in H.
  assert (E : _score s1 = _score s /\ _currentTrack s1 = _currentTrack s).
  { apply newSy_lexOnly, lexOnly_sameDocument in Hn.
    unfold sameDocument, document in Hn.
    cbn [_score beatStore noteStore _currentTrack _currentStaff
         set__staffTuningApplied set__staffHasExplicitTuning] in Hn.
    injection Hn as Hs _ _ Ht _. split; assumption. }
  destruct E as [Es Et].
  fold (masterBarCount s1) in H.
  assert (Em : masterBarCount s1 = masterBarCount s) by (unfold masterBarCount; congruence).
  rewrite Em in H.
  apply bind_Ok in H as (u1 & s2 & H1 & H).
  assert (F : _sy s2 = SyString /\ _syData s2 = DStr str
              /\ ((masterBarCount s = 0%nat ->
                     trackNames s2 = trackNames s /\ _currentTrack s2 = _currentTrack s)
                  /\ (masterBarCount s <> 0%nat ->
                       trackNames s2 = trackNames s ++ [Track.name Track.new]
                       /\ _currentTrack s2 = trackCount s))).
  { destruct (masterBarCount s) as [|k]; cbn [Nat.ltb Nat.leb when] in H1.
    - injection H1 as _ <-. split; [exact Hsy|]. split; [exact Hd|].
      split; [|intros; congruence]. intros _. unfold trackNames. split; congruence.
    - apply newTrack_names in H1 as (Hn1 & Hc1 & Ht1 & Ht2).
      split; [congruence|]. split; [congruence|].
      split; [intros; discriminate|]. intros _.
      unfold trackNames, trackCount in *. split; congruence. }
  destruct F as (Hsy2 & Hd2 & F).
  rewrite bind_gets_run, Hsy2 in H.
  change (syIs SyString SyString) with true in H. cbv iota in H.
  rewrite !bind_assoc, (bind_run _ _ _ _ _ (syString_run _ _ Hd2)) in H.
  rewrite !bind_assoc, bind_gets_run, !bind_assoc in H.
  apply bind_Ok in H as (u3 & s3 & H3 & H).
  apply modTrack_Ok in H3.
  pres_in H sameNames. destruct H as [Hnames _].
  assert (E3 : trackNames s' = alter (fun _ => str) (_currentTrack s2) (trackNames s2)).
  { rewrite Hnames. subst s3. unfold trackNames. cbn [_score set__score].
    change (Score.tracks (Score.set_tracks ?l _)) with l.
    apply (list_fmap_alter Track.name (Track.set_name str) (fun _ => str)).
    apply Forall_forall. intros; reflexivity. }
  rewrite E3. destruct F as [F0 F1]. split; intros Hm.
  - destruct (F0 Hm) as [-> ->]. reflexivity.
  - destruct (F1 Hm) as [-> ->]. unfold trackCount, trackNames.
    rewrite <- (length_fmap Track.name (Score.tracks (_score s))).
    rewrite alter_app_r_alt by lia. rewrite Nat.sub_diag. reflexivity.
Qed.

Lemma trackStaffMeta_names s a s' sy s1 str :
  trackStaffMeta ext s = Ok a s' -> isMeta "track" s = true ->
  newSy ext (set__staffTuningApplied false (set__staffHasExplicitTuning false s))
  = Ok sy s1 ->
  _sy s1 = SyString -> _syData s1 = DStr str ->
  (masterBarCount s = 0%nat ->
     trackNames s' = alter (fun _ => str) (_currentTrack s) (trackNames s))
  /\ (masterBarCount s <> 0%nat -> trackNames s' = trackNames s ++ [str]).
Proof.
  unfold trackStaffMeta, isMeta. intros H Hm Hn Hsy Hd.
  apply andb_true_iff in Hm as [Hsy0 Htag].
  apply bind_Ok in H as (sy0 & s0 & Hs & H). injection Hs as <- <-.
  rewrite Hsy0 in H. cbn [negb] in H.
  destruct (_syData s) as [tag| |] eqn:Ed; try discriminate.
  rewrite (bind_run _ _ _ _ _ (syString_run _ _ Ed)) in H. rewrite Htag in H.
  cbn [when] in H.
  apply bind_Ok in H as (u & s2 & H1 & H).
  destruct (trackMeta_names _ _ _ _ _ _ H1 Hn Hsy Hd) as [H0 Hk].
  pres_in H sameNames. destruct H as [-> _]. split; assumption.
Qed.
End TrackNames.

(** C7: a [\track] meta command read while the score has no master bar
    adds no track: the number of tracks and the current track stay, and a
    name that follows becomes the name of the current track (the implicit
    first track).  Read once the score has a master bar, it appends a new
    track, which becomes the current track and gets the name that
    follows. *)
Theorem C7_track_meta_before_and_after_first_bar
    (ext : Externals) (s s' : Importer) (a : bool) :
  isMeta "track" s = true ->
  trackStaffMeta ext s = Ok a s' ->
  (masterBarCount s = 0%nat ->
     trackCount s' = trackCount s /\ _currentTrack s' = _currentTrack s)
  /\ (masterBarCount s <> 0%nat ->
      trackCount s' = S (trackCount s) /\ _currentTrack s' = trackCount s)
  /\ (forall sy s1 str,
        newSy ext (set__staffTuningApplied false (set__staffHasExplicitTuning false s))
        = Ok sy s1 ->
        _sy s1 = SyString -> _syData s1 = DStr str ->
        (masterBarCount s = 0%nat ->
           trackNames s' = alter (fun _ => str) (_currentTrack s) (trackNames s))
        /\ (masterBarCount s <> 0%nat -> trackNames s' = trackNames s ++ [str])).
Proof.
  intros Hm H.
  destruct (trackStaffMeta_tracks ext s a s' H Hm) as [H0 Hk].
  split; [exact H0|]. split; [exact Hk|].
  intros sy s1 str Hn Hsy Hd. eapply trackStaffMeta_names; eassumption.
Qed.

(** [\track 'Lead' r] on the default score, which has one track and no
    bar, and [\track 'B' r] after the parse of [r], which has one bar. *)
Lemma C7_track_meta_witness :
  (trackCount (stateAfter (trackStaffMeta sampleExternals)
                 (resume "\track 'Lead' r"
                    (stateAfter createDefaultScore (initFromString EmptyString))))
   = trackCount (resume "\track 'Lead' r"
                   (stateAfter createDefaultScore (initFromString EmptyString)))
   /\ trackNames (stateAfter (trackStaffMeta sampleExternals)
                    (resume "\track 'Lead' r"
                       (stateAfter createDefaultScore (initFromString EmptyString))))
      = alter (fun _ => "Lead")
          (_currentTrack (resume "\track 'Lead' r"
                            (stateAfter createDefaultScore (initFromString EmptyString))))
          (trackNames (resume "\track 'Lead' r"
                         (stateAfter createDefaultScore (initFromString EmptyString)))))
  /\ (trackCount (stateAfter (trackStaffMeta sampleExternals)
                    (resume "\track 'B' r" (parsed "r")))
      = S (trackCount (resume "\track 'B' r" (parsed "r")))
      /\ trackNames (stateAfter (trackStaffMeta sampleExternals)
                       (resume "\track 'B' r" (parsed "r")))
         = trackNames (resume "\track 'B' r" (parsed "r")) ++ ["B"]).
Proof.
  split.
  - destruct (C7_track_meta_before_and_after_first_bar sampleExternals
                (resume "\track 'Lead' r"
                   (stateAfter createDefaultScore (initFromString EmptyString)))
                (stateAfter (trackStaffMeta sampleExternals)
                   (resume "\track 'Lead' r"
                      (stateAfter createDefaultScore (initFromString EmptyString))))
                true) as (H0 & _ & Hn).
    + vm_compute; reflexivity.
    + vm_compute; reflexivity.
    + split.
      * apply H0. vm_compute; reflexivity.
      * eapply (Hn SyString _ "Lead").
        -- vm_compute; reflexivity.
        -- vm_compute; reflexivity.
        -- vm_compute; reflexivity.
        -- vm_compute; reflexivity.
  - destruct (C7_track_meta_before_and_after_first_bar sampleExternals
                (resume "\track 'B' r" (parsed "r"))
                (stateAfter (trackStaffMeta sampleExternals)
                   (resume "\track 'B' r" (parsed "r")))
                true) as (_ & Hk & Hn).
    + vm_compute; reflexivity.
    + vm_compute; reflexivity.
    + split.
      * apply Hk. vm_compute; discriminate.
      * eapply (Hn SyString _ "B").
        -- vm_compute; reflexivity.
        -- vm_compute; reflexivity.
        -- vm_compute; reflexivity.
        -- vm_compute; discriminate.
Defined.


(** ** Repeated beats *)

Lemma withStores_same s : withStores (beatStore s) (noteStore s) s = s.
Proof. destruct s; reflexivity. Qed.

Lemma getBeat_run r s b : beatStore s !! r = Some b -> getBeat r s = Ok b s.
Proof. unfold getBeat, bind, gets, deref. intros ->. reflexivity. Qed.

Lemma modBeat_run r f s b :
  beatStore s !! r = Some b ->
  modBeat r f s = Ok tt (set_beatStore (alter f r (beatStore s)) s).
Proof. intros H. unfold modBeat. rewrite (bind_run _ _ _ _ _ (getBeat_run _ _ _ H)). reflexivity. Qed.

Lemma getNote_run r s n : noteStore s !! r = Some n -> getNote r s = Ok n s.
Proof. unfold getNote, bind, gets, deref. intros ->. reflexivity. Qed.

Lemma modNote_run r f s n :
  noteStore s !! r = Some n ->
  modNote r f s = Ok tt (set_noteStore (alter f r (noteStore s)) s).
Proof. intros H. unfold modNote. rewrite (bind_run _ _ _ _ _ (getNote_run _ _ _ H)). reflexivity. Qed.

Lemma modVoice_run v f s vo :
  voiceIn (_score s) v = Some vo ->
  modVoice v f s = Ok tt (set__score (updVoice f v (_score s)) s).
Proof.
  unfold voiceIn, barIn, staffIn, staffOf; cbn [sr_track sr_staff]. intros H.
  destruct (Score.tracks (_score s) !! br_track (vr_bar v)) as [t|] eqn:Et; [|cbn in H; discriminate].
  cbn in H.
  destruct (Track.staves t !! br_staff (vr_bar v)) as [st|] eqn:Est; [|discriminate].
  cbn in H.
  destruct (Staff.bars st !! br_bar (vr_bar v)) as [b|] eqn:Eb; [|discriminate].
  cbn in H.
  unfold modVoice, getVoice, modBar, getBar, modStaff, getStaff, modTrack, getTrack,
    bind, gets, deref, modify, staffOf; cbn [sr_track sr_staff].
  unfold ret.
  repeat (first [rewrite Et | rewrite Est | rewrite Eb | rewrite H]; cbn).
  reflexivity.
Qed.

Lemma voiceIn_updVoice v f sc vo :
  voiceIn sc v = Some vo -> voiceIn (updVoice f v sc) v = Some (f vo).
Proof.
  unfold voiceIn, barIn, staffIn, updVoice, staffOf; cbn [sr_track sr_staff].
  intros H.
  destruct (Score.tracks sc !! br_track (vr_bar v)) as [t|] eqn:Et; [|cbn in H; discriminate].
  cbn in H.
  destruct (Track.staves t !! br_staff (vr_bar v)) as [st|] eqn:Est; [|discriminate].
  cbn in H.
  destruct (Staff.bars st !! br_bar (vr_bar v)) as [b|] eqn:Eb; [|discriminate].
  cbn in H.
  change (Score.tracks (Score.set_tracks ?l _)) with l.
  rewrite list_lookup_alter_eq, Et. cbn.
  rewrite list_lookup_alter_eq, Est. cbn.
  rewrite list_lookup_alter_eq, Eb. cbn.
  rewrite list_lookup_alter_eq, H. reflexivity.
Qed.

Lemma cloneNote_run c i s n bc :
  noteStore s !! i = Some n ->
  beatStore s !! c = Some bc ->
  cloneNote c i s =
  Ok tt (withStores
           (alter (fun be => Beat.set_notes (Beat.notes be ++ [length (noteStore s)]) be)
              c (beatStore s))
           (noteStore s ++ [Note.set_beat (Some c) n]) s).
Proof.
  intros Hn Hc. unfold cloneNote.
  rewrite (bind_run _ _ _ _ _ (getNote_run _ _ _ Hn)).
  rewrite bind_gets_run, bind_modify_run. unfold Beat_addNote.
  erewrite bind_run; cycle 1.
  { apply modNote_run with (n := n). cbn. apply list_lookup_middle. reflexivity. }
  erewrite modBeat_run by (cbn; exact Hc).
  f_equal. cbn.
  replace (alter (Note.set_beat (Some c)) (length (noteStore s)) (noteStore s ++ [n]))
    with (noteStore s ++ [Note.set_beat (Some c) n]).
  - destruct s; reflexivity.
  - rewrite alter_app_r_alt by lia. rewrite Nat.sub_diag. reflexivity.
Qed.

Lemma cloneNotes_run c l : forall ns s bc,
  Forall2 (fun i n => noteStore s !! i = Some n) l ns ->
  beatStore s !! c = Some bc ->
  forEachM l (cloneNote c) s =
  Ok tt (withStores
           (alter (fun be => Beat.set_notes
                     (Beat.notes be ++ seq (length (noteStore s)) (length ns)) be)
              c (beatStore s))
           (noteStore s ++ (Note.set_beat (Some c) <$> ns)) s).
Proof.
  induction l as [|i l IH]; intros ns s bc Hl Hc.
  - apply Forall2_nil_inv_l in Hl as ->. cbn [forEachM length seq fmap list_fmap].
    rewrite app_nil_r. rewrite list_alter_id.
    + rewrite withStores_same. reflexivity.
    + intros be. rewrite app_nil_r. destruct be; reflexivity.
  - apply Forall2_cons_inv_l in Hl as (n & ns' & Hn & Hl & ->).
    cbn [forEachM]. rewrite (bind_run _ _ _ _ _ (cloneNote_run _ _ _ _ _ Hn Hc)).
    match goal with |- forEachM _ _ ?s1 = _ => set (st := s1) end.
    assert (H1 : Forall2 (fun i n => noteStore st !! i = Some n) l ns').
    { eapply Forall2_impl; [exact Hl|]. intros x y Hx.
      subst st. unfold withStores. cbn [beatStore noteStore set_noteStore set_beatStore].
      rewrite lookup_app_l by (eapply lookup_lt_Some; exact Hx). exact Hx. }
    assert (H2 : beatStore st !! c
                 = Some (Beat.set_notes (Beat.notes bc ++ [length (noteStore s)]) bc)).
    { subst st. unfold withStores. cbn [beatStore noteStore set_noteStore set_beatStore].
      rewrite list_lookup_alter_eq, Hc. reflexivity. }
    rewrite (IH _ _ _ H1 H2). subst st.
    f_equal. cbn. rewrite list_alter_alter_eq, length_app. cbn [length].
    rewrite <- app_assoc. cbn [fmap list_fmap app].
    replace (alter _ c (beatStore s))
      with (alter (fun be => Beat.set_notes
              (Beat.notes be ++ seq (length (noteStore s)) (S (length ns'))) be)
              c (beatStore s)).
    + destruct s; reflexivity.
    + apply list_alter_ext; [|reflexivity]. intros be _. unfold compose. cbn.
      rewrite <- app_assoc, Nat.add_1_r. destruct be; reflexivity.
Qed.

Lemma notesOf_Some s b ns :
  notesOf s b = Some ns <->
  Forall2 (fun i n => noteStore s !! i = Some n) (Beat.notes b) ns.
Proof. unfold notesOf. apply mapM_Some. Qed.

Lemma BeatCloner_clone_run s beat b ns :
  beatStore s !! beat = Some b ->
  notesOf s b = Some ns ->
  BeatCloner_clone beat s =
  Ok (length (beatStore s))
     (withStores
        (beatStore s
         ++ [Beat.set_voice None
               (Beat.set_notes (seq (length (noteStore s)) (length ns)) b)])
        (noteStore s ++ (Note.set_beat (Some (length (beatStore s))) <$> ns)) s).
Proof.
  intros Hb Hns. apply notesOf_Some in Hns. unfold BeatCloner_clone.
  rewrite (bind_run _ _ _ _ _ (getBeat_run _ _ _ Hb)).
  rewrite bind_gets_run, bind_modify_run.
  erewrite bind_run; cycle 1.
  { apply cloneNotes_run with (ns := ns)
      (bc := Beat.set_voice None (Beat.set_notes [] b)).
    - exact Hns.
    - cbn [beatStore set_beatStore]. apply list_lookup_middle. reflexivity. }
  unfold ret. f_equal. unfold withStores.
  cbn [beatStore noteStore set_beatStore set_noteStore].
  rewrite alter_app_r_alt by lia. rewrite Nat.sub_diag.
  destruct s; reflexivity.
Qed.

Lemma Voice_addBeat_run v c s vo bc :
  voiceIn (_score s) v = Some vo ->
  beatStore s !! c = Some bc ->
  Voice_addBeat v c s =
  Ok tt (set__score
           (updVoice (fun vo => Voice.set_beats (Voice.beats vo ++ [c]) vo) v (_score s))
           (set_beatStore (alter (Beat.set_voice (Some v)) c (beatStore s)) s)).
Proof.
  intros Hv Hc. unfold Voice_addBeat.
  rewrite (bind_run _ _ _ _ _ (modBeat_run _ _ _ _ Hc)).
  erewrite modVoice_run by exact Hv. reflexivity.
Qed.

(** One repetition. *)
Lemma repeatBeat_round voice beat s b ns vo :
  beatStore s !! beat = Some b ->
  notesOf s b = Some ns ->
  voiceIn (_score s) voice = Some vo ->
  exists s',
    (clone <- BeatCloner_clone beat ;; Voice_addBeat voice clone) s = Ok tt s'
    /\ beatStore s'
       = beatStore s ++ cloneBeats voice b (length ns) (length (noteStore s)) 1
    /\ noteStore s' = noteStore s ++ cloneNotes ns (length (beatStore s)) 1
    /\ voiceIn (_score s') voice
       = Some (Voice.set_beats (Voice.beats vo ++ [length (beatStore s)]) vo).
Proof.
  intros Hb Hns Hv.
  rewrite (bind_run _ _ _ _ _ (BeatCloner_clone_run _ _ _ _ Hb Hns)).
  erewrite Voice_addBeat_run; cycle 1.
  - exact Hv.
  - unfold withStores. cbn [beatStore set_beatStore set_noteStore].
    apply list_lookup_middle. reflexivity.
  - eexists. split; [reflexivity|]. unfold withStores.
    cbn [beatStore noteStore _score set_beatStore set_noteStore set__score].
    split; [|split].
    + rewrite alter_app_r_alt by lia. rewrite Nat.sub_diag. reflexivity.
    + cbn. rewrite app_nil_r. reflexivity.
    + apply voiceIn_updVoice with (f := fun vo => Voice.set_beats _ vo). exact Hv.
Qed.

Lemma notesOf_grow s s' b ns more :
  noteStore s' = noteStore s ++ more ->
  notesOf s b = Some ns -> notesOf s' b = Some ns.
Proof.
  intros E H. apply notesOf_Some. apply notesOf_Some in H.
  eapply Forall2_impl; [exact H|]. intros i n Hi. rewrite E.
  rewrite lookup_app_l by (eapply lookup_lt_Some; exact Hi). exact Hi.
Qed.

(** [k] repetitions. *)
Lemma repeatBeat_rounds voice beat b ns k : forall s vo,
  beatStore s !! beat = Some b ->
  notesOf s b = Some ns ->
  voiceIn (_score s) voice = Some vo ->
  exists s',
    repeatM k (clone <- BeatCloner_clone beat ;; Voice_addBeat voice clone) s = Ok tt s'
    /\ beatStore s'
       = beatStore s ++ cloneBeats voice b (length ns) (length (noteStore s)) k
    /\ noteStore s' = noteStore s ++ cloneNotes ns (length (beatStore s)) k
    /\ voiceIn (_score s') voice
       = Some (Voice.set_beats (Voice.beats vo ++ seq (length (beatStore s)) k) vo).
Proof.
  induction k as [|k IH]; intros s vo Hb Hns Hv.
  - exists s. cbn. rewrite !app_nil_r. repeat split; try reflexivity.
    rewrite Hv. destruct vo; reflexivity.
  - destruct (repeatBeat_round _ _ _ _ _ _ Hb Hns Hv) as (s1 & Hrun & HB & HN & HV).
    cbn [repeatM]. rewrite (bind_run _ _ _ _ _ Hrun).
    destruct (IH s1 (Voice.set_beats (Voice.beats vo ++ [length (beatStore s)]) vo))
      as (s' & Hrun' & HB' & HN' & HV').
    + rewrite HB. rewrite lookup_app_l by (eapply lookup_lt_Some; exact Hb). exact Hb.
    + eapply notesOf_grow; [exact HN|exact Hns].
    + exact HV.
    + exists s'. split; [exact Hrun'|]. rewrite HB', HN', HV', HB, HN.
      cbn [cloneBeats cloneNotes]. rewrite !app_nil_r, !length_app, length_fmap.
      cbn [length]. rewrite <- !app_assoc. cbn [app].
      replace (length (beatStore s) + 1)%nat with (S (length (beatStore s))) by lia.
      split; [reflexivity|]. split; [reflexivity|].
      cbn. rewrite <- app_assoc. reflexivity.
Qed.

Lemma cloneBeats_length voice b m nn k : length (cloneBeats voice b m nn k) = k.
Proof. revert nn. induction k; intros nn; cbn; auto. Qed.

Lemma cloneBeats_lookup voice b m k : forall nn j,
  (j < k)%nat ->
  cloneBeats voice b m nn k !! j
  = Some (Beat.set_voice (Some voice) (Beat.set_notes (seq (nn + j * m) m) b)).
Proof.
  induction k as [|k IH]; intros nn j Hj; [lia|].
  destruct j as [|j]; cbn [cloneBeats].
  - cbn. rewrite Nat.add_0_r. reflexivity.
  - cbn [lookup list_lookup]. change ((cloneBeats voice b m (nn + m) k) !! j = 
      Some (Beat.set_voice (Some voice) (Beat.set_notes (seq (nn + S j * m) m) b))).
    rewrite IH by lia.
    replace (nn + m + j * m)%nat with (nn + S j * m)%nat by lia. reflexivity.
Qed.

(** The notes of the [j]-th repetition. *)
Lemma cloneNotes_segment ns k : forall nb j,
  (j < k)%nat ->
  exists pre post,
    cloneNotes ns nb k = pre ++ (Note.set_beat (Some (nb + j)%nat) <$> ns) ++ post
    /\ length pre = (j * length ns)%nat.
Proof.
  induction k as [|k IH]; intros nb j Hj; [lia|].
  destruct j as [|j]; cbn [cloneNotes].
  - exists [], (cloneNotes ns (S nb) k). rewrite Nat.add_0_r. split; reflexivity.
  - destruct (IH (S nb) j) as (pre & post & E & L); [lia|].
    exists ((Note.set_beat (Some nb) <$> ns) ++ pre), post. split.
    + rewrite E, <- app_assoc.
      replace (S nb + j)%nat with (nb + S j)%nat by lia. reflexivity.
    + rewrite length_app, length_fmap, L. lia.
Qed.

Lemma lookup_segment {A} (pre ys post : list A) :
  Forall2 (fun i y => (pre ++ ys ++ post) !! i = Some y) (seq (length pre) (length ys)) ys.
Proof.
  revert pre. induction ys as [|y ys IH]; intros pre; cbn [length seq]; constructor.
  - apply list_lookup_middle. reflexivity.
  - specialize (IH (pre ++ [y])). rewrite length_app in IH. cbn [length] in IH.
    rewrite Nat.add_1_r, <- app_assoc in IH. exact IH.
Qed.

Lemma roundsBelow_pred N : roundsBelow (num_sub (JInt N) (JInt 1)) = Z.to_nat (N - 1).
Proof.
  unfold roundsBelow, num_sub, JInt, align. cbn [Nat.sub Nat.max Z.of_nat].
  rewrite Z.pow_0_r, !Z.mul_1_r, Z.div_1_r. f_equal. lia.
Qed.

(** Changes of a beat or of a note leave the content of the beats that do
    not hold them. *)
Lemma modBeat_Ok c f s u s' :
  modBeat c f s = Ok u s' -> s' = set_beatStore (alter f c (beatStore s)) s.
Proof.
  unfold modBeat, getBeat, bind, gets, deref, modify.
  destruct (beatStore s !! c); [|discriminate]. cbn. intros H. injection H as _ <-.
  reflexivity.
Qed.

Lemma modNote_Ok n g s u s' :
  modNote n g s = Ok u s' -> s' = set_noteStore (alter g n (noteStore s)) s.
Proof.
  unfold modNote, getNote, bind, gets, deref, modify.
  destruct (noteStore s !! n); [|discriminate]. cbn. intros H. injection H as _ <-.
  reflexivity.
Qed.

Lemma beatContent_modBeat c f s s' r :
  r <> c -> modBeat c f s = Ok tt s' -> beatContent s' r = beatContent s r.
Proof.
  intros Hr H. apply modBeat_Ok in H. subst s'. unfold beatContent, notesOf.
  cbn [beatStore noteStore set_beatStore].
  rewrite list_lookup_alter_ne by congruence. reflexivity.
Qed.

Lemma mapM_lookup_alter (g : Note.t -> Note.t) n (store : list Note.t) l :
  ~ In n l ->
  mapM (fun i => alter g n store !! i) l = mapM (fun i => store !! i) l.
Proof.
  induction l as [|i l IH]; intros Hn; [reflexivity|].
  cbn [mapM]. rewrite list_lookup_alter_ne by (intros ->; apply Hn; left; reflexivity).
  rewrite IH by (intros Hi; apply Hn; right; exact Hi). reflexivity.
Qed.

Lemma beatContent_modNote n g s s' r :
  (forall b, beatStore s !! r = Some b -> ~ In n (Beat.notes b)) ->
  modNote n g s = Ok tt s' -> beatContent s' r = beatContent s r.
Proof.
  intros Hr H. apply modNote_Ok in H. subst s'. unfold beatContent, notesOf.
  cbn [beatStore noteStore set_noteStore].
  destruct (beatStore s !! r) as [b|] eqn:E; [|reflexivity]. cbn.
  rewrite mapM_lookup_alter by (apply Hr; reflexivity). reflexivity.
Qed.

(** The content of the original and of its repetitions in a state whose
    stores are those of [s] followed by the repetitions. *)
Section Repetitions.
Context (voice : VoiceRef) (beat : BeatRef) (b : Beat.t) (ns : list Note.t).
Context (s s' : Importer) (k : nat).
Hypothesis Hb : beatStore s !! beat = Some b.
Hypothesis Hns : notesOf s b = Some ns.
Hypothesis HB : beatStore s'
  = beatStore s ++ cloneBeats voice b (length ns) (length (noteStore s)) k.
Hypothesis HN : noteStore s' = noteStore s ++ cloneNotes ns (length (beatStore s)) k.

Lemma original_lookup : beatStore s' !! beat = Some b.
Proof. rewrite HB, lookup_app_l by (eapply lookup_lt_Some; exact Hb). exact Hb. Qed.

Lemma original_content :
  beatContent s' beat
  = Some (Beat.set_voice None (Beat.set_notes [] b), Note.set_beat None <$> ns).
Proof.
  unfold beatContent. rewrite original_lookup. cbn.
  rewrite (notesOf_grow _ _ _ _ _ HN Hns). reflexivity.
Qed.

Lemma original_kept : beatContent s' beat = beatContent s beat.
Proof.
  rewrite original_content. unfold beatContent. rewrite Hb. cbn. rewrite Hns.
  reflexivity.
Qed.

Lemma original_notes n : In n (Beat.notes b) -> (n < length (noteStore s))%nat.
Proof.
  intros Hn. apply notesOf_Some in Hns. apply list_elem_of_In in Hn.
  apply list_elem_of_lookup in Hn as [i Hi].
  destruct (Forall2_lookup_l _ _ _ _ _ Hns Hi) as (y & _ & Hy).
  eapply lookup_lt_Some. exact Hy.
Qed.

Lemma clone_lookup j :
  (j < k)%nat ->
  beatStore s' !! (length (beatStore s) + j)%nat
  = Some (Beat.set_voice (Some voice)
            (Beat.set_notes (seq (length (noteStore s) + j * length ns) (length ns)) b)).
Proof.
  intros Hj. rewrite HB, lookup_app_r by lia.
  replace (length (beatStore s) + j - length (beatStore s))%nat with j by lia.
  apply cloneBeats_lookup. exact Hj.
Qed.

Lemma clone_content j :
  (j < k)%nat ->
  beatContent s' (length (beatStore s) + j)%nat = beatContent s' beat.
Proof.
  intros Hj. rewrite original_content. unfold beatContent.
  rewrite (clone_lookup j Hj). cbn [mbind option_bind].
  destruct (cloneNotes_segment ns k (length (beatStore s)) j Hj) as (pre & post & E & L).
  assert (Hc : notesOf s'
                 (Beat.set_voice (Some voice)
                    (Beat.set_notes
                       (seq (length (noteStore s) + j * length ns) (length ns)) b))
               = Some (Note.set_beat (Some (length (beatStore s) + j)%nat) <$> ns)).
  { apply notesOf_Some. cbn [Beat.notes Beat.set_voice Beat.set_notes].
    rewrite HN, E, app_assoc.
    pose proof (lookup_segment (noteStore s ++ pre)
                  (Note.set_beat (Some (length (beatStore s) + j)%nat) <$> ns) post) as H.
    rewrite length_app, length_fmap, L in H. exact H. }
  rewrite Hc. cbn [mbind option_bind]. rewrite <- list_fmap_compose. reflexivity.
Qed.
End Repetitions.




(** ** Rests and empty beats *)

#[global] Instance keepsBeats_preorder : PreOrder keepsBeats.
Proof.
  split.
  - intros s r b Hb. eauto.
  - intros s1 s2 s3 H12 H23 r b Hb.
    destruct (H12 r b Hb) as (b2 & Hb2 & E2 & N2).
    destruct (H23 r b2 Hb2) as (b3 & Hb3 & E3 & N3).
    exists b3. split; [exact Hb3|]. split; congruence.
Qed.

#[global] Instance keepsOthers_preorder c : PreOrder (keepsOthers c).
Proof.
  split.
  - intros s r _. reflexivity.
  - intros s1 s2 s3 H12 H23 r Hr. rewrite (H23 r Hr). apply H12, Hr.
Qed.

#[global] Instance sameToken_preorder : PreOrder sameToken.
Proof.
  split.
  - intros s. split; reflexivity.
  - intros s1 s2 s3 [A1 B1] [A2 B2]. split; congruence.
Qed.

Lemma beatFrame_keepsBeats s s' : beatFrame s s' -> keepsBeats s s'.
Proof. intros (_ & _ & H & _). exact H. Qed.

Lemma pres_beatFrame_keepsBeats {A} (m : M A) : pres beatFrame m -> pres keepsBeats m.
Proof. intros H s a s' Hm. apply beatFrame_keepsBeats. eapply H. exact Hm. Qed.

Lemma pres_lexOnly_keepsBeats {A} (m : M A) : pres lexOnly m -> pres keepsBeats m.
Proof.
  intros H. apply pres_beatFrame_keepsBeats, pres_doc_beat, pres_lex_doc, H.
Qed.

(** A change of the score alone, or of the tuning switch. *)
Lemma modVoice_Ok v f s u s' :
  modVoice v f s = Ok u s' ->
  exists vo, voiceIn (_score s) v = Some vo
             /\ s' = set__score (updVoice f v (_score s)) s.
Proof.
  intros H. destruct (voiceIn (_score s) v) as [vo|] eqn:Hv.
  - rewrite (modVoice_run _ _ _ _ Hv) in H. injection H as _ <-. eauto.
  - exfalso. revert H Hv.
    unfold voiceIn, barIn, staffIn, staffOf; cbn [sr_track sr_staff].
    unfold modVoice, getVoice, modBar, getBar, modStaff, getStaff, modTrack, getTrack,
      bind, gets, deref, modify, ret, throw, staffOf; cbn [sr_track sr_staff].
    destruct (Score.tracks (_score s) !! br_track (vr_bar v)) as [t|]; [|discriminate].
    cbn. destruct (Track.staves t !! br_staff (vr_bar v)) as [st|]; [|discriminate].
    cbn. destruct (Staff.bars st !! br_bar (vr_bar v)) as [b|]; [|discriminate].
    cbn. intros H Hv. rewrite Hv in H. discriminate.
Qed.

Lemma Voice_addBeat_Ok v c s u s' :
  Voice_addBeat v c s = Ok u s' ->
  exists vo,
    voiceIn (_score s) v = Some vo
    /\ s' = set__score
              (updVoice (fun vo => Voice.set_beats (Voice.beats vo ++ [c]) vo) v (_score s))
              (set_beatStore (alter (Beat.set_voice (Some v)) c (beatStore s)) s).
Proof.
  unfold Voice_addBeat. intros H. apply bind_Ok in H as (u1 & s1 & H1 & H2).
  apply modBeat_Ok in H1. subst s1. apply modVoice_Ok in H2 as (vo & Hv & ->).
  exists vo. split; [exact Hv|reflexivity].
Qed.

Lemma Voice_addBeat_keepsBeats v c : pres keepsBeats (Voice_addBeat v c).
Proof.
  intros s u s' H. apply Voice_addBeat_Ok in H as (vo & _ & ->).
  intros r b Hb. cbn [beatStore set__score set_beatStore].
  rewrite list_lookup_alter. case_decide; subst.
  - rewrite Hb. cbn. eexists. split; [reflexivity|]. split; reflexivity.
  - eauto.
Qed.

Lemma Voice_addBeat_sameToken v c : pres sameToken (Voice_addBeat v c).
Proof.
  intros s u s' H. apply Voice_addBeat_Ok in H as (vo & _ & ->). split; reflexivity.
Qed.

Lemma setAllowTuning_sameToken : pres sameToken setAllowTuning.
Proof.
  intros s u s' H. unfold setAllowTuning in H. rewrite bind_gets_run in H.
  apply bind_Ok in H as (st & s1 & H1 & H2). apply getStaff_Ok in H1 as [-> _].
  injection H2 as _ <-. split; reflexivity.
Qed.

(** The copies leave the beats that were there. *)
Lemma cloneNote_keepsOthers c i : pres (keepsOthers c) (cloneNote c i).
Proof.
  intros s u s' H. unfold cloneNote in H.
  apply bind_Ok in H as (n & s1 & H1 & H). apply getNote_pres with (R := eq) in H1; [|tc].
  subst s1. rewrite bind_gets_run, bind_modify_run in H. unfold Beat_addNote in H.
  apply bind_Ok in H as (u1 & s2 & H2 & H3).
  apply modNote_Ok in H2. apply modBeat_Ok in H3. subst s2 s'.
  intros r Hr. cbn [beatStore set_beatStore set_noteStore].
  rewrite list_lookup_alter_ne by congruence. reflexivity.
Qed.

Lemma BeatCloner_clone_keepsBeats original : pres keepsBeats (BeatCloner_clone original).
Proof.
  intros s c s' H. unfold BeatCloner_clone in H.
  apply bind_Ok in H as (b & s1 & H1 & H). apply getBeat_pres with (R := eq) in H1; [|tc].
  subst s1. rewrite bind_gets_run, bind_modify_run in H.
  apply bind_Ok in H as (u & s2 & H2 & H3). injection H3 as <- <-.
  apply (pres_forEachM (keepsOthers (length (beatStore s)))) in H2;
    [|intros i; apply cloneNote_keepsOthers].
  intros r b0 Hb0. exists b0. split; [|split; reflexivity].
  pose proof (lookup_lt_Some _ _ _ Hb0) as Hlt.
  rewrite (H2 r) by lia. cbn [beatStore set_beatStore].
  rewrite lookup_app_l by exact Hlt. exact Hb0.
Qed.

Section RestFrames.
Context (ext : Externals).

Lemma repeatBeat_keepsBeats v b n : pres keepsBeats (repeatBeat v b n).
Proof.
  unfold repeatBeat. apply pres_repeatM; tc. apply pres_bind; tc.
  - apply BeatCloner_clone_keepsBeats.
  - intros c. apply Voice_addBeat_keepsBeats.
Qed.

Lemma beatFinish_keepsBeats v b : pres keepsBeats (beatFinish ext v b).
Proof.
  unfold beatFinish.
  repeat first
    [ apply repeatBeat_keepsBeats
    | apply pres_beatFrame_keepsBeats; solve [pres_leaf]
    | apply pres_bind; tc; [|intros ?]
    | apply pres_gets; tc ].
  apply pres_beatFrame_keepsBeats. destruct (syIs _ _); pres_auto.
Qed.
End RestFrames.

Lemma voiceIn_allBars s s' v :
  allBars s' = allBars s -> voiceIn (_score s') v = voiceIn (_score s) v.
Proof.
  intros H.
  assert (E : forall sc, voiceIn sc v
            = (((((fun t => Staff.bars <$> Track.staves t) <$> Score.tracks sc)
                   !! br_track (vr_bar v))
                  ≫= (fun l : list (list Bar.t) => l !! br_staff (vr_bar v)))
                 ≫= (fun l : list Bar.t => l !! br_bar (vr_bar v)))
                ≫= (fun b : Bar.t => Bar.voices b !! vr_voice v)).
  { intros sc. unfold voiceIn, barIn, staffIn, staffOf; cbn [sr_track sr_staff].
    rewrite list_lookup_fmap.
    destruct (Score.tracks sc !! br_track (vr_bar v)) as [t|]; [|reflexivity]. cbn.
    rewrite list_lookup_fmap.
    destruct (Track.staves t !! br_staff (vr_bar v)) as [st|]; reflexivity. }
  rewrite !E. unfold allBars in H. rewrite H. reflexivity.
Qed.

Section RestBeats.
Context (ext : Externals).

Lemma beatNotes_rest voice beat s :
  restAt s -> beatNotes ext voice beat s = (newSy ext ;; ret true) s.
Proof.
  intros (Hsy & str & Hd & Hr). unfold beatNotes.
  rewrite !bind_gets_run, Hsy, Hd, Hr. reflexivity.
Qed.

(** A rest: the beat stays in the store as [new Beat()] made it, without
    notes and with the flag unset. *)
Lemma beat_rest voice s s0 r s' :
  beatDuration ext s = Ok tt s0 -> restAt s0 ->
  beat ext voice s = Ok r s' ->
  r = true
  /\ exists b, beatStore s' !! length (beatStore s0) = Some b
               /\ Beat.notes b = [] /\ Beat.isEmpty b = false.
Proof.
  intros Hd Hrest H. unfold beat in H.
  rewrite (bind_run _ _ _ _ _ Hd), (bind_run _ _ _ _ _ (newBeat_run s0)) in H.
  apply bind_Ok in H as (u2 & s2 & H2 & H).
  apply bind_Ok in H as (u3 & s3 & H3 & H).
  assert (Hrest3 : restAt s3).
  { apply Voice_addBeat_sameToken in H2 as [A2 B2].
    apply setAllowTuning_sameToken in H3 as [A3 B3].
    destruct Hrest as (Hsy & str & Hdata & Hr). split.
    - rewrite A3, A2. exact Hsy.
    - exists str. split; [|exact Hr]. rewrite B3, B2. exact Hdata. }
  apply bind_Ok in H as (read & s4 & H4 & H).
  rewrite (beatNotes_rest _ _ _ Hrest3) in H4.
  apply bind_Ok in H4 as (sy & s4' & H4 & E). injection E as <- <-.
  apply bind_Ok in H as (u5 & s5 & H5 & H). injection H as <- <-.
  split; [reflexivity|].
  assert (K : keepsBeats (set_beatStore (beatStore s0 ++ [Beat.new]) s0) s5).
  { etransitivity; [eapply Voice_addBeat_keepsBeats; exact H2|].
    etransitivity; [eapply pres_beatFrame_keepsBeats;
                    [apply pres_doc_beat, setAllowTuning_doc|exact H3]|].
    etransitivity; [eapply pres_lexOnly_keepsBeats; [apply newSy_lexOnly|exact H4]|].
    eapply beatFinish_keepsBeats. exact H5. }
  destruct (K (length (beatStore s0)) Beat.new) as (b & Hb & He & Hn).
  { cbn [beatStore set_beatStore]. apply list_lookup_middle. reflexivity. }
  exists b. split; [exact Hb|]. split; [rewrite Hn|rewrite He]; reflexivity.
Qed.

(** No note: the beat is taken out of the voice again. *)
Lemma beatNotes_false voice beat s s' :
  beatNotes ext voice beat s = Ok false s' ->
  exists s1, note ext beat s = Ok false s1 /\ dropLastBeat voice s1 = Ok tt s'.
Proof.
  unfold beatNotes. rewrite !bind_gets_run.
  destruct (syIs (_sy s) SyLParensis).
  { intros H. exfalso.
    repeat (apply bind_Ok in H as (? & ? & _ & H)). discriminate H. }
  match goal with |- (if ?c then _ else _) _ = _ -> _ => destruct c end.
  { intros H. exfalso.
    repeat (apply bind_Ok in H as (? & ? & _ & H)). discriminate H. }
  intros H. apply bind_Ok in H as (read & s1 & H1 & H). destruct read.
  - discriminate H.
  - apply bind_Ok in H as ([] & s2 & H2 & H). injection H as <-. eauto.
Qed.

Lemma beat_without_note voice s s0 s' :
  beatDuration ext s = Ok tt s0 ->
  beat ext voice s = Ok false s' ->
  beatsOf s' voice = beatsOf s0 voice.
Proof.
  intros Hd H. unfold beat in H.
  rewrite (bind_run _ _ _ _ _ Hd), (bind_run _ _ _ _ _ (newBeat_run s0)) in H.
  apply bind_Ok in H as (u2 & s2 & H2 & H).
  apply bind_Ok in H as (u3 & s3 & H3 & H).
  apply bind_Ok in H as (read & s4 & H4 & H).
  destruct read.
  { apply bind_Ok in H as (? & ? & _ & H). discriminate H. }
  injection H as <-.
  apply beatNotes_false in H4 as (s5 & H5 & H6).
  apply Voice_addBeat_Ok in H2 as (vo & Hvo & E2).
  assert (V2 : voiceIn (_score s2) voice
               = Some (Voice.set_beats (Voice.beats vo ++ [length (beatStore s0)]) vo)).
  { subst s2. cbn [_score set__score set_beatStore].
    apply voiceIn_updVoice with (f := fun vo => Voice.set_beats _ vo). exact Hvo. }
  assert (V5 : voiceIn (_score s5) voice = voiceIn (_score s2) voice).
  { apply setAllowTuning_doc in H3. apply note_noteFrame in H5 as [_ H5].
    rewrite (voiceIn_allBars _ _ _ H5). unfold sameDocument, document in H3.
    congruence. }
  unfold dropLastBeat in H6. apply modVoice_Ok in H6 as (vo5 & Hvo5 & ->).
  unfold beatsOf. cbn [_score set__score].
  erewrite voiceIn_updVoice by exact Hvo5. rewrite V5, V2 in Hvo5.
  injection Hvo5 as <-. cbn [_score set_beatStore] in Hvo. rewrite Hvo. cbn.
  f_equal. rewrite length_app. cbn [length].
  rewrite Nat.add_sub, take_app_length, drop_ge by (rewrite length_app; cbn; lia).
  apply app_nil_r.
Qed.
End RestBeats.

(** The beats that the importer makes up are marked empty. *)
Lemma addEmptyBeat_Ok voice s u s' :
  addEmptyBeat voice s = Ok u s' ->
  exists b vo,
    beatStore s' !! length (beatStore s) = Some b
    /\ Beat.isEmpty b = true /\ Beat.notes b = []
    /\ voiceIn (_score s) voice = Some vo
    /\ beatsOf s' voice = Some (Voice.beats vo ++ [length (beatStore s)]).
Proof.
  unfold addEmptyBeat. rewrite (bind_run _ _ _ _ _ (newBeat_run s)).
  intros H. apply bind_Ok in H as (u1 & s1 & H1 & H2).
  apply modBeat_Ok in H1. subst s1.
  apply Voice_addBeat_Ok in H2 as (vo & Hvo & ->).
  cbn [beatStore _score set__score set_beatStore] in *.
  exists (Beat.set_voice (Some voice) (Beat.set_isEmpty true Beat.new)), vo.
  split; [|split; [reflexivity|split; [reflexivity|split; [exact Hvo|]]]].
  - rewrite !alter_app_r_alt by lia. rewrite Nat.sub_diag.
    apply list_lookup_middle. reflexivity.
  - unfold beatsOf. cbn [_score set__score].
    erewrite voiceIn_updVoice by exact Hvo. reflexivity.
Qed.





(** ** Alternate endings *)

Lemma wrap32_mod z : wrap32 z mod 2 ^ 32 = z mod 2 ^ 32.
Proof.
  unfold wrap32. rewrite Zminus_mod_idemp_l. f_equal. lia.
Qed.

Lemma wrap32_small z : - 2 ^ 31 <= z < 2 ^ 31 -> wrap32 z = z.
Proof. intros H. unfold wrap32. rewrite Z.mod_small; lia. Qed.

Lemma testbit_wrap32 z k : 0 <= k < 32 -> Z.testbit (wrap32 z) k = Z.testbit z k.
Proof.
  intros Hk.
  rewrite <- (Z.mod_pow2_bits_low (wrap32 z) 32 k) by lia.
  rewrite wrap32_mod. apply Z.mod_pow2_bits_low. lia.
Qed.

(** [1 << (n - 1)]: the shift count is taken modulo 32. *)
Lemma shl32_one n :
  1 <= n <= 2 ^ 31 ->
  shl32 (JInt 1) (num_sub (JInt n) (JInt 1)) = wrap32 (2 ^ ((n - 1) mod 32)).
Proof.
  intros Hn. unfold shl32, num_sub, JInt, align, ToInt32.
  cbn [Nat.sub Nat.max Z.of_nat]. rewrite Z.pow_0_r, !Z.mul_1_r, !Z.quot_1_r.
  rewrite (wrap32_small 1) by lia. rewrite (wrap32_small (n - 1)) by lia.
  rewrite Z.shiftl_1_l. reflexivity.
Qed.

Lemma or32_bits a n k :
  1 <= n <= 2 ^ 31 -> 0 <= k < 32 ->
  Z.testbit (or32 a (shl32 (JInt 1) (num_sub (JInt n) (JInt 1)))) k
  = Z.testbit a k || (k =? (n - 1) mod 32).
Proof.
  intros Hn Hk. rewrite shl32_one by exact Hn. unfold or32.
  rewrite testbit_wrap32, Z.lor_spec, !testbit_wrap32 by exact Hk.
  rewrite Z.pow2_bits_eqb by (apply Z.mod_pos_bound; lia).
  rewrite (Z.eqb_sym k). reflexivity.
Qed.

Section AlternateEndings.
Context (ext : Externals).

Lemma applyAlternateEnding_low master s n :
  _syData s = DNum (JInt n) -> n < 1 ->
  applyAlternateEnding ext master s = error "alternateending" SyNumber true s.
Proof.
  intros Hd Hn. unfold applyAlternateEnding.
  rewrite (bind_run _ _ _ _ _ (syNumber_run _ _ Hd)).
  replace (num_ltb (JInt n) (JInt 1)) with true.
  { unfold bind, when, error. destruct (_lastValidSpot s) as [[p l] c]. reflexivity. }
  unfold num_ltb, num_cmp, JInt, align. cbn [Nat.sub Z.of_nat].
  rewrite Z.pow_0_r, !Z.mul_1_r. destruct (n ?= 1) eqn:E; try reflexivity.
  - apply Z.compare_eq in E. lia.
  - apply Z.compare_gt_iff in E. lia.
Qed.

Lemma applyAlternateEnding_run master s n :
  _syData s = DNum (JInt n) -> 1 <= n ->
  applyAlternateEnding ext master s =
  (modMasterBar master
     (fun m => MasterBar.set_alternateEndings
                 (or32 (MasterBar.alternateEndings m)
                    (shl32 (JInt 1) (num_sub (JInt n) (JInt 1)))) m) ;;
   newSy ext ;; ret tt) s.
Proof.
  intros Hd Hn. unfold applyAlternateEnding.
  rewrite (bind_run _ _ _ _ _ (syNumber_run _ _ Hd)).
  replace (num_ltb (JInt n) (JInt 1)) with false; [reflexivity|].
  unfold num_ltb, num_cmp, JInt, align. cbn [Nat.sub Z.of_nat].
  rewrite Z.pow_0_r, !Z.mul_1_r. destruct (n ?= 1) eqn:E; try reflexivity.
  change (n < 1) in E. lia.
Qed.

(** The value [n >= 1] sets the bit [(n - 1) mod 32] of the 32-bit mask
    and keeps the others. *)
Lemma applyAlternateEnding_bits master s n m s' :
  _syData s = DNum (JInt n) -> 1 <= n <= 2 ^ 31 ->
  Score.masterBars (_score s) !! master = Some m ->
  applyAlternateEnding ext master s = Ok tt s' ->
  exists m',
    Score.masterBars (_score s') !! master = Some m'
    /\ forall k, 0 <= k < 32 ->
         Z.testbit (MasterBar.alternateEndings m') k
         = Z.testbit (MasterBar.alternateEndings m) k || (k =? (n - 1) mod 32).
Proof.
  intros Hd Hn Hm H. rewrite (applyAlternateEnding_run _ _ _ Hd) in H by lia.
  apply bind_Ok in H as (u & s1 & H1 & H2).
  apply bind_Ok in H2 as (sy & s2 & H2 & H3). injection H3 as <-.
  apply newSy_lexOnly in H2.
  assert (E2 : _score s2 = _score s1).
  { unfold lexOnly, beyondLexer in H2. congruence. }
  unfold modMasterBar in H1. apply bind_Ok in H1 as (m0 & s0 & H0 & H1).
  apply getMasterBar_Ok in H0 as [-> _]. unfold modify in H1.
  injection H1 as H1. subst s1.
  rewrite E2. cbn [_score set__score].
  change (Score.masterBars (Score.set_masterBars ?l _)) with l.
  rewrite list_lookup_alter_eq, Hm. cbn. eexists. split; [reflexivity|].
  intros k Hk. cbn [MasterBar.alternateEndings MasterBar.set_alternateEndings].
  apply (or32_bits (MasterBar.alternateEndings m) n k Hn Hk).
Qed.
End AlternateEndings.

(** C5, on the text [\ae 33 r]: the value 33 is accepted and the master bar
    gets the mask 1, that is the bit 0 of the first ending; the bit 32 is
    not set. *)
Theorem C5_alternate_ending_33_sets_bit_0 :
  exists s' m,
    importTex sampleExternals "\ae 33 r" = Ok tt s'
    /\ Score.masterBars (_score s') !! 0%nat = Some m
    /\ MasterBar.alternateEndings m = 1
    /\ Z.testbit (MasterBar.alternateEndings m) 0 = true
    /\ Z.testbit (MasterBar.alternateEndings m) (33 - 1) = false.
Proof.
  exists (parsed "\ae 33 r"),
    (default MasterBar.new (Score.masterBars (_score (parsed "\ae 33 r")) !! 0%nat)).
  split; [|split; [|split; [|split]]]; vm_compute; reflexivity.
Qed.


(** ** Chord properties *)

Section ChordProperties.
Context (ext : Externals) (chord : Chord.t).

Lemma chordProperty_showfingering_string s tag s1 v :
  _syData s = DStr tag -> toLowerCase tag = "showfingering" ->
  newSy ext s = Ok SyString s1 -> _syData s1 = DStr v ->
  chordProperty ext chord s =
  (newSy ext ;; ret (Chord.set_showDiagram (flagOfString v) chord)) s1.
Proof.
  intros Hd Ht Hn Hd1. unfold chordProperty.
  mrun. rewrite Ht. mrun. reflexivity.
Qed.

Lemma chordProperty_showfingering_number s tag s1 n :
  _syData s = DStr tag -> toLowerCase tag = "showfingering" ->
  newSy ext s = Ok SyNumber s1 -> _syData s1 = DNum n ->
  chordProperty ext chord s =
  (newSy ext ;; ret (Chord.set_showFingering (flagOfNumber n) chord)) s1.
Proof.
  intros Hd Ht Hn Hd1. unfold chordProperty.
  mrun. rewrite Ht. mrun. reflexivity.
Qed.

Lemma chordProperty_showfingering_other s tag s1 sy :
  _syData s = DStr tag -> toLowerCase tag = "showfingering" ->
  newSy ext s = Ok sy s1 -> sy <> SyString -> sy <> SyNumber ->
  chordProperty ext chord s = error "chord-showfingering" SyString true s1.
Proof.
  intros Hd Ht Hn H1 H2. unfold chordProperty.
  mrun. rewrite Ht. mrun.
  destruct sy; try congruence;
    unfold bind, error; destruct (_lastValidSpot s1) as [[p l] c]; reflexivity.
Qed.
End ChordProperties.

Lemma flagOfString_false v : flagOfString v = false <-> toLowerCase v = "false".
Proof.
  unfold flagOfString, strEq. rewrite negb_false_iff. apply String.eqb_eq.
Qed.

(** C10: in a chord properties block, [showfingering] followed by a string
    sets the flag [showDiagram] of the chord, to false when the string in
    lower case is [false] and to true otherwise, and leaves [showFingering]
    as it is; followed by a number it sets [showFingering], to whether the
    number differs from 0, and leaves [showDiagram]; followed by anything
    else it is an error. *)
Theorem C10_showfingering_string_sets_showDiagram
    (ext : Externals) (chord : Chord.t) (s s1 : Importer) (tag : string) :
  _syData s = DStr tag -> toLowerCase tag = "showfingering" ->
  (forall v,
      newSy ext s = Ok SyString s1 -> _syData s1 = DStr v ->
      exists chord',
        chordProperty ext chord s = (newSy ext ;; ret chord') s1
        /\ (Chord.showDiagram chord' = false <-> toLowerCase v = "false")
        /\ Chord.showFingering chord' = Chord.showFingering chord)
  /\ (forall n,
        newSy ext s = Ok SyNumber s1 -> _syData s1 = DNum n ->
        exists chord',
          chordProperty ext chord s = (newSy ext ;; ret chord') s1
          /\ Chord.showFingering chord' = negb (num_eqb n (JInt 0))
          /\ Chord.showDiagram chord' = Chord.showDiagram chord)
  /\ (forall sy,
        newSy ext s = Ok sy s1 -> sy <> SyString -> sy <> SyNumber ->
        chordProperty ext chord s = error "chord-showfingering" SyString true s1).
Proof.
  intros Hd Ht. split; [|split].
  - intros v Hn Hd1. exists (Chord.set_showDiagram (flagOfString v) chord).
    split; [eapply chordProperty_showfingering_string; eassumption|].
    split; [apply flagOfString_false|reflexivity].
  - intros n Hn Hd1. exists (Chord.set_showFingering (flagOfNumber n) chord).
    split; [eapply chordProperty_showfingering_number; eassumption|].
    split; reflexivity.
  - intros sy Hn H1 H2. eapply chordProperty_showfingering_other; eassumption.
Qed.

(** The entries [showfingering false], in a chord whose flags are set, and
    [showfingering 0]. *)
Lemma C10_showfingering_witness :
  (exists chord',
      chordProperty sampleExternals Chord.new (atFirstSymbol "showfingering false")
      = (newSy sampleExternals ;; ret chord')
          (stateAfter (newSy sampleExternals) (atFirstSymbol "showfingering false"))
      /\ (Chord.showDiagram chord' = false <-> toLowerCase "false" = "false")
      /\ Chord.showFingering chord' = Chord.showFingering Chord.new)
  /\ (exists chord',
        chordProperty sampleExternals Chord.new (atFirstSymbol "showfingering 0")
        = (newSy sampleExternals ;; ret chord')
            (stateAfter (newSy sampleExternals) (atFirstSymbol "showfingering 0"))
        /\ Chord.showFingering chord' = negb (num_eqb (JInt 0) (JInt 0))
        /\ Chord.showDiagram chord' = Chord.showDiagram Chord.new).
Proof.
  split.
  - destruct (C10_showfingering_string_sets_showDiagram sampleExternals Chord.new
                (atFirstSymbol "showfingering false")
                (stateAfter (newSy sampleExternals) (atFirstSymbol "showfingering false"))
                "showfingering") as (H & _ & _).
    + vm_compute; reflexivity.
    + vm_compute; reflexivity.
    + apply (H "false"); vm_compute; reflexivity.
  - destruct (C10_showfingering_string_sets_showDiagram sampleExternals Chord.new
                (atFirstSymbol "showfingering 0")
                (stateAfter (newSy sampleExternals) (atFirstSymbol "showfingering 0"))
                "showfingering") as (_ & H & _).
    + vm_compute; reflexivity.
    + vm_compute; reflexivity.
    + apply (H (JInt 0)); vm_compute; reflexivity.
Defined.


(** ** Tunings and chords *)

#[global] Instance sameChords_preorder : PreOrder sameChords.
Proof.
  split.
  - intros s. split; reflexivity.
  - intros s1 s2 s3 [A1 B1] [A2 B2]. split; [congruence|].
    intros r. rewrite B2. apply B1.
Qed.

Lemma sameDocument_sameChords s s' : sameDocument s s' -> sameChords s s'.
Proof.
  unfold sameDocument, document. intros H. injection H as Hs _ _ _ Hc.
  split; [exact Hc|]. intros r. unfold chordsOf. rewrite Hs. reflexivity.
Qed.

Lemma pres_doc_sameChords {A} (m : M A) : pres sameDocument m -> pres sameChords m.
Proof. apply pres_weaken, sameDocument_sameChords. Qed.

Lemma getStaff_run r s st :
  staffIn (_score s) r = Some st -> getStaff r s = Ok st s.
Proof.
  unfold staffIn, getStaff, getTrack, bind, gets, deref. intros H.
  destruct (Score.tracks (_score s) !! sr_track r) as [t|]; [|discriminate].
  cbn in H. cbn. rewrite H. reflexivity.
Qed.

Lemma getStaff_staffIn r s st s' :
  getStaff r s = Ok st s' -> staffIn (_score s) r = Some st.
Proof.
  intros H. apply getStaff_Ok in H as (_ & t & Ht & Hst).
  unfold staffIn. rewrite Ht. exact Hst.
Qed.

Lemma modStaff_sameChords r f :
  (forall st, Staff.chords (f st) = Staff.chords st) -> pres sameChords (modStaff r f).
Proof.
  intros Hf s u s' H. apply modStaff_Ok in H. subst s'. split; [reflexivity|].
  intros r0. unfold chordsOf, staffIn. cbn [_score set__score].
  change (Score.tracks (Score.set_tracks ?l _)) with l.
  rewrite list_lookup_alter. case_decide as E1; [|reflexivity].
  destruct (Score.tracks (_score s) !! sr_track r) as [t|] eqn:Et;
    rewrite <- E1, Et; [|reflexivity].
  cbn. rewrite list_lookup_alter. case_decide as E2; [|reflexivity].
  rewrite <- E2. destruct (Track.staves t !! sr_staff r) as [st|]; [|reflexivity].
  cbn. rewrite Hf. reflexivity.
Qed.

#[global] Hint Resolve pres_doc_sameChords : pres.
#[global] Hint Extern 2 (pres sameChords (modStaff _ _)) =>
  apply modStaff_sameChords; intro; reflexivity : pres.

Section TuningAfterChord.
Context (ext : Externals).

Lemma readStaffTuning_sameChords sy : pres sameChords (readStaffTuning ext sy).
Proof. pres_unfold readStaffTuning. Qed.

(** The [tuning] case of [handleStaffMeta] once the new tuning is read. *)
Lemma handleStaffMeta_tuning s tag sy s1 s2 st st' :
  _syData s = DStr tag -> toLowerCase tag = "tuning" ->
  newSy ext s = Ok sy s1 ->
  staffIn (_score s) (_currentStaff s) = Some st ->
  readStaffTuning ext sy
    (set__staffTuningApplied false (set__staffHasExplicitTuning true s1)) = Ok tt s2 ->
  staffIn (_score s2) (_currentStaff s) = Some st' ->
  handleStaffMeta ext s =
  (when (negb (Nat.eqb (length (Staff.tunings st)) (length (Staff.tunings st')))
         && Nat.ltb 0 (size (Staff.chords st')))
     (errorMessage (MsgText "Tuning must be defined before any chord")) ;;
   ret true) s2.
Proof.
  intros Hd Ht Hn Hst Hread Hst'. unfold handleStaffMeta.
  mrun. rewrite Ht. mrun.
  assert (E1 : _score s1 = _score s).
  { apply newSy_lexOnly in Hn. unfold lexOnly, beyondLexer in Hn. congruence. }
  rewrite <- E1 in Hst.
  rewrite (bind_run _ _ _ _ _ (getStaff_run _ _ _ Hst)). mrun.
  rewrite (bind_run _ _ _ _ _ (getStaff_run _ _ _ Hst')). reflexivity.
Qed.
End TuningAfterChord.

(** C2 (as the importer has it): on a staff with at least one chord, a
    [\tuning] staff meta whose tuning has another number of strings than
    the staff had is rejected with the error [Tuning must be defined before
    any chord]; one with the same number of strings is accepted, and the
    staff keeps the new tuning and its chords. *)
Theorem C2_tuning_after_chord_checks_string_count
    (ext : Externals) (s s1 s2 : Importer) (tag : string) (sy : AlphaTexSymbols)
    (st : Staff.t) :
  _syData s = DStr tag -> toLowerCase tag = "tuning" ->
  newSy ext s = Ok sy s1 ->
  staffIn (_score s) (_currentStaff s) = Some st ->
  (0 < size (Staff.chords st))%nat ->
  readStaffTuning ext sy
    (set__staffTuningApplied false (set__staffHasExplicitTuning true s1)) = Ok tt s2 ->
  exists st',
    staffIn (_score s2) (_currentStaff s) = Some st'
    /\ Staff.chords st' = Staff.chords st
    /\ (length (Staff.tunings st') <> length (Staff.tunings st) ->
        handleStaffMeta ext s =
        errorMessage (MsgText "Tuning must be defined before any chord") s2)
    /\ (length (Staff.tunings st') = length (Staff.tunings st) ->
        handleStaffMeta ext s = Ok true s2).
Proof.
  intros Hd Ht Hn Hst Hch Hread.
  assert (Hc : chordsOf s2 (_currentStaff s) = Some (Staff.chords st)).
  { pose proof (readStaffTuning_sameChords _ _ _ _ _ Hread) as [_ Hc].
    rewrite Hc. unfold chordsOf. cbn [_score set__staffTuningApplied
      set__staffHasExplicitTuning].
    apply newSy_lexOnly in Hn. unfold lexOnly, beyondLexer in Hn.
    replace (_score s1) with (_score s) by congruence. rewrite Hst. reflexivity. }
  unfold chordsOf in Hc.
  destruct (staffIn (_score s2) (_currentStaff s)) as [st'|] eqn:Hst'; [|discriminate].
  injection Hc as Hc. exists st'. split; [reflexivity|]. split; [exact Hc|].
  rewrite (handleStaffMeta_tuning _ _ _ _ _ _ _ _ Hd Ht Hn Hst Hread Hst').
  rewrite Hc. apply Nat.ltb_lt in Hch. rewrite Hch, andb_true_r. split.
  - intros Hne. apply not_eq_sym, Nat.eqb_neq in Hne. rewrite Hne.
    unfold bind, when, errorMessage. cbn [negb]. cbv beta.
    destruct (_lastValidSpot s2) as [[p l] c]. reflexivity.
  - intros He. rewrite He, Nat.eqb_refl. reflexivity.
Qed.

(** After the text [\chord 'C' 0 1 0 2 3 x . 1.1], whose staff has six
    strings and one chord: a tuning of five strings and one of six. *)
Lemma C2_tuning_after_chord_witness :
  handleStaffMeta sampleExternals
    (resume "\tuning e5 b4 e4 e4 e4 ." (parsed "\chord 'C' 0 1 0 2 3 x . 1.1"))
  = errorMessage (MsgText "Tuning must be defined before any chord")
      (stateAfter (readStaffTuning sampleExternals SyTuning)
         (set__staffTuningApplied false
            (set__staffHasExplicitTuning true
               (stateAfter (newSy sampleExternals)
                  (resume "\tuning e5 b4 e4 e4 e4 ." (parsed "\chord 'C' 0 1 0 2 3 x . 1.1"))))))
  /\ handleStaffMeta sampleExternals
       (resume "\tuning e5 b4 e4 e4 e4 e4 ." (parsed "\chord 'C' 0 1 0 2 3 x . 1.1"))
     = Ok true
         (stateAfter (readStaffTuning sampleExternals SyTuning)
            (set__staffTuningApplied false
               (set__staffHasExplicitTuning true
                  (stateAfter (newSy sampleExternals)
                     (resume "\tuning e5 b4 e4 e4 e4 e4 ." (parsed "\chord 'C' 0 1 0 2 3 x . 1.1")))))).
Proof.
  split.
  - destruct (C2_tuning_after_chord_checks_string_count sampleExternals
      (resume "\tuning e5 b4 e4 e4 e4 ." (parsed "\chord 'C' 0 1 0 2 3 x . 1.1"))
      (stateAfter (newSy sampleExternals)
         (resume "\tuning e5 b4 e4 e4 e4 ." (parsed "\chord 'C' 0 1 0 2 3 x . 1.1")))
      (stateAfter (readStaffTuning sampleExternals SyTuning)
         (set__staffTuningApplied false
            (set__staffHasExplicitTuning true
               (stateAfter (newSy sampleExternals)
                  (resume "\tuning e5 b4 e4 e4 e4 ." (parsed "\chord 'C' 0 1 0 2 3 x . 1.1"))))))
      "tuning" SyTuning
      (default Staff.new
         (staffIn (_score (parsed "\chord 'C' 0 1 0 2 3 x . 1.1")) (mkStaffRef 0 0))))
      as (st' & Hst' & _ & Herr & _).
    + vm_compute; reflexivity.
    + vm_compute; reflexivity.
    + vm_compute; reflexivity.
    + vm_compute; reflexivity.
    + vm_compute. lia.
    + vm_compute; reflexivity.
    + apply Herr. vm_compute in Hst'. injection Hst' as <-. vm_compute. lia.
  - destruct (C2_tuning_after_chord_checks_string_count sampleExternals
      (resume "\tuning e5 b4 e4 e4 e4 e4 ." (parsed "\chord 'C' 0 1 0 2 3 x . 1.1"))
      (stateAfter (newSy sampleExternals)
         (resume "\tuning e5 b4 e4 e4 e4 e4 ." (parsed "\chord 'C' 0 1 0 2 3 x . 1.1")))
      (stateAfter (readStaffTuning sampleExternals SyTuning)
         (set__staffTuningApplied false
            (set__staffHasExplicitTuning true
               (stateAfter (newSy sampleExternals)
                  (resume "\tuning e5 b4 e4 e4 e4 e4 ." (parsed "\chord 'C' 0 1 0 2 3 x . 1.1"))))))
      "tuning" SyTuning
      (default Staff.new
         (staffIn (_score (parsed "\chord 'C' 0 1 0 2 3 x . 1.1")) (mkStaffRef 0 0))))
      as (st' & Hst' & _ & _ & Hok).
    + vm_compute; reflexivity.
    + vm_compute; reflexivity.
    + vm_compute; reflexivity.
    + vm_compute; reflexivity.
    + vm_compute. lia.
    + vm_compute; reflexivity.
    + apply Hok. vm_compute in Hst'. injection Hst' as <-. vm_compute. reflexivity.
Defined.

(** The text [\chord 'C' 0 1 0 2 3 x \tuning e5 b4 e4 e4 e4 e4 . 1.1]: the
    chord is declared first, the tuning is given after it, the parse
    succeeds and the staff has the new tuning. *)
Lemma C2_tuning_after_chord_counterexample :
  exists s' st,
    importTex sampleExternals "\chord 'C' 0 1 0 2 3 x \tuning e5 b4 e4 e4 e4 e4 . 1.1"
    = Ok tt s'
    /\ staffIn (_score s') (mkStaffRef 0 0) = Some st
    /\ size (Staff.chords st) = 1%nat
    /\ Staff.tunings st = [76; 71; 64; 64; 64; 64]
    /\ Staff.tunings st <> Staff.tunings Staff.new
    /\ Staff.tunings st <> defaultTuning6.
Proof.
  exists (parsed "\chord 'C' 0 1 0 2 3 x \tuning e5 b4 e4 e4 e4 e4 . 1.1"),
    (default Staff.new
       (staffIn (_score (parsed "\chord 'C' 0 1 0 2 3 x \tuning e5 b4 e4 e4 e4 e4 . 1.1"))
          (mkStaffRef 0 0))).
  split; [|split; [|split; [|split; [|split]]]]; vm_compute; try reflexivity;
    discriminate.
Qed.


(** ** Bend and whammy-bar points in the parser *)

Section PointEffects.
Context (ext : Externals).

(** [b] and [be]: the points of the note are those that were read, placed
    by [placeBendPoints]. *)
Lemma bendEffect_places exact note s u s' :
  bendEffect ext exact note s = Ok u s' ->
  exists s1 n1 n',
    noteStore s1 !! note = Some n1
    /\ noteStore s' !! note = Some n'
    /\ Note.bendPoints n' = placeBendPoints exact <$> Note.bendPoints n1.
Proof.
  unfold bendEffect. intros H.
  apply bind_Ok in H as (sy & sa & _ & H).
  apply bind_Ok in H as (u1 & sb & _ & H).
  apply bind_Ok in H as (sy2 & sc & _ & H).
  apply bind_Ok in H as (u2 & s1 & _ & H).
  apply bind_Ok in H as (u3 & s2 & H2 & H).
  pres_in H sameDocument.
  assert (E : noteStore s' = noteStore s2).
  { unfold sameDocument, document in H. injection H as _ _ Hn _ _. exact Hn. }
  unfold modNote in H2. apply bind_Ok in H2 as (n1 & s1' & Hg & H2).
  unfold getNote, bind, gets, deref in Hg.
  destruct (noteStore s1 !! note) as [n0|] eqn:En; [|discriminate].
  injection Hg as <- <-. injection H2 as H2. subst s2.
  exists s1, n0, (Note.set_bendPoints (placeBendPoints exact <$> Note.bendPoints n0) n0).
  split; [exact En|]. split; [|reflexivity].
  rewrite E. cbn [noteStore set_noteStore]. rewrite list_lookup_alter_eq, En. reflexivity.
Qed.

(** [tb] and [tbe]: the same for the whammy-bar points of the beat. *)
Lemma whammyEffect_places exact beat s u s' :
  whammyEffect ext exact beat s = Ok u s' ->
  exists s1 b1 b',
    beatStore s1 !! beat = Some b1
    /\ beatStore s' !! beat = Some b'
    /\ Beat.whammyBarPoints b' = placeWhammyPoints exact <$> Beat.whammyBarPoints b1.
Proof.
  unfold whammyEffect. intros H.
  apply bind_Ok in H as (sy & sa & _ & H).
  apply bind_Ok in H as (u1 & sb & _ & H).
  apply bind_Ok in H as (u2 & sc & _ & H).
  apply bind_Ok in H as (sy2 & sd & _ & H).
  apply bind_Ok in H as (u3 & s1 & _ & H).
  apply bind_Ok in H as (u4 & s2 & H2 & H).
  pres_in H sameDocument.
  assert (E : beatStore s' = beatStore s2).
  { unfold sameDocument, document in H. injection H as _ Hb _ _ _. exact Hb. }
  unfold modBeat in H2. apply bind_Ok in H2 as (b1 & s1' & Hg & H2).
  unfold getBeat, bind, gets, deref in Hg.
  destruct (beatStore s1 !! beat) as [b0|] eqn:En; [|discriminate].
  injection Hg as <- <-. injection H2 as H2. subst s2.
  exists s1, b0,
    (Beat.set_whammyBarPoints (placeWhammyPoints exact <$> Beat.whammyBarPoints b0) b0).
  split; [exact En|]. split; [|reflexivity].
  rewrite E. cbn [beatStore set_beatStore]. rewrite list_lookup_alter_eq, En. reflexivity.
Qed.
End PointEffects.




(** ** The tempo of the first master bar *)

Section FirstTempo.
Context (ext : Externals).

(** The end of [barMeta] for a bar of index 0, once the meta commands of
    the bar are read. *)
Lemma barMeta_first_tempo bar s any s1 m :
  br_bar bar = 0%nat ->
  barMetaLoop ext bar s = Ok any s1 ->
  Score.masterBars (_score s1) !! 0%nat = Some m ->
  (MasterBar.tempoAutomations m = [] ->
     barMeta ext bar s =
     Ok any
       (set__score
          (Score.set_masterBars
             (alter (MasterBar.set_tempoAutomations
                       [tempoAutomationOf (Score.tempo (_score s1))])
                0%nat (Score.masterBars (_score s1)))
             (_score s1)) s1))
  /\ (MasterBar.tempoAutomations m <> [] -> barMeta ext bar s = Ok any s1).
Proof.
  intros Hb Hloop Hm. unfold barMeta. rewrite Hb.
  rewrite (bind_run _ _ _ _ _ Hloop).
  assert (Hg : getMasterBar 0 s1 = Ok m s1).
  { unfold getMasterBar, bind, gets, deref. rewrite Hm. reflexivity. }
  rewrite (bind_run _ _ _ _ _ Hg), bind_gets_run. cbn [Nat.eqb andb].
  split; intros Ht.
  - rewrite Ht. cbn [length Nat.eqb when]. unfold modMasterBar.
    rewrite !bind_assoc, (bind_run _ _ _ _ _ Hg), bind_modify_run.
    assert (Ea : alter (fun m0 => MasterBar.set_tempoAutomations
                          (MasterBar.tempoAutomations m0
                           ++ [tempoAutomationOf (Score.tempo (_score s1))]) m0)
                   0%nat (Score.masterBars (_score s1))
                 = alter (MasterBar.set_tempoAutomations
                            [tempoAutomationOf (Score.tempo (_score s1))])
                     0%nat (Score.masterBars (_score s1))).
    { destruct (Score.masterBars (_score s1)) as [|m0 l]; [discriminate|].
      injection Hm as ->. cbn [alter list_alter]. rewrite Ht. reflexivity. }
    rewrite Ea. reflexivity.
  - destruct (MasterBar.tempoAutomations m); [congruence|]. reflexivity.
Qed.
End FirstTempo.

(** C9: after a successful parse the first master bar has a tempo
    automation.  [barMeta] sees to it for every bar of index 0: when the
    meta commands of the bar have left the master bar without one, it gets
    one automation, of type tempo, whose value is the tempo of the score;
    otherwise it is left as it is. *)
Theorem C9_first_master_bar_has_tempo (ext : Externals) :
  (forall tex s, importTex ext tex = Ok tt s -> hasTempo s)
  /\ (forall bar s any s1 m,
        br_bar bar = 0%nat ->
        barMetaLoop ext bar s = Ok any s1 ->
        Score.masterBars (_score s1) !! 0%nat = Some m ->
        (MasterBar.tempoAutomations m = [] ->
           barMeta ext bar s =
           Ok any
             (set__score
                (Score.set_masterBars
                   (alter (MasterBar.set_tempoAutomations
                             [tempoAutomationOf (Score.tempo (_score s1))])
                      0%nat (Score.masterBars (_score s1)))
                   (_score s1)) s1))
        /\ (MasterBar.tempoAutomations m <> [] -> barMeta ext bar s = Ok any s1))
  /\ (forall value,
        Automation.value (tempoAutomationOf value) = value
        /\ Automation.type (tempoAutomationOf value) = AutomationType.Tempo).
Proof.
  split; [|split].
  - intros tex s H. rewrite importTex_run in H.
    exact (proj2 (readScore_inv ext _ _ _ H)).
  - intros bar s any s1 m. exact (barMeta_first_tempo ext bar s any s1 m).
  - intros value. split; reflexivity.
Qed.

(** The text [r], and the first bar of a text without [\tempo]: the master
    bar is new and the tempo of the score is the default one. *)
Lemma C9_first_master_bar_witness :
  hasTempo (parsed "r")
  /\ barMeta sampleExternals (mkBarRef 0 0 0) inFirstBar
     = Ok false
         (set__score
            (Score.set_masterBars
               (alter (MasterBar.set_tempoAutomations
                         [tempoAutomationOf (Score.tempo (_score inFirstBar))])
                  0%nat (Score.masterBars (_score inFirstBar)))
               (_score inFirstBar))
            inFirstBar).
Proof.
  destruct (C9_first_master_bar_has_tempo sampleExternals) as (Hparse & Hbar & _).
  split.
  - apply (Hparse "r"). vm_compute; reflexivity.
  - assert (Hloop : barMetaLoop sampleExternals (mkBarRef 0 0 0) inFirstBar
                    = Ok false inFirstBar) by (vm_compute; reflexivity).
    assert (Hm : Score.masterBars (_score inFirstBar) !! 0%nat = Some MasterBar.new)
      by (vm_compute; reflexivity).
    exact (proj1 (Hbar (mkBarRef 0 0 0) inFirstBar false inFirstBar MasterBar.new
                    eq_refl Hloop Hm) eq_refl).
Defined.


(** ** The bars that [consolidate] adds *)

Lemma emptyBarIn_grow s s' B b :
  beatStore s' = beatStore s ++ B -> emptyBarIn s b -> emptyBarIn s' b.
Proof.
  intros E (v & r & be & Hv & Hb & Hr & He & Hn). exists v, r, be.
  split; [exact Hv|]. split; [exact Hb|]. split; [|split; assumption].
  rewrite E. rewrite lookup_app_l by (eapply lookup_lt_Some; exact Hr). exact Hr.
Qed.

#[global] Instance padded_preorder : PreOrder padded.
Proof.
  split.
  - intros s. split; [reflexivity|]. split; [exists []; rewrite app_nil_r; reflexivity|].
    split; [|auto]. intros r st Hst. exists st, []. rewrite app_nil_r. auto.
  - intros s1 s2 s3 (M1 & [B1 E1] & P1 & N1) (M2 & [B2 E2] & P2 & N2).
    split; [congruence|]. split; [exists (B1 ++ B2); rewrite E2, E1, app_assoc; reflexivity|].
    split; [|auto]. intros r st Hst.
    destruct (P1 r st Hst) as (st2 & pad1 & Hst2 & Hb2 & Hp1).
    destruct (P2 r st2 Hst2) as (st3 & pad2 & Hst3 & Hb3 & Hp2).
    exists st3, (pad1 ++ pad2). split; [exact Hst3|].
    split; [rewrite Hb3, Hb2, app_assoc; reflexivity|].
    apply Forall_app. split; [|exact Hp2].
    eapply Forall_impl; [exact Hp1|]. intros b. apply (emptyBarIn_grow s2 s3 B2 b E2).
Qed.

(** A change of one staff, seen through [staffIn]. *)
Lemma staffIn_alter sc r f r' :
  staffIn
    (Score.set_tracks
       (alter (fun t => Track.set_staves (alter f (sr_staff r) (Track.staves t)) t)
          (sr_track r) (Score.tracks sc)) sc) r'
  = if decide (r' = r) then f <$> staffIn sc r' else staffIn sc r'.
Proof.
  unfold staffIn. change (Score.tracks (Score.set_tracks ?l _)) with l.
  destruct r as [ti si], r' as [ti' si']. cbn [sr_track sr_staff].
  rewrite list_lookup_alter. destruct (decide (ti = ti')) as [<-|Ht].
  - destruct (Score.tracks sc !! ti) as [t|]; cbn; [|case_decide; reflexivity].
    rewrite list_lookup_alter. destruct (decide (si = si')) as [<-|Hs].
    + rewrite decide_True by reflexivity. reflexivity.
    + rewrite decide_False by congruence. reflexivity.
  - rewrite decide_False by congruence. reflexivity.
Qed.

Lemma modStaff_staffIn r f s u s' :
  modStaff r f s = Ok u s' ->
  exists st,
    staffIn (_score s) r = Some st
    /\ (forall r', staffIn (_score s') r'
                   = if decide (r' = r) then f <$> staffIn (_score s) r'
                     else staffIn (_score s) r')
    /\ beatStore s' = beatStore s
    /\ Score.masterBars (_score s') = Score.masterBars (_score s).
Proof.
  intros H. pose proof H as H0. unfold modStaff in H0.
  apply bind_Ok in H0 as (st & s1 & Hg & _). apply getStaff_staffIn in Hg.
  apply modStaff_Ok in H. subst s'. exists st. split; [exact Hg|].
  split; [|split; reflexivity]. intros r'. cbn [_score set__score].
  apply staffIn_alter.
Qed.

Lemma getBar_Ok bar s b s' :
  getBar bar s = Ok b s' ->
  s' = s /\ exists st, staffIn (_score s) (staffOf bar) = Some st
                       /\ Staff.bars st !! br_bar bar = Some b.
Proof.
  unfold getBar. intros H. apply bind_Ok in H as (st & s1 & Hg & H).
  pose proof (getStaff_staffIn _ _ _ _ Hg) as Hst. apply getStaff_Ok in Hg as [-> _].
  unfold deref in H. destruct (Staff.bars st !! br_bar bar) as [b0|] eqn:E; [|discriminate].
  injection H as <- <-. eauto.
Qed.

Lemma modBar_staffIn bar f s u s' :
  modBar bar f s = Ok u s' ->
  exists st b,
    staffIn (_score s) (staffOf bar) = Some st
    /\ Staff.bars st !! br_bar bar = Some b
    /\ staffIn (_score s') (staffOf bar)
       = Some (Staff.set_bars (alter f (br_bar bar) (Staff.bars st)) st)
    /\ (forall r', r' <> staffOf bar -> staffIn (_score s') r' = staffIn (_score s) r')
    /\ beatStore s' = beatStore s
    /\ Score.masterBars (_score s') = Score.masterBars (_score s).
Proof.
  unfold modBar. intros H. apply bind_Ok in H as (b & s1 & Hg & H).
  apply getBar_Ok in Hg as (-> & st & Hst & Hb).
  apply modStaff_staffIn in H as (st0 & Hst0 & Hall & Hbs & Hmb).
  exists st, b. split; [exact Hst|]. split; [exact Hb|].
  split; [|split; [|split; assumption]].
  - rewrite Hall, decide_True by reflexivity. rewrite Hst. reflexivity.
  - intros r' Hr'. rewrite Hall, decide_False by exact Hr'. reflexivity.
Qed.

(** [newBar]: the staff gets one more bar, which has one voice without
    beats; nothing else changes. *)
Lemma newBar_struct r s bar s' :
  newBar r s = Ok bar s' ->
  exists st b,
    staffIn (_score s) r = Some st
    /\ bar = mkBarRef (sr_track r) (sr_staff r) (length (Staff.bars st))
    /\ staffIn (_score s') r = Some (Staff.set_bars (Staff.bars st ++ [b]) st)
    /\ Bar.voices b = [Voice.new]
    /\ (forall r', r' <> r -> staffIn (_score s') r' = staffIn (_score s) r')
    /\ beatStore s' = beatStore s
    /\ Score.masterBars (_score s') = Score.masterBars (_score s).
Proof.
  unfold newBar. intros H. apply bind_Ok in H as (bar0 & s1 & H1 & H).
  unfold Staff_addBar in H1. apply bind_Ok in H1 as (st & s0 & Hg & H1).
  pose proof (getStaff_staffIn _ _ _ _ Hg) as Hst. apply getStaff_Ok in Hg as [-> _].
  apply bind_Ok in H1 as (u1 & s1' & Hm & Hr). injection Hr as <- <-.
  apply modStaff_staffIn in Hm as (st0 & _ & Hall1 & Hbs1 & Hmb1).
  assert (Eo : staffOf (mkBarRef (sr_track r) (sr_staff r) (length (Staff.bars st))) = r)
    by (destruct r; reflexivity).
  set (bar0 := mkBarRef (sr_track r) (sr_staff r) (length (Staff.bars st))) in *.
  assert (S1 : staffIn (_score s1') r
               = Some (Staff.set_bars (Staff.bars st ++ [Bar.new]) st)).
  { rewrite Hall1, decide_True by reflexivity. rewrite Hst. reflexivity. }
  apply bind_Ok in H as (u2 & s2 & H2 & H).
  assert (S2 : exists b1,
             staffIn (_score s2) r = Some (Staff.set_bars (Staff.bars st ++ [b1]) st)
             /\ Bar.voices b1 = []
             /\ (forall r', r' <> r -> staffIn (_score s2) r' = staffIn (_score s) r')
             /\ beatStore s2 = beatStore s
             /\ Score.masterBars (_score s2) = Score.masterBars (_score s)).
  { destruct (Nat.ltb 0 (br_bar bar0)); cbn [when] in H2.
    - apply bind_Ok in H2 as (pb & s1a & Hp & H2). apply getBar_Ok in Hp as [-> _].
      apply modBar_staffIn in H2 as (stx & bx & Hstx & _ & Hsty & Hoth & Hbs & Hmb).
      rewrite Eo in Hstx, Hsty, Hoth. rewrite S1 in Hstx. injection Hstx as <-.
      exists (Bar.set_clef (Bar.clef pb) Bar.new).
      split; [|split; [reflexivity|split; [|split; congruence]]].
      + rewrite Hsty. cbn [Staff.bars Staff.set_bars br_bar bar0].
        rewrite alter_app_r_alt by lia. rewrite Nat.sub_diag. reflexivity.
      + intros r' Hr'. rewrite (Hoth r' Hr'), Hall1, decide_False by exact Hr'.
        reflexivity.
    - injection H2 as _ <-. exists Bar.new.
      split; [exact S1|]. split; [reflexivity|]. split; [|split; assumption].
      intros r' Hr'. rewrite Hall1, decide_False by exact Hr'. reflexivity. }
  destruct S2 as (b1 & S2 & Hv1 & Hoth2 & Hbs2 & Hmb2).
  apply bind_Ok in H as (v & s3 & H3 & Hr). injection Hr as <- <-.
  unfold Bar_addVoice in H3. apply bind_Ok in H3 as (b & s2' & Hg & H3).
  apply getBar_Ok in Hg as (-> & stg & Hstg & Hbg).
  rewrite Eo, S2 in Hstg. injection Hstg as <-.
  cbn [Staff.bars Staff.set_bars br_bar bar0] in Hbg.
  rewrite list_lookup_middle in Hbg by reflexivity. injection Hbg as <-.
  apply bind_Ok in H3 as (u3 & s3' & H3 & Hr). injection Hr as _ <-.
  apply modBar_staffIn in H3 as (stx & bx & Hstx & _ & Hsty & Hoth & Hbs & Hmb).
  rewrite Eo in Hstx, Hsty, Hoth. rewrite S2 in Hstx. injection Hstx as <-.
  exists st, (Bar.set_voices (Bar.voices b1 ++ [Voice.new]) b1).
  split; [exact Hst|]. split; [reflexivity|].
  split; [|split; [|split; [|split; congruence]]].
  - rewrite Hsty. cbn [Staff.bars Staff.set_bars br_bar bar0].
    rewrite alter_app_r_alt by lia. rewrite Nat.sub_diag. reflexivity.
  - cbn. rewrite Hv1. reflexivity.
  - intros r' Hr'. rewrite (Hoth r' Hr'). apply Hoth2, Hr'.
Qed.

Lemma staffIn_updVoice f v sc r' :
  staffIn (updVoice f v sc) r'
  = if decide (r' = staffOf (vr_bar v))
    then (fun st => Staff.set_bars
            (alter (fun b => Bar.set_voices (alter f (vr_voice v) (Bar.voices b)) b)
               (br_bar (vr_bar v)) (Staff.bars st)) st) <$> staffIn sc r'
    else staffIn sc r'.
Proof.
  exact (staffIn_alter sc (staffOf (vr_bar v))
           (fun st => Staff.set_bars
              (alter (fun b => Bar.set_voices (alter f (vr_voice v) (Bar.voices b)) b)
                 (br_bar (vr_bar v)) (Staff.bars st)) st) r').
Qed.

(** One round of the loop of [consolidate]. *)
Lemma padRound_padded r s bar s1 u s2 :
  newBar r s = Ok bar s1 ->
  addEmptyBeat (mkVoiceRef bar 0) s1 = Ok u s2 ->
  padded s s2.
Proof.
  intros Hbar Hbeat.
  apply newBar_struct in Hbar as (st & b & Hst & -> & Hst1 & Hv & Hoth & Hbs & Hmb).
  unfold addEmptyBeat in Hbeat.
  rewrite (bind_run _ _ _ _ _ (newBeat_run s1)) in Hbeat.
  apply bind_Ok in Hbeat as (u1 & sb & H1 & H2).
  apply modBeat_Ok in H1. subst sb.
  apply Voice_addBeat_Ok in H2 as (vo & _ & ->).
  cbn [beatStore _score set__score set_beatStore] in *.
  set (nb := length (beatStore s1)) in *.
  set (v := mkVoiceRef (mkBarRef (sr_track r) (sr_staff r) (length (Staff.bars st))) 0).
  assert (Eo : staffOf (vr_bar v) = r) by (destruct r; reflexivity).
  assert (EB : alter (Beat.set_voice (Some v)) nb
                 (alter (Beat.set_isEmpty true) nb (beatStore s1 ++ [Beat.new]))
               = beatStore s
                 ++ [Beat.set_voice (Some v) (Beat.set_isEmpty true Beat.new)]).
  { subst nb. rewrite !alter_app_r_alt by lia. rewrite Nat.sub_diag, Hbs. reflexivity. }
  unfold padded. cbn [beatStore _score set__score set_beatStore]. rewrite EB.
  split; [exact Hmb|]. split; [eexists; reflexivity|].
  split.
  - intros r' st' Hst'. rewrite staffIn_updVoice, Eo.
    destruct (decide (r' = r)) as [->|Hne].
    + rewrite Hst in Hst'. injection Hst' as <-. rewrite Hst1.
      eexists _, [_]. split; [reflexivity|]. split.
      * cbn [Staff.bars Staff.set_bars vr_bar br_bar v].
        rewrite alter_app_r_alt by lia. rewrite Nat.sub_diag. reflexivity.
      * constructor; [|constructor].
        exists (Voice.set_beats (Voice.beats Voice.new ++ [nb]) Voice.new), nb,
          (Beat.set_voice (Some v) (Beat.set_isEmpty true Beat.new)).
        split; [cbn; rewrite Hv; reflexivity|]. split; [reflexivity|].
        split; [|split; reflexivity].
        subst nb. rewrite Hbs. apply list_lookup_middle. reflexivity.
    + rewrite (Hoth r' Hne), Hst'. exists st', []. rewrite app_nil_r. auto.
  - intros r' Hn. rewrite staffIn_updVoice, Eo.
    destruct (decide (r' = r)) as [->|Hne]; [congruence|].
    rewrite (Hoth r' Hne). exact Hn.
Qed.

Lemma padStaff_padded r : pres padded (padStaff r).
Proof.
  unfold padStaff. apply pres_bind; [typeclasses eauto|pres_auto|]. intros sc0.
  apply pres_loopM; [typeclasses eauto|]. intros [].
  intros s a s' H.
  apply bind_Ok in H as (st & s1 & H1 & H). apply getStaff_Ok in H1 as [-> _].
  apply bind_Ok in H as (sc & s1 & Hsc & H). injection Hsc as <- <-.
  destruct (Nat.ltb _ _).
  - apply bind_Ok in H as (bar & s2 & H2 & H).
    apply bind_Ok in H as (u & s3 & H3 & H). injection H as _ <-.
    eapply padRound_padded; eassumption.
  - injection H as _ <-. reflexivity.
Qed.

Lemma consolidate_padded : pres padded consolidate.
Proof.
  unfold consolidate. apply pres_bind; [typeclasses eauto|pres_auto|]. intros sc.
  apply pres_forEachM; [typeclasses eauto|]. intros ti.
  apply pres_bind; [typeclasses eauto|apply getTrack_pres; typeclasses eauto|].
  intros t. apply pres_forEachM; [typeclasses eauto|]. intros si.
  apply padStaff_padded.
Qed.

Section Consolidated.
Context (ext : Externals).

(** A successful parse ends with [consolidate], run on a state in which no
    staff has more bars than there are master bars. *)
Lemma readScore_consolidate s0 u s' :
  readScore ext s0 = Ok u s' -> exists sd, barsLe sd /\ consolidate sd = Ok tt s'.
Proof.
  unfold readScore. intros H. apply asUnsupportedFormat_Ok in H.
  apply bind_Ok in H as (a1 & sa & _ & H).
  apply bind_Ok in H as (a2 & sb & _ & H).
  apply bind_Ok in H as (a3 & sc & H3 & H).
  apply createDefaultScore_Ok in H3 as (Hbc & Hmb & _).
  assert (Hq : quiet sc sc) by reflexivity.
  do 11 quiet_step H Hq.
  lazymatch type of Hq with quiet _ ?sx => rename sx into sm end.
  apply bind_Ok in H as (anyBars & sd & H4 & H).
  destruct Hq as (Hsh & _). apply shape_parts in Hsh as [Hbc' Hm'].
  assert (Hle : barsLe sm).
  { unfold barsLe. rewrite Hbc', Hbc. repeat constructor. lia. }
  assert (Hz : masterBarCount sm = 0%nat).
  { rewrite Hm'. unfold masterBarCount. rewrite Hmb. reflexivity. }
  apply bars_inv in H4 as [Hle4 Ht4]; [|exact Hle|left; exact Hz].
  apply bind_Ok in H as (aw & se & H5 & H).
  pres_in H5 quiet.
  assert (Hle5 : barsLe se) by (eapply shape_barsLe; [apply quiet_shape|]; eassumption).
  exists se. split; [exact Hle5|]. destruct u. exact H.
Qed.
End Consolidated.

Lemma barsFull_staffIn s r st :
  barsFull s -> staffIn (_score s) r = Some st ->
  length (Staff.bars st) = masterBarCount s.
Proof.
  unfold staffIn. intros Hf H.
  destruct (Score.tracks (_score s) !! sr_track r) as [t|] eqn:Et; [|discriminate].
  cbn in H. eapply barsFull_lookup; eassumption.
Qed.

(** C1: after a successful parse every staff of every track has exactly as
    many bars as the score has master bars.  The parse ends with
    [consolidate], run on a state in which no staff has more bars than
    there are master bars; [consolidate] keeps the master bars and the bars
    of every staff and appends to the staves bars with one voice and one
    beat, which is marked empty and has no notes.  A call of [bar] on a
    state in which no staff has more bars than there are master bars ends
    in such a state. *)
Theorem C1_every_staff_has_as_many_bars_as_master_bars
    (ext : Externals) (tex : string) (s' : Importer) :
  importTex ext tex = Ok tt s' ->
  barsFull s'
  /\ (forall r st, staffIn (_score s') r = Some st ->
        length (Staff.bars st) = length (Score.masterBars (_score s')))
  /\ (exists sd, consolidate sd = Ok tt s' /\ barsLe sd /\ padded sd s')
  /\ (forall s a s1,
        bar ext s = Ok a s1 -> barsLe s -> masterBarCount s = 0%nat \/ hasTempo s ->
        barsLe s1).
Proof.
  intros H. rewrite importTex_run in H.
  pose proof (proj1 (readScore_inv ext _ _ _ H)) as Hfull.
  split; [exact Hfull|]. split; [|split].
  - intros r st Hst. apply (barsFull_staffIn s' r st Hfull Hst).
  - destruct (readScore_consolidate ext _ _ _ H) as (sd & Hle & Hc).
    exists sd. split; [exact Hc|]. split; [exact Hle|].
    exact (consolidate_padded _ _ _ Hc).
  - intros s a s1 Hb Hle Hpre.
    exact (proj1 (proj1 (bar_inv ext s a s1 Hb Hle Hpre))).
Qed.

(** The text [3.3 | 3.3 \track 'B' 3.3]: two bars in the first track, one
    in the second, which gets a second one. *)
Lemma C1_every_staff_witness :
  barCounts (_score (parsed "3.3 | 3.3 \track 'B' 3.3")) = [[2%nat]; [2%nat]]
  /\ barsFull (parsed "3.3 | 3.3 \track 'B' 3.3")
  /\ (forall r st,
        staffIn (_score (parsed "3.3 | 3.3 \track 'B' 3.3")) r = Some st ->
        length (Staff.bars st)
        = length (Score.masterBars (_score (parsed "3.3 | 3.3 \track 'B' 3.3")))).
Proof.
  assert (Hrun : importTex sampleExternals "3.3 | 3.3 \track 'B' 3.3"
                 = Ok tt (parsed "3.3 | 3.3 \track 'B' 3.3"))
    by (vm_compute; reflexivity).
  split; [vm_compute; reflexivity|].
  exact (conj (proj1 (C1_every_staff_has_as_many_bars_as_master_bars
                        sampleExternals _ _ Hrun))
              (proj1 (proj2 (C1_every_staff_has_as_many_bars_as_master_bars
                               sampleExternals _ _ Hrun)))).
Defined.

(** ** Identifiers of articulations and chords *)

Lemma lowerChar_alnum c : isAlphaNum c = true -> isLowerAlphaNum (lowerChar c) = true.
Proof.
  destruct c as [[] [] [] [] [] [] [] []]; vm_compute; intros H;
    first [reflexivity | discriminate H].
Qed.

Lemma lowerChar_fixed c : isLowerAlphaNum c = true -> lowerChar c = c.
Proof.
  destruct c as [[] [] [] [] [] [] [] []]; vm_compute; intros H;
    first [reflexivity | discriminate H].
Qed.

Lemma lowerAlphaNum_alnum c : isLowerAlphaNum c = true -> isAlphaNum c = true.
Proof.
  destruct c as [[] [] [] [] [] [] [] []]; vm_compute; intros H;
    first [reflexivity | discriminate H].
Qed.

Lemma lowerChar_idem c : lowerChar (lowerChar c) = lowerChar c.
Proof. destruct c as [[] [] [] [] [] [] [] []]; vm_compute; reflexivity. Qed.

Lemma toLowerCase_idem s : toLowerCase (toLowerCase s) = toLowerCase s.
Proof.
  induction s as [|c r IH]; [reflexivity|].
  cbn [toLowerCase]. rewrite lowerChar_idem, IH. reflexivity.
Qed.

Lemma toArticulationId_chars plain :
  Forall (fun c => isLowerAlphaNum c = true) (charsOf (toArticulationId plain)).
Proof.
  unfold toArticulationId, charsOf.
  induction plain as [|c r IH]; [constructor|].
  cbn [keepAlphaNum]. destruct (isAlphaNum c) eqn:E; [|exact IH].
  cbn [toLowerCase list_ascii_of_string]. constructor; [|exact IH].
  apply lowerChar_alnum, E.
Qed.

Lemma toArticulationId_fixed s :
  Forall (fun c => isLowerAlphaNum c = true) (charsOf s) -> toArticulationId s = s.
Proof.
  unfold toArticulationId, charsOf.
  induction s as [|c r IH]; [reflexivity|].
  cbn [list_ascii_of_string]. intros H. inversion H as [|? ? Hc Hr]; subst.
  cbn [keepAlphaNum]. rewrite (lowerAlphaNum_alnum _ Hc).
  cbn [toLowerCase]. rewrite (lowerChar_fixed _ Hc), (IH Hr). reflexivity.
Qed.

(** The shorthand form of an articulation name, under which
    [\articulation defaults] registers every default name, is made of
    lower-case letters and digits only, and a name that is in this form
    already is its own shorthand; so taking the shorthand twice changes
    nothing. *)
Theorem toArticulationId_is_shorthand (plain : string) :
  Forall (fun c => isLowerAlphaNum c = true) (charsOf (toArticulationId plain))
  /\ (Forall (fun c => isLowerAlphaNum c = true) (charsOf plain) ->
      toArticulationId plain = plain)
  /\ toArticulationId (toArticulationId plain) = toArticulationId plain.
Proof.
  split; [apply toArticulationId_chars|]. split; [apply toArticulationId_fixed|].
  apply toArticulationId_fixed, toArticulationId_chars.
Qed.

Lemma charsOf_append a b : charsOf (String.append a b) = charsOf a ++ charsOf b.
Proof.
  unfold charsOf. induction a as [|c r IH]; [reflexivity|].
  simpl. f_equal. exact IH.
Qed.

Lemma charsOf_inj a b : charsOf a = charsOf b -> a = b.
Proof.
  unfold charsOf. intros H.
  rewrite <- (string_of_list_ascii_of_string a), <- (string_of_list_ascii_of_string b).
  rewrite H. reflexivity.
Qed.

Lemma append_cancel_r a b z : String.append a z = String.append b z -> a = b.
Proof.
  intros H. apply charsOf_inj. apply (f_equal charsOf) in H.
  rewrite !charsOf_append in H. exact (app_inv_tail _ _ _ H).
Qed.


(** The names [snare1], which is a shorthand already, and [Am] and [AM]
    on the first staff. *)
Lemma toArticulationId_is_shorthand_witness :
  toArticulationId "snare1" = "snare1".
Proof.
  apply (proj1 (proj2 (toArticulationId_is_shorthand "snare1"))).
  unfold charsOf; simpl; repeat constructor.
Defined.


(** ** Termination *)

(** *** Computations that return *)

Lemma returns_ret {A} (a : A) : returns (ret a).
Proof. intros s H. discriminate. Qed.

Lemma returns_gets {A} (f : Importer -> A) : returns (gets f).
Proof. intros s H. discriminate. Qed.

Lemma returns_modify f : returns (modify f).
Proof. intros s H. discriminate. Qed.

Lemma returns_throw {A} e : returns (@throw A e).
Proof. intros s H. discriminate. Qed.

Lemma returns_deref {A} (o : option A) : returns (deref o).
Proof. destruct o; [apply returns_ret|apply returns_throw]. Qed.

Lemma returns_error {A} nonterm expected wrong : returns (@error A nonterm expected wrong).
Proof. intros s H. unfold error in H. destruct (_lastValidSpot s) as [[? ?] ?]. discriminate. Qed.

Lemma returns_errorMessage {A} msg : returns (@errorMessage A msg).
Proof.
  intros s H. unfold errorMessage in H. destruct (_lastValidSpot s) as [[? ?] ?].
  discriminate.
Qed.

Lemma returns_bind {A B} (m : M A) (k : A -> M B) :
  returns m -> (forall a, returns (k a)) -> returns (bind m k).
Proof.
  intros Hm Hk s H. unfold bind in H. destruct (m s) as [a s1| |] eqn:E.
  - exact (Hk a s1 H).
  - discriminate.
  - exact (Hm s E).
Qed.

Lemma returns_when b (m : M unit) : returns m -> returns (when b m).
Proof. destruct b; [auto|intros; apply returns_ret]. Qed.

Lemma returns_repeatM n (body : M unit) : returns body -> returns (repeatM n body).
Proof.
  intros Hb. induction n as [|n IH]; cbn [repeatM]; [apply returns_ret|].
  apply returns_bind; auto.
Qed.

Lemma returns_repeatAcc {A} n (body : A -> M A) a :
  (forall a, returns (body a)) -> returns (repeatAcc n body a).
Proof.
  intros Hb. revert a. induction n as [|n IH]; intros a; cbn [repeatAcc];
    [apply returns_ret|].
  apply returns_bind; auto.
Qed.

Lemma returns_forEachM {A} (l : list A) (body : A -> M unit) :
  (forall a, returns (body a)) -> returns (forEachM l body).
Proof.
  intros Hb. induction l as [|x l IH]; cbn [forEachM]; [apply returns_ret|].
  apply returns_bind; auto.
Qed.

(** A loop whose rounds, but for the last one, make a measure smaller
    ends within any bound above the measure. *)
Lemma loopM_returns {A} (mu : Importer -> nat) (step : A -> M (bool * A)) :
  (forall a, returns (step a)) ->
  (forall a s a' s', step a s = Ok (true, a') s' -> (mu s' < mu s)%nat) ->
  forall fuel a s, (mu s < fuel)%nat -> loopM fuel step a s <> OutOfFuel.
Proof.
  intros Hr Hd fuel. induction fuel as [|fuel IH]; intros a s Hlt; [lia|].
  cbn [loopM]. unfold bind at 1. destruct (step a s) as [[[] a'] s1| |] eqn:E; cbn.
  - apply IH. specialize (Hd _ _ _ _ E). lia.
  - discriminate.
  - discriminate.
  - intros _. exact (Hr a s E).
Qed.

Section Loops.
Context (mu : Importer -> nat) (Hmu : forall s, (mu s < fuelOf s)%nat).

Lemma returns_while cond (body : M unit) :
  returns body ->
  (forall s u s', cond s = true -> body s = Ok u s' -> (mu s' < mu s)%nat) ->
  returns (while cond body).
Proof.
  intros Hb Hd s. unfold while. apply (loopM_returns mu); [| |apply Hmu].
  - intros []. apply returns_bind; [apply returns_gets|]. intros [].
    + apply returns_bind; [exact Hb|intros; apply returns_ret].
    + apply returns_ret.
  - intros [] s0 a' s1 H. rewrite bind_gets_run in H.
    destruct (cond s0) eqn:E; [|discriminate].
    apply bind_Ok in H as (u & s2 & H1 & H2). injection H2 as _ <-.
    eapply Hd; eassumption.
Qed.

Lemma returns_whileBreak cond (body : M bool) :
  returns body ->
  (forall s s', cond s = true -> body s = Ok true s' -> (mu s' < mu s)%nat) ->
  returns (whileBreak cond body).
Proof.
  intros Hb Hd s. unfold whileBreak. apply (loopM_returns mu); [| |apply Hmu].
  - intros []. apply returns_bind; [apply returns_gets|]. intros [].
    + apply returns_bind; [exact Hb|intros; apply returns_ret].
    + apply returns_ret.
  - intros [] s0 a' s1 H. rewrite bind_gets_run in H.
    destruct (cond s0) eqn:E; [|discriminate].
    apply bind_Ok in H as (b & s2 & H1 & H2). injection H2 as -> _ <-.
    eapply Hd; eassumption.
Qed.

Lemma returns_whileAcc {A} cond (body : A -> M A) a :
  (forall a, returns (body a)) ->
  (forall a s a' s', cond s = true -> body a s = Ok a' s' -> (mu s' < mu s)%nat) ->
  returns (whileAcc cond body a).
Proof.
  intros Hb Hd s. unfold whileAcc. apply (loopM_returns mu); [| |apply Hmu].
  - intros a0. apply returns_bind; [apply returns_gets|]. intros [].
    + apply returns_bind; [apply Hb|intros; apply returns_ret].
    + apply returns_ret.
  - intros a0 s0 a' s1 H. rewrite bind_gets_run in H.
    destruct (cond s0) eqn:E; [|discriminate].
    apply bind_Ok in H as (b & s2 & H1 & H2). injection H2 as _ <-.
    eapply Hd; eassumption.
Qed.

Lemma returns_doWhile {A} (body : A -> M A) cond a :
  (forall a, returns (body a)) ->
  (forall a s a' s', body a s = Ok a' s' -> cond s' = true -> (mu s' < mu s)%nat) ->
  returns (doWhile body cond a).
Proof.
  intros Hb Hd s. unfold doWhile. apply (loopM_returns mu); [| |apply Hmu].
  - intros a0. apply returns_bind; [apply Hb|]. intros a1.
    apply returns_bind; [apply returns_gets|intros; apply returns_ret].
  - intros a0 s0 a' s1 H.
    apply bind_Ok in H as (b & s2 & H1 & H2). rewrite bind_gets_run in H2.
    injection H2 as Hc _ <-. eapply Hd; eassumption.
Qed.
End Loops.

Create HintDb returns discriminated.

Ltac returns_step :=
  lazymatch goal with
  | |- returns (bind _ _) => apply returns_bind; [|intros]
  | |- returns (ret _) => apply returns_ret
  | |- returns (gets _) => apply returns_gets
  | |- returns (modify _) => apply returns_modify
  | |- returns (throw _) => apply returns_throw
  | |- returns (deref _) => apply returns_deref
  | |- returns (error _ _ _) => apply returns_error
  | |- returns (errorMessage _) => apply returns_errorMessage
  | |- returns (when _ _) => apply returns_when
  | |- returns (repeatM _ _) => apply returns_repeatM
  | |- returns (repeatAcc _ _ _) => apply returns_repeatAcc; intros
  | |- returns (forEachM _ _) => apply returns_forEachM; intros
  | |- returns (if ?b then _ else _) => destruct b
  | |- returns (match ?x with _ => _ end) => destruct x
  | |- returns _ => solve [eauto 8 with returns]
  end.

Ltac returns_auto := repeat returns_step.
Ltac returns_unfold f := unfold f; cbv zeta; returns_auto.

(** *** The lexer *)

Lemma get_Some_lt s n c : String.get n s = Some c -> (n < String.length s)%nat.
Proof.
  revert n. induction s as [|x r IH]; intros n H; [destruct n; discriminate|].
  destruct n as [|n]; cbn in *; [lia|]. apply IH in H. lia.
Qed.

Lemma get_None_ge s n : String.get n s = None -> (String.length s <= n)%nat.
Proof.
  revert n. induction s as [|x r IH]; intros n H; [cbn; lia|].
  destruct n as [|n]; cbn in *; [discriminate|]. apply IH in H. lia.
Qed.

Lemma nextChar_Ok s c s' :
  nextChar s = Ok c s' ->
  _input s' = _input s /\ _sy s' = _sy s /\ _ch s' = c
  /\ ((_curChPos s < String.length (_input s))%nat
      /\ _curChPos s' = S (_curChPos s)
      \/ (String.length (_input s) <= _curChPos s)%nat
         /\ _curChPos s' = _curChPos s /\ c = Eof).
Proof.
  unfold nextChar. destruct (String.get _ _) as [x|] eqn:E; intros H;
    injection H as <- <-.
  - apply get_Some_lt in E. destruct (charCode x =? 10); cbn; auto 10.
  - apply get_None_ge in E. cbn. auto 10.
Qed.

#[global] Instance fewer_preorder : PreOrder fewer.
Proof.
  split.
  - intros s. unfold fewer. auto.
  - intros s1 s2 s3 (A1 & B1 & C1 & D1) (A2 & B2 & C2 & D2). unfold fewer.
    rewrite A1 in *. repeat split; [congruence|lia|auto|lia].
Qed.

#[global] Instance still_preorder : PreOrder still.
Proof.
  split.
  - intros s. unfold still. auto.
  - intros s1 s2 s3 (A1 & B1 & C1) (A2 & B2 & C2). unfold still.
    repeat split; congruence.
Qed.

Lemma still_fewer s s' : still s s' -> fewer s s'.
Proof.
  intros (A & B & C). unfold fewer, charsLeft, unread. rewrite A, B, C.
  repeat split; auto.
Qed.

Lemma pres_still_fewer {A} (m : M A) : pres still m -> pres fewer m.
Proof. apply pres_weaken, still_fewer. Qed.

Lemma nextChar_fewer : pres fewer nextChar.
Proof.
  intros s c s' H. apply nextChar_Ok in H as (A & B & C & D).
  unfold fewer, charsLeft, unread. rewrite A, C.
  destruct D as [[D1 D2]|(D1 & D2 & D3)]; rewrite D2.
  - repeat split; [lia|lia|]. destruct (c =? Eof), (_ch s =? Eof); lia.
  - rewrite D3, Z.eqb_refl. repeat split; [lia|auto|].
    destruct (_ch s =? Eof); lia.
Qed.

Lemma nextChar_eats : eats nextChar.
Proof.
  intros s c s' H Hch. apply nextChar_Ok in H as (A & B & C & D).
  unfold charsLeft, unread. rewrite A, C.
  apply Z.eqb_neq in Hch. rewrite Hch.
  destruct D as [[D1 D2]|(D1 & D2 & D3)]; rewrite D2.
  - destruct (c =? Eof); lia.
  - rewrite D3, Z.eqb_refl. lia.
Qed.

Lemma nextChar_unread s c s' :
  nextChar s = Ok c s' -> c <> Eof -> (unread s' < unread s)%nat.
Proof.
  intros H Hc. apply nextChar_Ok in H as (A & B & C & D).
  unfold unread. rewrite A.
  destruct D as [[D1 D2]|(D1 & D2 & D3)]; [lia|contradiction].
Qed.

#[global] Hint Extern 1 (pres still (modify _)) =>
  apply pres_modify; intro; repeat split : pres.
#[global] Hint Resolve pres_still_fewer nextChar_fewer : pres.

Lemma saveValidSpot_still : pres still saveValidSpot.
Proof. unfold saveValidSpot. pres_auto. Qed.

Lemma setSy_still sy : pres still (setSy sy).
Proof. unfold setSy. pres_auto. Qed.

Lemma setSyData_still d : pres still (setSyData d).
Proof. unfold setSyData. pres_auto. Qed.

#[global] Hint Resolve saveValidSpot_still setSy_still setSyData_still : pres.

Lemma readName_fewer : pres fewer readName.
Proof. unfold readName. pres_auto. Qed.

Lemma readNumber_fewer : pres fewer readNumber.
Proof. unfold readNumber. pres_auto. Qed.

Lemma lineComment_fewer : pres fewer lineComment.
Proof. unfold lineComment. pres_auto. Qed.

Lemma blockComment_fewer : pres fewer blockComment.
Proof. unfold blockComment. pres_auto. Qed.

Lemma quoted_fewer c : pres fewer (quoted c).
Proof. unfold quoted. pres_auto. Qed.

Lemma single_fewer sy : pres fewer (single sy).
Proof. unfold single. pres_auto. Qed.

#[global] Hint Resolve readName_fewer readNumber_fewer lineComment_fewer
  blockComment_fewer quoted_fewer single_fewer : pres.

Lemma newSyStep_fewer ext : pres fewer (newSyStep ext).
Proof. unfold newSyStep. pres_auto. Qed.

#[global] Hint Resolve newSyStep_fewer : pres.

Lemma newSy_fewer ext : pres fewer (newSy ext).
Proof. unfold newSy. pres_auto. Qed.

(** The bounds of the loops of the lexer. *)
Lemma charsLeft_fuel s : (charsLeft s < fuelOf s)%nat.
Proof. unfold charsLeft, fuelOf, unread. destruct (_ch s =? Eof); lia. Qed.

Lemma unread_fuel s : (unread s < fuelOf s)%nat.
Proof. unfold fuelOf, unread. lia. Qed.

Lemma isNameLetter_Eof : isNameLetter Eof = false.
Proof. reflexivity. Qed.

Lemma isDigit_Eof s : isDigit s Eof = false.
Proof. unfold isDigit. cbn. rewrite !andb_false_r. reflexivity. Qed.

Lemma nameLoop_returns cond :
  (forall s, cond s = true -> _ch s <> Eof) ->
  returns
    (doWhile (fun str => ch <- gets _ch ;; nextChar ;; ret (appendChar str ch))
       cond EmptyString).
Proof.
  intros Hc. apply (returns_doWhile unread unread_fuel).
  - intros a. returns_auto. intros s H. unfold nextChar in H.
    destruct (String.get _ _); discriminate.
  - intros a s a' s' H Hs'. rewrite bind_gets_run in H.
    apply bind_Ok in H as (c & s1 & H1 & H2). injection H2 as _ <-.
    pose proof (nextChar_Ok _ _ _ H1) as (_ & _ & E & _).
    apply (nextChar_unread _ _ _ H1). rewrite <- E. apply Hc, Hs'.
Qed.

Lemma returns_nextChar : returns nextChar.
Proof. intros s H. unfold nextChar in H. destruct (String.get _ _); discriminate. Qed.

#[global] Hint Resolve returns_nextChar : returns.

Lemma setSy_returns sy : returns (setSy sy).
Proof. returns_unfold setSy. Qed.

Lemma setSyData_returns d : returns (setSyData d).
Proof. returns_unfold setSyData. Qed.

Lemma saveValidSpot_returns : returns saveValidSpot.
Proof. returns_unfold saveValidSpot. Qed.

#[global] Hint Resolve setSy_returns setSyData_returns saveValidSpot_returns : returns.

Lemma single_returns sy : returns (single sy).
Proof. returns_unfold single. Qed.

#[global] Hint Resolve single_returns : returns.

Lemma readName_returns : returns readName.
Proof.
  unfold readName. apply nameLoop_returns. intros s H E. rewrite E in H.
  rewrite isNameLetter_Eof, isDigit_Eof in H. discriminate.
Qed.

Lemma readNumber_returns : returns readNumber.
Proof.
  unfold readNumber. apply returns_bind; [|intros; returns_auto].
  apply nameLoop_returns. intros s H E. rewrite E in H.
  rewrite isDigit_Eof in H. discriminate.
Qed.

Lemma cond_not_Eof (b : bool) ch : b && negb (ch =? Eof) = true -> ch <> Eof.
Proof.
  intros H E. subst ch. rewrite andb_false_r in H. discriminate.
Qed.

Lemma lineComment_returns : returns lineComment.
Proof.
  unfold lineComment. apply (returns_while charsLeft charsLeft_fuel); [returns_auto|].
  intros s u s' Hc H. apply bind_Ok in H as (c & s1 & H1 & H2). injection H2 as _ <-.
  apply (nextChar_eats _ _ _ H1). eapply cond_not_Eof. exact Hc.
Qed.

Lemma blockComment_returns : returns blockComment.
Proof.
  unfold blockComment. apply (returns_whileBreak charsLeft charsLeft_fuel); [returns_auto|].
  intros s s' Hc H.
  assert (Hch : _ch s <> Eof).
  { intros E. rewrite E in Hc. discriminate. }
  rewrite bind_gets_run in H. destruct (_ch s =? 42).
  - apply bind_Ok in H as (c & s1 & H1 & H2).
    pose proof (nextChar_eats _ _ _ H1 Hch) as Hlt.
    destruct (c =? 47).
    + apply bind_Ok in H2 as (c2 & s2 & H2 & H3). discriminate.
    + injection H2 as <-. exact Hlt.
  - apply bind_Ok in H as (c & s1 & H1 & H2). injection H2 as <-.
    exact (nextChar_eats _ _ _ H1 Hch).
Qed.

Lemma quoted_returns c : returns (quoted c).
Proof.
  unfold quoted. returns_auto.
  apply (returns_whileAcc charsLeft charsLeft_fuel); [intros; returns_auto|].
  intros str s0 str1 s1 Hc H. rewrite bind_gets_run in H.
  apply bind_Ok in H as (c1 & s2 & H1 & H2). injection H2 as _ <-.
  apply (nextChar_eats _ _ _ H1). eapply cond_not_Eof. exact Hc.
Qed.

#[global] Hint Resolve readName_returns readNumber_returns lineComment_returns
  blockComment_returns quoted_returns : returns.

Lemma newSyStep_returns ext : returns (newSyStep ext).
Proof. returns_unfold newSyStep. Qed.

(** Every round of [newSy] but the one at the end of the input takes a
    character. *)
Lemma eats_bind_l {A B} (m : M A) (k : A -> M B) :
  eats m -> (forall a, pres fewer (k a)) -> eats (bind m k).
Proof.
  intros Hm Hk s b s' H Hch. apply bind_Ok in H as (a & s1 & H1 & H2).
  pose proof (Hm _ _ _ H1 Hch). destruct (Hk _ _ _ _ H2) as (_ & _ & _ & ?). lia.
Qed.

Lemma eats_bind_r {A B} (m : M A) (k : A -> M B) :
  pres still m -> (forall a, eats (k a)) -> eats (bind m k).
Proof.
  intros Hm Hk s b s' H Hch. apply bind_Ok in H as (a & s1 & H1 & H2).
  destruct (Hm _ _ _ H1) as (E1 & E2 & E3).
  assert (Hch1 : _ch s1 <> Eof) by congruence.
  pose proof (Hk _ _ _ _ H2 Hch1) as Hlt.
  unfold charsLeft, unread in *. rewrite E1, E2, E3 in Hlt. exact Hlt.
Qed.

Lemma eats_error {A} nonterm expected wrong : eats (@error A nonterm expected wrong).
Proof.
  intros s a s' H. unfold error in H. destruct (_lastValidSpot s) as [[? ?] ?].
  discriminate.
Qed.

Lemma loopM_S {A} fuel (step : A -> M (bool * A)) a s :
  loopM (S fuel) step a s
  = (r <- step a ;; if r.1 then loopM fuel step r.2 else ret r.2) s.
Proof. reflexivity. Qed.

Lemma eats_doWhile {A} (body : A -> M A) cond a :
  (forall a, eats (body a)) -> (forall a, pres fewer (body a)) ->
  eats (doWhile body cond a).
Proof.
  intros He Hf s x s' H Hch. unfold doWhile, fuelOf in H. rewrite loopM_S in H.
  apply bind_Ok in H as ([c a'] & s1 & H1 & H2).
  apply bind_Ok in H1 as (a1 & s2 & H1 & H3). rewrite bind_gets_run in H3.
  injection H3 as _ _ <-.
  pose proof (He _ _ _ _ H1 Hch) as Hlt.
  assert (Hr : fewer s2 s').
  { cbn [fst snd] in H2. destruct c.
    - revert H2. apply pres_loopM; [typeclasses eauto|]. intros a2.
      apply pres_bind; [typeclasses eauto|apply Hf|]. intros a3. pres_auto.
    - injection H2 as _ <-. reflexivity. }
  destruct Hr as (_ & _ & _ & ?). lia.
Qed.

Create HintDb eats discriminated.

Ltac eats_auto :=
  lazymatch goal with
  | |- eats (bind _ _) =>
      first [ apply eats_bind_l; [solve [eats_auto]|intros; solve [pres_auto]]
            | apply eats_bind_r; [solve [pres_auto]|intros; eats_auto] ]
  | |- eats (error _ _ _) => apply eats_error
  | |- eats (doWhile _ _ _) =>
      apply eats_doWhile; intros; [eats_auto|solve [pres_auto]]
  | |- eats (if ?b then _ else _) => destruct b; eats_auto
  | |- eats (match ?x with _ => _ end) => destruct x; eats_auto
  | |- eats _ => solve [eauto with eats]
  end.

#[global] Hint Resolve nextChar_eats : eats.

Lemma readName_eats : eats readName.
Proof. unfold readName. eats_auto. Qed.

Lemma readNumber_eats : eats readNumber.
Proof. unfold readNumber. eats_auto. Qed.

Lemma quoted_eats c : eats (quoted c).
Proof. unfold quoted. eats_auto. Qed.

Lemma single_eats sy : eats (single sy).
Proof. unfold single. eats_auto. Qed.

#[global] Hint Resolve readName_eats readNumber_eats quoted_eats single_eats : eats.

Lemma newSyStep_Eof ext s :
  _ch s = Eof -> newSyStep ext s = Ok tt (set__sy SyEof s).
Proof. intros E. unfold newSyStep. rewrite bind_gets_run, E. reflexivity. Qed.

Lemma newSyStep_eats ext : eats (newSyStep ext).
Proof.
  intros s a s' H Hch. unfold newSyStep in H. rewrite bind_gets_run in H.
  pose proof Hch as E. apply Z.eqb_neq in E. rewrite E in H. revert H.
  lazymatch goal with
  | |- ?m s = _ -> _ => assert (He : eats m)
  end.
  { generalize (_ch s). intros ch. eats_auto. }
  intros H. exact (He _ _ _ H Hch).
Qed.

Lemma newSy_returns ext : returns (newSy ext).
Proof.
  unfold newSy. returns_auto.
  apply (returns_while
           (fun s => if syIs (_sy s) SyNo then S (charsLeft s) else 0%nat)).
  - intros s. unfold charsLeft, fuelOf, unread.
    destruct (syIs _ _), (_ch s =? Eof); lia.
  - apply newSyStep_returns.
  - intros s u s' Hc H. cbv beta in *. rewrite Hc.
    destruct (Z.eq_dec (_ch s) Eof) as [E|E].
    + rewrite (newSyStep_Eof _ _ E) in H. injection H as _ <-.
      change (syIs (_sy (set__sy SyEof s)) SyNo) with false. cbv iota. lia.
    + pose proof (newSyStep_eats ext _ _ _ H E). destruct (syIs (_sy s') SyNo); lia.
Qed.

#[global] Hint Resolve newSy_returns : returns.

(** What [newSy] answers: the terminal it has stored, which is never the
    placeholder [No]; it has read forwards, past at least one character
    unless the input was at its end, where the terminal is [Eof]. *)
Lemma newSy_Ok ext s sy s' :
  newSy ext s = Ok sy s' ->
  _sy s' = sy /\ sy <> SyNo /\ fewer s s'
  /\ (_ch s <> Eof -> (charsLeft s' < charsLeft s)%nat)
  /\ (_ch s = Eof -> sy = SyEof /\ charsLeft s' = charsLeft s).
Proof.
  intros H. pose proof (newSy_fewer ext _ _ _ H) as Hf.
  unfold newSy, saveValidSpot, setSy in H. rewrite !bind_modify_run in H.
  apply bind_Ok in H as ([] & s1 & H1 & H2). injection H2 as <- <-.
  set (s0 := set__sy SyNo _) in H1.
  split; [reflexivity|]. split; [|split; [exact Hf|]].
  - pose proof H1 as H3. unfold while in H3.
    apply loopM_last in H3 as ([] & s2 & H3). rewrite bind_gets_run in H3.
    destruct (syIs (_sy s2) SyNo) eqn:E.
    + apply bind_Ok in H3 as (u & s3 & _ & H3). discriminate.
    + injection H3 as <-. unfold syIs in E. intros E'. rewrite E' in E.
      rewrite bool_decide_eq_true_2 in E by reflexivity. discriminate.
  - unfold while, fuelOf in H1. rewrite loopM_S in H1. rewrite bind_assoc, bind_gets_run in H1.
    change (syIs (_sy s0) SyNo) with true in H1. cbv iota in H1.
    rewrite bind_assoc in H1. apply bind_Ok in H1 as (u & s2 & H2 & H3).
    rewrite bind_ret_run in H3. cbn [fst snd] in H3. split.
    + intros Hch.
      pose proof (newSyStep_eats ext _ _ _ H2 Hch) as Hlt.
      assert (Hr : fewer s2 s1).
      { revert H3. apply pres_loopM; [typeclasses eauto|]. intros a. pres_auto. }
      destruct Hr as (_ & _ & _ & ?). exact (Nat.le_lt_trans _ _ _ H Hlt).
    + intros Hch. rewrite (newSyStep_Eof ext s0 Hch) in H2. injection H2 as _ <-.
      rewrite loopM_S, bind_assoc, bind_gets_run in H3. cbn in H3. injection H3 as <-.
      split; reflexivity.
Qed.

(** *** The parser reads forwards *)

#[global] Instance sameLexer_preorder : PreOrder sameLexer.
Proof.
  split.
  - intros s. split; reflexivity.
  - intros s1 s2 s3 [A1 B1] [A2 B2]. split; [etransitivity; eassumption|congruence].
Qed.

#[global] Instance move_preorder : PreOrder move.
Proof.
  split.
  - intros s. right. auto.
  - intros s1 s2 s3 [H1|[H1 E1]] [H2|[H2 E2]]; unfold move.
    + left. lia.
    + left. lia.
    + left. lia.
    + right. split; congruence.
Qed.

Lemma sameLexer_move s s' : sameLexer s s' -> move s s'.
Proof.
  intros [(A & B & C) D]. right. unfold workLeft, charsLeft, unread.
  rewrite A, B, C, D. auto.
Qed.

Lemma pres_sameLexer_move {A} (m : M A) : pres sameLexer m -> pres move m.
Proof. apply pres_weaken, sameLexer_move. Qed.

#[global] Hint Extern 1 (pres sameLexer (modify _)) =>
  apply pres_modify; intro; repeat split : pres.
#[global] Hint Resolve pres_sameLexer_move : pres.

Lemma steps_move s s' : steps s s' -> move s s'.
Proof. intros [H _]. exact H. Qed.

Lemma pres_steps_move {A} (m : M A) : pres steps m -> pres move m.
Proof. apply pres_weaken, steps_move. Qed.

Lemma newSy_steps ext : pres steps (newSy ext).
Proof.
  intros s sy s' H. apply newSy_Ok in H as (E & _ & _ & H1 & H2).
  unfold steps, stepsIf, move, workLeft.
  destruct (Z.eq_dec (_ch s) Eof) as [Hch|Hch].
  - destruct (H2 Hch) as [-> Hc]. rewrite Hc, E.
    change (syIs SyEof SyEof) with true. cbv iota.
    unfold syIs. destruct (bool_decide_reflect (_sy s = SyEof)) as [Es|Es].
    + split; [right; split; [lia|congruence]|]. intros Hn. contradiction.
    + split; [left; lia|]. intros _. lia.
  - specialize (H1 Hch).
    split; [left|intros _];
      destruct (syIs (_sy s') SyEof), (syIs (_sy s) SyEof); lia.
Qed.

Lemma newSy_move ext : pres move (newSy ext).
Proof. apply pres_steps_move, newSy_steps. Qed.

#[global] Hint Resolve newSy_move : pres.

(** The object store and the document are not the lexer's. *)
Lemma modTrack_sameLexer i f : pres sameLexer (modTrack i f).
Proof. pres_unfold modTrack. Qed.
#[global] Hint Resolve modTrack_sameLexer : pres.

Lemma modStaff_sameLexer r f : pres sameLexer (modStaff r f).
Proof. pres_unfold modStaff. Qed.
#[global] Hint Resolve modStaff_sameLexer : pres.

Lemma modBar_sameLexer r f : pres sameLexer (modBar r f).
Proof. pres_unfold modBar. Qed.
#[global] Hint Resolve modBar_sameLexer : pres.

Lemma modVoice_sameLexer r f : pres sameLexer (modVoice r f).
Proof. pres_unfold modVoice. Qed.

Lemma modMasterBar_sameLexer i f : pres sameLexer (modMasterBar i f).
Proof. pres_unfold modMasterBar. Qed.

Lemma modScore_sameLexer f : pres sameLexer (modScore f).
Proof. pres_unfold modScore. Qed.

Lemma modBeat_sameLexer r f : pres sameLexer (modBeat r f).
Proof. pres_unfold modBeat. Qed.

Lemma modNote_sameLexer r f : pres sameLexer (modNote r f).
Proof. pres_unfold modNote. Qed.

Lemma newBeat_sameLexer : pres sameLexer newBeat.
Proof. pres_unfold newBeat. Qed.

Lemma newNote_sameLexer : pres sameLexer newNote.
Proof. pres_unfold newNote. Qed.

#[global] Hint Resolve modVoice_sameLexer modMasterBar_sameLexer modScore_sameLexer
  modBeat_sameLexer modNote_sameLexer newBeat_sameLexer newNote_sameLexer : pres.

Lemma Score_addTrack_sameLexer t : pres sameLexer (Score_addTrack t).
Proof. pres_unfold Score_addTrack. Qed.

Lemma Score_addMasterBar_sameLexer m : pres sameLexer (Score_addMasterBar m).
Proof. pres_unfold Score_addMasterBar. Qed.

Lemma Staff_addBar_sameLexer r b : pres sameLexer (Staff_addBar r b).
Proof. pres_unfold Staff_addBar. Qed.

Lemma Bar_addVoice_sameLexer r v : pres sameLexer (Bar_addVoice r v).
Proof. pres_unfold Bar_addVoice. Qed.

Lemma Voice_addBeat_sameLexer v b : pres sameLexer (Voice_addBeat v b).
Proof. pres_unfold Voice_addBeat. Qed.

Lemma Beat_addNote_sameLexer b n : pres sameLexer (Beat_addNote b n).
Proof. pres_unfold Beat_addNote. Qed.

Lemma setArticulationName_sameLexer name value :
  pres sameLexer (setArticulationName name value).
Proof. pres_unfold setArticulationName. Qed.

Lemma syString_sameLexer : pres sameLexer syString.
Proof. pres_unfold syString. Qed.

Lemma syNumber_sameLexer : pres sameLexer syNumber.
Proof. pres_unfold syNumber. Qed.

Lemma syTuning_sameLexer : pres sameLexer syTuning.
Proof. pres_unfold syTuning. Qed.

#[global] Hint Resolve Score_addTrack_sameLexer Score_addMasterBar_sameLexer
  Staff_addBar_sameLexer Bar_addVoice_sameLexer Voice_addBeat_sameLexer
  Beat_addNote_sameLexer setArticulationName_sameLexer syString_sameLexer
  syNumber_sameLexer syTuning_sameLexer : pres.

Lemma newTrack_sameLexer : pres sameLexer newTrack.
Proof. pres_unfold newTrack. Qed.
#[global] Hint Resolve newTrack_sameLexer : pres.

Lemma createDefaultScore_sameLexer : pres sameLexer createDefaultScore.
Proof. pres_unfold createDefaultScore. Qed.

Lemma newBar_sameLexer r : pres sameLexer (newBar r).
Proof. pres_unfold newBar. Qed.

Lemma Note_stringTuning_sameLexer note : pres sameLexer (Note_stringTuning note).
Proof. pres_unfold Note_stringTuning. Qed.

Lemma setAllowTuning_sameLexer : pres sameLexer setAllowTuning.
Proof. pres_unfold setAllowTuning. Qed.

Lemma dropLastBeat_sameLexer v : pres sameLexer (dropLastBeat v).
Proof. pres_unfold dropLastBeat. Qed.

Lemma cloneNote_sameLexer clone original : pres sameLexer (cloneNote clone original).
Proof. pres_unfold cloneNote. Qed.
#[global] Hint Resolve cloneNote_sameLexer : pres.

Lemma BeatCloner_clone_sameLexer original : pres sameLexer (BeatCloner_clone original).
Proof. pres_unfold BeatCloner_clone. Qed.
#[global] Hint Resolve BeatCloner_clone_sameLexer : pres.

Lemma repeatBeat_sameLexer v b n : pres sameLexer (repeatBeat v b n).
Proof. pres_unfold repeatBeat. Qed.

Lemma detectTuning_sameLexer : pres sameLexer detectTuning.
Proof. pres_unfold detectTuning. Qed.

Lemma addEmptyBeat_sameLexer v : pres sameLexer (addEmptyBeat v).
Proof. pres_unfold addEmptyBeat. Qed.

#[global] Hint Resolve createDefaultScore_sameLexer newBar_sameLexer
  Note_stringTuning_sameLexer setAllowTuning_sameLexer dropLastBeat_sameLexer
  repeatBeat_sameLexer detectTuning_sameLexer addEmptyBeat_sameLexer : pres.

Lemma padStaff_sameLexer r : pres sameLexer (padStaff r).
Proof. pres_unfold padStaff. Qed.
#[global] Hint Resolve padStaff_sameLexer : pres.

Lemma consolidate_sameLexer : pres sameLexer consolidate.
Proof. pres_unfold consolidate. Qed.
#[global] Hint Resolve consolidate_sameLexer : pres.

Section ParserMoves.
Context (ext : Externals).

Lemma readTempoAutomation_move : pres move (readTempoAutomation ext).
Proof. pres_unfold readTempoAutomation. Qed.
Hint Resolve readTempoAutomation_move : pres.

Lemma applyAlternateEnding_move master : pres move (applyAlternateEnding ext master).
Proof. pres_unfold applyAlternateEnding. Qed.
Hint Resolve applyAlternateEnding_move : pres.

Lemma chordProperty_move chord : pres move (chordProperty ext chord).
Proof. pres_unfold chordProperty. Qed.
Hint Resolve chordProperty_move : pres.

Lemma chordProperties_move chord : pres move (chordProperties ext chord).
Proof. pres_unfold chordProperties. Qed.
Hint Resolve chordProperties_move : pres.

Lemma readStaffTuning_move sy : pres move (readStaffTuning ext sy).
Proof. pres_unfold readStaffTuning. Qed.
Hint Resolve readStaffTuning_move : pres.

Lemma handleStaffMeta_move : pres move (handleStaffMeta ext).
Proof. pres_unfold handleStaffMeta. Qed.
Hint Resolve handleStaffMeta_move : pres.

Lemma metaDataStep_move anyMeta : pres move (metaDataStep ext anyMeta).
Proof. pres_unfold metaDataStep. Qed.
Hint Resolve metaDataStep_move : pres.

Lemma metaData_move : pres move (metaData ext).
Proof.
  unfold metaData. apply pres_bind; [typeclasses eauto|pres_auto|]. intros fuel.
  pres_auto.
Qed.

Lemma staffProperties_move : pres move (staffProperties ext).
Proof. pres_unfold staffProperties. Qed.
Hint Resolve staffProperties_move : pres.

Lemma trackMeta_move : pres move (trackMeta ext).
Proof. pres_unfold trackMeta. Qed.

Lemma staffMeta_move : pres move (staffMeta ext).
Proof. pres_unfold staffMeta. Qed.
Hint Resolve trackMeta_move staffMeta_move : pres.

Lemma trackStaffMeta_move : pres move (trackStaffMeta ext).
Proof. pres_unfold trackStaffMeta. Qed.

Lemma readPoints_move exact nonterm add :
  (forall p, pres move (add p)) -> pres move (readPoints ext exact nonterm add).
Proof. intros Hadd. pres_unfold readPoints. Qed.

Lemma whammyEffect_move exact beat : pres move (whammyEffect ext exact beat).
Proof. pres_unfold whammyEffect. apply readPoints_move. intros p. pres_leaf. Qed.
Hint Resolve whammyEffect_move : pres.

Lemma applyBeatEffect_move beat : pres move (applyBeatEffect ext beat).
Proof. pres_unfold applyBeatEffect. Qed.
Hint Resolve applyBeatEffect_move : pres.

Lemma beatEffects_move beat : pres move (beatEffects ext beat).
Proof. pres_unfold beatEffects. Qed.

Lemma beatDuration_move : pres move (beatDuration ext).
Proof. pres_unfold beatDuration. Qed.

Lemma bendEffect_move exact note : pres move (bendEffect ext exact note).
Proof. pres_unfold bendEffect. apply readPoints_move. intros p. pres_leaf. Qed.

Lemma fingerEffect_move set note : pres move (fingerEffect ext set note).
Proof. pres_unfold fingerEffect. Qed.
Hint Resolve beatEffects_move beatDuration_move bendEffect_move fingerEffect_move : pres.

Lemma noteEffect_move note : pres move (noteEffect ext note).
Proof. pres_unfold noteEffect. Qed.
Hint Resolve noteEffect_move : pres.

Lemma noteEffects_move note : pres move (noteEffects ext note).
Proof. pres_unfold noteEffects. Qed.

Lemma noteHead_move st : pres move (noteHead ext st).
Proof. pres_unfold noteHead. Qed.
Hint Resolve noteEffects_move noteHead_move : pres.

Lemma note_move beat : pres move (note ext beat).
Proof. pres_unfold note. Qed.
Hint Resolve note_move : pres.

Lemma beatNotes_move v b : pres move (beatNotes ext v b).
Proof. pres_unfold beatNotes. Qed.

Lemma beatMultiplier_move : pres move (beatMultiplier ext).
Proof. pres_unfold beatMultiplier. Qed.
Hint Resolve beatNotes_move beatMultiplier_move : pres.

Lemma beatFinish_move v b : pres move (beatFinish ext v b).
Proof. pres_unfold beatFinish. Qed.
Hint Resolve beatFinish_move : pres.

Lemma beat_move v : pres move (beat ext v).
Proof. pres_unfold beat. Qed.

Lemma alternateEndings_move master : pres move (alternateEndings ext master).
Proof. pres_unfold alternateEndings. Qed.
Hint Resolve beat_move alternateEndings_move : pres.

Lemma barMetaStep_move bar : pres move (barMetaStep ext bar).
Proof. pres_unfold barMetaStep. Qed.
Hint Resolve barMetaStep_move : pres.

Lemma barMetaLoop_move bar : pres move (barMetaLoop ext bar).
Proof. pres_unfold barMetaLoop. Qed.
Hint Resolve barMetaLoop_move : pres.

Lemma barMeta_move bar : pres move (barMeta ext bar).
Proof. pres_unfold barMeta. Qed.
Hint Resolve barMeta_move trackStaffMeta_move : pres.

Lemma bar_move : pres move (bar ext).
Proof.
  unfold bar. do 7 (apply pres_bind; [typeclasses eauto|pres_auto|]; intros).
  apply pres_bind; [typeclasses eauto|pres_auto|]. intros fuel. pres_auto.
Qed.
Hint Resolve bar_move : pres.

Lemma bars_move : pres move (bars ext).
Proof. pres_unfold bars. Qed.
End ParserMoves.

#[global] Hint Resolve readTempoAutomation_move applyAlternateEnding_move
  chordProperty_move chordProperties_move readStaffTuning_move
  handleStaffMeta_move metaDataStep_move metaData_move staffProperties_move
  trackMeta_move staffMeta_move trackStaffMeta_move whammyEffect_move
  applyBeatEffect_move beatEffects_move beatDuration_move bendEffect_move
  fingerEffect_move noteEffect_move noteEffects_move noteHead_move note_move
  beatNotes_move beatMultiplier_move beatFinish_move beat_move
  alternateEndings_move barMetaStep_move barMetaLoop_move barMeta_move
  bar_move bars_move : pres.

(** *** Every round of a loop of the parser reads a terminal *)

Lemma move_stepsIf P s s1 s2 : move s s1 -> stepsIf P s1 s2 -> stepsIf P s s2.
Proof.
  intros Hm [Hm2 Hs]. split; [etransitivity; eassumption|]. intros HP.
  destruct Hm as [Hlt|[He Hsy]].
  - destruct Hm2 as [?|[? _]]; lia.
  - rewrite <- Hsy in HP. specialize (Hs HP). lia.
Qed.

Lemma stepsIf_move P s s1 s2 : stepsIf P s s1 -> move s1 s2 -> stepsIf P s s2.
Proof.
  intros [Hm Hs] Hm2. split; [etransitivity; eassumption|]. intros HP.
  specialize (Hs HP). destruct Hm2 as [?|[? _]]; lia.
Qed.

Lemma pres_of_presWhen {A} R (m : M A) : presWhen (fun _ => true) R m -> pres R m.
Proof. intros H s a s' Hr. eapply H; [exact Hr|reflexivity]. Qed.

Lemma presWhen_pres {A} ok R (m : M A) : pres R m -> presWhen ok R m.
Proof. intros H s a s' Hr _. eapply H. exact Hr. Qed.

Lemma presWhen_ret {A} ok R (a : A) : ok a = false -> presWhen ok R (ret a).
Proof. intros E s a' s' H Hok. injection H as <- _. congruence. Qed.

Lemma presWhen_throw {A} ok R e : presWhen ok R (@throw A e).
Proof. intros s a s' H. discriminate. Qed.

Lemma presWhen_error {A} ok R nonterm expected wrong :
  presWhen ok R (@error A nonterm expected wrong).
Proof.
  intros s a s' H. unfold error in H. destruct (_lastValidSpot s) as [[? ?] ?].
  discriminate.
Qed.

Lemma presWhen_errorMessage {A} ok R msg : presWhen ok R (@errorMessage A msg).
Proof.
  intros s a s' H. unfold errorMessage in H. destruct (_lastValidSpot s) as [[? ?] ?].
  discriminate.
Qed.

Lemma presWhen_bind_l {A B} ok P (m : M A) (k : A -> M B) :
  pres (stepsIf P) m -> (forall a, pres move (k a)) ->
  presWhen ok (stepsIf P) (bind m k).
Proof.
  intros Hm Hk s b s' H _. apply bind_Ok in H as (a & s1 & H1 & H2).
  eapply stepsIf_move; [eapply Hm|eapply Hk]; eassumption.
Qed.

Lemma presWhen_bind_r {A B} ok P (m : M A) (k : A -> M B) :
  pres move m -> (forall a, presWhen ok (stepsIf P) (k a)) ->
  presWhen ok (stepsIf P) (bind m k).
Proof.
  intros Hm Hk s b s' H Hok. apply bind_Ok in H as (a & s1 & H1 & H2).
  eapply move_stepsIf; [eapply Hm|eapply Hk]; eassumption.
Qed.

Lemma presWhen_bind_bool {B} ok P (m : M bool) (k : bool -> M B) :
  presWhen id (stepsIf P) m -> pres move m ->
  pres move (k true) -> presWhen ok (stepsIf P) (k false) ->
  presWhen ok (stepsIf P) (bind m k).
Proof.
  intros Hm Hmv Ht Hf s b s' H Hok. apply bind_Ok in H as ([] & s1 & H1 & H2).
  - eapply stepsIf_move; [eapply Hm; [exact H1|reflexivity]|eapply Ht; exact H2].
  - eapply move_stepsIf; [eapply Hmv; exact H1|eapply Hf; eassumption].
Qed.

Lemma presWhen_when_true ok R (m : M unit) : presWhen ok R m -> presWhen ok R (when true m).
Proof. auto. Qed.

Create HintDb steps discriminated.

#[global] Hint Resolve newSy_steps : steps.

Ltac steps_auto :=
  cbv beta; cbn [negb];
  lazymatch goal with
  | |- pres (stepsIf _) _ => apply pres_of_presWhen; steps_auto
  | |- pres steps _ => apply pres_of_presWhen; steps_auto
  | |- presWhen _ _ (bind _ _) =>
      first
        [ apply presWhen_bind_l; [solve [steps_auto]|intros; solve [pres_auto]]
        | apply presWhen_bind_bool;
            [solve [eauto with steps]|solve [pres_auto]|solve [pres_auto]|steps_auto]
        | apply presWhen_bind_r; [solve [pres_auto]|intros; steps_auto] ]
  | |- presWhen _ _ (ret _) => apply presWhen_ret; reflexivity
  | |- presWhen _ _ (throw _) => apply presWhen_throw
  | |- presWhen _ _ (error _ _ _) => apply presWhen_error
  | |- presWhen _ _ (errorMessage _) => apply presWhen_errorMessage
  | |- presWhen _ _ (when true _) => apply presWhen_when_true; steps_auto
  | |- presWhen _ _ (if ?b then _ else _) => destruct b; steps_auto
  | |- presWhen _ _ (match ?x with _ => _ end) => destruct x; steps_auto
  | |- presWhen _ _ _ =>
      first [ solve [eauto with steps]
            | apply presWhen_pres; solve [eauto with steps] ]
  end.

Ltac steps_unfold f := unfold f; cbv zeta; steps_auto.

Section ParserSteps.
Context (ext : Externals).

Lemma readTempoAutomation_steps : pres steps (readTempoAutomation ext).
Proof. steps_unfold readTempoAutomation. Qed.
Hint Resolve readTempoAutomation_steps : steps.

Lemma applyAlternateEnding_steps master : pres steps (applyAlternateEnding ext master).
Proof. steps_unfold applyAlternateEnding. Qed.
Hint Resolve applyAlternateEnding_steps : steps.

Lemma chordProperty_steps chord : pres steps (chordProperty ext chord).
Proof. steps_unfold chordProperty. Qed.

Lemma handleStaffMeta_steps : presWhen id steps (handleStaffMeta ext).
Proof. steps_unfold handleStaffMeta. Qed.
Hint Resolve handleStaffMeta_steps : steps.

Lemma metaDataStep_steps anyMeta : presWhen fst steps (metaDataStep ext anyMeta).
Proof. steps_unfold metaDataStep. Qed.

Lemma whammyEffect_steps exact beat : pres steps (whammyEffect ext exact beat).
Proof.
  unfold whammyEffect. apply pres_of_presWhen. apply presWhen_bind_l.
  - apply newSy_steps.
  - intros sy. pres_auto. apply readPoints_move. intros p. pres_leaf.
Qed.
Hint Resolve whammyEffect_steps : steps.

Lemma applyBeatEffect_steps beat : presWhen id steps (applyBeatEffect ext beat).
Proof. steps_unfold applyBeatEffect. Qed.
Hint Resolve applyBeatEffect_steps : steps.

Lemma bendEffect_steps exact note : pres steps (bendEffect ext exact note).
Proof.
  unfold bendEffect. apply pres_of_presWhen. apply presWhen_bind_l.
  - apply newSy_steps.
  - intros sy. pres_auto. apply readPoints_move. intros p. pres_leaf.
Qed.

Lemma fingerEffect_steps set note : pres steps (fingerEffect ext set note).
Proof. steps_unfold fingerEffect. Qed.
Hint Resolve bendEffect_steps fingerEffect_steps : steps.

Lemma noteEffect_steps note : pres steps (noteEffect ext note).
Proof. steps_unfold noteEffect. Qed.

Lemma note_steps beat : presWhen id steps (note ext beat).
Proof. steps_unfold note. Qed.
Hint Resolve note_steps : steps.

Lemma beatNotes_steps v b : presWhen id steps (beatNotes ext v b).
Proof. steps_unfold beatNotes. Qed.
Hint Resolve beatNotes_steps : steps.

Lemma beat_steps v : presWhen id steps (beat ext v).
Proof. steps_unfold beat. Qed.

Lemma alternateEndings_steps master : pres steps (alternateEndings ext master).
Proof. steps_unfold alternateEndings. Qed.
Hint Resolve alternateEndings_steps : steps.

Lemma barMetaStep_steps bar : pres steps (barMetaStep ext bar).
Proof. steps_unfold barMetaStep. Qed.
End ParserSteps.

#[global] Hint Resolve readTempoAutomation_steps applyAlternateEnding_steps
  chordProperty_steps handleStaffMeta_steps whammyEffect_steps
  applyBeatEffect_steps bendEffect_steps fingerEffect_steps noteEffect_steps
  note_steps beatNotes_steps beat_steps alternateEndings_steps
  barMetaStep_steps : steps.

(** *** The loops of the parser end *)

Lemma tokensLeft_fuel s : (tokensLeft s < fuelOf s)%nat.
Proof.
  unfold tokensLeft, charsLeft, fuelOf, unread.
  destruct (_ch s =? Eof), (syIs (_sy s) SyEof); lia.
Qed.

Lemma syIs_false a b : a <> b -> syIs a b = false.
Proof. intros H. unfold syIs. apply bool_decide_eq_false_2, H. Qed.

Lemma move_le s s' : move s s' -> (workLeft s' <= workLeft s)%nat.
Proof. intros [?|[? _]]; lia. Qed.

Lemma workLeft_tokensLeft s s' :
  (workLeft s' < workLeft s)%nat -> _sy s <> SyEof ->
  (tokensLeft s' < tokensLeft s)%nat.
Proof.
  unfold workLeft, tokensLeft. intros H Hs. rewrite (syIs_false _ _ Hs) in *.
  destruct (syIs (_sy s') SyEof); lia.
Qed.

Lemma steps_tokensLeft s s' :
  steps s s' -> _sy s <> SyEof -> (tokensLeft s' < tokensLeft s)%nat.
Proof. intros [_ H] Hs. apply workLeft_tokensLeft; auto. Qed.

Lemma steps_charsLeft s s' :
  steps s s' -> _sy s' <> SyEof -> (charsLeft s' < charsLeft s)%nat.
Proof.
  intros [Hm H] Hs'.
  assert (Hlt : (workLeft s' < workLeft s)%nat).
  { destruct Hm as [?|[_ E]]; [assumption|]. apply H. congruence. }
  unfold workLeft in Hlt. rewrite (syIs_false _ _ Hs') in Hlt.
  destruct (syIs (_sy s) SyEof); lia.
Qed.

Lemma returns_while_steps cond (body : M unit) :
  (forall s, cond s = true -> _sy s <> SyEof) ->
  returns body -> pres steps body -> returns (while cond body).
Proof.
  intros Hc Hb Hs. apply (returns_while tokensLeft tokensLeft_fuel); [exact Hb|].
  intros s u s' Hcs H. apply steps_tokensLeft; [eapply Hs; exact H|apply Hc, Hcs].
Qed.

Lemma returns_whileAcc_steps {A} cond (body : A -> M A) a :
  (forall s, cond s = true -> _sy s <> SyEof) ->
  (forall a, returns (body a)) -> (forall a, pres steps (body a)) ->
  returns (whileAcc cond body a).
Proof.
  intros Hc Hb Hs. apply (returns_whileAcc tokensLeft tokensLeft_fuel); [exact Hb|].
  intros a0 s a' s' Hcs H. apply steps_tokensLeft; [eapply Hs; exact H|apply Hc, Hcs].
Qed.

Lemma returns_whileBreak_steps cond (body : M bool) :
  (forall s, cond s = true -> _sy s <> SyEof) ->
  returns body -> presWhen id steps body -> returns (whileBreak cond body).
Proof.
  intros Hc Hb Hs. apply (returns_whileBreak tokensLeft tokensLeft_fuel); [exact Hb|].
  intros s s' Hcs H.
  apply steps_tokensLeft; [eapply Hs; [exact H|reflexivity]|apply Hc, Hcs].
Qed.

Lemma returns_doWhile_steps {A} (body : A -> M A) cond a :
  (forall s, cond s = true -> _sy s <> SyEof) ->
  (forall a, returns (body a)) -> (forall a, pres steps (body a)) ->
  returns (doWhile body cond a).
Proof.
  intros Hc Hb Hs. apply (returns_doWhile charsLeft charsLeft_fuel); [exact Hb|].
  intros a0 s a' s' H Hcs. apply steps_charsLeft; [eapply Hs; exact H|apply Hc, Hcs].
Qed.

Lemma bind_returns_at {A B} (m : M A) (k : A -> M B) s :
  m s <> OutOfFuel -> (forall a, returns (k a)) -> bind m k s <> OutOfFuel.
Proof.
  intros Hm Hk H. unfold bind in H. destruct (m s) as [a s1| |] eqn:E.
  - exact (Hk a s1 H).
  - discriminate.
  - exact (Hm eq_refl).
Qed.

Ltac not_eof :=
  let s := fresh "s" in let Hc := fresh "Hc" in let E := fresh "E" in
  intros s Hc E; cbv beta in Hc; rewrite E in Hc; vm_compute in Hc;
  discriminate Hc.

Ltac term_step :=
  lazymatch goal with
  | |- returns (while _ _) =>
      apply returns_while_steps; [not_eof| |solve [steps_auto]]
  | |- returns (whileAcc _ _ _) =>
      apply returns_whileAcc_steps; [not_eof|intros|intros; solve [steps_auto]]
  | |- returns (whileBreak _ _) =>
      apply returns_whileBreak_steps; [not_eof| |solve [steps_auto]]
  | |- returns (doWhile _ _ _) =>
      apply returns_doWhile_steps; [not_eof|intros|intros; solve [steps_auto]]
  | |- _ => returns_step
  end.

Ltac term_auto := repeat term_step.
Ltac term_unfold f := unfold f; cbv zeta; term_auto.

(** The object store and the document. *)
Lemma getTrack_returns i : returns (getTrack i).
Proof. term_unfold getTrack. Qed.
#[global] Hint Resolve getTrack_returns : returns.

Lemma modTrack_returns i f : returns (modTrack i f).
Proof. term_unfold modTrack. Qed.
#[global] Hint Resolve modTrack_returns : returns.

Lemma getStaff_returns r : returns (getStaff r).
Proof. term_unfold getStaff. Qed.
#[global] Hint Resolve getStaff_returns : returns.

Lemma modStaff_returns r f : returns (modStaff r f).
Proof. term_unfold modStaff. Qed.
#[global] Hint Resolve modStaff_returns : returns.

Lemma getBar_returns r : returns (getBar r).
Proof. term_unfold getBar. Qed.
#[global] Hint Resolve getBar_returns : returns.

Lemma modBar_returns r f : returns (modBar r f).
Proof. term_unfold modBar. Qed.
#[global] Hint Resolve modBar_returns : returns.

Lemma getVoice_returns r : returns (getVoice r).
Proof. term_unfold getVoice. Qed.
#[global] Hint Resolve getVoice_returns : returns.

Lemma modVoice_returns r f : returns (modVoice r f).
Proof. term_unfold modVoice. Qed.

Lemma getMasterBar_returns i : returns (getMasterBar i).
Proof. term_unfold getMasterBar. Qed.
#[global] Hint Resolve modVoice_returns getMasterBar_returns : returns.

Lemma modMasterBar_returns i f : returns (modMasterBar i f).
Proof. term_unfold modMasterBar. Qed.

Lemma modScore_returns f : returns (modScore f).
Proof. term_unfold modScore. Qed.

Lemma getBeat_returns r : returns (getBeat r).
Proof. term_unfold getBeat. Qed.

Lemma getNote_returns r : returns (getNote r).
Proof. term_unfold getNote. Qed.
#[global] Hint Resolve modMasterBar_returns modScore_returns getBeat_returns
  getNote_returns : returns.

Lemma modBeat_returns r f : returns (modBeat r f).
Proof. term_unfold modBeat. Qed.

Lemma modNote_returns r f : returns (modNote r f).
Proof. term_unfold modNote. Qed.

Lemma newBeat_returns : returns newBeat.
Proof. term_unfold newBeat. Qed.

Lemma newNote_returns : returns newNote.
Proof. term_unfold newNote. Qed.

Lemma masterBarOf_returns r : returns (masterBarOf r).
Proof. term_unfold masterBarOf. Qed.
#[global] Hint Resolve modBeat_returns modNote_returns newBeat_returns
  newNote_returns masterBarOf_returns : returns.

Lemma Score_addTrack_returns t : returns (Score_addTrack t).
Proof. term_unfold Score_addTrack. Qed.

Lemma Score_addMasterBar_returns m : returns (Score_addMasterBar m).
Proof. term_unfold Score_addMasterBar. Qed.

Lemma Staff_addBar_returns r b : returns (Staff_addBar r b).
Proof. term_unfold Staff_addBar. Qed.

Lemma Bar_addVoice_returns r v : returns (Bar_addVoice r v).
Proof. term_unfold Bar_addVoice. Qed.

Lemma Voice_addBeat_returns v b : returns (Voice_addBeat v b).
Proof. term_unfold Voice_addBeat. Qed.

Lemma Beat_addNote_returns b n : returns (Beat_addNote b n).
Proof. term_unfold Beat_addNote. Qed.

Lemma setArticulationName_returns name value : returns (setArticulationName name value).
Proof. term_unfold setArticulationName. Qed.

Lemma syString_returns : returns syString.
Proof. term_unfold syString. Qed.

Lemma syNumber_returns : returns syNumber.
Proof. term_unfold syNumber. Qed.

Lemma syTuning_returns : returns syTuning.
Proof. term_unfold syTuning. Qed.

#[global] Hint Resolve Score_addTrack_returns Score_addMasterBar_returns
  Staff_addBar_returns Bar_addVoice_returns Voice_addBeat_returns
  Beat_addNote_returns setArticulationName_returns syString_returns
  syNumber_returns syTuning_returns : returns.

Lemma newTrack_returns : returns newTrack.
Proof. term_unfold newTrack. Qed.
#[global] Hint Resolve newTrack_returns : returns.

Lemma createDefaultScore_returns : returns createDefaultScore.
Proof. term_unfold createDefaultScore. Qed.

Lemma newBar_returns r : returns (newBar r).
Proof. term_unfold newBar. Qed.

Lemma Note_stringTuning_returns note : returns (Note_stringTuning note).
Proof. term_unfold Note_stringTuning. Qed.

Lemma setAllowTuning_returns : returns setAllowTuning.
Proof. term_unfold setAllowTuning. Qed.

Lemma dropLastBeat_returns v : returns (dropLastBeat v).
Proof. term_unfold dropLastBeat. Qed.

Lemma cloneNote_returns clone original : returns (cloneNote clone original).
Proof. term_unfold cloneNote. Qed.
#[global] Hint Resolve cloneNote_returns : returns.

Lemma BeatCloner_clone_returns original : returns (BeatCloner_clone original).
Proof. term_unfold BeatCloner_clone. Qed.
#[global] Hint Resolve BeatCloner_clone_returns : returns.

Lemma repeatBeat_returns v b n : returns (repeatBeat v b n).
Proof. term_unfold repeatBeat. Qed.

Lemma detectTuning_returns : returns detectTuning.
Proof. term_unfold detectTuning. Qed.

Lemma addEmptyBeat_returns v : returns (addEmptyBeat v).
Proof. term_unfold addEmptyBeat. Qed.

#[global] Hint Resolve createDefaultScore_returns newBar_returns
  Note_stringTuning_returns setAllowTuning_returns dropLastBeat_returns
  repeatBeat_returns detectTuning_returns addEmptyBeat_returns : returns.

Section ParserReturns.
Context (ext : Externals).

Lemma readTempoAutomation_returns : returns (readTempoAutomation ext).
Proof. term_unfold readTempoAutomation. Qed.
Hint Resolve readTempoAutomation_returns : returns.

Lemma applyAlternateEnding_returns master : returns (applyAlternateEnding ext master).
Proof. term_unfold applyAlternateEnding. Qed.
Hint Resolve applyAlternateEnding_returns : returns.

Lemma chordProperty_returns chord : returns (chordProperty ext chord).
Proof. term_unfold chordProperty. Qed.
Hint Resolve chordProperty_returns : returns.

Lemma chordProperties_returns chord : returns (chordProperties ext chord).
Proof. term_unfold chordProperties. Qed.
Hint Resolve chordProperties_returns : returns.

Lemma readStaffTuning_returns sy : returns (readStaffTuning ext sy).
Proof. term_unfold readStaffTuning. Qed.
Hint Resolve readStaffTuning_returns : returns.

Lemma handleStaffMeta_returns : returns (handleStaffMeta ext).
Proof. term_unfold handleStaffMeta. Qed.
Hint Resolve handleStaffMeta_returns : returns.

Lemma metaDataStep_returns anyMeta : returns (metaDataStep ext anyMeta).
Proof. term_unfold metaDataStep. Qed.

Lemma metaDataStep_true anyMeta s a s' :
  metaDataStep ext anyMeta s = Ok (true, a) s' -> _sy s <> SyEof.
Proof.
  intros H E. unfold metaDataStep in H. rewrite bind_gets_run, E in H.
  discriminate.
Qed.

Lemma metaData_returns : returns (metaData ext).
Proof.
  intros s. unfold metaData. rewrite bind_gets_run.
  apply bind_returns_at; [|intros; term_auto].
  apply (loopM_returns tokensLeft); [apply metaDataStep_returns| |apply tokensLeft_fuel].
  intros a s0 a' s1 H. apply steps_tokensLeft.
  - eapply metaDataStep_steps; [exact H|reflexivity].
  - eapply metaDataStep_true. exact H.
Qed.

Lemma staffProperties_returns : returns (staffProperties ext).
Proof. term_unfold staffProperties. Qed.
Hint Resolve staffProperties_returns : returns.

Lemma trackMeta_returns : returns (trackMeta ext).
Proof. term_unfold trackMeta. Qed.

Lemma staffMeta_returns : returns (staffMeta ext).
Proof. term_unfold staffMeta. Qed.
Hint Resolve trackMeta_returns staffMeta_returns : returns.

Lemma trackStaffMeta_returns : returns (trackStaffMeta ext).
Proof. term_unfold trackStaffMeta. Qed.

Lemma readPoints_returns exact nonterm add :
  (forall p, returns (add p)) -> (forall p, pres move (add p)) ->
  returns (readPoints ext exact nonterm add).
Proof. intros Hr Hm. term_unfold readPoints. Qed.

Lemma whammyEffect_returns exact beat : returns (whammyEffect ext exact beat).
Proof.
  term_unfold whammyEffect.
  apply readPoints_returns; intros p; [term_auto|pres_leaf].
Qed.
Hint Resolve whammyEffect_returns : returns.

Lemma applyBeatEffect_returns beat : returns (applyBeatEffect ext beat).
Proof. term_unfold applyBeatEffect. Qed.
Hint Resolve applyBeatEffect_returns : returns.

Lemma beatEffects_returns beat : returns (beatEffects ext beat).
Proof. term_unfold beatEffects. Qed.

Lemma beatDuration_returns : returns (beatDuration ext).
Proof. term_unfold beatDuration. Qed.

Lemma bendEffect_returns exact note : returns (bendEffect ext exact note).
Proof.
  term_unfold bendEffect.
  apply readPoints_returns; intros p; [term_auto|pres_leaf].
Qed.

Lemma fingerEffect_returns set note : returns (fingerEffect ext set note).
Proof. term_unfold fingerEffect. Qed.
Hint Resolve beatEffects_returns beatDuration_returns bendEffect_returns
  fingerEffect_returns : returns.

Lemma noteEffect_returns note : returns (noteEffect ext note).
Proof. term_unfold noteEffect. Qed.
Hint Resolve noteEffect_returns : returns.

Lemma noteEffects_returns note : returns (noteEffects ext note).
Proof. term_unfold noteEffects. Qed.

Lemma noteHead_returns st : returns (noteHead ext st).
Proof. term_unfold noteHead. Qed.
Hint Resolve noteEffects_returns noteHead_returns : returns.

Lemma note_returns beat : returns (note ext beat).
Proof. term_unfold note. Qed.
Hint Resolve note_returns : returns.

Lemma beatNotes_returns v b : returns (beatNotes ext v b).
Proof. term_unfold beatNotes. Qed.

Lemma beatMultiplier_returns : returns (beatMultiplier ext).
Proof. term_unfold beatMultiplier. Qed.
Hint Resolve beatNotes_returns beatMultiplier_returns : returns.

Lemma beatFinish_returns v b : returns (beatFinish ext v b).
Proof. term_unfold beatFinish. Qed.
Hint Resolve beatFinish_returns : returns.

Lemma beat_returns v : returns (beat ext v).
Proof. term_unfold beat. Qed.

Lemma alternateEndings_returns master : returns (alternateEndings ext master).
Proof. term_unfold alternateEndings. Qed.
Hint Resolve beat_returns alternateEndings_returns : returns.

Lemma barMetaStep_returns bar : returns (barMetaStep ext bar).
Proof. term_unfold barMetaStep. Qed.
Hint Resolve barMetaStep_returns : returns.

Lemma barMetaLoop_returns bar : returns (barMetaLoop ext bar).
Proof. term_unfold barMetaLoop. Qed.
Hint Resolve barMetaLoop_returns : returns.

Lemma barMeta_returns bar : returns (barMeta ext bar).
Proof. term_unfold barMeta. Qed.
Hint Resolve barMeta_returns trackStaffMeta_returns : returns.
End ParserReturns.

#[global] Hint Resolve readTempoAutomation_returns applyAlternateEnding_returns
  chordProperty_returns chordProperties_returns readStaffTuning_returns
  handleStaffMeta_returns metaData_returns staffProperties_returns
  trackMeta_returns staffMeta_returns trackStaffMeta_returns
  whammyEffect_returns applyBeatEffect_returns beatEffects_returns
  beatDuration_returns bendEffect_returns fingerEffect_returns
  noteEffect_returns noteEffects_returns noteHead_returns note_returns
  beatNotes_returns beatMultiplier_returns beatFinish_returns beat_returns
  alternateEndings_returns barMetaStep_returns barMetaLoop_returns
  barMeta_returns : returns.

(** *** Bars, padding, and the whole parse *)

Lemma returns_fuel_loop {A B} (step : A -> M (bool * A)) a (k : A -> M B) :
  (forall s, loopM (fuelOf s) step a s <> OutOfFuel) ->
  (forall r, returns (k r)) ->
  returns (fuel <- gets fuelOf ;; r <- loopM fuel step a ;; k r).
Proof.
  intros Hl Hk s. rewrite bind_gets_run. apply bind_returns_at; [apply Hl|exact Hk].
Qed.

Section BarsReturn.
Context (ext : Externals).

Lemma barMetaLoop_metaSteps bar :
  pres (stepsIf (fun sy => sy = SyMetaCommand)) (barMetaLoop ext bar).
Proof.
  intros s a s' H. split; [exact (barMetaLoop_move ext bar _ _ _ H)|].
  intros Hsy. unfold barMetaLoop, whileAcc, fuelOf in H. rewrite loopM_S in H.
  rewrite bind_assoc, bind_gets_run, Hsy in H.
  change (syIs SyMetaCommand SyMetaCommand) with true in H. cbv iota in H.
  rewrite !bind_assoc in H. apply bind_Ok in H as (u & s1 & H1 & H2).
  rewrite !bind_ret_run in H2. cbn [fst snd] in H2.
  destruct (barMetaStep_steps ext bar _ _ _ H1) as [_ Hs].
  assert (Hm : move s1 s').
  { revert H2. apply pres_loopM; [typeclasses eauto|]. intros a0. pres_auto. }
  apply move_le in Hm.
  assert (Hlt : (workLeft s1 < workLeft s)%nat).
  { apply Hs. rewrite Hsy. discriminate. }
  lia.
Qed.

Lemma barMeta_metaSteps bar :
  pres (stepsIf (fun sy => sy = SyMetaCommand)) (barMeta ext bar).
Proof.
  unfold barMeta. cbv zeta. apply pres_of_presWhen. apply presWhen_bind_l.
  - apply barMetaLoop_metaSteps.
  - intros anyMeta. pres_auto.
Qed.

(** A bar that starts on a meta command reads on. *)
Lemma bar_metaSteps : pres (stepsIf (fun sy => sy = SyMetaCommand)) (bar ext).
Proof.
  unfold bar. apply pres_of_presWhen.
  do 6 (apply presWhen_bind_r; [pres_auto|intros]).
  apply presWhen_bind_l; [apply barMeta_metaSteps|].
  intros anyBarMeta.
  apply pres_bind; [typeclasses eauto|pres_auto|]. intros u. pres_auto.
Qed.

Lemma bar_returns : returns (bar ext).
Proof.
  unfold bar. cbv zeta. do 9 (apply returns_bind; [term_auto|intros]).
  apply returns_fuel_loop; [|intros; term_auto].
  intros s. apply (loopM_returns tokensLeft); [| |apply tokensLeft_fuel].
  - intros b. term_auto.
  - intros b s0 b' s1 H. rewrite bind_gets_run in H.
    destruct (negb (syIs (_sy s0) SyPipe) && negb (syIs (_sy s0) SyEof)) eqn:E;
      [|discriminate].
    apply bind_Ok in H as ([] & s2 & H1 & H2); [|discriminate].
    injection H2 as _ <-.
    apply steps_tokensLeft; [eapply beat_steps; [exact H1|reflexivity]|].
    intros E'. rewrite E' in E. vm_compute in E. discriminate.
Qed.

Lemma bars_returns : returns (bars ext).
Proof.
  unfold bars. apply returns_bind; [apply bar_returns|]. intros anyData.
  apply returns_bind; [|intros; term_auto].
  apply (returns_whileBreak tokensLeft tokensLeft_fuel).
  - term_auto; apply bar_returns.
  - intros s s' Hc H.
    assert (Hs : _sy s <> SyEof).
    { intros E. rewrite E in Hc. vm_compute in Hc. discriminate. }
    rewrite bind_gets_run in H. apply workLeft_tokensLeft; [|exact Hs].
    destruct (syIs (_sy s) SyPipe) eqn:E1.
    + apply bind_Ok in H as (sy & s1 & H1 & H).
      apply bind_Ok in H as (a & s2 & H2 & H). injection H as <-.
      destruct (newSy_steps ext _ _ _ H1) as [_ Hlt]. specialize (Hlt Hs).
      pose proof (move_le _ _ (bar_move ext _ _ _ H2)). lia.
    + destruct (syIs (_sy s) SyMetaCommand) eqn:E2; [|discriminate].
      apply bind_Ok in H as (a & s2 & H2 & H). injection H as <-.
      destruct (bar_metaSteps _ _ _ H2) as [_ Hlt]. apply Hlt.
      unfold syIs in E2. apply bool_decide_eq_true_1 in E2. exact E2.
Qed.
End BarsReturn.

(** Padding: every round adds a bar to a staff that is short of one. *)
Lemma padStaff_returns r : returns (padStaff r).
Proof.
  intros s. unfold padStaff. rewrite bind_gets_run.
  apply (loopM_returns
           (fun s => (masterBarCount s - default 0%nat (countAt r s))%nat)).
  - intros []. term_auto.
  - intros [] s0 [] s1 H.
    apply bind_Ok in H as (st & s2 & H1 & H).
    pose proof (getStaff_countAt _ _ _ _ H1) as Hc. apply getStaff_Ok in H1 as [-> _].
    rewrite bind_gets_run in H. fold (masterBarCount s0) in H.
    destruct (Nat.ltb (length (Staff.bars st)) (masterBarCount s0)) eqn:E;
      [|discriminate].
    apply Nat.ltb_lt in E.
    apply bind_Ok in H as (bar & s3 & H2 & H).
    apply bind_Ok in H as (u & s4 & H3 & H). injection H as <-.
    apply newBar_Ok in H2 as (n & Hn & _ & Hbc & Hm & _).
    rewrite Hn in Hc. injection Hc as ->.
    destruct (addEmptyBeat_quiet _ _ _ _ H3) as (Hsh & _).
    apply shape_parts in Hsh as [Hbc4 Hm4].
    assert (Hc4 : countAt r s4 = Some (S (length (Staff.bars st)))).
    { unfold countAt. rewrite Hbc4, Hbc.
      unfold countAt in Hn. rewrite (countAt_alter r r _ _ Hn).
      rewrite decide_True by reflexivity. reflexivity. }
    rewrite Hc4, Hn, Hm4, Hm. cbn. lia.
  - unfold masterBarCount. lia.
Qed.

#[global] Hint Resolve padStaff_returns : returns.

Lemma consolidate_returns : returns consolidate.
Proof. term_unfold consolidate. Qed.

Lemma asUnsupportedFormat_returns {A} (m : M A) :
  returns m -> returns (asUnsupportedFormat m).
Proof.
  intros Hm s H. unfold asUnsupportedFormat in H.
  destruct (m s) as [a s1|[]|] eqn:E; try discriminate. exact (Hm s E).
Qed.

Lemma readScore_returns ext : returns (readScore ext).
Proof.
  unfold readScore. apply asUnsupportedFormat_returns.
  pose proof (bars_returns ext). pose proof consolidate_returns.
  term_auto.
Qed.

Lemma asUnsupportedFormat_wraps {A} (m : M A) s e :
  asUnsupportedFormat m s <> Throw (ExAlphaTex e).
Proof.
  intros H. unfold asUnsupportedFormat in H.
  destruct (m s) as [a s1|[]|]; discriminate.
Qed.

Lemma readScore_wraps ext s e : readScore ext s <> Throw (ExAlphaTex e).
Proof. unfold readScore. apply asUnsupportedFormat_wraps. Qed.


(** Reading the next terminal always comes to an end: [newSy] returns a
    terminal or raises an error, in whatever state it is called. *)
Theorem newSy_returns_or_raises (ext : Externals) (s : Importer) :
  newSy ext s <> OutOfFuel.
Proof. apply newSy_returns. Qed.

(** ** The first terminal of a text *)

Lemma nextChar_total s :
  exists c s', nextChar s = Ok c s' /\ _sy s' = _sy s /\ _input s' = _input s.
Proof.
  unfold nextChar. destruct (String.get _ _) as [x|].
  - destruct (charCode x =? 10); do 2 eexists; (split; [reflexivity|]);
      split; reflexivity.
  - do 2 eexists. split; [reflexivity|]. split; reflexivity.
Qed.

Ltac eval_tests :=
  repeat match goal with
    | |- context [Z.eqb ?a ?b] =>
        let v := eval vm_compute in (Z.eqb a b) in
        lazymatch v with
        | true => change (Z.eqb a b) with true
        | false => change (Z.eqb a b) with false
        end
    | |- context [isWhiteSpace ?a] =>
        let v := eval vm_compute in (isWhiteSpace a) in
        lazymatch v with
        | true => change (isWhiteSpace a) with true
        | false => change (isWhiteSpace a) with false
        end
    end;
  cbv iota; cbn [orb andb negb].

Section FirstTerminal.
Context (ext : Externals).

Lemma newSy_lowerThan s : _ch s = 0x3c -> exists s', newSy ext s = Ok SyLowerThan s'.
Proof.
  intros Hch. unfold newSy, saveValidSpot, setSy. rewrite !bind_modify_run.
  set (s0 := set__sy SyNo _).
  assert (Hch0 : _ch s0 = 0x3c) by exact Hch.
  destruct (nextChar_total (set__sy SyLowerThan s0)) as (c & s1 & H1 & Hsy & _).
  exists s1.
  assert (Hstep : newSyStep ext s0 = Ok tt s1).
  { unfold newSyStep. rewrite bind_gets_run, Hch0. eval_tests.
    unfold single, setSy. rewrite bind_modify_run, (bind_run _ _ _ _ _ H1).
    reflexivity. }
  assert (Hloop : while (fun s => syIs (_sy s) SyNo) (newSyStep ext) s0 = Ok tt s1).
  { unfold while, fuelOf. rewrite loopM_S, bind_assoc, bind_gets_run.
    change (syIs (_sy s0) SyNo) with true. cbv iota.
    rewrite bind_assoc, (bind_run _ _ _ _ _ Hstep), !bind_ret_run. cbn [fst snd].
    rewrite loopM_S, bind_assoc, bind_gets_run, Hsy.
    change (syIs (_sy (set__sy SyLowerThan s0)) SyNo) with false. reflexivity. }
  rewrite (bind_run _ _ _ _ _ Hloop). unfold gets. rewrite Hsy. reflexivity.
Qed.

Lemma nextChar_get s c s' :
  nextChar s = Ok c s' ->
  (exists x, String.get (_curChPos s) (_input s) = Some x /\ c = charCode x)
  \/ c = Eof.
Proof.
  unfold nextChar. destruct (String.get _ _) as [x|]; intros H; injection H as <- _;
    eauto.
Qed.

Lemma isWhiteSpace_not_Eof ch : isWhiteSpace ch = true -> ch <> Eof.
Proof. intros H E. subst ch. discriminate. Qed.

(** Over blanks the loop of [newSy] runs to the end of the input. *)
Lemma blank_loop fuel s :
  _sy s = SyNo -> blankAhead s -> (charsLeft s + 2 <= fuel)%nat ->
  exists s',
    loopM fuel
      (fun _ => c <- gets (fun s => syIs (_sy s) SyNo) ;;
                if c then newSyStep ext ;; ret (true, tt) else ret (false, tt))
      tt s = Ok tt s' /\ _sy s' = SyEof.
Proof.
  revert s. induction fuel as [|fuel IH]; intros s Hsy [Hch Hrest] Hf; [lia|].
  rewrite loopM_S, bind_assoc, bind_gets_run, Hsy.
  change (syIs SyNo SyNo) with true. cbv iota. rewrite bind_assoc.
  destruct (Z.eq_dec (_ch s) Eof) as [E|E].
  - rewrite (bind_run _ _ _ _ _ (newSyStep_Eof ext s E)), !bind_ret_run. cbn [fst snd].
    destruct fuel as [|fuel]; [lia|]. rewrite loopM_S, bind_assoc, bind_gets_run.
    change (syIs (_sy (set__sy SyEof s)) SyNo) with false. eexists.
    split; reflexivity.
  - destruct Hch as [Hch|Hch]; [contradiction|].
    destruct (nextChar_total s) as (c & s1 & H1 & Hsy1 & Hin1).
    assert (Hstep : newSyStep ext s
                    = Ok tt (set__lastValidSpot (_curChPos s1, _line s1, _col s1) s1)).
    { unfold newSyStep. rewrite bind_gets_run.
      pose proof E as E'. apply Z.eqb_neq in E'. rewrite E', Hch. unfold saveValidSpot.
      rewrite (bind_run _ _ _ _ _ H1). reflexivity. }
    rewrite (bind_run _ _ _ _ _ Hstep), !bind_ret_run. cbn [fst snd].
    apply IH.
    + cbn. congruence.
    + pose proof (nextChar_Ok _ _ _ H1) as (_ & _ & Hc & Hpos).
      split.
      * cbn [_ch set__lastValidSpot]. rewrite Hc.
        destruct (nextChar_get _ _ _ H1) as [(x & Hx & Ec)|Ec]; rewrite Ec;
          [|left; reflexivity].
        right. eapply Hrest; [|exact Hx]. lia.
      * intros n x Hn Hx. cbn [_curChPos _input set__lastValidSpot] in *.
        rewrite Hin1 in Hx. eapply Hrest; [|exact Hx].
        destruct Hpos as [[_ Ep]|(_ & Ep & _)]; rewrite Ep in Hn; lia.
    + pose proof (nextChar_eats _ _ _ H1 E) as Hlt.
      change (charsLeft (set__lastValidSpot (_curChPos s1, _line s1, _col s1) s1))
        with (charsLeft s1).
      lia.
Qed.

Lemma newSy_blank s : blankAhead s -> exists s', newSy ext s = Ok SyEof s'.
Proof.
  intros Hb. unfold newSy, saveValidSpot, setSy. rewrite !bind_modify_run.
  set (s0 := set__sy SyNo _).
  destruct (blank_loop (fuelOf s0) s0) as (s1 & H1 & Hsy).
  - reflexivity.
  - exact Hb.
  - unfold charsLeft, fuelOf, unread. destruct (_ch s0 =? Eof); lia.
  - assert (Hw : while (fun s => syIs (_sy s) SyNo) (newSyStep ext) s0 = Ok tt s1)
      by exact H1.
    exists s1. rewrite (bind_run _ _ _ _ _ Hw). unfold gets. rewrite Hsy. reflexivity.
Qed.
End FirstTerminal.

Lemma createDefaultScore_run s :
  createDefaultScore s = Ok tt (stateAfter createDefaultScore s).
Proof. reflexivity. Qed.

Lemma get_charsOf n tex c : String.get n tex = Some c -> c ∈ charsOf tex.
Proof.
  revert n. induction tex as [|x r IH]; intros n H; [destruct n; discriminate|].
  unfold charsOf. cbn [list_ascii_of_string]. destruct n as [|n]; cbn in H.
  - injection H as ->. apply list_elem_of_here.
  - apply list_elem_of_further. eapply IH. exact H.
Qed.

(** A text that starts with [<] is not read as alphaTex, whatever follows:
    the parse stops at the first terminal with the error that asks whether
    the text was meant to be XML. *)
Theorem importTex_rejects_leading_lower_than (ext : Externals) (rest : string) :
  importTex ext (String "<" rest)
  = Throw (ExUnsupportedFormat "Unknown start sign '<' (meant to import as XML?)").
Proof.
  rewrite importTex_run. unfold readScore, asUnsupportedFormat, saveValidSpot.
  rewrite !bind_modify_run, (bind_run _ _ _ _ _ (createDefaultScore_run _)).
  rewrite !bind_modify_run.
  match goal with |- context [bind nextChar _ ?s] => set (s1 := s) end.
  destruct (nextChar_total s1) as (c & s2 & H1 & _).
  pose proof (nextChar_Ok _ _ _ H1) as (_ & _ & Hc & _).
  assert (Ec : c = 0x3c).
  { destruct (nextChar_get _ _ _ H1) as [(x & Hx & ->)|E].
    - change (Some "<"%char = Some x) in Hx. injection Hx as <-. reflexivity.
    - exfalso. unfold nextChar in H1.
      change (String.get (_curChPos s1) (_input s1)) with (Some "<"%char) in H1.
      rewrite E in H1. discriminate. }
  rewrite Ec in Hc.
  destruct (newSy_lowerThan ext s2 Hc) as (s3 & H3).
  rewrite (bind_run _ _ _ _ _ H1), (bind_run _ _ _ _ _ H3).
  reflexivity.
Qed.

(** A text without any terminal, empty or made of blanks only, is
    rejected with the error [Unexpected end of file]. *)
Theorem importTex_rejects_blank_text (ext : Externals) (tex : string) :
  blank tex ->
  importTex ext tex = Throw (ExUnsupportedFormat "Unexpected end of file").
Proof.
  intros Hb. rewrite importTex_run. unfold readScore, asUnsupportedFormat, saveValidSpot.
  rewrite !bind_modify_run, (bind_run _ _ _ _ _ (createDefaultScore_run _)).
  rewrite !bind_modify_run.
  match goal with |- context [bind nextChar _ ?s] => set (s1 := s) end.
  assert (Hin : _input s1 = tex) by reflexivity.
  destruct (nextChar_total s1) as (c & s2 & H1 & _ & Hin2).
  pose proof (nextChar_Ok _ _ _ H1) as (_ & _ & Hc & _).
  assert (Hall : forall n x, String.get n tex = Some x -> isWhiteSpace (charCode x) = true).
  { intros n x Hx. apply get_charsOf in Hx.
    exact (proj1 (Forall_forall _ _) Hb x Hx). }
  assert (Hb2 : blankAhead s2).
  { split.
    - rewrite Hc. destruct (nextChar_get _ _ _ H1) as [(x & Hx & ->)| ->]; [|auto].
      right. rewrite Hin in Hx. eapply Hall, Hx.
    - intros n x _ Hx. rewrite Hin2, Hin in Hx. eapply Hall, Hx. }
  destruct (newSy_blank ext s2 Hb2) as (s3 & H3).
  rewrite (bind_run _ _ _ _ _ H1), (bind_run _ _ _ _ _ H3).
  reflexivity.
Qed.

(** The empty text and a text of two blanks and a line break. *)
Lemma importTex_rejects_blank_text_witness :
  importTex sampleExternals "" = Throw (ExUnsupportedFormat "Unexpected end of file")
  /\ importTex sampleExternals (String " " (String " " (String "010" EmptyString)))
     = Throw (ExUnsupportedFormat "Unexpected end of file").
Proof.
  split; apply importTex_rejects_blank_text; unfold blank, charsOf; simpl;
    repeat constructor.
Defined.

(** ** What reading a terminal does *)

(** [newSy] answers the terminal it has stored in [_sy], which is never
    the placeholder [No].  It changes nothing but the fields of the lexer;
    it reads forwards and stays within the input; where a character is
    left it takes at least one, and where none is left the terminal is the
    end of the file. *)
Theorem newSy_reads_forwards (ext : Externals) (s s' : Importer) (sy : AlphaTexSymbols) :
  newSy ext s = Ok sy s' ->
  _sy s' = sy /\ sy <> SyNo
  /\ beyondLexer s' = beyondLexer s
  /\ (_curChPos s <= _curChPos s')%nat
  /\ ((_curChPos s <= String.length (_input s))%nat ->
      (_curChPos s' <= String.length (_input s))%nat)
  /\ (_ch s <> Eof -> (charsLeft s' < charsLeft s)%nat)
  /\ (_ch s = Eof -> sy = SyEof).
Proof.
  intros H. pose proof (newSy_lexOnly ext _ _ _ H) as Hl.
  apply newSy_Ok in H as (E & Hno & (_ & Hp & Hb & _) & He & Hend).
  repeat split; try assumption. intros Hch. apply (Hend Hch).
Qed.

(** The terminals [3], [.] and the end of the text [3.]. *)
Lemma newSy_reads_forwards_witness :
  _sy (stateAfter (newSy sampleExternals) (atFirstSymbol "3.")) = SyDot
  /\ SyDot <> SyNo
  /\ beyondLexer (stateAfter (newSy sampleExternals) (atFirstSymbol "3."))
     = beyondLexer (atFirstSymbol "3.")
  /\ (_curChPos (atFirstSymbol "3.")
      <= _curChPos (stateAfter (newSy sampleExternals) (atFirstSymbol "3.")))%nat
  /\ ((_curChPos (atFirstSymbol "3.") <= String.length (_input (atFirstSymbol "3.")))%nat ->
      (_curChPos (stateAfter (newSy sampleExternals) (atFirstSymbol "3."))
       <= String.length (_input (atFirstSymbol "3.")))%nat)
  /\ (_ch (atFirstSymbol "3.") <> Eof ->
      (charsLeft (stateAfter (newSy sampleExternals) (atFirstSymbol "3."))
       < charsLeft (atFirstSymbol "3."))%nat)
  /\ (_ch (atFirstSymbol "3.") = Eof -> SyDot = SyEof).
Proof.
  apply (newSy_reads_forwards sampleExternals). vm_compute. reflexivity.
Defined.

(** ** Alternate endings within the mask *)

#[global] Instance keepsEndings_preorder master : PreOrder (keepsEndings master).
Proof.
  split.
  - intros s m Hm. exists m. auto.
  - intros s1 s2 s3 H1 H2 m Hm.
    destruct (H1 m Hm) as (m1 & Hm1 & Hk1). destruct (H2 m1 Hm1) as (m2 & Hm2 & Hk2).
    exists m2. split; [exact Hm2|]. intros k Hk Hb. auto.
Qed.

Lemma lexOnly_keepsEndings master s s' : lexOnly s s' -> keepsEndings master s s'.
Proof.
  intros H m Hm. exists m. unfold lexOnly, beyondLexer in H.
  assert (E : _score s' = _score s) by congruence.
  rewrite E. auto.
Qed.

Lemma pres_lexOnly_keepsEndings {A} master (m : M A) :
  pres lexOnly m -> pres (keepsEndings master) m.
Proof. apply pres_weaken, lexOnly_keepsEndings. Qed.

#[global] Hint Resolve pres_lexOnly_keepsEndings : pres.

Lemma or32_keeps a b k : 0 <= k < 32 -> Z.testbit a k = true -> Z.testbit (or32 a b) k = true.
Proof.
  intros Hk Ha. unfold or32.
  rewrite testbit_wrap32, Z.lor_spec, !testbit_wrap32 by exact Hk.
  rewrite Ha. reflexivity.
Qed.

Section Endings.
Context (ext : Externals).

Lemma applyAlternateEnding_keeps master :
  pres (keepsEndings master) (applyAlternateEnding ext master).
Proof.
  unfold applyAlternateEnding. pres_auto.
  unfold modMasterBar. pres_auto. apply pres_modify. intros s m Hm.
  cbn [_score set__score].
  change (Score.masterBars (Score.set_masterBars ?l _)) with l.
  rewrite list_lookup_alter_eq, Hm. cbn. eexists. split; [reflexivity|].
  intros k Hk Hb. cbn [MasterBar.alternateEndings MasterBar.set_alternateEndings].
  apply or32_keeps; assumption.
Qed.
Hint Resolve applyAlternateEnding_keeps : pres.

Lemma alternateEndings_keeps master :
  pres (keepsEndings master) (alternateEndings ext master).
Proof. pres_unfold alternateEndings. Qed.
End Endings.

(** An alternate ending [n] from 1 to 32 sets the bit [n - 1] of the mask
    of the master bar and leaves the other 31 bits as they are; and the
    [\ae] command, with one number or with a list in parentheses, never
    clears an ending that is set. *)
Theorem alternate_ending_in_range_sets_its_bit (ext : Externals) (master : nat) :
  (forall s n m s',
      _syData s = DNum (JInt n) -> 1 <= n <= 32 ->
      Score.masterBars (_score s) !! master = Some m ->
      applyAlternateEnding ext master s = Ok tt s' ->
      exists m',
        Score.masterBars (_score s') !! master = Some m'
        /\ Z.testbit (MasterBar.alternateEndings m') (n - 1) = true
        /\ forall k, 0 <= k < 32 -> k <> n - 1 ->
             Z.testbit (MasterBar.alternateEndings m') k
             = Z.testbit (MasterBar.alternateEndings m) k)
  /\ (forall s u s', alternateEndings ext master s = Ok u s' -> keepsEndings master s s').
Proof.
  split.
  - intros s n m s' Hd Hn Hm H.
    destruct (applyAlternateEnding_bits ext master s n m s' Hd ltac:(lia) Hm H)
      as (m' & Hm' & Hbits).
    exists m'. split; [exact Hm'|].
    rewrite (Z.mod_small (n - 1) 32) in Hbits by lia. split.
    + rewrite Hbits by lia. rewrite Z.eqb_refl. apply orb_true_r.
    + intros k Hk Hne. rewrite (Hbits k Hk).
      apply Z.eqb_neq in Hne. rewrite Hne. apply orb_false_r.
  - intros s u s' H. exact (alternateEndings_keeps ext master _ _ _ H).
Qed.

(** The ending 2 in the first bar of a text. *)
Lemma alternate_ending_in_range_witness :
  exists m',
    Score.masterBars
      (_score (stateAfter (applyAlternateEnding sampleExternals 0)
                 (resume "2 r" inFirstBar))) !! 0%nat = Some m'
    /\ Z.testbit (MasterBar.alternateEndings m') (2 - 1) = true
    /\ forall k, 0 <= k < 32 -> k <> 2 - 1 ->
         Z.testbit (MasterBar.alternateEndings m') k
         = Z.testbit (MasterBar.alternateEndings MasterBar.new) k.
Proof.
  apply (proj1 (alternate_ending_in_range_sets_its_bit sampleExternals 0)
           (resume "2 r" inFirstBar) 2 MasterBar.new).
  - vm_compute. reflexivity.
  - lia.
  - vm_compute. reflexivity.
  - vm_compute. reflexivity.
Defined.

(** ** The clef of a new bar *)

Lemma newBar_clef r s bar s' :
  newBar r s = Ok bar s' ->
  exists st,
    staffIn (_score s) r = Some st
    /\ staffIn (_score s') r
       = Some (Staff.set_bars
                 (Staff.bars st
                  ++ [Bar.mk (from_option Bar.clef (Bar.clef Bar.new)
                                (last (Staff.bars st)))
                        [Voice.new]]) st).
Proof.
  unfold newBar. intros H. apply bind_Ok in H as (bar0 & s1 & H1 & H).
  unfold Staff_addBar in H1. apply bind_Ok in H1 as (st & s0 & Hg & H1).
  pose proof (getStaff_staffIn _ _ _ _ Hg) as Hst. apply getStaff_Ok in Hg as [-> _].
  apply bind_Ok in H1 as (u1 & s1' & Hm & Hr). injection Hr as <- <-.
  apply modStaff_staffIn in Hm as (st0 & _ & Hall1 & Hbs1 & Hmb1).
  assert (Eo : staffOf (mkBarRef (sr_track r) (sr_staff r) (length (Staff.bars st))) = r)
    by (destruct r; reflexivity).
  set (bar0 := mkBarRef (sr_track r) (sr_staff r) (length (Staff.bars st))) in *.
  assert (S1 : staffIn (_score s1') r
               = Some (Staff.set_bars (Staff.bars st ++ [Bar.new]) st)).
  { rewrite Hall1, decide_True by reflexivity. rewrite Hst. reflexivity. }
  apply bind_Ok in H as (u2 & s2 & H2 & H).
  set (clef := from_option Bar.clef (Bar.clef Bar.new) (last (Staff.bars st))).
  assert (S2 : staffIn (_score s2) r
               = Some (Staff.set_bars (Staff.bars st ++ [Bar.mk clef []]) st)).
  { destruct (Nat.ltb 0 (br_bar bar0)) eqn:E; cbn [when] in H2.
    - apply Nat.ltb_lt in E. cbn [br_bar bar0] in E.
      apply bind_Ok in H2 as (pb & s1a & Hp & H2).
      apply getBar_Ok in Hp as (-> & stp & Hstp & Hpb).
      change (staffOf _) with (staffOf bar0) in Hstp. rewrite Eo, S1 in Hstp.
      injection Hstp as <-.
      cbn [Staff.bars Staff.set_bars br_bar bar0] in Hpb.
      rewrite lookup_app_l in Hpb by lia.
      assert (Hl : last (Staff.bars st) = Some pb).
      { rewrite last_lookup. rewrite <- Hpb. f_equal. lia. }
      apply modBar_staffIn in H2 as (stx & bx & Hstx & _ & Hsty & _).
      rewrite Eo in Hstx, Hsty. rewrite S1 in Hstx. injection Hstx as <-.
      rewrite Hsty. cbn [Staff.bars Staff.set_bars br_bar bar0].
      rewrite alter_app_r_alt by lia. rewrite Nat.sub_diag.
      unfold clef. rewrite Hl. reflexivity.
    - injection H2 as _ <-. apply Nat.ltb_ge in E. cbn [br_bar bar0] in E.
      assert (Hn : Staff.bars st = []).
      { destruct (Staff.bars st); [reflexivity|cbn in E; lia]. }
      rewrite S1. unfold clef. rewrite Hn. reflexivity. }
  apply bind_Ok in H as (v & s3 & H3 & Hr). injection Hr as <- <-.
  unfold Bar_addVoice in H3. apply bind_Ok in H3 as (b & s2' & Hg & H3).
  apply getBar_Ok in Hg as (-> & stg & Hstg & Hbg).
  rewrite Eo, S2 in Hstg. injection Hstg as <-.
  cbn [Staff.bars Staff.set_bars br_bar bar0] in Hbg.
  rewrite list_lookup_middle in Hbg by reflexivity. injection Hbg as <-.
  apply bind_Ok in H3 as (u3 & s3' & H3 & Hr). injection Hr as _ <-.
  apply modBar_staffIn in H3 as (stx & bx & Hstx & _ & Hsty & _).
  rewrite Eo in Hstx, Hsty. rewrite S2 in Hstx. injection Hstx as <-.
  exists st. split; [exact Hst|].
  rewrite Hsty. cbn [Staff.bars Staff.set_bars br_bar bar0].
  rewrite alter_app_r_alt by lia. rewrite Nat.sub_diag. reflexivity.
Qed.

(** A new bar, whether [bar] or the padding of [consolidate] makes it, is
    put at the end of its staff with one voice that has no beats and with
    the clef of the bar before it; the first bar of a staff has the clef
    of [new Bar()].  The other staves, the master bars and the beats are
    not touched. *)
Theorem newBar_takes_the_clef_of_the_bar_before (r : StaffRef) (s s' : Importer) (bar : BarRef) :
  newBar r s = Ok bar s' ->
  exists st,
    staffIn (_score s) r = Some st
    /\ bar = mkBarRef (sr_track r) (sr_staff r) (length (Staff.bars st))
    /\ staffIn (_score s') r
       = Some (Staff.set_bars
                 (Staff.bars st
                  ++ [Bar.mk (from_option Bar.clef (Bar.clef Bar.new)
                                (last (Staff.bars st)))
                        [Voice.new]]) st)
    /\ (forall r', r' <> r -> staffIn (_score s') r' = staffIn (_score s) r')
    /\ beatStore s' = beatStore s
    /\ Score.masterBars (_score s') = Score.masterBars (_score s).
Proof.
  intros H. destruct (newBar_clef _ _ _ _ H) as (st & Hst & Hst').
  destruct (newBar_struct _ _ _ _ H) as (st0 & b & Hst0 & Hbar & _ & _ & Hoth & Hbs & Hmb).
  rewrite Hst in Hst0. injection Hst0 as <-.
  exists st. auto 10.
Qed.

(** A second bar on the staff of the text [\clef F4 r]. *)
Lemma newBar_takes_the_clef_witness :
  exists st,
    staffIn (_score (parsed "\clef F4 r")) (mkStaffRef 0 0) = Some st
    /\ (mkBarRef 0 0 1) = mkBarRef (sr_track (mkStaffRef 0 0)) (sr_staff (mkStaffRef 0 0)) (length (Staff.bars st))
    /\ staffIn (_score (stateAfter (newBar (mkStaffRef 0 0)) (parsed "\clef F4 r"))) (mkStaffRef 0 0)
       = Some (Staff.set_bars
                 (Staff.bars st
                  ++ [Bar.mk (from_option Bar.clef (Bar.clef Bar.new)
                                (last (Staff.bars st)))
                        [Voice.new]]) st)
    /\ (forall r', r' <> (mkStaffRef 0 0) -> staffIn (_score (stateAfter (newBar (mkStaffRef 0 0)) (parsed "\clef F4 r"))) r' = staffIn (_score (parsed "\clef F4 r")) r')
    /\ beatStore (stateAfter (newBar (mkStaffRef 0 0)) (parsed "\clef F4 r")) = beatStore (parsed "\clef F4 r")
    /\ Score.masterBars (_score (stateAfter (newBar (mkStaffRef 0 0)) (parsed "\clef F4 r"))) = Score.masterBars (_score (parsed "\clef F4 r")).
Proof.
  assert (H : newBar (mkStaffRef 0 0) (parsed "\clef F4 r") = Ok (mkBarRef 0 0 1) (stateAfter (newBar (mkStaffRef 0 0)) (parsed "\clef F4 r"))) by (vm_compute; reflexivity).
  exact (newBar_takes_the_clef_of_the_bar_before _ _ _ _ H).
Defined.

(** ** Every bar has one voice, every voice a beat *)

#[global] Instance keepsVoices_preorder : PreOrder keepsVoices.
Proof.
  split.
  - intros s r. reflexivity.
  - intros s1 s2 s3 H1 H2 r. rewrite H2. apply H1.
Qed.

#[global] Instance addsStaves_preorder : PreOrder addsStaves.
Proof.
  split.
  - intros s. split; auto.
  - intros s1 s2 s3 [F1 B1] [F2 B2]. split.
    + intros r vs H. auto.
    + intros r vs H. destruct (B2 r vs H) as [H'|H']; auto.
Qed.

#[global] Instance inBar_preorder bar : PreOrder (inBar bar).
Proof.
  split.
  - intros s. split; [auto|]. exists id. split; [reflexivity|].
    destruct (voicesOf s (staffOf bar)) as [l|]; [|reflexivity]. cbn.
    rewrite list_alter_id by reflexivity. reflexivity.
  - intros s1 s2 s3 [O1 (g1 & L1 & E1)] [O2 (g2 & L2 & E2)]. split.
    + intros r Hr. rewrite (O2 r Hr). apply O1, Hr.
    + exists (g2 ∘ g1). split; [intros vs; cbn; rewrite L2; apply L1|].
      rewrite E2, E1. destruct (voicesOf s1 (staffOf bar)) as [l|]; [|reflexivity].
      cbn. rewrite list_alter_alter_eq. reflexivity.
Qed.

#[global] Instance completes_preorder : PreOrder completes.
Proof.
  split.
  - intros s. split; auto.
  - intros s1 s2 s3 [C1 S1] [C2 S2]. split; auto.
Qed.

Lemma keepsVoices_addsStaves s s' : keepsVoices s s' -> addsStaves s s'.
Proof. intros H. split; intros r vs Hr; [|left]; rewrite H in *; exact Hr. Qed.

Lemma keepsVoices_inBar bar s s' : keepsVoices s s' -> inBar bar s s'.
Proof.
  intros H. split; [intros r _; apply H|]. exists id. split; [reflexivity|].
  rewrite H. destruct (voicesOf s (staffOf bar)) as [l|]; [|reflexivity]. cbn.
  rewrite list_alter_id by reflexivity. reflexivity.
Qed.

Lemma addsStaves_completes s s' : addsStaves s s' -> completes s s'.
Proof.
  intros [F B]. split.
  - intros Hc r vs H. destruct (B r vs H) as [H'| ->]; [eapply Hc; exact H'|constructor].
  - intros r [vs H]. exists vs. auto.
Qed.

Lemma voicesOf_allBars s r :
  voicesOf s r
  = (fun bars : list Bar.t => Bar.voices <$> bars)
      <$> (allBars s !! sr_track r ≫= (fun l : list (list Bar.t) => l !! sr_staff r)).
Proof.
  unfold voicesOf, staffIn, allBars. rewrite list_lookup_fmap.
  destruct (Score.tracks (_score s) !! sr_track r) as [t|]; [|reflexivity]. cbn.
  rewrite list_lookup_fmap.
  destruct (Track.staves t !! sr_staff r) as [st|]; reflexivity.
Qed.

Lemma sameBars_keepsVoices s s' : sameBars s s' -> keepsVoices s s'.
Proof. intros H r. rewrite !voicesOf_allBars, H. reflexivity. Qed.

Lemma noteFrame_keepsVoices s s' : noteFrame s s' -> keepsVoices s s'.
Proof. intros [_ H]. apply sameBars_keepsVoices, H. Qed.

Lemma pres_note_keepsVoices {A} (m : M A) : pres noteFrame m -> pres keepsVoices m.
Proof. apply pres_weaken, noteFrame_keepsVoices. Qed.

Lemma pres_keepsVoices_addsStaves {A} (m : M A) : pres keepsVoices m -> pres addsStaves m.
Proof. apply pres_weaken, keepsVoices_addsStaves. Qed.

Lemma pres_keepsVoices_inBar {A} bar (m : M A) : pres keepsVoices m -> pres (inBar bar) m.
Proof. apply pres_weaken, keepsVoices_inBar. Qed.

Lemma pres_addsStaves_completes {A} (m : M A) : pres addsStaves m -> pres completes m.
Proof. apply pres_weaken, addsStaves_completes. Qed.

#[global] Hint Resolve pres_note_keepsVoices pres_keepsVoices_addsStaves
  pres_keepsVoices_inBar pres_addsStaves_completes : pres.

#[global] Hint Extern 1 (pres keepsVoices (modify _)) =>
  apply pres_modify; intro; intro; reflexivity : pres.

Lemma modBar_keepsVoices bar f :
  (forall b, Bar.voices (f b) = Bar.voices b) -> pres keepsVoices (modBar bar f).
Proof.
  intros Hf s u s' H r.
  apply modBar_staffIn in H as (st & b & Hst & _ & Hst' & Hoth & _).
  unfold voicesOf. destruct (decide (r = staffOf bar)) as [->|Hr].
  - rewrite Hst', Hst. cbn. f_equal. apply fmap_alter_same. intros x _. apply Hf.
  - rewrite (Hoth r Hr). reflexivity.
Qed.

Lemma modMasterBar_keepsVoices i f : pres keepsVoices (modMasterBar i f).
Proof. unfold modMasterBar. pres_auto. Qed.

Lemma Score_addMasterBar_keepsVoices m : pres keepsVoices (Score_addMasterBar m).
Proof. unfold Score_addMasterBar, modScore. pres_auto. Qed.

#[global] Hint Resolve modMasterBar_keepsVoices Score_addMasterBar_keepsVoices : pres.
#[global] Hint Extern 2 (pres keepsVoices (modBar _ _)) =>
  apply modBar_keepsVoices; intro; reflexivity : pres.

Lemma newTrack_addsStaves : pres addsStaves newTrack.
Proof.
  intros s u s' H. injection H as _ <-.
  assert (E : forall r,
            voicesOf
              (set__currentDynamics DynamicValue.F
                 (set__lyrics
                    (<[length (Score.tracks (_score s)) := []]> (_lyrics s))
                    (set__currentStaff (mkStaffRef (length (Score.tracks (_score s))) 0)
                       (set__currentTrack (length (Score.tracks (_score s)))
                          (set__score
                             (Score.set_tracks
                                (Score.tracks (_score s)
                                 ++ [Track.set_playbackInfo
                                       (PlaybackInformation.mk (JInt 25) (_trackChannel s)
                                          (_trackChannel s + 1))
                                       (Track.set_staves
                                          (alter
                                             (fun _ =>
                                                Staff.set_tunings defaultTuning6
                                                  (Staff.set_displayTranspositionPitch (-12)
                                                     Staff.new))
                                             0%nat
                                             (Track.staves
                                                (Track_ensureStaveCount 1 Track.new)))
                                          Track.new)])
                                (_score s))
                             (set__trackChannel (_trackChannel s + 2) s)))))) r
            = if decide (sr_track r = length (Score.tracks (_score s)))
              then if decide (sr_staff r = 0%nat) then Some [] else None
              else voicesOf s r).
  { intros r. unfold voicesOf, staffIn. cbn [_score set__score set__currentDynamics
      set__lyrics set__currentStaff set__currentTrack set__trackChannel].
    change (Score.tracks (Score.set_tracks ?l _)) with l.
    destruct (decide (sr_track r = length (Score.tracks (_score s)))) as [E|E].
    - rewrite E, list_lookup_middle by reflexivity. cbn.
      destruct (sr_staff r) as [|k]; reflexivity.
    - destruct (lt_dec (sr_track r) (length (Score.tracks (_score s)))) as [Hlt|Hge].
      + rewrite lookup_app_l by exact Hlt. reflexivity.
      + rewrite !lookup_ge_None_2; [reflexivity|lia|rewrite length_app; cbn; lia]. }
  split; intros r vs Hr.
  - rewrite E. destruct (decide _) as [Et|Et]; [|exact Hr].
    exfalso. unfold voicesOf, staffIn in Hr. rewrite Et in Hr.
    rewrite lookup_ge_None_2 in Hr by lia. discriminate.
  - rewrite E in Hr. destruct (decide _) as [Et|Et]; [|left; exact Hr].
    destruct (decide _); [|discriminate]. injection Hr as <-. right. reflexivity.
Qed.

Lemma ensureStaveCount_addsStaves i n :
  pres addsStaves (modTrack i (Track_ensureStaveCount n)).
Proof.
  intros s u s' H. apply modTrack_Ok in H. subst s'.
  assert (E : forall r,
            staffIn
              (Score.set_tracks
                 (alter (Track_ensureStaveCount n) i (Score.tracks (_score s))) (_score s)) r
            = match staffIn (_score s) r with
              | Some st => Some st
              | None =>
                  staffIn
                    (Score.set_tracks
                       (alter (Track_ensureStaveCount n) i (Score.tracks (_score s)))
                       (_score s)) r
                  ≫= (fun _ => Some Staff.new)
              end).
  { intros r. unfold staffIn. change (Score.tracks (Score.set_tracks ?l _)) with l.
    rewrite list_lookup_alter.
    destruct (decide (i = sr_track r)) as [->|Hne].
    - destruct (Score.tracks (_score s) !! sr_track r) as [t|]; [|reflexivity]. cbn.
      destruct (Track.staves t !! sr_staff r) as [st|] eqn:Est.
      + rewrite lookup_app_l by (eapply lookup_lt_Some; exact Est). exact Est.
      + destruct ((Track.staves t ++ _) !! sr_staff r) as [st'|] eqn:E'; [|reflexivity].
        cbn. f_equal. apply lookup_ge_None in Est.
        rewrite lookup_app_r in E' by exact Est.
        apply lookup_replicate in E' as [-> _]. reflexivity.
    - destruct (Score.tracks (_score s) !! sr_track r) as [t|]; [|reflexivity]. cbn.
      destruct (Track.staves t !! sr_staff r); reflexivity. }
  split; intros r vs Hr; unfold voicesOf in *; cbn [_score set__score] in *.
  - rewrite E. destruct (staffIn (_score s) r); [exact Hr|discriminate].
  - rewrite E in Hr. destruct (staffIn (_score s) r) as [st|]; [left; exact Hr|].
    right. destruct (staffIn _ r); [|discriminate]. cbn in Hr. injection Hr as <-.
    reflexivity.
Qed.

#[global] Hint Resolve newTrack_addsStaves ensureStaveCount_addsStaves : pres.

Lemma modVoice_inBar v f : pres (inBar (vr_bar v)) (modVoice v f).
Proof.
  intros s u s' H. apply modVoice_Ok in H as (vo & _ & ->).
  unfold inBar, voicesOf. cbn [_score set__score]. split.
  - intros r Hr. rewrite staffIn_updVoice, decide_False by exact Hr. reflexivity.
  - exists (alter f (vr_voice v)). split; [intros vs; apply length_alter|].
    rewrite staffIn_updVoice, decide_True by reflexivity.
    destruct (staffIn (_score s) (staffOf (vr_bar v))) as [st|]; [|reflexivity].
    cbn. f_equal. apply list_fmap_alter. apply Forall_forall. intros b _. reflexivity.
Qed.

#[global] Hint Resolve modVoice_inBar : pres.

Lemma Voice_addBeat_inBar v b : pres (inBar (vr_bar v)) (Voice_addBeat v b).
Proof. unfold Voice_addBeat. pres_auto. Qed.

Lemma dropLastBeat_inBar v : pres (inBar (vr_bar v)) (dropLastBeat v).
Proof. unfold dropLastBeat. pres_auto. Qed.

#[global] Hint Resolve Voice_addBeat_inBar dropLastBeat_inBar : pres.

Lemma repeatBeat_inBar v b n : pres (inBar (vr_bar v)) (repeatBeat v b n).
Proof. unfold repeatBeat. pres_auto. Qed.

Lemma addEmptyBeat_inBar v : pres (inBar (vr_bar v)) (addEmptyBeat v).
Proof. unfold addEmptyBeat. pres_auto. Qed.

#[global] Hint Resolve repeatBeat_inBar addEmptyBeat_inBar : pres.

Section CompleteFrames.
Context (ext : Externals).

Lemma beatNotes_inBar v b : pres (inBar (vr_bar v)) (beatNotes ext v b).
Proof. pres_unfold beatNotes. Qed.

Lemma beatFinish_inBar v b : pres (inBar (vr_bar v)) (beatFinish ext v b).
Proof. pres_unfold beatFinish. Qed.
Hint Resolve beatNotes_inBar beatFinish_inBar : pres.

Lemma beat_inBar v : pres (inBar (vr_bar v)) (beat ext v).
Proof. pres_unfold beat. Qed.

Lemma barMetaStep_keepsVoices bar : pres keepsVoices (barMetaStep ext bar).
Proof. pres_unfold barMetaStep. Qed.
Hint Resolve barMetaStep_keepsVoices : pres.

Lemma barMeta_keepsVoices bar : pres keepsVoices (barMeta ext bar).
Proof. unfold barMeta, barMetaLoop. cbv zeta. pres_auto. Qed.

Lemma trackMeta_addsStaves : pres addsStaves (trackMeta ext).
Proof. pres_unfold trackMeta. Qed.

Lemma staffMeta_addsStaves : pres addsStaves (staffMeta ext).
Proof. pres_unfold staffMeta. Qed.
Hint Resolve trackMeta_addsStaves staffMeta_addsStaves : pres.

Lemma trackStaffMeta_addsStaves : pres addsStaves (trackStaffMeta ext).
Proof. pres_unfold trackStaffMeta. Qed.
End CompleteFrames.

Lemma newBar_voices r s bar s' :
  newBar r s = Ok bar s' ->
  exists vs,
    voicesOf s r = Some vs
    /\ bar = mkBarRef (sr_track r) (sr_staff r) (length vs)
    /\ voicesOf s' r = Some (vs ++ [[Voice.new]])
    /\ forall r', r' <> r -> voicesOf s' r' = voicesOf s r'.
Proof.
  intros H.
  apply newBar_struct in H as (st & b & Hst & Hbar & Hst' & Hv & Hoth & _).
  exists (Bar.voices <$> Staff.bars st). unfold voicesOf.
  rewrite Hst, Hst'. cbn. rewrite length_fmap, fmap_app. cbn. rewrite Hv.
  split; [reflexivity|]. split; [exact Hbar|]. split; [reflexivity|].
  intros r' Hr'. rewrite (Hoth r' Hr'). reflexivity.
Qed.

Lemma voiceIn_voicesOf s bar i l :
  voicesOf s (staffOf bar) = Some l ->
  voiceIn (_score s) (mkVoiceRef bar i)
  = l !! br_bar bar ≫= (fun vs : list Voice.t => vs !! i).
Proof.
  unfold voicesOf, voiceIn, barIn. cbn [vr_bar vr_voice].
  destruct (staffIn (_score s) (staffOf bar)) as [st|]; [|discriminate].
  cbn. intros H. injection H as <-. rewrite list_lookup_fmap.
  destruct (Staff.bars st !! br_bar bar); reflexivity.
Qed.

Lemma getVoice_Ok v s vo s' :
  getVoice v s = Ok vo s' -> s' = s /\ voiceIn (_score s) v = Some vo.
Proof.
  unfold getVoice. intros H. apply bind_Ok in H as (b & s1 & H1 & H2).
  apply getBar_Ok in H1 as (-> & st & Hst & Hb).
  unfold deref in H2. destruct (Bar.voices b !! vr_voice v) as [x|] eqn:E; [|discriminate].
  injection H2 as <- <-. split; [reflexivity|].
  unfold voiceIn, barIn. rewrite Hst. cbn. rewrite Hb. cbn. exact E.
Qed.

Section BarComplete.
Context (ext : Externals).

(** The end of [bar]: the voice of the bar has a beat. *)
Lemma bar_tail voice (anyData : bool) s a s' :
  (v <- getVoice voice ;;
   when (Nat.eqb (length (Voice.beats v)) 0) (addEmptyBeat voice) ;;
   ret anyData) s = Ok a s' ->
  exists v', voiceIn (_score s') voice = Some v' /\ Voice.beats v' <> [].
Proof.
  intros H. apply bind_Ok in H as (v & s1 & H1 & H).
  apply getVoice_Ok in H1 as [-> Hv].
  apply bind_Ok in H as (u & s2 & H2 & H). injection H as _ <-.
  destruct (Nat.eqb (length (Voice.beats v)) 0) eqn:E; cbn [when] in H2.
  - apply addEmptyBeat_Ok in H2 as (b & vo & _ & _ & _ & _ & Hb).
    unfold beatsOf in Hb. destruct (voiceIn (_score s2) voice) as [v'|]; [|discriminate].
    exists v'. split; [reflexivity|]. cbn in Hb. injection Hb as ->.
    intros E'. apply app_eq_nil in E' as [_ E']. discriminate.
  - injection H2 as _ <-. exists v. split; [exact Hv|].
    intros E'. rewrite E' in E. discriminate.
Qed.

Lemma bar_completes : pres completes (bar ext).
Proof.
  intros s a s' H. unfold bar in H.
  apply bind_Ok in H as (a1 & s1 & H1 & H).
  apply trackStaffMeta_addsStaves in H1. apply addsStaves_completes in H1.
  destruct H1 as [Hc1 Hs1].
  rewrite bind_gets_run in H. set (cur := _currentStaff s1) in *.
  apply bind_Ok in H as (b & s2 & H2 & H).
  apply newBar_voices in H2 as (vs & Hvs & Hb & Hvs2 & Hoth2).
  assert (Eo : staffOf b = cur) by (subst b; destruct cur; reflexivity).
  assert (Eb : br_bar b = length vs) by (subst b; reflexivity).
  assert (Hin : inBar b s2 s').
  { revert H. cbv zeta.
    match goal with |- ?m s2 = _ -> _ => assert (Hp : pres (inBar b) m) end.
    { pose proof (beat_inBar ext (mkVoiceRef b 0)) as Hbeat. cbn [vr_bar] in Hbeat.
      pose proof (addEmptyBeat_inBar (mkVoiceRef b 0)) as Hadd. cbn [vr_bar] in Hadd.
      pose proof (barMeta_keepsVoices ext b) as Hmeta.
      do 5 (apply pres_bind; [typeclasses eauto|pres_auto|]; intros).
      apply pres_bind; [typeclasses eauto|pres_auto|]. intros fuel. pres_auto. }
    intros H. exact (Hp _ _ _ H). }
  assert (Hv : exists v', voiceIn (_score s') (mkVoiceRef b 0) = Some v'
                          /\ Voice.beats v' <> []).
  { cbv zeta in H.
    do 6 (let x := fresh "x" in let sx := fresh "sx" in let Hx := fresh "Hx" in
          apply bind_Ok in H as (x & sx & Hx & H); clear Hx).
    rewrite bind_gets_run in H.
    apply bind_Ok in H as (anyBeatData & s6 & _ & H).
    eapply bar_tail. exact H. }
  destruct Hin as [Hoth (g & Hg & Hcur)]. rewrite Eo in Hoth, Hcur.
  rewrite Hvs2 in Hcur. cbn in Hcur. rewrite Eb in Hcur.
  rewrite alter_app_r_alt, Nat.sub_diag in Hcur by lia. cbn in Hcur.
  destruct Hv as (v' & Hv' & Hne).
  assert (Hg1 : g [Voice.new] = [v']).
  { pose proof (voiceIn_voicesOf s' b 0 _ ltac:(rewrite Eo; exact Hcur)) as E.
    rewrite Hv', Eb, list_lookup_middle in E by reflexivity. cbn in E.
    specialize (Hg [Voice.new]). destruct (g [Voice.new]) as [|x [|y l]]; try discriminate.
    cbn in E. congruence. }
  rewrite Hg1 in Hcur.
  split.
  - intros Hc r l Hl. specialize (Hc1 Hc). destruct (decide (r = cur)) as [->|Hr].
    + rewrite Hcur in Hl. injection Hl as <-. apply Forall_app. split.
      * eapply Hc1. exact Hvs.
      * constructor; [|constructor]. exists v'. auto.
    + rewrite (Hoth r Hr), (Hoth2 r Hr) in Hl. eapply Hc1. exact Hl.
  - intros r Hr. apply Hs1 in Hr. destruct (decide (r = cur)) as [->|Hne'].
    + rewrite Hcur. eauto.
    + rewrite (Hoth r Hne'), (Hoth2 r Hne'). exact Hr.
Qed.
End BarComplete.

Lemma padded_completes s s' : padded s s' -> completes s s'.
Proof.
  intros (_ & _ & Hst & Hno). split.
  - intros Hc r vs Hr. unfold voicesOf in Hr.
    destruct (staffIn (_score s') r) as [st'|] eqn:E'; [|discriminate].
    cbn in Hr. injection Hr as <-.
    destruct (staffIn (_score s) r) as [st|] eqn:E.
    + destruct (Hst r st E) as (st2 & pad & E2 & Hbars & Hpad).
      rewrite E' in E2. injection E2 as <-. rewrite Hbars, fmap_app.
      apply Forall_app. split.
      * apply (Hc r). unfold voicesOf. rewrite E. reflexivity.
      * apply Forall_fmap. eapply Forall_impl; [exact Hpad|].
        intros b (v & x & be & Hv & Hb & _). cbn. exists v. split; [exact Hv|].
        rewrite Hb. discriminate.
    + rewrite (Hno r E) in E'. discriminate.
  - intros r [vs Hr]. unfold voicesOf in *.
    destruct (staffIn (_score s) r) as [st|] eqn:E; [|discriminate].
    destruct (Hst r st E) as (st2 & pad & E2 & _). rewrite E2. eauto.
Qed.

Lemma createDefaultScore_complete s u s' :
  createDefaultScore s = Ok u s' ->
  complete s' /\ voicesOf s' (mkStaffRef 0 0) = Some [].
Proof.
  intros H. rewrite createDefaultScore_run in H. injection H as _ <-.
  split; [|reflexivity].
  intros [ti si] vs Hr.
  destruct ti as [|ti]; [destruct si as [|si]|]; vm_compute in Hr;
    [injection Hr as <-; constructor|discriminate|].
  destruct ti; discriminate.
Qed.

Ltac frame_step R H Hq :=
  let a := fresh "a" in let s := fresh "s" in let Hs := fresh "Hs" in
  apply bind_Ok in H as (a & s & Hs & H);
  pres_in Hs R;
  try (let Hq' := fresh "Hq" in
       assert (Hq' := transitivity Hq Hs); clear Hq Hs; rename Hq' into Hq).

Section ReadComplete.
Context (ext : Externals).

Lemma bars_completes : pres completes (bars ext).
Proof. pose proof (bar_completes ext). pres_unfold bars. Qed.

Lemma readScore_complete s0 u s' :
  readScore ext s0 = Ok u s' ->
  complete s' /\ is_Some (voicesOf s' (mkStaffRef 0 0)).
Proof.
  unfold readScore. intros H. apply asUnsupportedFormat_Ok in H.
  apply bind_Ok in H as (a1 & sa & _ & H).
  apply bind_Ok in H as (a2 & sb & _ & H).
  apply bind_Ok in H as (a3 & sc & H3 & H).
  apply createDefaultScore_complete in H3 as (Hc & Hv).
  assert (Hq : completes sc sc) by reflexivity.
  do 11 frame_step completes H Hq.
  lazymatch type of Hq with completes _ ?sx => rename sx into sm end.
  apply bind_Ok in H as (anyBars & sd & H4 & H).
  apply bars_completes in H4.
  apply bind_Ok in H as (aw & se & H5 & H).
  pres_in H5 completes.
  apply consolidate_padded, padded_completes in H.
  assert (Hall : completes sc s').
  { etransitivity; [exact Hq|]. etransitivity; [exact H4|].
    etransitivity; [exact H5|exact H]. }
  destruct Hall as [Hcomp Hkeep]. split; [exact (Hcomp Hc)|].
  apply Hkeep. rewrite Hv. eauto.
Qed.
End ReadComplete.

(** In the score of a successful parse every staff has at least one bar,
    every bar has exactly one voice and every voice has at least one beat;
    and the score has a first track with a first staff.  A bar without a
    beat in the text gets one empty beat before the parser leaves it, and
    so do the bars that [consolidate] adds. *)
Theorem parsed_bars_have_one_voice_with_a_beat
    (ext : Externals) (tex : string) (s' : Importer) :
  importTex ext tex = Ok tt s' ->
  (exists st, staffIn (_score s') (mkStaffRef 0 0) = Some st)
  /\ (forall r st, staffIn (_score s') r = Some st ->
        Staff.bars st <> []
        /\ forall b, b ∈ Staff.bars st ->
             exists v, Bar.voices b = [v] /\ Voice.beats v <> []).
Proof.
  rewrite importTex_run. intros H.
  destruct (readScore_complete ext _ _ _ H) as [Hc [vs Hs]].
  destruct (readScore_inv ext _ _ _ H) as [Hfull (m & Hm & _)].
  split.
  - unfold voicesOf in Hs. destruct (staffIn (_score s') (mkStaffRef 0 0)); [eauto|].
    discriminate.
  - intros r st Hst. split.
    + pose proof (barsFull_staffIn _ _ _ Hfull Hst) as Hlen.
      apply lookup_lt_Some in Hm. unfold masterBarCount in Hlen.
      intros E. rewrite E in Hlen. cbn in Hlen. lia.
    + intros b Hb.
      assert (Hv : voicesOf s' r = Some (Bar.voices <$> Staff.bars st)).
      { unfold voicesOf. rewrite Hst. reflexivity. }
      specialize (Hc r _ Hv).
      apply (proj1 (Forall_forall _ _) Hc). apply list_elem_of_fmap.
      exists b. auto.
Qed.

(** The text [r | | 3.3], whose second bar has no beat of its own. *)
Lemma parsed_bars_have_one_voice_witness :
  (exists st, staffIn (_score (parsed "r | | 3.3")) (mkStaffRef 0 0) = Some st)
  /\ (forall r st, staffIn (_score (parsed "r | | 3.3")) r = Some st ->
        Staff.bars st <> []
        /\ forall b, b ∈ Staff.bars st ->
             exists v, Bar.voices b = [v] /\ Voice.beats v <> []).
Proof.
  assert (H : importTex sampleExternals "r | | 3.3" = Ok tt (parsed "r | | 3.3"))
    by (vm_compute; reflexivity).
  exact (parsed_bars_have_one_voice_with_a_beat _ _ _ H).
Defined.

(** ** The duration and the dynamics of a beat *)

#[global] Instance keepsCurrent_preorder c : PreOrder (keepsCurrent c).
Proof.
  split.
  - intros s H. exact H.
  - intros s1 s2 s3 H1 H2 H. auto.
Qed.

Lemma lexOnly_keepsCurrent c s s' : lexOnly s s' -> keepsCurrent c s s'.
Proof.
  intros H (b & Hb & Hd & Hy). unfold lexOnly, beyondLexer in H.
  exists b. repeat split; congruence.
Qed.

Lemma pres_lexOnly_keepsCurrent {A} c (m : M A) : pres lexOnly m -> pres (keepsCurrent c) m.
Proof. apply pres_weaken, lexOnly_keepsCurrent. Qed.

#[global] Hint Resolve pres_lexOnly_keepsCurrent : pres.

#[global] Hint Extern 1 (pres (keepsCurrent _) (modify _)) =>
  apply pres_modify; let s := fresh "s" in let H := fresh "H" in intros s H; exact H : pres.

Lemma modBeat_keepsCurrent c r f :
  (forall b, Beat.duration (f b) = Beat.duration b
             /\ Beat.dynamics (f b) = Beat.dynamics b) ->
  pres (keepsCurrent c) (modBeat r f).
Proof.
  intros Hf s u s' H (b & Hb & Hd & Hy). apply modBeat_Ok in H. subst s'.
  unfold carriesCurrent. cbn.
  destruct (decide (r = c)) as [->|Hne].
  - exists (f b). rewrite list_lookup_alter_eq, Hb. destruct (Hf b) as [-> ->]. auto.
  - exists b. rewrite list_lookup_alter_ne by exact Hne. auto.
Qed.

Ltac current_side :=
  let b := fresh "b" in
  intros b; unfold applyTuplet, setTuplet; repeat case_match; split; reflexivity.

#[global] Hint Extern 2 (pres (keepsCurrent _) (modBeat _ _)) =>
  apply modBeat_keepsCurrent; current_side : pres.

Lemma modNote_keepsCurrent c r f : pres (keepsCurrent c) (modNote r f).
Proof. unfold modNote. pres_auto. Qed.

Lemma modTrack_keepsCurrent c i f : pres (keepsCurrent c) (modTrack i f).
Proof. unfold modTrack. pres_auto. Qed.

Lemma modMasterBar_keepsCurrent c i f : pres (keepsCurrent c) (modMasterBar i f).
Proof. unfold modMasterBar. pres_auto. Qed.

#[global] Hint Resolve modNote_keepsCurrent modTrack_keepsCurrent
  modMasterBar_keepsCurrent : pres.

Lemma modStaff_keepsCurrent c r f : pres (keepsCurrent c) (modStaff r f).
Proof. unfold modStaff. pres_auto. Qed.
#[global] Hint Resolve modStaff_keepsCurrent : pres.

Lemma modBar_keepsCurrent c r f : pres (keepsCurrent c) (modBar r f).
Proof. unfold modBar. pres_auto. Qed.
#[global] Hint Resolve modBar_keepsCurrent : pres.

Lemma modVoice_keepsCurrent c r f : pres (keepsCurrent c) (modVoice r f).
Proof. unfold modVoice. pres_auto. Qed.
#[global] Hint Resolve modVoice_keepsCurrent : pres.

Lemma Voice_addBeat_keepsCurrent c v b : pres (keepsCurrent c) (Voice_addBeat v b).
Proof. unfold Voice_addBeat. pres_auto. Qed.

Lemma Beat_addNote_keepsCurrent c b n : pres (keepsCurrent c) (Beat_addNote b n).
Proof. unfold Beat_addNote. pres_auto. Qed.
#[global] Hint Resolve Voice_addBeat_keepsCurrent Beat_addNote_keepsCurrent : pres.

Lemma cloneNote_keepsCurrent c clone original :
  pres (keepsCurrent c) (cloneNote clone original).
Proof. unfold cloneNote. pres_auto. Qed.
#[global] Hint Resolve cloneNote_keepsCurrent : pres.

Lemma BeatCloner_clone_keepsCurrent c original :
  pres (keepsCurrent c) (BeatCloner_clone original).
Proof.
  unfold BeatCloner_clone. intros s a s' H HI.
  apply bind_Ok in H as (b & s1 & H1 & H). apply getBeat_pres with (R := eq) in H1;
    [subst s1|typeclasses eauto].
  rewrite bind_gets_run, bind_modify_run in H.
  revert H. 
  match goal with |- ?m ?s0 = _ -> _ => assert (Hp : pres (keepsCurrent c) m) by pres_auto;
    intros H; apply (Hp _ _ _ H) end.
  destruct HI as (b0 & Hb0 & Hd & Hy). exists b0. cbn.
  rewrite lookup_app_l by (eapply lookup_lt_Some; exact Hb0). auto.
Qed.
#[global] Hint Resolve BeatCloner_clone_keepsCurrent : pres.

Lemma repeatBeat_keepsCurrent c v b n : pres (keepsCurrent c) (repeatBeat v b n).
Proof. unfold repeatBeat. pres_auto. Qed.
#[global] Hint Resolve repeatBeat_keepsCurrent : pres.

Lemma dy_keepsCurrent {A} c (g : Beat.t -> DynamicValue.t) (k : M A) :
  pres (keepsCurrent c) k ->
  pres (keepsCurrent c)
    (modBeat c (fun b => Beat.set_dynamics (g b) b) ;;
     b <- getBeat c ;;
     modify (set__currentDynamics (Beat.dynamics b)) ;;
     k).
Proof.
  intros Hk s a s' H (b & Hb & Hd & Hy).
  apply bind_Ok in H as (u & s1 & H1 & H). apply modBeat_Ok in H1. subst s1.
  apply bind_Ok in H as (b1 & s2 & H2 & H).
  unfold getBeat in H2. rewrite bind_gets_run in H2.
  cbn in H2. rewrite list_lookup_alter_eq, Hb in H2.
  injection H2 as <- <-. rewrite bind_modify_run in H.
  apply (Hk _ _ _ H). exists (Beat.set_dynamics (g b) b). cbn.
  rewrite list_lookup_alter_eq, Hb. auto.
Qed.

Ltac current_step :=
  lazymatch goal with
  | |- pres (keepsCurrent ?c) (bind (modBeat ?c (fun b => Beat.set_dynamics _ b)) _) =>
      apply dy_keepsCurrent
  | |- _ => pres_step
  end.

Section Current.
Context (ext : Externals).

Lemma readPoints_keepsCurrent c exact nonterm add :
  (forall p, pres (keepsCurrent c) (add p)) ->
  pres (keepsCurrent c) (readPoints ext exact nonterm add).
Proof. intros Hadd. pres_unfold readPoints. Qed.

Lemma whammyEffect_keepsCurrent c exact beat :
  pres (keepsCurrent c) (whammyEffect ext exact beat).
Proof.
  pres_unfold whammyEffect. apply readPoints_keepsCurrent. intros p. pres_leaf.
Qed.
Hint Resolve whammyEffect_keepsCurrent : pres.

Lemma readTempoAutomation_keepsCurrent c : pres (keepsCurrent c) (readTempoAutomation ext).
Proof. pres_unfold readTempoAutomation. Qed.
Hint Resolve readTempoAutomation_keepsCurrent : pres.

Lemma applyBeatEffect_keepsCurrent c : pres (keepsCurrent c) (applyBeatEffect ext c).
Proof. unfold applyBeatEffect. cbv zeta. repeat current_step. Qed.
Hint Resolve applyBeatEffect_keepsCurrent : pres.

Lemma beatEffects_keepsCurrent c : pres (keepsCurrent c) (beatEffects ext c).
Proof. pres_unfold beatEffects. Qed.
Hint Resolve beatEffects_keepsCurrent : pres.

Lemma beatFinish_current voice c s u s' :
  beatFinish ext voice c s = Ok u s' -> carriesCurrent c s'.
Proof.
  unfold beatFinish. intros H. rewrite bind_gets_run in H.
  apply bind_Ok in H as (u0 & s1 & _ & H). rewrite !bind_gets_run in H.
  apply bind_Ok in H as (u1 & s2 & H1 & H).
  assert (HI : carriesCurrent c s2).
  { pose proof H1 as H1'. apply modBeat_Ok in H1. subst s2.
    unfold modBeat, getBeat in H1'. rewrite bind_assoc, bind_gets_run in H1'.
    destruct (beatStore s1 !! c) as [b|] eqn:Eb; [|discriminate].
    exists (Beat.set_dynamics (_currentDynamics s1) (Beat.set_duration (_currentDuration s1) b)).
    cbn.
    rewrite list_lookup_alter_eq, Eb. auto. }
  revert H.
  match goal with
  | |- ?m s2 = _ -> _ => assert (Hp : pres (keepsCurrent c) m) by pres_auto
  end.
  intros H. exact (Hp _ _ _ H HI).
Qed.
End Current.



(** ** The payload of a terminal *)

Lemma digit_code ch : 48 <= ch <= 57 -> isDecDigit (fromCharCode ch) = true.
Proof.
  intros H.
  assert (E : exists k : nat, (k < 10)%nat /\ ch = 48 + Z.of_nat k)
    by (exists (Z.to_nat (ch - 48)); lia).
  destruct E as (k & Hk & ->). do 10 (destruct k as [|k]; [reflexivity|]). lia.
Qed.

Lemma digitsOnly_append a b :
  digitsOnly (String.append a b) = digitsOnly a && digitsOnly b.
Proof.
  induction a as [|c r IH]; [reflexivity|].
  change (digitsOnly (String c (String.append r b))
          = isDecDigit c && digitsOnly r && digitsOnly b).
  cbn [digitsOnly]. rewrite IH. apply andb_assoc.
Qed.

Lemma digitsPrefix_digitsOnly str :
  digitsOnly str = true ->
  exists ds, digitsPrefix str = (ds, EmptyString)
    /\ Forall (fun d => 0 <= d) ds /\ length ds = String.length str.
Proof.
  induction str as [|c r IH]; intros H.
  - exists []. repeat split. constructor.
  - cbn [digitsOnly] in H. apply andb_prop in H as [Hc Hr].
    destruct (IH Hr) as (ds & E & Hds & Hl). exists (charCode c - 48 :: ds).
    cbn [digitsPrefix]. rewrite Hc, E. repeat split.
    + constructor; [|exact Hds]. unfold isDecDigit in Hc. lia.
    + cbn. congruence.
Qed.

Lemma digitsValue_nonneg ds acc :
  Forall (fun d => 0 <= d) ds -> 0 <= acc ->
  0 <= fold_left (fun acc d => 10 * acc + d) ds acc.
Proof.
  intros H. revert acc. induction H as [|d ds Hd _ IH]; intros acc Hacc; [exact Hacc|].
  cbn [fold_left]. apply IH. lia.
Qed.

Lemma splitSign_digit c r :
  isDecDigit c = true -> splitSign (String c r) = (false, String c r).
Proof.
  intros H. destruct c as [[] [] [] [] [] [] [] []];
    first [reflexivity | vm_compute in H; discriminate H].
Qed.

Lemma parseInt_digits str :
  digitsOnly str = true -> str <> EmptyString -> isNatural (parseInt str).
Proof.
  intros H Hne. destruct str as [|c r]; [contradiction|].
  pose proof H as H'. cbn [digitsOnly] in H'. apply andb_prop in H' as [Hc _].
  unfold parseInt. rewrite (splitSign_digit _ _ Hc).
  destruct (digitsPrefix_digitsOnly _ H) as (ds & -> & Hds & Hl).
  destruct ds as [|d ds]; [discriminate Hl|].
  exists (digitsValue (d :: ds)). split; [reflexivity|].
  apply digitsValue_nonneg; [exact Hds|lia].
Qed.

Lemma isDigit_plain s ch :
  plainNumbers s -> isDigit s ch = true -> 48 <= ch <= 57.
Proof.
  intros [Hn Hf]. unfold isDigit. rewrite Hn, Hf. cbn. lia.
Qed.

Lemma lexOnly_plain s s' : lexOnly s s' -> plainNumbers s -> plainNumbers s'.
Proof.
  unfold lexOnly, beyondLexer, plainNumbers. intros H [Hn Hf]. split; congruence.
Qed.

Lemma appendChar_not_empty str ch : appendChar str ch <> EmptyString.
Proof. unfold appendChar. destruct str; discriminate. Qed.

Lemma numberLoop_digits fuel acc s str s' :
  plainNumbers s -> isDigit s (_ch s) = true -> digitsOnly acc = true ->
  loopM fuel
    (fun a => a' <- (ch <- gets _ch ;; nextChar ;; ret (appendChar a ch)) ;;
              c <- gets (fun s => isDigit s (_ch s)) ;; ret (c, a'))
    acc s = Ok str s' ->
  digitsOnly str = true /\ str <> EmptyString.
Proof.
  revert acc s. induction fuel as [|fuel IH]; intros acc s Hp Hd Ha H; [discriminate|].
  rewrite loopM_S in H. rewrite !bind_assoc, bind_gets_run, bind_assoc in H.
  apply bind_Ok in H as (c & s1 & H1 & H). rewrite bind_ret_run, bind_assoc, bind_gets_run, bind_ret_run in H.
  cbn [fst snd] in H.
  assert (Ha' : digitsOnly (appendChar acc (_ch s)) = true).
  { unfold appendChar. rewrite digitsOnly_append, Ha. cbn [digitsOnly andb].
    rewrite digit_code by (eapply isDigit_plain; eassumption). reflexivity. }
  destruct (isDigit s1 (_ch s1)) eqn:E.
  - apply (IH (appendChar acc (_ch s)) s1); try assumption.
    eapply lexOnly_plain; [|exact Hp]. exact (nextChar_lexOnly _ _ _ H1).
  - injection H as <- <-. split; [exact Ha'|apply appendChar_not_empty].
Qed.

Lemma readNumber_natural s n s' :
  plainNumbers s -> isDigit s (_ch s) = true -> readNumber s = Ok n s' -> isNatural n.
Proof.
  intros Hp Hd H. unfold readNumber in H.
  apply bind_Ok in H as (str & s1 & H1 & H). rewrite bind_gets_run in H.
  injection H as <- <-.
  assert (Hp1 : plainNumbers s1).
  { eapply lexOnly_plain; [|exact Hp]. revert H1. apply pres_doWhile; [typeclasses eauto|].
    intros a. pres_auto. }
  destruct Hp1 as [_ ->]. unfold doWhile in H1.
  apply numberLoop_digits in H1 as [Hs Hne]; try assumption; [|reflexivity].
  apply parseInt_digits; assumption.
Qed.

(** The pieces of the lexer that leave the terminal alone. *)
#[global] Hint Extern 1 (pres sameToken (modify _)) =>
  apply pres_modify; intros; split; reflexivity : pres.

Lemma nextChar_sameToken : pres sameToken nextChar.
Proof.
  intros s a s' H. unfold nextChar in H.
  destruct (String.get (_curChPos s) (_input s)).
  - injection H as _ <-. destruct (_ =? _); split; reflexivity.
  - injection H as _ <-. split; reflexivity.
Qed.
#[global] Hint Resolve nextChar_sameToken : pres.

Lemma saveValidSpot_sameToken : pres sameToken saveValidSpot.
Proof. unfold saveValidSpot. pres_auto. Qed.

Lemma readName_sameToken : pres sameToken readName.
Proof. unfold readName. pres_auto. Qed.

Lemma readNumber_sameToken : pres sameToken readNumber.
Proof. unfold readNumber. pres_auto. Qed.

Lemma lineComment_sameToken : pres sameToken lineComment.
Proof. unfold lineComment. pres_auto. Qed.

Lemma blockComment_sameToken : pres sameToken blockComment.
Proof. unfold blockComment. pres_auto. Qed.
#[global] Hint Resolve saveValidSpot_sameToken readName_sameToken readNumber_sameToken
  lineComment_sameToken blockComment_sameToken : pres.

Ltac by_pres H :=
  lazymatch type of H with
  | ?m ?s = Ok ?a ?s' =>
      let Hp := fresh "Hp" in
      assert (Hp : pres sameToken m) by pres_auto; exact (Hp _ _ _ H)
  end.

Lemma single_payload sy s s' :
  single sy s = Ok tt s' -> _sy s' = sy /\ _syData s' = _syData s.
Proof.
  unfold single, setSy. rewrite bind_modify_run. intros H.
  apply bind_Ok in H as (c & s1 & H1 & H). injection H as <-.
  apply nextChar_sameToken in H1 as [-> ->]. split; reflexivity.
Qed.

Lemma number_payload s s' :
  (setSy SyNumber ;; n <- readNumber ;; setSyData (DNum n)) s = Ok tt s' ->
  _sy s' = SyNumber
  /\ exists n, _syData s' = DNum n
       /\ (plainNumbers s -> isDigit s (_ch s) = true -> isNatural n).
Proof.
  unfold setSy, setSyData. rewrite bind_modify_run. intros H.
  apply bind_Ok in H as (n & s1 & H1 & H). injection H as <-.
  pose proof (readNumber_sameToken _ _ _ H1) as [E _]. split; [exact E|].
  exists n. split; [reflexivity|]. intros Hp Hd.
  exact (readNumber_natural (set__sy SyNumber s) _ _ Hp Hd H1).
Qed.

Lemma name_payload s s' :
  (setSy SyString ;; str <- readName ;; setSyData (DStr str)) s = Ok tt s' ->
  _sy s' = SyString /\ exists str, _syData s' = DStr str.
Proof.
  unfold setSy, setSyData. rewrite bind_modify_run. intros H.
  apply bind_Ok in H as (n & s1 & H1 & H). injection H as <-.
  pose proof (readName_sameToken _ _ _ H1) as [E _]. split; [exact E|].
  exists n. reflexivity.
Qed.

Lemma meta_payload s s' :
  (nextChar ;; setSy SyMetaCommand ;; str <- readName ;; setSyData (DStr str)) s
  = Ok tt s' ->
  _sy s' = SyMetaCommand /\ exists str, _syData s' = DStr str.
Proof.
  unfold setSy, setSyData. intros H.
  apply bind_Ok in H as (c & s0 & _ & H). rewrite bind_modify_run in H.
  apply bind_Ok in H as (n & s1 & H1 & H). injection H as <-.
  pose proof (readName_sameToken _ _ _ H1) as [E _]. split; [exact E|].
  exists n. reflexivity.
Qed.

Lemma quoted_payload c s s' :
  quoted c s = Ok tt s' -> _sy s' = SyString /\ exists str, _syData s' = DStr str.
Proof.
  unfold quoted, setSy, setSyData. intros H.
  apply bind_Ok in H as (c0 & s0 & _ & H). rewrite bind_modify_run in H.
  apply bind_Ok in H as (str & s1 & H1 & H). rewrite bind_gets_run in H.
  apply bind_Ok in H as (u & s2 & H2 & H). rewrite bind_modify_run in H.
  apply bind_Ok in H as (c1 & s3 & H3 & H). injection H as <-.
  assert (E1 : sameToken (set__sy SyString s0) s1).
  { by_pres H1. }
  assert (E2 : sameToken s1 s2).
  { by_pres H2. }
  apply nextChar_sameToken in H3 as [-> ->].
  destruct E1 as [E1 _], E2 as [E2 _]. cbn in *. split; [congruence|].
  exists str. reflexivity.
Qed.

Section Payload.
Context (ext : Externals).

Lemma ident_payload s s' :
  (name <- readName ;;
   allowTuning <- gets _allowTuning ;;
   match (if allowTuning then parseTuning ext name else None) with
   | Some tuning => setSy SyTuning ;; setSyData (DTuning tuning)
   | None => setSy SyString ;; setSyData (DStr name)
   end) s = Ok tt s' ->
  (_sy s' = SyString /\ exists str, _syData s' = DStr str)
  \/ (_sy s' = SyTuning /\ exists t, _syData s' = DTuning t).
Proof.
  unfold setSy, setSyData. intros H.
  apply bind_Ok in H as (name & s1 & _ & H). rewrite bind_gets_run in H.
  destruct (if _allowTuning s1 then parseTuning ext name else None) as [t|];
    rewrite bind_modify_run in H; injection H as <-.
  - right. split; [reflexivity|]. exists t. reflexivity.
  - left. split; [reflexivity|]. exists name. reflexivity.
Qed.

Lemma fits_plain s0 s sy :
  _sy s = sy -> _syData s = _syData s0 ->
  match sy with
  | SyNumber | SyString | SyMetaCommand | SyTuning => False
  | _ => True
  end ->
  payloadFits s0 s.
Proof. intros <- E H. unfold payloadFits. destruct (_sy s); first [exact E|contradiction]. Qed.

Lemma fits_text s0 s :
  (_sy s = SyString \/ _sy s = SyMetaCommand) -> (exists str, _syData s = DStr str) ->
  payloadFits s0 s.
Proof. intros [E|E] H; unfold payloadFits; rewrite E; exact H. Qed.

Lemma newSyStep_payload s0 s s' :
  beyondLexer s = beyondLexer s0 -> _sy s = SyNo -> _syData s = _syData s0 ->
  newSyStep ext s = Ok tt s' -> payloadFits s0 s'.
Proof.
  intros Hl Hsy Hd H. unfold newSyStep in H. rewrite bind_gets_run in H.
  assert (Hplain : plainNumbers s0 -> plainNumbers s).
  { apply lexOnly_plain. unfold lexOnly. congruence. }
  repeat match type of H with
  | (if ?c then _ else _) _ = _ => destruct c eqn:?
  end.
  all: try (apply single_payload in H as [E1 E2];
            apply (fits_plain _ _ _ E1); [congruence|exact I]).
  - unfold setSy, modify in H. injection H as <-.
    apply (fits_plain _ _ SyEof); [reflexivity|exact Hd|exact I].
  - assert (E : sameToken s s') by (by_pres H). destruct E as [E1 E2].
    apply (fits_plain _ _ SyNo); [congruence|congruence|exact I].
  - assert (E : sameToken s s') by (by_pres H). destruct E as [E1 E2].
    apply (fits_plain _ _ SyNo); [congruence|congruence|exact I].
  - apply quoted_payload in H as [E1 E2]. apply fits_text; auto.
  - rewrite bind_gets_run in H. destruct (_allowNegatives s) eqn:En.
    + apply number_payload in H as (E1 & n & E2 & _).
      unfold payloadFits. rewrite E1. exists n. split; [exact E2|].
      intros Hp. apply Hplain in Hp. destruct Hp as [Hp _]. congruence.
    + apply name_payload in H as [E1 E2]. apply fits_text; auto.
  - apply meta_payload in H as [E1 E2]. apply fits_text; auto.
  - rewrite bind_gets_run in H. destruct (isDigit s (_ch s)) eqn:Ed.
    + apply number_payload in H as (E1 & n & E2 & Hn).
      unfold payloadFits. rewrite E1. exists n. split; [exact E2|].
      intros Hp. apply Hn; [apply Hplain, Hp|exact Ed].
    + destruct (isNameLetter (_ch s));
        [|unfold error in H; destruct (_lastValidSpot s) as [[? ?] ?]; discriminate].
      apply ident_payload in H as [[E1 E2]|[E1 E2]].
      * apply fits_text; auto.
      * unfold payloadFits. rewrite E1. exact E2.
Qed.

Lemma newSyLoop_payload fuel s0 s s' :
  beyondLexer s = beyondLexer s0 ->
  (_sy s = SyNo -> _syData s = _syData s0) ->
  (_sy s <> SyNo -> payloadFits s0 s) ->
  loopM fuel
    (fun _ => c <- gets (fun s => syIs (_sy s) SyNo) ;;
              if c then newSyStep ext ;; ret (true, tt) else ret (false, tt))
    tt s = Ok tt s' ->
  payloadFits s0 s'.
Proof.
  revert s. induction fuel as [|fuel IH]; intros s Hl Hd Hf H; [discriminate|].
  rewrite loopM_S, bind_assoc, bind_gets_run in H.
  destruct (syIs (_sy s) SyNo) eqn:E.
  - unfold syIs in E. apply bool_decide_eq_true_1 in E.
    rewrite bind_assoc in H. apply bind_Ok in H as ([] & s1 & H1 & H).
    rewrite bind_ret_run in H. cbn [fst snd] in H.
    pose proof (newSyStep_payload s0 _ _ Hl E (Hd E) H1) as Hp.
    apply (IH s1); [| |intros _; exact Hp|exact H].
    + pose proof (newSyStep_lexOnly ext _ _ _ H1) as Hx. unfold lexOnly in Hx. congruence.
    + intros E1. unfold payloadFits in Hp. rewrite E1 in Hp. exact Hp.
  - rewrite bind_ret_run in H. cbn [fst snd] in H. injection H as <-.
    apply Hf. unfold syIs in E. intros E'. rewrite E' in E.
    rewrite bool_decide_eq_true_2 in E by reflexivity. discriminate.
Qed.
End Payload.

Lemma newSy_fits (ext : Externals) (s s' : Importer) (sy : AlphaTexSymbols) :
  newSy ext s = Ok sy s' -> payloadFits s s'.
Proof.
  intros H. unfold newSy, saveValidSpot, setSy in H. rewrite !bind_modify_run in H.
  apply bind_Ok in H as ([] & s1 & H1 & H2). injection H2 as <- <-.
  unfold while in H1. set (s0 := set__sy SyNo _) in H1.
  assert (Hfit : payloadFits s0 s1).
  { revert H1. apply newSyLoop_payload.
    - reflexivity.
    - reflexivity.
    - intros Hn. exfalso. apply Hn. reflexivity. }
  exact Hfit.
Qed.

Lemma newSy_number (ext : Externals) (s s' : Importer) :
  plainNumbers s -> newSy ext s = Ok SyNumber s' ->
  exists z, _syData s' = DNum (JInt z) /\ 0 <= z.
Proof.
  intros Hp H. pose proof (newSy_fits _ _ _ _ H) as Hf.
  apply newSy_Ok in H as (E & _). unfold payloadFits in Hf. rewrite E in Hf.
  destruct Hf as (n & Hn & Hnat). destruct (Hnat Hp) as (z & -> & Hz).
  exists z. split; assumption.
Qed.



(** ** The string of a note *)

#[global] Instance keepsString_preorder n : PreOrder (keepsString n).
Proof.
  split.
  - intros s x H. eauto.
  - intros s1 s2 s3 H1 H2 x Hx.
    destruct (H1 _ Hx) as (x1 & Hx1 & E1). destruct (H2 _ Hx1) as (x2 & Hx2 & E2).
    exists x2. split; [exact Hx2|congruence].
Qed.

Lemma sameNotes_keepsString n s s' : noteStore s' = noteStore s -> keepsString n s s'.
Proof. intros E x Hx. exists x. rewrite E. auto. Qed.

Lemma pres_lexOnly_keepsString {A} n (m : M A) :
  pres lexOnly m -> pres (keepsString n) m.
Proof.
  apply pres_weaken. intros s s' H. apply sameNotes_keepsString.
  unfold lexOnly, beyondLexer in H. congruence.
Qed.

Lemma pres_doc_keepsString {A} n (m : M A) :
  pres sameDocument m -> pres (keepsString n) m.
Proof.
  apply pres_weaken. intros s s' H. apply sameNotes_keepsString.
  unfold sameDocument, document in H. congruence.
Qed.

Lemma pres_beatFrame_keepsString {A} n (m : M A) :
  pres beatFrame m -> pres (keepsString n) m.
Proof.
  apply pres_weaken. intros s s' (_ & _ & _ & H). apply sameNotes_keepsString. exact H.
Qed.

#[global] Hint Resolve pres_lexOnly_keepsString pres_doc_keepsString
  pres_beatFrame_keepsString : pres.

Lemma modNote_keepsString n r f :
  (forall x, Note.string (f x) = Note.string x) -> pres (keepsString n) (modNote r f).
Proof.
  intros Hf s u s' H x Hx. apply modNote_Ok in H. subst s'. cbn.
  destruct (decide (r = n)) as [->|Hne].
  - exists (f x). rewrite list_lookup_alter_eq, Hx. split; [reflexivity|apply Hf].
  - exists x. rewrite list_lookup_alter_ne by exact Hne. auto.
Qed.

#[global] Hint Extern 2 (pres (keepsString _) (modNote _ _)) =>
  apply modNote_keepsString; intros; reflexivity : pres.

Lemma modBeat_keepsString n r f : pres (keepsString n) (modBeat r f).
Proof.
  intros s u s' H. apply modBeat_Ok in H. subst s'. apply sameNotes_keepsString.
  reflexivity.
Qed.
#[global] Hint Resolve modBeat_keepsString : pres.

Lemma Beat_addNote_keepsString n b r : pres (keepsString n) (Beat_addNote b r).
Proof. unfold Beat_addNote. pres_auto. Qed.

Section Strings.
Context (ext : Externals).

Lemma readPoints_keepsString n exact nonterm add :
  (forall p, pres (keepsString n) (add p)) ->
  pres (keepsString n) (readPoints ext exact nonterm add).
Proof. intros Hadd. pres_unfold readPoints. Qed.

Lemma bendEffect_keepsString n exact note :
  pres (keepsString n) (bendEffect ext exact note).
Proof.
  pres_unfold bendEffect. apply readPoints_keepsString. intros p. pres_leaf.
Qed.

Lemma fingerEffect_keepsString n set note :
  (forall f x, Note.string (set f x) = Note.string x) ->
  pres (keepsString n) (fingerEffect ext set note).
Proof.
  intros Hset. pres_unfold fingerEffect. apply modNote_keepsString. apply Hset.
Qed.
Hint Resolve bendEffect_keepsString : pres.

Lemma noteEffect_keepsString n note : pres (keepsString n) (noteEffect ext note).
Proof.
  pres_unfold noteEffect.
  - apply Note_stringTuning_pres. typeclasses eauto.
  - apply fingerEffect_keepsString. reflexivity.
  - apply fingerEffect_keepsString. reflexivity.
Qed.
Hint Resolve noteEffect_keepsString : pres.

Lemma noteEffects_keepsString n note : pres (keepsString n) (noteEffects ext note).
Proof. pres_unfold noteEffects. Qed.

Lemma noteHead_lexOnly st : pres lexOnly (noteHead ext st).
Proof. pres_unfold noteHead. Qed.

Lemma noteHead_fretted st s h s' :
  Staff.isPercussion st = false ->
  (_sy s = SyNumber \/ _sy s = SyString) ->
  noteHead ext st s = Ok (Some h) s' -> nh_octave h = -1.
Proof.
  intros Hperc Hsy H. unfold noteHead in H. rewrite bind_gets_run, Hperc in H.
  destruct Hsy as [E|E]; rewrite E in H.
  - apply bind_Ok in H as (fret & s1 & _ & H). cbn [andb when] in H.
    rewrite bind_ret_run in H. injection H as <- _. reflexivity.
  - apply bind_Ok in H as (str & s1 & _ & H). cbv zeta in H.
    destruct (strEq str "-" || strEq str "x").
    + injection H as <- _. reflexivity.
    + unfold error in H. destruct (_lastValidSpot s1) as [[? ?] ?]. discriminate.
Qed.

Lemma num_ltb_int a b : num_ltb (JInt a) (JInt b) = (a <? b).
Proof.
  unfold num_ltb, num_cmp, JInt, align. cbn. rewrite !Z.mul_1_r.
  unfold Z.ltb. destruct (a ?= b); reflexivity.
Qed.

Lemma noteString_bounds s0 st s z s' :
  plainNumbers s0 -> beyondLexer s = beyondLexer s0 ->
  (sy <- gets _sy ;;
   when (negb (syIs sy SyDot)) (error "note" SyDot true) ;;
   sy <- newSy ext ;;
   when (negb (syIs sy SyNumber)) (error "note-string" SyNumber true) ;;
   noteString <- syNumber ;;
   when (num_ltb noteString (JInt 1)
         || num_gtb noteString (JInt (Z.of_nat (length (Staff.tunings st)))))
     (error "note-string" SyNumber false) ;;
   newSy ext ;;
   ret noteString) s = Ok z s' ->
  beyondLexer s' = beyondLexer s0
  /\ exists k, z = JInt k /\ 1 <= k <= Z.of_nat (length (Staff.tunings st)).
Proof.
  intros Hp Hl H.
  assert (Hl' : lexOnly s s') by (pres_in H lexOnly; exact H).
  split; [unfold lexOnly in Hl'; congruence|].
  rewrite bind_gets_run in H. apply bind_Ok in H as (u & s1 & H1 & H).
  assert (Hl1 : lexOnly s s1) by (pres_in H1 lexOnly; exact H1).
  apply bind_Ok in H as (sy & s2 & H2 & H).
  assert (Hp1 : plainNumbers s1).
  { eapply lexOnly_plain; [exact Hl1|]. eapply lexOnly_plain; [|exact Hp].
    unfold lexOnly. exact Hl. }
  destruct (syIs sy SyNumber) eqn:Esy.
  2:{ cbn [negb when] in H. unfold error in H at 1.
      unfold bind in H. destruct (_lastValidSpot s2) as [[? ?] ?]. discriminate. }
  unfold syIs in Esy. apply bool_decide_eq_true_1 in Esy. subst sy.
  destruct (newSy_number ext _ _ Hp1 H2) as (k & Hk & Hk0).
  cbn [negb when] in H. rewrite bind_ret_run in H.
  rewrite (bind_run _ _ _ _ _ (syNumber_run _ _ Hk)) in H.
  rewrite num_ltb_int in H. unfold num_gtb in H. rewrite num_ltb_int in H.
  destruct ((k <? 1) || (Z.of_nat (length (Staff.tunings st)) <? k)) eqn:Eb.
  { cbn [when] in H. unfold error in H at 1.
    unfold bind in H. destruct (_lastValidSpot s2) as [[? ?] ?]. discriminate. }
  cbn [when] in H. rewrite bind_ret_run in H.
  apply bind_Ok in H as (sy' & s3 & _ & H). injection H as <- _.
  exists k. split; [reflexivity|]. apply orb_false_elim in Eb as [E1 E2]. lia.
Qed.
End Strings.

(** On a staff with strings that is not a percussion staff, a note that
    starts with a fret number, [x] or [-] is given the string that its
    string number stands for: a whole number from 1 to the number of
    strings of the staff.  The note effects that follow do not change the
    string. *)
Theorem note_gets_a_string_of_the_staff
    (ext : Externals) (beat : BeatRef) (s s' : Importer) (st : Staff.t) :
  plainNumbers s ->
  staffIn (_score s) (_currentStaff s) = Some st ->
  Staff.isPercussion st = false ->
  Staff.tunings st <> [] ->
  _sy s = SyNumber \/ _sy s = SyString ->
  note ext beat s = Ok true s' ->
  exists x k,
    noteStore s' !! length (noteStore s) = Some x
    /\ Note.string x = JInt k
    /\ 1 <= k <= Z.of_nat (length (Staff.tunings st)).
Proof.
  intros Hp Hst Hperc Htun Hsy H. unfold note in H.
  rewrite bind_gets_run, (bind_run _ _ _ _ _ (getStaff_run _ _ _ Hst)) in H.
  apply bind_Ok in H as (head & s1 & H1 & H).
  pose proof (noteHead_lexOnly ext _ _ _ _ H1) as Hl1.
  destruct head as [h|]; [|discriminate].
  apply (noteHead_fretted ext _ _ _ _ Hperc Hsy) in H1.
  apply bind_Ok in H as (sy & s2 & H2 & H). apply newSy_lexOnly in H2.
  cbv zeta in H. rewrite H1, Hperc in H.
  assert (Hlen : Nat.ltb 0 (length (Staff.tunings st)) = true).
  { apply Nat.ltb_lt. destruct (Staff.tunings st); [contradiction|cbn; lia]. }
  rewrite Hlen in H. cbn [Z.eqb Pos.eqb andb negb] in H.
  apply bind_Ok in H as (z & s3 & H3 & H).
  assert (Hl2 : beyondLexer s2 = beyondLexer s).
  { unfold lexOnly in *. congruence. }
  apply (noteString_bounds ext s _ _ _ _ Hp Hl2) in H3 as (Hl3 & k & -> & Hk).
  assert (En : noteStore s3 = noteStore s).
  { unfold beyondLexer in Hl3. congruence. }
  rewrite (bind_run _ _ _ _ _ (newNote_run s3)) in H.
  apply bind_Ok in H as (u & s4 & H4 & H).
  apply modNote_Ok in H4. subst s4.
  apply bind_Ok in H as (u1 & s5 & H5 & H).
  apply bind_Ok in H as (u2 & s6 & H6 & H). injection H as <-.
  apply (Beat_addNote_keepsString (length (noteStore s))) in H5.
  apply (noteEffects_keepsString ext (length (noteStore s))) in H6.
  edestruct H5 as (x5 & Hx5 & E5).
  { cbn. rewrite En, list_lookup_alter_eq.
    rewrite lookup_app_r by lia. rewrite Nat.sub_diag. reflexivity. }
  destruct (H6 _ Hx5) as (x6 & Hx6 & E6).
  exists x6, (Z.of_nat (length (Staff.tunings st)) - (k - 1)).
  split; [exact Hx6|]. split; [|lia].
  rewrite E6, E5. change (10 ^ Z.of_nat 0) with 1.
  destruct (nh_isTie h); cbn; unfold JInt; f_equal; lia.
Qed.

Lemma note_gets_a_string_witness :
  exists x k,
    noteStore (stateAfter (note sampleExternals 0) (beforeNote "3.2{v} r"))
      !! length (noteStore (beforeNote "3.2{v} r")) = Some x
    /\ Note.string x = JInt k
    /\ 1 <= k <= Z.of_nat (length (Staff.tunings (currentStaffOf (beforeNote "3.2{v} r")))).
Proof.
  assert (H : note sampleExternals 0 (beforeNote "3.2{v} r")
              = Ok true (stateAfter (note sampleExternals 0) (beforeNote "3.2{v} r")))
    by (vm_compute; reflexivity).
  apply (note_gets_a_string_of_the_staff sampleExternals 0 _ _
           (currentStaffOf (beforeNote "3.2{v} r"))).
  - split; reflexivity.
  - vm_compute. reflexivity.
  - vm_compute. reflexivity.
  - vm_compute. discriminate.
  - left. vm_compute. reflexivity.
  - exact H.
Defined.

(** ** The signature of a master bar *)

#[global] Instance keepsSignatures_preorder : PreOrder keepsSignatures.
Proof.
  split.
  - intros s. unfold keepsSignatures. reflexivity.
  - intros s1 s2 s3 H1 H2. unfold keepsSignatures in *. congruence.
Qed.

Lemma sameScore_keepsSignatures s s' : _score s' = _score s -> keepsSignatures s s'.
Proof. intros E. unfold keepsSignatures, signatures. rewrite E. reflexivity. Qed.

Lemma pres_lexOnly_keepsSignatures {A} (m : M A) :
  pres lexOnly m -> pres keepsSignatures m.
Proof.
  apply pres_weaken. intros s s' H. apply sameScore_keepsSignatures.
  unfold lexOnly, beyondLexer in H. congruence.
Qed.

Lemma pres_doc_keepsSignatures {A} (m : M A) :
  pres sameDocument m -> pres keepsSignatures m.
Proof.
  apply pres_weaken. intros s s' H. apply sameScore_keepsSignatures.
  unfold sameDocument, document in H. congruence.
Qed.

#[global] Hint Resolve pres_lexOnly_keepsSignatures pres_doc_keepsSignatures : pres.

#[global] Hint Extern 1 (pres keepsSignatures (modify _)) =>
  apply pres_modify; intros; reflexivity : pres.

Lemma modMasterBar_keepsSignatures i f :
  (forall m, signatureOf (f m) = signatureOf m) ->
  pres keepsSignatures (modMasterBar i f).
Proof.
  intros Hf. unfold modMasterBar. pres_auto. apply pres_modify. intros s.
  unfold keepsSignatures, signatures. cbn [_score set__score].
  change (Score.masterBars (Score.set_masterBars ?l _)) with l.
  apply fmap_alter_same. intros m _. apply Hf.
Qed.

#[global] Hint Extern 2 (pres keepsSignatures (modMasterBar _ _)) =>
  apply modMasterBar_keepsSignatures; intros; reflexivity : pres.

Lemma modTrack_keepsSignatures i f : pres keepsSignatures (modTrack i f).
Proof. unfold modTrack. pres_auto. Qed.
#[global] Hint Resolve modTrack_keepsSignatures : pres.

Lemma modStaff_keepsSignatures r f : pres keepsSignatures (modStaff r f).
Proof. unfold modStaff. pres_auto. Qed.
#[global] Hint Resolve modStaff_keepsSignatures : pres.

Lemma modBar_keepsSignatures r f : pres keepsSignatures (modBar r f).
Proof. unfold modBar. pres_auto. Qed.
#[global] Hint Resolve modBar_keepsSignatures : pres.

Lemma modVoice_keepsSignatures r f : pres keepsSignatures (modVoice r f).
Proof. unfold modVoice. pres_auto. Qed.
#[global] Hint Resolve modVoice_keepsSignatures : pres.

Lemma modBeat_keepsSignatures r f : pres keepsSignatures (modBeat r f).
Proof. unfold modBeat. pres_auto. Qed.

Lemma modNote_keepsSignatures r f : pres keepsSignatures (modNote r f).
Proof. unfold modNote. pres_auto. Qed.

Lemma newBeat_keepsSignatures : pres keepsSignatures newBeat.
Proof. unfold newBeat. pres_auto. Qed.

Lemma newNote_keepsSignatures : pres keepsSignatures newNote.
Proof. unfold newNote. pres_auto. Qed.
#[global] Hint Resolve modBeat_keepsSignatures modNote_keepsSignatures
  newBeat_keepsSignatures newNote_keepsSignatures : pres.

Lemma Voice_addBeat_keepsSignatures v b : pres keepsSignatures (Voice_addBeat v b).
Proof. unfold Voice_addBeat. pres_auto. Qed.

Lemma Beat_addNote_keepsSignatures b n : pres keepsSignatures (Beat_addNote b n).
Proof. unfold Beat_addNote. pres_auto. Qed.

Lemma dropLastBeat_keepsSignatures v : pres keepsSignatures (dropLastBeat v).
Proof. unfold dropLastBeat. pres_auto. Qed.
#[global] Hint Resolve Voice_addBeat_keepsSignatures Beat_addNote_keepsSignatures
  dropLastBeat_keepsSignatures : pres.

Lemma cloneNote_keepsSignatures c o : pres keepsSignatures (cloneNote c o).
Proof. pres_unfold cloneNote. Qed.
#[global] Hint Resolve cloneNote_keepsSignatures : pres.

Lemma BeatCloner_clone_keepsSignatures o : pres keepsSignatures (BeatCloner_clone o).
Proof. pres_unfold BeatCloner_clone. Qed.
#[global] Hint Resolve BeatCloner_clone_keepsSignatures : pres.

Lemma repeatBeat_keepsSignatures v b n : pres keepsSignatures (repeatBeat v b n).
Proof. pres_unfold repeatBeat. Qed.

Lemma addEmptyBeat_keepsSignatures v : pres keepsSignatures (addEmptyBeat v).
Proof. pres_unfold addEmptyBeat. Qed.

Lemma detectTuning_keepsSignatures : pres keepsSignatures detectTuning.
Proof. pres_unfold detectTuning. Qed.
#[global] Hint Resolve repeatBeat_keepsSignatures addEmptyBeat_keepsSignatures
  detectTuning_keepsSignatures : pres.

Section Signatures.
Context (ext : Externals).

Lemma readPoints_keepsSignatures exact nonterm add :
  (forall p, pres keepsSignatures (add p)) ->
  pres keepsSignatures (readPoints ext exact nonterm add).
Proof. intros Hadd. pres_unfold readPoints. Qed.

Lemma whammyEffect_keepsSignatures exact beat :
  pres keepsSignatures (whammyEffect ext exact beat).
Proof.
  pres_unfold whammyEffect. apply readPoints_keepsSignatures. intros p. pres_leaf.
Qed.
Hint Resolve whammyEffect_keepsSignatures : pres.

Lemma applyBeatEffect_keepsSignatures beat :
  pres keepsSignatures (applyBeatEffect ext beat).
Proof. pres_unfold applyBeatEffect. Qed.
Hint Resolve applyBeatEffect_keepsSignatures : pres.

Lemma beatEffects_keepsSignatures beat : pres keepsSignatures (beatEffects ext beat).
Proof. pres_unfold beatEffects. Qed.

Lemma bendEffect_keepsSignatures exact note :
  pres keepsSignatures (bendEffect ext exact note).
Proof.
  pres_unfold bendEffect. apply readPoints_keepsSignatures. intros p. pres_leaf.
Qed.

Lemma fingerEffect_keepsSignatures set note :
  pres keepsSignatures (fingerEffect ext set note).
Proof. pres_unfold fingerEffect. Qed.
Hint Resolve beatEffects_keepsSignatures bendEffect_keepsSignatures
  fingerEffect_keepsSignatures : pres.

Lemma noteEffect_keepsSignatures note : pres keepsSignatures (noteEffect ext note).
Proof. pres_unfold noteEffect. apply Note_stringTuning_pres. typeclasses eauto. Qed.
Hint Resolve noteEffect_keepsSignatures : pres.

Lemma noteEffects_keepsSignatures note : pres keepsSignatures (noteEffects ext note).
Proof. pres_unfold noteEffects. Qed.
Hint Resolve noteEffects_keepsSignatures : pres.

Lemma note_keepsSignatures beat : pres keepsSignatures (note ext beat).
Proof. pres_unfold note. Qed.
Hint Resolve note_keepsSignatures : pres.

Lemma beatNotes_keepsSignatures v b : pres keepsSignatures (beatNotes ext v b).
Proof. pres_unfold beatNotes. Qed.

Lemma beatFinish_keepsSignatures v b : pres keepsSignatures (beatFinish ext v b).
Proof. pres_unfold beatFinish. Qed.
Hint Resolve beatNotes_keepsSignatures beatFinish_keepsSignatures : pres.

Lemma beat_keepsSignatures v : pres keepsSignatures (beat ext v).
Proof. pres_unfold beat. Qed.
Hint Resolve beat_keepsSignatures : pres.

Lemma trackStaffMeta_none s :
  _sy s <> SyMetaCommand -> trackStaffMeta ext s = Ok false s.
Proof.
  intros H. unfold trackStaffMeta. rewrite bind_gets_run.
  unfold syIs. rewrite bool_decide_eq_false_2 by exact H. reflexivity.
Qed.

Lemma barMeta_none bar s r s' :
  _sy s <> SyMetaCommand -> barMeta ext bar s = Ok r s' -> keepsSignatures s s'.
Proof.
  intros Hsy H. unfold barMeta in H. cbv zeta in H.
  assert (E : barMetaLoop ext bar s = Ok false s).
  { unfold barMetaLoop, whileAcc, fuelOf. cbv beta.
    rewrite loopM_S, bind_assoc, bind_gets_run.
    unfold syIs. rewrite bool_decide_eq_false_2 by exact Hsy. reflexivity. }
  rewrite (bind_run _ _ _ _ _ E) in H.
  pres_in H keepsSignatures. exact H.
Qed.
End Signatures.

#[global] Hint Resolve beat_keepsSignatures : pres.

(** A bar that starts without a meta command and gets a new master bar
    continues the bar before it: the new master bar has the key signature
    and its type, the time signature and the triplet feel of the last
    master bar, and the signatures of the master bars before are kept,
    whatever beats the bar has. *)
Theorem bar_without_meta_continues_the_signature
    (ext : Externals) (s s' : Importer) (r : bool) (st : Staff.t) (prev : MasterBar.t) :
  _sy s <> SyMetaCommand ->
  staffIn (_score s) (_currentStaff s) = Some st ->
  length (Staff.bars st) = length (Score.masterBars (_score s)) ->
  last (Score.masterBars (_score s)) = Some prev ->
  bar ext s = Ok r s' ->
  signatures s' = signatures s ++ [signatureOf prev].
Proof.
  intros Hsy Hst Hlen Hlast H. unfold bar in H.
  rewrite (bind_run _ _ _ _ _ (trackStaffMeta_none ext s Hsy)), bind_gets_run in H.
  apply bind_Ok in H as (b & s1 & H1 & H).
  pose proof (newBar_sameLexer _ _ _ _ H1) as [_ Esy].
  apply newBar_struct in H1 as (st0 & b0 & Hst0 & -> & Hst1 & _ & _ & _ & Em).
  rewrite Hst in Hst0. injection Hst0 as <-.
  apply bind_Ok in H as (st1 & s2 & H2 & H).
  pose proof (getStaff_Ok _ _ _ _ H2) as [-> _]. apply getStaff_staffIn in H2.
  rewrite Hst1 in H2. injection H2 as <-. rewrite bind_gets_run in H.
  cbn [Staff.bars Staff.set_bars] in H. rewrite length_app, Em, Hlen in H.
  cbn [length] in H.
  assert (Hlt : Nat.ltb (length (Score.masterBars (_score s)))
                  (length (Score.masterBars (_score s)) + 1) = true)
    by (apply Nat.ltb_lt; lia).
  rewrite Hlt in H. cbn [when] in H.
  apply bind_Ok in H as (u & s3 & H3 & H).
  assert (E3 : signatures s3 = signatures s ++ [signatureOf prev] /\ _sy s3 = _sy s).
  { apply bind_Ok in H3 as (i & s4 & H4 & H3).
    apply Score_addMasterBar_Ok in H4 as [-> ->].
    assert (Hn : (0 < length (Score.masterBars (_score s)))%nat).
    { destruct (Score.masterBars (_score s)); [discriminate Hlast|cbn; lia]. }
    unfold masterBarCount in H3. rewrite Em in H3.
    assert (Hlt0 : Nat.ltb 0 (length (Score.masterBars (_score s))) = true)
      by (apply Nat.ltb_lt; exact Hn).
    rewrite Hlt0 in H3. cbn [when] in H3.
    apply bind_Ok in H3 as (p & s5 & H5 & H3).
    apply getMasterBar_Ok in H5 as [-> H5]. cbn in H5. rewrite ?Em in H5.
    rewrite lookup_app_l in H5 by lia.
    rewrite last_lookup in Hlast.
    replace (Init.Nat.pred (length (Score.masterBars (_score s))))
      with (length (Score.masterBars (_score s)) - 1)%nat in Hlast by lia.
    rewrite Hlast in H5. injection H5 as <-.
    unfold modMasterBar in H3. apply bind_Ok in H3 as (m0 & s6 & H6 & H3).
    apply getMasterBar_Ok in H6 as [-> _]. injection H3 as _ <-.
    split; [|exact Esy].
    unfold signatures. cbn. rewrite ?Em.
    rewrite alter_app_r_alt by lia. rewrite Nat.sub_diag. cbn.
    rewrite fmap_app. reflexivity. }
  destruct E3 as [E3 Esy3].
  apply bind_Ok in H as (anyMeta & s4 & H4 & H).
  apply barMeta_none in H4; [|congruence].
  pres_in H keepsSignatures. unfold keepsSignatures in *. congruence.
Qed.

Lemma bar_without_meta_witness :
  signatures (stateAfter (bar sampleExternals) (resume "3.3 4.2" (parsed "\ts 3 4 \ks D r")))
  = signatures (resume "3.3 4.2" (parsed "\ts 3 4 \ks D r"))
    ++ [signatureOf
          (default MasterBar.new
             (last (Score.masterBars
                      (_score (resume "3.3 4.2" (parsed "\ts 3 4 \ks D r"))))))].
Proof.
  assert (H : bar sampleExternals (resume "3.3 4.2" (parsed "\ts 3 4 \ks D r"))
              = Ok true (stateAfter (bar sampleExternals)
                           (resume "3.3 4.2" (parsed "\ts 3 4 \ks D r"))))
    by (vm_compute; reflexivity).
  apply (bar_without_meta_continues_the_signature sampleExternals _ _ true
           (currentStaffOf (resume "3.3 4.2" (parsed "\ts 3 4 \ks D r")))).
  - vm_compute. discriminate.
  - vm_compute. reflexivity.
  - vm_compute. reflexivity.
  - vm_compute. reflexivity.
  - exact H.
Defined.
